(** * Knowledge-graph extraction: fact parser, response normaliser,
      dimension calculator and filter controller

    A shallow embedding of
      - [src/lib/graphrag/api.ts] (the part that is parse-retrieved-facts:
        [parseRetrievedFacts], [extractBlocks], [parseSourcesMap],
        [parseFactsBullets], [parseEntity], [makeNodeId], [escapeRegExp];
        and [brandIdToTenant]),
      - [src/lib/graphrag/parse-structured-response.ts]
        ([parseFactsPreviewGrouped], [parseStructuredGraphRAGResponse],
        [parseLegacyGraphRAGResponse], [hasKnowledgeGraphData],
        [hasDebugInfo]),
      - [src/components/knowledge-graph.tsx] ([calculateDimensions],
        [simulateForceLayout], [hashColor], [brandColorForColumn] and, of
        [KnowledgeGraphViewer], the two [useMemo] blocks,
        [citationsByNodeId] and [legendData]),
      - [src/lib/graphrag/service.ts] ([extractTerms], the url index of
        [fetchRelevantSubgraph], [formatNodeForPrompt], and the fact lines
        and the source list of [queryWithGraphRAG]),
      - [src/app/(chat)/api/graph/full/route.ts] (the tenant that [GET]
        settles on),
      - [src/components/message.tsx] (what the text part of a message
        derives from its text).

    Conventions.
      - A JavaScript string is the list of its UTF-16 code units ([N]).
      - [undefined] and [null] are [None].
      - A JavaScript [Map] is an association list in insertion order; [set]
        on a present key replaces the value in place.
      - A regular expression literal of the source is a value of [regex],
        run by a backtracking matcher that enumerates the matcher's choices
        in priority order (the first one is the match JavaScript reports).
      - Counts, indices and degrees are integers.  The floating-point
        arithmetic of [calculateDimensions] is an interface,
        [Dimensions.Arithmetic], of which the real numbers are an
        instance.  The layout ([Layout]) computes in binary64, the
        primitive floats of the kernel; [Math.random], [Math.cos] and
        [Math.sin] are its parameters.
      - [parseInt] gives the number that JavaScript gives: the integer
        rounded to the nearest double, and [Infinity], written
        [JS_INFINITY], beyond the largest one.
      - [String.prototype.toLowerCase] and [JSON.parse] are parameters of
        the definitions that call them. *)

From Stdlib Require Import List NArith ZArith Arith Lia Bool Ascii.
From Stdlib Require String.
From Stdlib Require Import QArith Reals Qreals Lra.
From Stdlib Require Import Sorted Permutation.
From Stdlib Require PrimFloat FloatOps SpecFloat Uint63.
Import ListNotations.
Import String.StringSyntax.
Close Scope Q_scope.
Delimit Scope string_scope with string.

Set Implicit Arguments.

(* ===================================================================== *)
(** ** JavaScript strings *)
(* ===================================================================== *)

Definition jsstring := list N.

Definition cu (a : ascii) : N := N_of_ascii a.

(** An ASCII literal as a JavaScript string. *)
Definition str (s : String.string) : jsstring :=
  map cu (String.list_ascii_of_string s).
Arguments str s%_string.

Definition dquote : N := 34.
Definition newline : N := 10.
Definition bullet : N := 8226.   (* U+2022 *)

Definition N_between (lo hi c : N) : bool := (N.leb lo c && N.leb c hi)%bool.

Fixpoint jsstring_eqb (a b : jsstring) : bool :=
  match a, b with
  | [], [] => true
  | x :: a', y :: b' => (N.eqb x y && jsstring_eqb a' b')%bool
  | _, _ => false
  end.

(** WhiteSpace and LineTerminator of ECMAScript: what [\s] matches and what
    [trim] strips. *)
Definition is_space (c : N) : bool :=
  (N_between 9 13 c || N.eqb c 32 || N.eqb c 160 || N.eqb c 5760
   || N_between 8192 8202 c || N.eqb c 8232 || N.eqb c 8233
   || N.eqb c 8239 || N.eqb c 8287 || N.eqb c 12288 || N.eqb c 65279)%bool.

Definition is_digit (c : N) : bool := N_between 48 57 c.

(** [\w], that is [[A-Za-z0-9_]]. *)
Definition is_word (c : N) : bool :=
  (N_between 65 90 c || N_between 97 122 c || is_digit c || N.eqb c 95)%bool.

Fixpoint dropWhile (p : N -> bool) (s : jsstring) : jsstring :=
  match s with
  | [] => []
  | c :: s' => if p c then dropWhile p s' else s
  end.

Definition trimStart (s : jsstring) : jsstring := dropWhile is_space s.
Definition trimEnd (s : jsstring) : jsstring := rev (dropWhile is_space (rev s)).
Definition trim (s : jsstring) : jsstring := trimEnd (trimStart s).

(** [s.slice(a)] and [s.slice(0, b)] for indices within [0, length]. *)
Definition slice_from (a : nat) (s : jsstring) : jsstring := skipn a s.
Definition slice_to (b : nat) (s : jsstring) : jsstring := firstn b s.

Fixpoint startsWith (p s : jsstring) : bool :=
  match p, s with
  | [], _ => true
  | x :: p', y :: s' => (N.eqb x y && startsWith p' s')%bool
  | _ :: _, [] => false
  end.

(** [s.includes(p)]. *)
Fixpoint includes (p s : jsstring) : bool :=
  (startsWith p s ||
   match s with
   | [] => false
   | _ :: s' => includes p s'
   end)%bool.

(** [s.lastIndexOf(c, from)] for a one-unit [c]: the greatest index [<=
    max(from, 0)] that holds [c]; [None] is -1.  [from] is an integer
    because the source passes [startIdx - 1]. *)
Fixpoint lastIndexOf_upto (c : N) (s : jsstring) (i : nat) (bound : nat)
  : option nat :=
  match s with
  | [] => None
  | x :: s' =>
      let later :=
        match bound with
        | O => None
        | S b => lastIndexOf_upto c s' (S i) b
        end in
      match later with
      | Some j => Some j
      | None => if N.eqb x c then Some i else None
      end
  end.

Definition lastIndexOf (c : N) (s : jsstring) (from : Z) : option nat :=
  lastIndexOf_upto c s 0 (Z.to_nat (Z.max from 0)).

(** [s.split(c)] for a one-unit separator (the source splits on [/•/g]). *)
Fixpoint split_on (c : N) (s : jsstring) : list jsstring :=
  match s with
  | [] => [[]]
  | x :: s' =>
      if N.eqb x c then [] :: split_on c s'
      else match split_on c s' with
           | [] => [[x]]
           | h :: t => (x :: h) :: t
           end
  end.

(** [lines.join(sep)]. *)
Fixpoint join (sep : jsstring) (l : list jsstring) : jsstring :=
  match l with
  | [] => []
  | [x] => x
  | x :: l' => x ++ sep ++ join sep l'
  end.

(** A string is falsy exactly when it is empty. *)
Definition truthy (s : jsstring) : bool :=
  match s with [] => false | _ => true end.

Definition truthy_opt (o : option jsstring) : bool :=
  match o with Some s => truthy s | None => false end.

(** Decimal digits of a natural number, as in a template literal. *)
Fixpoint digits_fuel (fuel n : nat) (acc : jsstring) : jsstring :=
  match fuel with
  | O => acc
  | S f =>
      let acc' := (48 + N.of_nat (n mod 10))%N :: acc in
      if n / 10 =? 0 then acc' else digits_fuel f (n / 10) acc'
  end.

Definition nat_to_jsstring (n : nat) : jsstring := digits_fuel (S n) n [].

Fixpoint takeWhile (p : N -> bool) (s : jsstring) : jsstring :=
  match s with
  | [] => []
  | c :: s' => if p c then c :: takeWhile p s' else []
  end.

Definition digits_value (ds : jsstring) : Z :=
  fold_left (fun acc d => (acc * 10 + (Z.of_N d - 48))%Z) ds 0%Z.

(** [Infinity], among numbers that are integers: every double from 2^53
    on is an integer below 2^1024, so 2^1024 is free to stand for it.
    It compares and sorts as [Infinity] does: equal to itself only, and
    greater than every double. *)
Definition JS_INFINITY : Z := (2 ^ 1024)%Z.

(** The Number value of a non-negative integer: the nearest double, ties
    to the even mantissa.  Below 2^53 every integer is a double; from
    there on the integer is rounded to 53 significant bits, and one that
    rounds up to 2^1024 gives [Infinity]. *)
Definition toNumber (z : Z) : Z :=
  if (z <? 2 ^ 53)%Z then z else
  let sh := (Z.log2 z - 52)%Z in
  let q := Z.shiftr z sh in
  let rem := (z - Z.shiftl q sh)%Z in
  let half := Z.shiftl 1 (sh - 1) in
  let q' :=
    if ((half <? rem)%Z || ((rem =? half)%Z && Z.odd q))%bool
    then (q + 1)%Z else q in
  let v := Z.shiftl q' sh in
  if (v <? 2 ^ 1024)%Z then v else JS_INFINITY.

(** [parseInt(s, 10)]: leading white space, an optional sign, the longest
    run of decimal digits; [None] is NaN.  The result is a double: the
    Number value of the integer that the digits write. *)
Definition parseInt (s : jsstring) : option Z :=
  let s1 := trimStart s in
  let '(neg, s2) :=
    match s1 with
    | 45%N :: r => (true, r)
    | 43%N :: r => (false, r)
    | _ => (false, s1)
    end in
  match takeWhile is_digit s2 with
  | [] => None
  | ds =>
      let v := toNumber (digits_value ds) in
      Some (if neg then (- v)%Z else v)
  end.

(* ===================================================================== *)
(** ** Regular expressions *)
(* ===================================================================== *)

Module Regex.

(** The fragment of the pattern language that the source uses.  [Chr p] is
    one code unit satisfying [p] (a literal, a class, or [[\s\S]]); [Grp i]
    is the capture group number [i]; a quantifier is greedy or lazy. *)
Inductive regex : Type :=
| Eps
| Chr (p : N -> bool)
| Seq (a b : regex)
| Alt (a b : regex)
| Star (greedy : bool) (a : regex)
| Grp (i : nat) (a : regex)
| Bol
| Eol
| Wordb.

Definition Plus (a : regex) : regex := Seq a (Star true a).
Definition Opt (a : regex) : regex := Alt a Eps.

Fixpoint seqs (l : list regex) : regex :=
  match l with
  | [] => Eps
  | [r] => r
  | r :: l' => Seq r (seqs l')
  end.

Definition ch c : N -> bool := N.eqb c.
Definition not_ch c : N -> bool := fun x => negb (N.eqb c x).
Definition any : N -> bool := fun _ => true.

(** Canonicalisation of the [i] flag, for patterns made of ASCII
    characters: an ASCII letter matches its two cases and nothing else. *)
Definition upcase (c : N) : N := if N_between 97 122 c then (c - 32)%N else c.
Definition is_ci (c : N) : N -> bool := fun x => N.eqb (upcase c) (upcase x).

Fixpoint lit (s : jsstring) : regex :=
  match s with
  | [] => Eps
  | c :: s' => Seq (Chr (ch c)) (lit s')
  end.

Fixpoint lit_ci (s : jsstring) : regex :=
  match s with
  | [] => Eps
  | c :: s' => Seq (Chr (is_ci c)) (lit_ci s')
  end.

(** Matcher state: the code units already passed (most recent first), the
    ones still ahead, and the captures recorded so far (latest first). *)
Record MState : Type := mkState {
  before : list N;
  after : list N;
  groups : list (nat * jsstring)
}.

Definition consumed_since (s s' : MState) : jsstring :=
  rev (firstn (length (before s') - length (before s)) (before s')).

Definition record_group (i : nat) (s s' : MState) : MState :=
  mkState (before s') (after s') ((i, consumed_since s s') :: groups s').

Definition at_word_boundary (s : MState) : bool :=
  let a := match before s with c :: _ => is_word c | [] => false end in
  let b := match after s with c :: _ => is_word c | [] => false end in
  xorb a b.

Definition progressed (s s' : MState) : bool :=
  negb (length (after s') =? length (after s)).

(** Iterations of a quantified sub-pattern; an iteration that consumes
    nothing is rejected, as in ECMAScript. *)
Fixpoint star_loop (greedy : bool) (step : MState -> list MState)
  (fuel : nat) (s : MState) : list MState :=
  match fuel with
  | O => [s]
  | S f =>
      let more :=
        flat_map (fun s' => if progressed s s'
                            then star_loop greedy step f s' else [])
                 (step s) in
      if greedy then more ++ [s] else s :: more
  end.

(** All the ways [r] matches at [s], in the order the backtracking matcher
    tries them. *)
Fixpoint run (r : regex) (s : MState) : list MState :=
  match r with
  | Eps => [s]
  | Chr p =>
      match after s with
      | c :: rest => if p c then [mkState (c :: before s) rest (groups s)]
                     else []
      | [] => []
      end
  | Seq a b => flat_map (run b) (run a s)
  | Alt a b => run a s ++ run b s
  | Star greedy a => star_loop greedy (run a) (S (length (after s))) s
  | Grp i a => map (record_group i s) (run a s)
  | Bol => match before s with [] => [s] | _ => [] end
  | Eol => match after s with [] => [s] | _ => [] end
  | Wordb => if at_word_boundary s then [s] else []
  end.

(** The leftmost match at or after the current position: its start index
    and its final state. *)
Fixpoint search (r : regex) (b a : list N) : option (nat * MState) :=
  match run r (mkState b a []) with
  | s' :: _ => Some (length b, s')
  | [] =>
      match a with
      | [] => None
      | c :: a' => search r (c :: b) a'
      end
  end.

(** [input.match(r)] and [r.exec(input)] for a pattern without [g]. *)
Definition exec (r : regex) (input : jsstring) : option (nat * MState) :=
  search r [] input.

Definition m_index (m : nat * MState) : nat := fst m.
Definition m_end (m : nat * MState) : nat := length (before (snd m)).

(** [match[0]]. *)
Definition m_0 (m : nat * MState) : jsstring :=
  rev (firstn (m_end m - m_index m) (before (snd m))).

Fixpoint assoc_nat (i : nat) (l : list (nat * jsstring)) : option jsstring :=
  match l with
  | [] => None
  | (j, v) :: l' => if i =? j then Some v else assoc_nat i l'
  end.

(** [match[i]]. *)
Definition m_group (i : nat) (m : nat * MState) : option jsstring :=
  assoc_nat i (groups (snd m)).

(** Successive matches of a pattern with [g], as [input.match(r)] and a
    [while ((m = r.exec(input)) !== null)] loop visit them.  After an empty
    match the scan moves one unit on. *)
Fixpoint scan (fuel : nat) (r : regex) (b a : list N)
  : list (nat * MState) :=
  match fuel with
  | O => []
  | S f =>
      match search r b a with
      | None => []
      | Some (i, s') =>
          (i, s') ::
          (if length (before s') =? i
           then match after s' with
                | [] => []
                | c :: a' => scan f r (c :: before s') a'
                end
           else scan f r (before s') (after s'))
      end
  end.

Definition match_all (r : regex) (input : jsstring) : list (nat * MState) :=
  scan (S (length input)) r [] input.

(** [input.replace(r, repl)] for a pattern without [g]. *)
Definition replace (r : regex) (repl input : jsstring) : jsstring :=
  match exec r input with
  | None => input
  | Some m => firstn (m_index m) input ++ repl ++ after (snd m)
  end.

(** [input.replace(r, repl)] for a pattern with [g]. *)
Fixpoint replace_from (fuel : nat) (r : regex) (repl : jsstring)
  (b a : list N) : jsstring :=
  match fuel with
  | O => a
  | S f =>
      match search r b a with
      | None => a
      | Some (i, s') =>
          firstn (i - length b) a ++ repl ++
          (if length (before s') =? i
           then match after s' with
                | [] => []
                | c :: a' => c :: replace_from f r repl (c :: before s') a'
                end
           else replace_from f r repl (before s') (after s'))
      end
  end.

Definition replace_all (r : regex) (repl input : jsstring) : jsstring :=
  replace_from (S (length input)) r repl [] input.

(** [x] is the text that lies between the positions of [s] and [s']. *)
Definition passes (s s' : MState) (x : jsstring) : Prop :=
  after s = x ++ after s' /\ before s' = rev x ++ before s.

End Regex.
Import Regex.

(* ===================================================================== *)
(** ** Maps, sets and sorting *)
(* ===================================================================== *)

(** A JavaScript [Map]: entries in insertion order. *)
Module JSMap.
Section WithKey.
Variables (K V : Type) (eqb : K -> K -> bool).

Definition t := list (K * V).

Fixpoint get (k : K) (m : t) : option V :=
  match m with
  | [] => None
  | (k', v) :: m' => if eqb k k' then Some v else get k m'
  end.

Definition has (k : K) (m : t) : bool :=
  match get k m with Some _ => true | None => false end.

Fixpoint set (k : K) (v : V) (m : t) : t :=
  match m with
  | [] => [(k, v)]
  | (k', v') :: m' =>
      if eqb k k' then (k', v) :: m' else (k', v') :: set k v m'
  end.

Definition keys (m : t) : list K := map fst m.
Definition values (m : t) : list V := map snd m.
End WithKey.
End JSMap.

(** [Array.from(new Set(l))]: the first occurrence of every element. *)
Fixpoint dedup_acc (seen l : list jsstring) : list jsstring :=
  match l with
  | [] => []
  | x :: l' =>
      if existsb (jsstring_eqb x) seen then dedup_acc seen l'
      else x :: dedup_acc (x :: seen) l'
  end.

Definition dedup (l : list jsstring) : list jsstring := dedup_acc [] l.

(** The default comparison of [Array.prototype.sort]: code units,
    lexicographically. *)
Fixpoint jsstring_leb (a b : jsstring) : bool :=
  match a, b with
  | [], _ => true
  | _ :: _, [] => false
  | x :: a', y :: b' =>
      if N.ltb x y then true
      else if N.ltb y x then false
      else jsstring_leb a' b'
  end.

Fixpoint insert_sorted (x : jsstring) (l : list jsstring) : list jsstring :=
  match l with
  | [] => [x]
  | y :: l' => if jsstring_leb x y then x :: l else y :: insert_sorted x l'
  end.

Definition sort (l : list jsstring) : list jsstring :=
  fold_right insert_sorted [] l.

(* ===================================================================== *)
(** ** The graph data model (parse-retrieved-facts) *)
(* ===================================================================== *)

(** A plain object used as a string-keyed record ([attrs]), its properties
    in the order of their creation.  Assigning a string to the key
    [__proto__] does not create a property. *)
Definition JSObject := JSMap.t jsstring jsstring.

Definition obj_get (k : jsstring) (o : JSObject) : option jsstring :=
  JSMap.get jsstring_eqb k o.

Definition obj_set (k v : jsstring) (o : JSObject) : JSObject :=
  if jsstring_eqb k (str "__proto__") then o
  else JSMap.set jsstring_eqb k v o.

Module KGNode.
Record t : Type := mk {
  id : jsstring;
  type : jsstring;
  label : jsstring;
  url : option jsstring;
  page : option jsstring;
  attrs : option JSObject
}.
End KGNode.

Module KGEdge.
Record t : Type := mk {
  id : jsstring;
  source : jsstring;
  target : jsstring;
  label : jsstring;
  sources : option (list jsstring);
  sourceIndices : option (list Z)
}.
End KGEdge.

Module ParsedFacts.
Record t : Type := mk {
  cleanText : jsstring;
  nodes : list KGNode.t;
  edges : list KGEdge.t;
  types : list jsstring;
  sourceIndexToUrl : option (JSMap.t Z jsstring);
  preamble : option jsstring
}.
End ParsedFacts.

Definition FACTS_LABEL : jsstring := str "Retrieved Facts:".
(** The text of the marker of [chatResponseRegex]. *)
Definition CHAT_RESPONSE_LABEL : jsstring := str "Chat Response:".
Definition SOURCES_LABEL : jsstring := str "Sources:".

Definition lparen : N := 40.
Definition rparen : N := 41.
Definition minus : N := 45.
Definition colon : N := 58.
Definition less : N := 60.
Definition equals : N := 61.
Definition greater : N := 62.
Definition lbracket : N := 91.
Definition backslash : N := 92.
Definition rbracket : N := 93.

Definition ws : regex := Chr is_space.
Definition digit : regex := Chr is_digit.
Definition word : regex := Chr is_word.

(** [`${typeName}:${label}`] *)
Definition makeNodeId (typeName label : jsstring) : jsstring :=
  typeName ++ colon :: label.

(** [/(?:^|\n)Chat Response:\s*/i] *)
Definition chatResponseRegex : regex :=
  seqs [Alt Bol (Chr (ch newline)); lit_ci CHAT_RESPONSE_LABEL;
        Star true ws].

(** [escapeRegExp] leaves both labels as they are: neither holds a
    character that it escapes.

    [Retrieved Facts:\s*([\s\S]*?)(?:\n\s*Sources:|Sources:|$)] with [i] *)
Definition factsRegex : regex :=
  seqs [lit_ci FACTS_LABEL; Star true ws; Grp 1 (Star false (Chr any));
        Alt (seqs [Chr (ch newline); Star true ws; lit_ci SOURCES_LABEL])
            (Alt (lit_ci SOURCES_LABEL) Eol)].

(** [Sources:\s*([\s\S]* )$] with [i] (the blank before the closing
    parenthesis is not part of the pattern) *)
Definition sourcesRegex : regex :=
  seqs [lit_ci SOURCES_LABEL; Star true ws; Grp 1 (Star true (Chr any)); Eol].

(** [\n?\s*Sources:[\s\S]*$] with [i] *)
Definition sourcesOnlyRegex : regex :=
  seqs [Opt (Chr (ch newline)); Star true ws; lit_ci SOURCES_LABEL;
        Star true (Chr any); Eol].

(** [/\[(\d+)\]\s*(\S+)/g] *)
Definition sourceEntryRegex : regex :=
  seqs [Chr (ch lbracket); Grp 1 (Plus digit); Chr (ch rbracket);
        Star true ws; Grp 2 (Plus (Chr (fun c => negb (is_space c))))].

(** [/\[(\d+)\]/g] *)
Definition sourceIdxRegex : regex :=
  seqs [Chr (ch lbracket); Grp 1 (Plus digit); Chr (ch rbracket)].

(** [/[\\[\\]]/g]: in the regular expression literal [\\] is an escaped
    backslash, so the class is [{backslash, '['}] and closes at the first
    [']']; the second [']'] is a literal that has to follow. *)
Definition bracketsRegex : regex :=
  Seq (Chr (fun c => (N.eqb c backslash || N.eqb c lbracket)%bool))
      (Chr (ch rbracket)).

(** [/\D/g] *)
Definition nonDigitRegex : regex := Chr (fun c => negb (is_digit c)).

(** [/\(([^)]+)\)\s*-\[([^\]]+)\]->\s*\(([^)]+)\)/] *)
Definition tripleRegex : regex :=
  seqs [Chr (ch lparen); Grp 1 (Plus (Chr (not_ch rparen))); Chr (ch rparen);
        Star true ws; Chr (ch minus); Chr (ch lbracket);
        Grp 2 (Plus (Chr (not_ch rbracket))); Chr (ch rbracket);
        Chr (ch minus); Chr (ch greater); Star true ws;
        Chr (ch lparen); Grp 3 (Plus (Chr (not_ch rparen))); Chr (ch rparen)].

(** [/\b([A-Za-z0-9_]+):Q([^Q]+)Q/] where Q stands for the double quote;
    also used with [g] *)
Definition typeLabelRegex : regex :=
  seqs [Wordb; Grp 1 (Plus word); Chr (ch colon); Chr (ch dquote);
        Grp 2 (Plus (Chr (not_ch dquote))); Chr (ch dquote)].

(** [/\b([A-Za-z0-9_]+)=([^\s)]+)/g] *)
Definition keyValueRegex : regex :=
  seqs [Wordb; Grp 1 (Plus word); Chr (ch equals);
        Grp 2 (Plus (Chr (fun c => negb (is_space c || N.eqb c rparen))))].

(** [m[i]] of a group that took part in the match. *)
Definition grp (i : nat) (m : nat * MState) : jsstring :=
  match m_group i m with Some s => s | None => [] end.

(** [s.slice(k)] for any integer [k]. *)
Definition slice_fromZ (k : Z) (s : jsstring) : jsstring :=
  if (k <? 0)%Z then skipn (Z.to_nat (Z.max (Z.of_nat (length s) + k) 0)) s
  else skipn (Z.to_nat k) s.

Definition parseEntity (raw : jsstring) : option KGNode.t :=
  let tl := exec typeLabelRegex raw in
  let typeName := match tl with Some m => grp 1 m | None => [] end in
  let label := match tl with Some m => grp 2 m | None => [] end in
  let attrs1 :=
    fold_left (fun attrs m => obj_set (grp 1 m) (grp 2 m) attrs)
              (match_all keyValueRegex raw) ([] : JSObject) in
  let attrs2 :=
    fold_left (fun attrs m =>
                 let key := grp 1 m in
                 let value := grp 2 m in
                 if (jsstring_eqb key typeName && jsstring_eqb value label)%bool
                 then attrs
                 else obj_set key value attrs)
              (match_all typeLabelRegex raw) attrs1 in
  if (negb (truthy typeName) || negb (truthy label))%bool then None
  else Some (KGNode.mk (makeNodeId typeName label) typeName label
               (obj_get (str "url") attrs2) (obj_get (str "page") attrs2)
               (match attrs2 with [] => None | _ => Some attrs2 end)).

Definition parseSourcesMap (sourcesBlock : option jsstring)
  : JSMap.t Z jsstring :=
  match sourcesBlock with
  | None => []
  | Some [] => []
  | Some block =>
      fold_left (fun map m =>
                   match parseInt (grp 1 m) with
                   | Some idx =>
                       if truthy (grp 2 m)
                       then JSMap.set Z.eqb idx (grp 2 m) map else map
                   | None => map
                   end)
                (match_all sourceEntryRegex block) []
  end.

Definition filter_some {A : Type} (l : list (option A)) : list A :=
  flat_map (fun o => match o with Some x => [x] | None => [] end) l.

Definition nonempty_list {A : Type} (l : list A) : option (list A) :=
  match l with [] => None | _ => Some l end.

(** The state of the loop of [parseFactsBullets]. *)
Record BulletState : Type := mkBulletState {
  nodesById : JSMap.t jsstring KGNode.t;
  bulletEdges : list KGEdge.t;
  edgeCounter : nat
}.

(** What one bullet contributes: the two entities and the edge data, or
    nothing when the body of the loop reaches [continue]. *)
Definition parseBullet (sourceIndexToUrl : JSMap.t Z jsstring)
  (item : jsstring)
  : option (KGNode.t * KGNode.t * jsstring
            * option (list jsstring) * option (list Z)) :=
  let sourceIdxMatches := map m_0 (match_all sourceIdxRegex item) in
  let edgeSources :=
    filter truthy
      (filter_some
         (map (fun m =>
                 match parseInt (replace_all bracketsRegex [] m) with
                 | Some idx => JSMap.get Z.eqb idx sourceIndexToUrl
                 | None => None
                 end)
              sourceIdxMatches)) in
  let edgeSourceIndices :=
    filter_some
      (map (fun m => parseInt (replace_all nonDigitRegex [] m))
           sourceIdxMatches) in
  match exec tripleRegex item with
  | None => None
  | Some tripleMatch =>
      let leftEntityRaw := grp 1 tripleMatch in
      let relation := trim (grp 2 tripleMatch) in
      let rightEntityRaw := grp 3 tripleMatch in
      match parseEntity leftEntityRaw, parseEntity rightEntityRaw with
      | Some left_, Some right_ =>
          Some (left_, right_, relation,
                nonempty_list edgeSources, nonempty_list edgeSourceIndices)
      | _, _ => None
      end
  end.

Definition bulletStep (sourceIndexToUrl : JSMap.t Z jsstring)
  (st : BulletState) (item : jsstring) : BulletState :=
  match parseBullet sourceIndexToUrl item with
  | None => st
  | Some (left_, right_, relation, edgeSources, edgeSourceIndices) =>
      let leftId := makeNodeId (KGNode.type left_) (KGNode.label left_) in
      let rightId := makeNodeId (KGNode.type right_) (KGNode.label right_) in
      let nodes1 :=
        if JSMap.has jsstring_eqb leftId (nodesById st) then nodesById st
        else JSMap.set jsstring_eqb leftId left_ (nodesById st) in
      let nodes2 :=
        if JSMap.has jsstring_eqb rightId nodes1 then nodes1
        else JSMap.set jsstring_eqb rightId right_ nodes1 in
      let edge :=
        KGEdge.mk (str "e_" ++ nat_to_jsstring (edgeCounter st))
                  leftId rightId relation edgeSources edgeSourceIndices in
      mkBulletState nodes2 (bulletEdges st ++ [edge]) (S (edgeCounter st))
  end.

Definition rawItems (factsBlock : jsstring) : list jsstring :=
  filter truthy (map trim (split_on bullet factsBlock)).

Definition parseFactsBullets (factsBlock : jsstring)
  (sourceIndexToUrl : JSMap.t Z jsstring)
  : list KGNode.t * list KGEdge.t :=
  let st := fold_left (bulletStep sourceIndexToUrl) (rawItems factsBlock)
                      (mkBulletState [] [] 0) in
  (JSMap.values (nodesById st), bulletEdges st).

Record Blocks : Type := mkBlocks {
  factsBlock : option jsstring;
  sourcesBlock : option jsstring;
  blocksCleanText : jsstring
}.

Definition extractBlocks (input : jsstring) : Blocks :=
  let factsMatch := exec factsRegex input in
  let factsBlock := option_map (fun m => trim (grp 1 m)) factsMatch in
  let sourcesBlock :=
    match factsMatch with
    | Some m =>
        let remainderAfterFactsIndex := m_index m + length (m_0 m) in
        let afterFacts :=
          slice_fromZ (Z.of_nat remainderAfterFactsIndex
                       - Z.of_nat (length (grp 1 m))) input in
        option_map (fun sm => trim (grp 1 sm)) (exec sourcesRegex afterFacts)
    | None =>
        option_map (fun sm => trim (grp 1 sm)) (exec sourcesRegex input)
    end in
  let cleanText :=
    match factsMatch with
    | Some m =>
        let startIdx := m_index m in
        let lineStart := lastIndexOf newline input (Z.of_nat startIdx - 1) in
        let start := match lineStart with None => 0 | Some i => i + 1 end in
        trimEnd (slice_to start input)
    | None =>
        if truthy_opt sourcesBlock
        then trimEnd (replace sourcesOnlyRegex [] input)
        else input
    end in
  mkBlocks factsBlock sourcesBlock cleanText.

(** The preamble and the text that follows the [Chat Response:] marker. *)
Definition splitChatResponse (input : jsstring)
  : option jsstring * jsstring :=
  match exec chatResponseRegex input with
  | Some m =>
      let startOfVisible := m_index m + length (m_0 m) in
      (Some (trim (slice_to (m_index m) input)),
       slice_from startOfVisible input)
  | None => (None, input)
  end.

Definition parseRetrievedFacts (input : jsstring) : option ParsedFacts.t :=
  if negb (truthy input) then None else
  let '(preamble, contentForFacts) := splitChatResponse input in
  let blocks := extractBlocks contentForFacts in
  let sourceIndexToUrlMap := parseSourcesMap (sourcesBlock blocks) in
  let parsed :=
    if truthy_opt (factsBlock blocks)
    then parseFactsBullets
           (match factsBlock blocks with Some b => b | None => [] end)
           sourceIndexToUrlMap
    else ([], []) in
  let types := sort (dedup (map KGNode.type (fst parsed))) in
  let hasFactsOrSources :=
    (truthy_opt (factsBlock blocks) || truthy_opt (sourcesBlock blocks))%bool in
  if (negb (truthy_opt preamble) && negb hasFactsOrSources)%bool then None
  else Some (ParsedFacts.mk (blocksCleanText blocks) (fst parsed) (snd parsed)
               types (Some sourceIndexToUrlMap) preamble).

Definition example_input : jsstring :=
  str "Retrieved Facts: " ++ bullet :: str " (service:" ++ dquote ::
  str "risk mgmt" ++ dquote :: str ") -[ADDRESSES]-> (risk:" ++ dquote ::
  str "fraud" ++ dquote :: str ") [1]" ++ newline :: str "Sources:" ++
  newline :: str "[1] https://a.com".

(* ===================================================================== *)
(** ** The response normaliser (parse-structured-response) *)
(* ===================================================================== *)

(** [/\(\s*([A-Za-z0-9_]+)\s*:\s*Q([^Q]+)Q[^)]*\)/] where Q stands for the
    double quote *)
Definition groupedEntityRegex : regex :=
  seqs [Chr (ch lparen); Star true ws; Grp 1 (Plus word); Star true ws;
        Chr (ch colon); Star true ws; Chr (ch dquote);
        Grp 2 (Plus (Chr (not_ch dquote))); Chr (ch dquote);
        Star true (Chr (not_ch rparen)); Chr (ch rparen)].

(** [/^-+\s*\[([^\]]+)\]->\s*\(([^)]+)\)/] *)
Definition outwardRegex : regex :=
  seqs [Bol; Plus (Chr (ch minus)); Star true ws; Chr (ch lbracket);
        Grp 1 (Plus (Chr (not_ch rbracket))); Chr (ch rbracket);
        Chr (ch minus); Chr (ch greater); Star true ws;
        Chr (ch lparen); Grp 2 (Plus (Chr (not_ch rparen))); Chr (ch rparen)].

(** [/^<-\s*\[([^\]]+)\]-\s*\(([^)]+)\)/] *)
Definition inwardRegex : regex :=
  seqs [Bol; Chr (ch less); Chr (ch minus); Star true ws; Chr (ch lbracket);
        Grp 1 (Plus (Chr (not_ch rbracket))); Chr (ch rbracket);
        Chr (ch minus); Star true ws;
        Chr (ch lparen); Grp 2 (Plus (Chr (not_ch rparen))); Chr (ch rparen)].

Module Grouped.

(** The variables that the loop of [parseFactsPreviewGrouped] and its
    closures share. *)
Record State : Type := mkState {
  nodesById : JSMap.t jsstring KGNode.t;
  edges : list KGEdge.t;
  edgeCounter : nat;
  currentCentral : option KGNode.t
}.

Definition init : State := mkState [] [] 0 None.

(** The closure [parseEntity]: it returns the node registered under the
    id, registering a fresh one when there is none. *)
Definition parseEntity (raw : jsstring) (st : State)
  : option KGNode.t * State :=
  match exec groupedEntityRegex raw with
  | None => (None, st)
  | Some m =>
      let typeName := grp 1 m in
      let label := grp 2 m in
      let id := makeNodeId typeName label in
      match JSMap.get jsstring_eqb id (nodesById st) with
      | Some node => (Some node, st)
      | None =>
          let node := KGNode.mk id typeName label None None None in
          (Some node,
           mkState (JSMap.set jsstring_eqb id node (nodesById st))
                   (edges st) (edgeCounter st) (currentCentral st))
      end
  end.

Definition extractSourceIndices (s : jsstring) : list Z :=
  filter_some
    (map (fun m => parseInt (replace_all nonDigitRegex [] m))
         (map m_0 (match_all sourceIdxRegex s))).

(** The edge literal and the two conditional assignments that follow it. *)
Definition makeEdge (sourceIndexToUrl : JSMap.t Z jsstring)
  (line : jsstring) (n : nat) (source target rel : jsstring) : KGEdge.t :=
  let idxs := extractSourceIndices line in
  let urls :=
    filter truthy
      (filter_some (map (fun i => JSMap.get Z.eqb i sourceIndexToUrl) idxs)) in
  KGEdge.mk (str "e_" ++ nat_to_jsstring n) source target rel
            (match idxs with [] => None | _ => nonempty_list urls end)
            (nonempty_list idxs).

Definition pushEdge (e : KGEdge.t) (st : State) : State :=
  mkState (nodesById st) (edges st ++ [e]) (S (edgeCounter st))
          (currentCentral st).

Definition setCentral (n : KGNode.t) (st : State) : State :=
  mkState (nodesById st) (edges st) (edgeCounter st) (Some n).

Definition parenthesised (s : jsstring) : jsstring :=
  lparen :: s ++ [rparen].

(** One turn of the [for (const rawLine of lines)] loop. *)
Definition step (sourceIndexToUrl : JSMap.t Z jsstring)
  (st : State) (rawLine : jsstring) : State :=
  let line := trim rawLine in
  if negb (truthy line) then st else
  if startsWith [lparen] line then
    (* central node line *)
    match parseEntity line st with
    | (Some node, st1) => setCentral node st1
    | (None, st1) => st1
    end
  else
  match exec tripleRegex line with
  | Some triple =>
      (* full triple line *)
      let '(left_, st1) := parseEntity (parenthesised (grp 1 triple)) st in
      let '(right_, st2) := parseEntity (parenthesised (grp 3 triple)) st1 in
      let rel := trim (grp 2 triple) in
      match left_, right_ with
      | Some l, Some r =>
          pushEdge (makeEdge sourceIndexToUrl line (edgeCounter st2)
                             (KGNode.id l) (KGNode.id r) rel) st2
      | _, _ => st2
      end
  | None =>
      match exec outwardRegex line, currentCentral st with
      | Some outward, Some central =>
          (* grouped outward relation *)
          let rel := trim (grp 1 outward) in
          match parseEntity (parenthesised (grp 2 outward)) st with
          | (Some r, st1) =>
              pushEdge (makeEdge sourceIndexToUrl line (edgeCounter st1)
                                 (KGNode.id central) (KGNode.id r) rel) st1
          | (None, st1) => st1
          end
      | _, _ =>
          match exec inwardRegex line, currentCentral st with
          | Some inward, Some central =>
              (* grouped inward relation *)
              let rel := trim (grp 1 inward) in
              match parseEntity (parenthesised (grp 2 inward)) st with
              | (Some l, st1) =>
                  pushEdge (makeEdge sourceIndexToUrl line (edgeCounter st1)
                                     (KGNode.id l) (KGNode.id central) rel) st1
              | (None, st1) => st1
              end
          | _, _ => st
          end
      end
  end.

Definition run_lines (sourceIndexToUrl : JSMap.t Z jsstring)
  (lines : list jsstring) : State :=
  fold_left (step sourceIndexToUrl) lines init.

End Grouped.

Definition parseFactsPreviewGrouped (lines : list jsstring)
  (sourceIndexToUrl : JSMap.t Z jsstring)
  : list KGNode.t * list KGEdge.t * list jsstring :=
  let st := Grouped.run_lines sourceIndexToUrl lines in
  let nodes := JSMap.values (Grouped.nodesById st) in
  (nodes, Grouped.edges st, sort (dedup (map KGNode.type nodes))).

Record Finding : Type := mkFinding {
  title : option jsstring;
  finding_url : jsstring;
  snippet : jsstring
}.

Record SuggestedAction : Type := mkAction {
  action : jsstring;
  description : jsstring
}.

Record ResearchData : Type := mkResearch {
  targets : list jsstring;
  findings : list Finding
}.

(** The declared type makes the three fields mandatory; the code reads
    [Research] and [Suggested_Actions] defensively ([?.] and [|| []]), so
    they are optional here. *)
Record StructuredResponse : Type := mkStructuredResponse {
  Research : option ResearchData;
  Chat_Response : jsstring;
  Suggested_Actions : option (list SuggestedAction)
}.

Record Source : Type := mkSource {
  source_id : Z;
  source_url : jsstring
}.

Record StructuredParsedResponse : Type := mkParsed {
  chatResponse : jsstring;
  researchTargets : list jsstring;
  researchFindings : list Finding;
  suggestedActions : list SuggestedAction;
  nodes : list KGNode.t;
  edges : list KGEdge.t;
  types : list jsstring;
  sourceIndexToUrl : JSMap.t Z jsstring;
  preamble : option jsstring;
  hasStructuredData : bool
}.

(** [sources.forEach(source => { sourceIndexToUrl[source.id] = source.url })] *)
Definition sourceMapping (sources : list Source) : JSMap.t Z jsstring :=
  fold_left (fun rec source =>
               JSMap.set Z.eqb (source_id source) (source_url source) rec)
            sources [].

(** [kgData?.cleanText || fallback] *)
Definition cleanTextOr (kgData : option ParsedFacts.t) (fallback : jsstring)
  : jsstring :=
  match kgData with
  | Some kg =>
      if truthy (ParsedFacts.cleanText kg) then ParsedFacts.cleanText kg
      else fallback
  | None => fallback
  end.

(** The value of [kgData] when [parseStructuredGraphRAGResponse] reaches
    its [return]. *)
Definition structuredKgData (Chat_Response : jsstring)
  (factsPreview : option (list jsstring)) : option ParsedFacts.t :=
  let kgData :=
    if truthy Chat_Response then parseRetrievedFacts Chat_Response
    else None in
  match kgData with
  | Some _ => kgData
  | None =>
      match factsPreview with
      | Some ((_ :: _) as lines) => parseRetrievedFacts (join [newline] lines)
      | _ => None
      end
  end.

Definition parseStructuredGraphRAGResponse
  (structuredResponse : StructuredResponse) (sources : list Source)
  (factsPreview : option (list jsstring)) : StructuredParsedResponse :=
  let sourceIndexToUrl := sourceMapping sources in
  let kgData0 :=
    if truthy (Chat_Response structuredResponse)
    then parseRetrievedFacts (Chat_Response structuredResponse)
    else None in
  let '(kgData, nodes, edges, types, preamble) :=
    match kgData0 with
    | Some kg =>
        (kgData0, ParsedFacts.nodes kg, ParsedFacts.edges kg,
         ParsedFacts.types kg, ParsedFacts.preamble kg)
    | None =>
        match factsPreview with
        | Some ((_ :: _) as lines) =>
            let factsText := join [newline] lines in
            match parseRetrievedFacts factsText with
            | Some kg =>
                (Some kg, ParsedFacts.nodes kg, ParsedFacts.edges kg,
                 ParsedFacts.types kg, ParsedFacts.preamble kg)
            | None =>
                let '(gnodes, gedges, gtypes) :=
                  parseFactsPreviewGrouped lines sourceIndexToUrl in
                (None, gnodes, gedges, gtypes, None)
            end
        | _ => (None, [], [], [], None)
        end
    end in
  let chatResponse := cleanTextOr kgData (Chat_Response structuredResponse) in
  mkParsed chatResponse
    (match Research structuredResponse with
     | Some r => targets r | None => [] end)
    (match Research structuredResponse with
     | Some r => findings r | None => [] end)
    (match Suggested_Actions structuredResponse with
     | Some a => a | None => [] end)
    nodes edges types sourceIndexToUrl preamble true.

Definition parseLegacyGraphRAGResponse (answer : jsstring)
  (sources : list Source) (factsPreview : option (list jsstring))
  : StructuredParsedResponse :=
  let sourceIndexToUrl := sourceMapping sources in
  let kgData0 :=
    if truthy answer then parseRetrievedFacts answer else None in
  let kgData :=
    match kgData0, factsPreview with
    | None, Some ((_ :: _) as lines) =>
        parseRetrievedFacts (join [newline] lines)
    | _, _ => kgData0
    end in
  mkParsed (cleanTextOr kgData answer) [] [] []
    (match kgData with Some kg => ParsedFacts.nodes kg | None => [] end)
    (match kgData with Some kg => ParsedFacts.edges kg | None => [] end)
    (match kgData with Some kg => ParsedFacts.types kg | None => [] end)
    sourceIndexToUrl
    (match kgData with Some kg => ParsedFacts.preamble kg | None => None end)
    false.

Definition hasKnowledgeGraphData (parsed : StructuredParsedResponse) : bool :=
  (0 <? length (nodes parsed)) || (0 <? length (edges parsed)).

Definition hasResearchData (parsed : StructuredParsedResponse) : bool :=
  (0 <? length (researchTargets parsed))
  || (0 <? length (researchFindings parsed)).

Definition hasDebugInfo (parsed : StructuredParsedResponse) : bool :=
  truthy_opt (preamble parsed)
  || (0 <? length (JSMap.keys (sourceIndexToUrl parsed))).

(* ===================================================================== *)
(** ** The viewer: degrees and filters (knowledge-graph.tsx) *)
(* ===================================================================== *)

(** [minDegree] and [maxDegree] are numbers; their initial values are [0]
    and [Infinity]. *)
Inductive bound : Type :=
| Finite (n : Z)
| Infinity.

(** [degree < b] and [degree > b] for an integer [degree]. *)
Definition lt_bound (degree : nat) (b : bound) : bool :=
  match b with
  | Finite n => (Z.of_nat degree <? n)%Z
  | Infinity => true
  end.

Definition gt_bound (degree : nat) (b : bound) : bool :=
  match b with
  | Finite n => (n <? Z.of_nat degree)%Z
  | Infinity => false
  end.

(** The filter state of [KnowledgeGraphViewer] ([useState]). *)
Record FilterState : Type := mkFilter {
  showIsolates : bool;
  selectedEntityTypes : list jsstring;
  selectedRelationTypes : list jsstring;
  searchTerm : jsstring;
  minDegree : bound;
  maxDegree : bound
}.

(** [set.has(x)] and [set.size > 0] for a [Set<string>] given by its
    elements. *)
Definition set_has (x : jsstring) (s : list jsstring) : bool :=
  existsb (jsstring_eqb x) s.

Definition set_nonempty (s : list jsstring) : bool :=
  match s with [] => false | _ => true end.

Definition DegreeMap := JSMap.t jsstring nat.

(** [m.get(k) ?? 0] *)
Definition degreeOf (m : DegreeMap) (k : jsstring) : nat :=
  match JSMap.get jsstring_eqb k m with Some d => d | None => 0 end.

Definition bump (k : jsstring) (m : DegreeMap) : DegreeMap :=
  JSMap.set jsstring_eqb k (degreeOf m k + 1) m.

Record GraphStats : Type := mkStats {
  degreeMap : DegreeMap;
  isolatesCount : nat;
  relationTypes : list jsstring;
  maxDegreeValue : nat
}.

(** The first [useMemo], keyed on [[nodes, edges]]. *)
Definition graphStats (nodes : list KGNode.t) (edges : list KGEdge.t)
  : GraphStats :=
  let m0 : DegreeMap :=
    fold_left (fun m n => JSMap.set jsstring_eqb (KGNode.id n) 0 m) nodes [] in
  let m :=
    fold_left (fun m e => bump (KGEdge.target e) (bump (KGEdge.source e) m))
              edges m0 in
  let '(iso, maxDeg) :=
    fold_left (fun '(iso, maxDeg) v =>
                 ((if v =? 0 then S iso else iso), Nat.max maxDeg v))
              (JSMap.values m) (0, 0) in
  mkStats m iso (sort (dedup (map KGEdge.label edges))) maxDeg.

Section Viewer.

(** [String.prototype.toLowerCase], the full Unicode mapping, is a
    parameter. *)
Variable toLowerCase : jsstring -> jsstring.

Definition nodePasses (degreeMap : DegreeMap) (fs : FilterState)
  (n : KGNode.t) : bool :=
  if set_nonempty (selectedEntityTypes fs)
     && negb (set_has (KGNode.type n) (selectedEntityTypes fs))
  then false
  else if truthy (searchTerm fs)
          && negb (includes (toLowerCase (searchTerm fs))
                            (toLowerCase (KGNode.label n)))
  then false
  else
    let degree := degreeOf degreeMap (KGNode.id n) in
    if lt_bound degree (minDegree fs) || gt_bound degree (maxDegree fs)
    then false
    else if negb (showIsolates fs) && (degree =? 0)
    then false
    else true.

Definition edgePasses (nodeIds : list jsstring) (fs : FilterState)
  (e : KGEdge.t) : bool :=
  if negb (set_has (KGEdge.source e) nodeIds)
     || negb (set_has (KGEdge.target e) nodeIds)
  then false
  else if set_nonempty (selectedRelationTypes fs)
          && negb (set_has (KGEdge.label e) (selectedRelationTypes fs))
  then false
  else true.

Record View : Type := mkView {
  stats : GraphStats;
  filteredNodes : list KGNode.t;
  filteredEdges : list KGEdge.t
  }.

(** What one render of [KnowledgeGraphViewer] derives from its props and
    its filter state: the first memo and the two filters of the second
    one (the layout that the second memo goes on to compute takes no part
    in either filter). *)
Definition view (nodes : list KGNode.t) (edges : list KGEdge.t)
  (fs : FilterState) : View :=
  let st := graphStats nodes edges in
  let filteredNodes := filter (nodePasses (degreeMap st) fs) nodes in
  let nodeIds := map KGNode.id filteredNodes in
  let filteredEdges := filter (edgePasses nodeIds fs) edges in
  mkView st filteredNodes filteredEdges.

End Viewer.

(* ===================================================================== *)
(** ** Canvas dimensions (knowledge-graph.tsx) *)
(* ===================================================================== *)

Module Dimensions.

(** The numbers of the source are IEEE-754 doubles, and [-], [*], [/],
    [Math.sqrt] and [Math.max] are operations of the run time.  They are
    taken here as an interface: a type of numbers with the order [<=] and
    the facts about the operations that the properties below rest on, all
    of them facts of correctly rounded arithmetic (rounding is monotone)
    and of exact arithmetic alike.  [le x y] is [x <= y], which fails when
    either side is NaN; [positive c] says that [c] is finite and greater
    than zero; [ofQ q] is the number that a literal of value [q] denotes. *)
Class Arithmetic : Type := {
  number : Type;
  le : number -> number -> Prop;
  positive : number -> Prop;
  ofQ : Q -> number;
  sub : number -> number -> number;
  mul : number -> number -> number;
  div : number -> number -> number;
  sqrt : number -> number;
  max : number -> number -> number;

  le_trans : forall a b c, le a b -> le b c -> le a c;
  le_left : forall a b, le a b -> le a a;
  le_right : forall a b, le a b -> le b b;
  ofQ_mono : forall p q, (p <= q)%Q -> le (ofQ p) (ofQ q);
  positive_ofQ :
    forall z, (0 < z <= 2 ^ 53)%Z -> positive (ofQ (inject_Z z));
  sub_mono_l : forall a b c, positive c -> le a b -> le (sub a c) (sub b c);
  sub_anti_r : forall a b c, positive c -> le a b -> le (sub c b) (sub c a);
  mul_mono : forall a b c, positive c -> le a b -> le (mul c a) (mul c b);
  div_mono : forall a b c, positive c -> le a b -> le (div a c) (div b c);
  sqrt_mono : forall a b, le (ofQ 0) a -> le a b -> le (sqrt a) (sqrt b);
  max_l : forall a b, le a a -> le b b -> le a (max a b);
  max_mono_r : forall a b c, le c c -> le a b -> le (max c a) (max c b);
  max_lub : forall a b c, le a c -> le b c -> le (max a b) c;
  sub_diag : forall c, positive c -> sub c c = ofQ 0;
  sub_zero_r : forall c, positive c -> sub c (ofQ 0) = c;
  div_zero_l : forall c, positive c -> div (ofQ 0) c = ofQ 0
}.

Section WithArithmetic.
Context {A : Arithmetic}.

(** An integer literal, and the number of a count. *)
Definition int (z : Z) : number := ofQ (inject_Z z).
Definition count (n : nat) : number := int (Z.of_nat n).

Record t : Type := mk {
  nodeW : number;
  nodeH : number;
  canvasSize : number
}.

(** The constant [scaleFactor] of [calculateDimensions]; [nodeCount > 50]
    compares integers. *)
Definition scaleFactor (nodeCount : nat) : number :=
  if (50 <? nodeCount)%nat
  then max (ofQ (7 # 10))
           (sub (int 1) (div (sub (count nodeCount) (int 50)) (int 200)))
  else int 1.

Definition calculateDimensions (nodeCount : nat) : t :=
  let baseNodeW := int 120 in
  let baseNodeH := int 32 in
  let nodeW := max (int 80) (mul baseNodeW (scaleFactor nodeCount)) in
  let nodeH := max (int 24) (mul baseNodeH (scaleFactor nodeCount)) in
  let baseSize := int 800 in
  let sizeMultiplier := sqrt (div (count nodeCount) (int 10)) in
  let canvasSize := max baseSize (mul baseSize sizeMultiplier) in
  mk nodeW nodeH canvasSize.

End WithArithmetic.

End Dimensions.

(* ===================================================================== *)
(** ** The force layout ([simulateForceLayout]) *)
(* ===================================================================== *)

(** The numbers of the layout are IEEE 754 binary64 values, the primitive
    floats of the kernel, with the operations rounded to nearest as in
    JavaScript.  [Math.cos], [Math.sin] and the successive values of
    [Math.random] are parameters. *)

Module Layout.
Import PrimFloat.
Local Open Scope float_scope.
#[local] Set Warnings "-inexact-float".

(** A JavaScript number that is a count. *)
Definition ofNat (n : nat) : float :=
  of_uint63 (Uint63.of_Z (Z.of_nat n)).

(** [Math.max(a, b)] and [Math.min(a, b)]: [NaN] when an argument is
    [NaN]; of the two zeros, [+0] is the larger. *)
Definition Math_max (a b : float) : float :=
  if (is_nan a || is_nan b)%bool then nan
  else if a <? b then b
  else if b <? a then a
  else if (is_zero a && get_sign a)%bool then b else a.

Definition Math_min (a b : float) : float :=
  if (is_nan a || is_nan b)%bool then nan
  else if a <? b then a
  else if b <? a then b
  else if (is_zero a && get_sign a)%bool then a else b.

Definition Math_PI : float := 0x1.921fb54442d18p+1.

(** [x || d] on numbers: [d] when [x] is [0] or [NaN]. *)
Definition orElse (x d : float) : float :=
  if (is_nan x || is_zero x)%bool then d else x.

(** [calculateDimensions], in doubles: [(canvasSize, nodeW)]. *)
Definition calculateDimensions (nodeCount : nat) : float * float :=
  let baseNodeW := 120 in
  let scaleFactor :=
    if 50 <? ofNat nodeCount
    then Math_max 0.7 (1 - (ofNat nodeCount - 50) / 200)
    else 1 in
  let nodeW := Math_max 80 (baseNodeW * scaleFactor) in
  let baseSize := 800 in
  let sizeMultiplier := sqrt (ofNat nodeCount / 10) in
  let canvasSize := Math_max baseSize (baseSize * sizeMultiplier) in
  (canvasSize, nodeW).

(** An entry of [positions]. *)
Record Position : Type := mkPosition {
  id : jsstring;
  x : float;
  y : float;
  vx : float;
  vy : float
}.

(** [positions[i]] updated in place. *)
Fixpoint modify (i : nat) (f : Position -> Position) (ps : list Position)
  : list Position :=
  match ps, i with
  | [], _ => []
  | p :: ps', O => f p :: ps'
  | p :: ps', S i' => p :: modify i' f ps'
  end.

Definition push (fx fy : float) (p : Position) : Position :=
  mkPosition (id p) (x p) (y p) (vx p + fx) (vy p + fy).

Definition pull (fx fy : float) (p : Position) : Position :=
  mkPosition (id p) (x p) (y p) (vx p - fx) (vy p - fy).

(** The index of the object that [posMap] holds for an id: [new Map] keeps
    the last entry of a key. *)
Fixpoint posIndexFrom (k : nat) (key : jsstring) (ps : list Position)
  : option nat :=
  match ps with
  | [] => None
  | p :: ps' =>
      match posIndexFrom (S k) key ps' with
      | Some j => Some j
      | None => if jsstring_eqb (id p) key then Some k else None
      end
  end.

Definition posIndex (key : jsstring) (ps : list Position) : option nat :=
  posIndexFrom 0%nat key ps.

(** The place of a type in [types]. *)
Fixpoint typeIndex (t : jsstring) (types : list jsstring) : option nat :=
  match types with
  | [] => None
  | u :: types' =>
      if jsstring_eqb u t then Some 0%nat else option_map S (typeIndex t types')
  end.

Section WithMath.
(** [Math.cos], [Math.sin], and the successive values of [Math.random]. *)
Variables (cos sin : float -> float) (random : nat -> float).
Variables (canvasSize nodeW : float).

Definition center : float := canvasSize / 2.
Definition padding : float := nodeW * 2.
Definition radius : float := center - padding.
Definition softBoundaryStart : float := radius - nodeW * 1.5.

(** The entries of [typePositions], in the order of [types]. *)
Definition typePositions (count : nat) : list (float * float) :=
  map (fun i =>
         let angle := (ofNat i / ofNat count) * 2 * Math_PI in
         let radius := Math_min (canvasSize * 0.2) 120 in
         (center + cos angle * radius, center + sin angle * radius))
      (seq 0 count).

(** The initial positions, given the entries of [typePositions]: node [k]
    draws its [x] and then its [y]. *)
Definition initialPositions (types : list jsstring)
  (table : list (float * float)) (nodes : list KGNode.t) : list Position :=
  map (fun kn : nat * KGNode.t =>
         let (k, node) := kn in
         let typePos :=
           match typeIndex (KGNode.type node) types with
           | Some i => nth i table (center, center)
           | None => (center, center)
           end in
         mkPosition (KGNode.id node)
                    (fst typePos + (random (2 * k)%nat - 0.5) * 80)
                    (snd typePos + (random (2 * k + 1)%nat - 0.5) * 80)
                    0 0)
      (combine (seq 0 (length nodes)) nodes).

Section Iteration.
Variable alpha : float.

(** The body of the two loops over [i < j]. *)
Definition repel (i j : nat) (ps : list Position) : list Position :=
  match nth_error ps i, nth_error ps j with
  | Some a, Some b =>
      let dx := x a - x b in
      let dy := y a - y b in
      let distance := Math_max 1 (sqrt (dx * dx + dy * dy)) in
      let repulsion := (nodeW * 4) / Math_max distance (nodeW * 0.8) in
      let fx := (dx / distance) * repulsion * alpha in
      let fy := (dy / distance) * repulsion * alpha in
      modify j (pull fx fy) (modify i (push fx fy) ps)
  | _, _ => ps
  end.

Definition repelAll (ps : list Position) : list Position :=
  let n := length ps in
  fold_left (fun ps i =>
               fold_left (fun ps j => repel i j ps) (seq (S i) (n - S i)%nat) ps)
            (seq 0 n) ps.

(** The body of [edges.forEach]. *)
Definition attract (ps : list Position) (edge : KGEdge.t) : list Position :=
  match posIndex (KGEdge.source edge) ps, posIndex (KGEdge.target edge) ps with
  | Some s, Some t =>
      match nth_error ps s, nth_error ps t with
      | Some source, Some target =>
          let dx := x target - x source in
          let dy := y target - y source in
          let distance := orElse (sqrt (dx * dx + dy * dy)) 1 in
          let idealDistance := nodeW * 2.5 in
          let attraction := (distance - idealDistance) * 0.01 * alpha in
          let fx := (dx / distance) * attraction in
          let fy := (dy / distance) * attraction in
          modify t (pull fx fy) (modify s (push fx fy) ps)
      | _, _ => ps
      end
  | _, _ => ps
  end.

(** The centre force. *)
Definition centre (p : Position) : Position :=
  let dx := center - x p in
  let dy := center - y p in
  let distanceFromCenter := sqrt (dx * dx + dy * dy) in
  let centerForce :=
    Math_min (distanceFromCenter / (canvasSize * 0.35)) 1 * 0.008 * alpha in
  mkPosition (id p) (x p) (y p) (vx p + dx * centerForce)
             (vy p + dy * centerForce).

(** Damping, the move, the soft boundary and the hard cap. *)
Definition move (p : Position) : Position :=
  let vx1 := vx p * 0.85 in
  let vy1 := vy p * 0.85 in
  let x1 := x p + vx1 in
  let y1 := y p + vy1 in
  let dxC := x1 - center in
  let dyC := y1 - center in
  let r := orElse (sqrt (dxC * dxC + dyC * dyC)) 1 in
  let v2 :=
    if softBoundaryStart <? r then
      let t := Math_min 1 ((r - softBoundaryStart)
                           / (radius - softBoundaryStart)) in
      let inward := (0.4 + 0.6 * t) * alpha in
      (vx1 + (- dxC / r) * inward, vy1 + (- dyC / r) * inward)
    else (vx1, vy1) in
  let xy2 :=
    if radius <? r then
      let scale := radius / r in
      (center + dxC * scale, center + dyC * scale)
    else (x1, y1) in
  mkPosition (id p) (fst xy2) (snd xy2) (fst v2) (snd v2).

End Iteration.

Definition reset (p : Position) : Position :=
  mkPosition (id p) (x p) (y p) 0 0.

(** One turn of the simulation loop. *)
Definition iteration (edges : list KGEdge.t) (iterations : nat)
  (ps : list Position) (iter : nat) : list Position :=
  let alpha := Math_max 0.05 (1 - ofNat iter / ofNat iterations) in
  let ps := map reset ps in
  let ps := repelAll alpha ps in
  let ps := fold_left (attract alpha) edges ps in
  let ps := map (centre alpha) ps in
  map (move alpha) ps.

Definition simulateFrom (edges : list KGEdge.t) (iterations : nat)
  (positions : list Position) : list Position :=
  fold_left (iteration edges iterations) (seq 0 iterations) positions.

Definition simulateForceLayout (nodes : list KGNode.t)
  (edges : list KGEdge.t) (iterations : nat) : list Position :=
  let types := dedup (map KGNode.type nodes) in
  let table := typePositions (length types) in
  simulateFrom edges iterations (initialPositions types table nodes).

End WithMath.

(** The default of [iterations]. *)
Definition defaultIterations : nat := 150.

(** The exact value of a double that is finite. *)
Definition toQ (f : float) : option Q :=
  match FloatOps.Prim2SF f with
  | SpecFloat.S754_zero _ => Some (inject_Z 0)
  | SpecFloat.S754_finite s m e =>
      let v := if s then Z.neg m else Z.pos m in
      Some (if (0 <=? e)%Z then inject_Z (v * 2 ^ e)
            else Qmake v (Pos.pow 2 (Z.to_pos (- e))))
  | _ => None
  end.

(** The position lies outside the circle: the square of its distance from
    the centre, taken exactly, is greater than the square of the radius. *)
Definition outsideCircle (center radius : float) (p : Position) : Prop :=
  exists a b c r,
    toQ (x p) = Some a /\ toQ (y p) = Some b /\ toQ center = Some c
    /\ toQ radius = Some r
    /\ Qlt (r * r)%Q ((a - c) * (a - c) + (b - c) * (b - c))%Q.

(** A message with one fact between two entities of one type, and draws
    of [Math.random] for the two nodes of its graph. *)
Definition layout_facts_input : jsstring :=
  str "Retrieved Facts: " ++ bullet :: str " (T:" ++ dquote :: str "a" ++
  dquote :: str ") -[R]-> (T:" ++ dquote :: str "b" ++ dquote :: str ")".

Definition two_draws (k : nat) : float :=
  match k with
  | 0%nat => 0.25
  | 1%nat => 0.75
  | 2%nat => 0.5
  | _ => 0.25
  end.

End Layout.

(* ===================================================================== *)
(** ** Notions used to state the properties *)
(* ===================================================================== *)

(** [p] occurs in [s] at the front, letter case of ASCII letters aside. *)
Fixpoint startsWith_ci (p s : jsstring) : bool :=
  match p, s with
  | [], _ => true
  | x :: p', y :: s' => (is_ci x y && startsWith_ci p' s')%bool
  | _ :: _, [] => false
  end.

(** [p] occurs somewhere in [s], letter case aside: [s] holds the marker
    [p]. *)
Fixpoint includes_ci (p s : jsstring) : bool :=
  (startsWith_ci p s ||
   match s with
   | [] => false
   | _ :: s' => includes_ci p s'
   end)%bool.

(** The three parts of an input that [parseRetrievedFacts] looks for. *)
Definition preambleOf (input : jsstring) : option jsstring :=
  fst (splitChatResponse input).

Definition factsBlockOf (input : jsstring) : option jsstring :=
  factsBlock (extractBlocks (snd (splitChatResponse input))).

Definition sourcesBlockOf (input : jsstring) : option jsstring :=
  sourcesBlock (extractBlocks (snd (splitChatResponse input))).

(** *** The parts of a message, read off its text *)

(** The text that follows the first occurrence of the marker [label] in
    [s], letter case aside; [None] when [s] does not hold the marker. *)
Fixpoint afterMarker (label s : jsstring) : option jsstring :=
  if startsWith_ci label s then Some (skipn (length label) s)
  else match s with
       | [] => None
       | _ :: s' => afterMarker label s'
       end.

(** The text that precedes the first occurrence of the marker; the whole
    text when it does not hold the marker. *)
Fixpoint beforeMarker (label s : jsstring) : jsstring :=
  if startsWith_ci label s then []
  else match s with
       | [] => []
       | c :: s' => c :: beforeMarker label s'
       end.

(** The first place of a marker in [x ++ y]: the marker stands at [y]
    and nowhere before. *)
Definition firstAt (label x y : jsstring) : Prop :=
  startsWith_ci label y = true
  /\ forall x' y', x ++ y = x' ++ y' -> length x' < length x ->
                   startsWith_ci label y' = false.

(** The facts pattern can end at the text [t]: the end of the input, a
    [Sources:] marker, or a newline and white space before one. *)
Definition factsEndsAt (t : jsstring) : Prop :=
  t = []
  \/ startsWith_ci SOURCES_LABEL t = true
  \/ exists w r, t = newline :: w ++ r
                 /\ Forall (fun c => is_space c = true) w
                 /\ startsWith_ci SOURCES_LABEL r = true.

(** The [Chat Response:] marker, as the text shows it: the label at the
    very start of the text or right after a newline.  [chatMarkerAt] gives
    the length of the marker that stands at the head of [s], the newline
    included; [atStart] tells that [s] is the whole text. *)
Definition chatMarkerAt (atStart : bool) (s : jsstring) : option nat :=
  if (atStart && startsWith_ci CHAT_RESPONSE_LABEL s)%bool
  then Some (length CHAT_RESPONSE_LABEL)
  else match s with
       | c :: s' =>
           if (N.eqb newline c && startsWith_ci CHAT_RESPONSE_LABEL s')%bool
           then Some (S (length CHAT_RESPONSE_LABEL))
           else None
       | [] => None
       end.

(** The text before the first [Chat Response:] marker and the text after
    it, white space at its start aside; [None] without a marker. *)
Fixpoint chatSplitFrom (atStart : bool) (s : jsstring)
  : option (jsstring * jsstring) :=
  match chatMarkerAt atStart s with
  | Some k => Some ([], trimStart (skipn k s))
  | None =>
      match s with
      | [] => None
      | c :: s' =>
          option_map (fun pa => (c :: fst pa, snd pa))
                     (chatSplitFrom false s')
      end
  end.

(** The preamble of a message: what stands before the marker, trimmed. *)
Definition preambleText (input : jsstring) : option jsstring :=
  option_map (fun pa => trim (fst pa)) (chatSplitFrom true input).

(** The answer of a message: what follows the marker, or the whole
    message. *)
Definition answerText (input : jsstring) : jsstring :=
  match chatSplitFrom true input with
  | Some pa => snd pa
  | None => input
  end.

(** The facts text of an answer: what stands between the first
    [Retrieved Facts:] marker and the first [Sources:] marker after it,
    trimmed. *)
Definition factsText (answer : jsstring) : option jsstring :=
  option_map (fun t => trim (beforeMarker SOURCES_LABEL t))
             (afterMarker FACTS_LABEL answer).

(** The bullets of a message, read off its text: the facts text split at
    the bullet sign, each piece trimmed, the empty ones dropped. *)
Definition factBullets (input : jsstring) : list jsstring :=
  match factsText (answerText input) with
  | Some block => rawItems block
  | None => []
  end.

(** The source text of an answer: what follows its first [Sources:]
    marker, trimmed. *)
Definition sourcesText (answer : jsstring) : option jsstring :=
  option_map trim (afterMarker SOURCES_LABEL answer).

(** The source text that the answer gives after its facts: what follows
    the first [Sources:] marker after the [Retrieved Facts:] marker, or
    the first one of the answer when it has no facts marker. *)
Definition sourcesAfterFacts (answer : jsstring) : option jsstring :=
  match afterMarker FACTS_LABEL answer with
  | Some t => sourcesText t
  | None => sourcesText answer
  end.

(** The one shape of an answer that the null rule leaves out: a facts
    marker with nothing but white space up to a [Sources:] marker that
    follows it. *)
Definition sourcesRightAfterFacts (answer : jsstring) : Prop :=
  exists t, afterMarker FACTS_LABEL answer = Some t
            /\ truthy_opt (factsText answer) = false
            /\ includes_ci SOURCES_LABEL t = true.

(** Inputs of the null rule: a preamble and prose, a facts marker with
    white space only, a source list before the facts marker, and a source
    list right after a bare facts marker. *)
Definition preamble_only_input : jsstring :=
  str "trace 1" ++ newline :: str "Chat Response: hello".

Definition blank_facts_input : jsstring :=
  str "Hello" ++ newline :: str "Retrieved Facts:  " ++ [newline].

Definition sources_then_bare_facts_input : jsstring :=
  str "Sources: [1] https://a.com" ++ newline :: str "Retrieved Facts:".

(** An answer of the shape that the null rule leaves out. *)
Definition sources_right_after_facts_input : jsstring :=
  str "Retrieved Facts:" ++ newline :: str "Sources:" ++ newline ::
  str "[1] https://a.com".

(** A source list below prose, without facts. *)
Definition sources_alone_input : jsstring :=
  str "Intro" ++ newline :: str "Sources:" ++ newline ::
  str "[1] https://a.com".

(** The matcher stands at the start of the text. *)
Definition isnil (b : list N) : bool :=
  match b with [] => true | _ => false end.

(** The entities written in the bullets of a facts block, in the order of
    the text: for every bullet that parses, its left and its right one. *)
Definition occurrencesIn (sourceIndexToUrl : JSMap.t Z jsstring)
  (items : list jsstring) : list KGNode.t :=
  flat_map (fun item =>
              match parseBullet sourceIndexToUrl item with
              | Some (left_, right_, _, _, _) => [left_; right_]
              | None => []
              end)
           items.

Definition occurrences (sourceIndexToUrl : JSMap.t Z jsstring)
  (block : jsstring) : list KGNode.t :=
  occurrencesIn sourceIndexToUrl (rawItems block).

(** The entity occurrences of a whole input. *)
Definition occurrencesOf (input : jsstring) : list KGNode.t :=
  match factsBlockOf input with
  | Some block => occurrences (parseSourcesMap (sourcesBlockOf input)) block
  | None => []
  end.

(** An entity as [parseEntity] returns them: its id is made of its type
    and label, and its type is made of word characters. *)
Definition wellFormed (n : KGNode.t) : Prop :=
  KGNode.id n = makeNodeId (KGNode.type n) (KGNode.label n)
  /\ Forall (fun c => is_word c = true) (KGNode.type n).

(** [nodesById.has(id) || nodesById.set(id, n)] for the id of [n]. *)
Definition register (n : KGNode.t) (m : JSMap.t jsstring KGNode.t)
  : JSMap.t jsstring KGNode.t :=
  if JSMap.has jsstring_eqb (KGNode.id n) m then m
  else JSMap.set jsstring_eqb (KGNode.id n) n m.

(** The keys of the map are the ids of its nodes, without repetition, and
    its nodes are [known]. *)
Definition keyed (known : KGNode.t -> Prop) (m : JSMap.t jsstring KGNode.t)
  : Prop :=
  NoDup (JSMap.keys m)
  /\ forall k n, In (k, n) m -> k = KGNode.id n /\ known n.

Definition same_entity (a b : KGNode.t) : bool :=
  (jsstring_eqb (KGNode.type a) (KGNode.type b)
   && jsstring_eqb (KGNode.label a) (KGNode.label b))%bool.

(** The attribute [k] of a node. *)
Definition attr (k : jsstring) (n : KGNode.t) : option jsstring :=
  match KGNode.attrs n with
  | Some o => obj_get k o
  | None => None
  end.

(** The number of edge ends at the node id [k]: its degree in the full
    graph. *)
Definition incidentEnds (edges : list KGEdge.t) (k : jsstring) : nat :=
  length (filter (fun e => jsstring_eqb (KGEdge.source e) k) edges)
  + length (filter (fun e => jsstring_eqb (KGEdge.target e) k) edges).

(** [a <= degree <= b] for the two degree bounds. *)
Definition withinBounds (lo hi : bound) (degree : nat) : Prop :=
  match lo with
  | Finite n => (n <= Z.of_nat degree)%Z
  | Infinity => False
  end /\
  match hi with
  | Finite n => (Z.of_nat degree <= n)%Z
  | Infinity => True
  end.

(** [t] contains [p] as a substring. *)
Definition substring (p t : jsstring) : Prop :=
  exists pre post, t = pre ++ p ++ post.

(** A set passes everything when it is empty, and its members otherwise. *)
Definition passesSelection (x : jsstring) (selected : list jsstring) : Prop :=
  selected = [] \/ In x selected.

(** Lower-casing of the ASCII letters, an instance of the viewer's
    parameter. *)
Definition asciiLower (s : jsstring) : jsstring :=
  map (fun c => if N_between 65 90 c then (c + 32)%N else c) s.

(** A full triple line, [(a:Q x Q) -[REL]-> (b:Q y Q)] without the blanks
    around the labels and with Q the double quote. *)
Definition sample_triple_line : jsstring :=
  str "(a:" ++ dquote :: str "x" ++ dquote :: str ") -[REL]-> (b:" ++
  dquote :: str "y" ++ dquote :: str ")".

(** An answer whose source list precedes its facts line. *)
Definition sources_first_input : jsstring :=
  str "Sources: [1] https://a.com" ++ newline :: str "Retrieved Facts: " ++
  bullet :: str " " ++ sample_triple_line ++ str " [1]".

(** A message whose source list stands between its prose and its facts
    line. *)
Definition sources_between_input : jsstring :=
  str "Intro" ++ newline :: str "Sources:" ++ newline ::
  str "[1] https://a.com" ++ newline :: str "Retrieved Facts: " ++
  bullet :: str " " ++ sample_triple_line ++ str " [1]".

(** A facts block in which the second mention of an entity is the only one
    to give its [url]. *)
Definition second_mention_input : jsstring :=
  str "Retrieved Facts: " ++ bullet :: str " " ++ sample_triple_line ++
  str " " ++ bullet :: str " (a:" ++ dquote :: str "x" ++ dquote ::
  str " url=https://a.com) -[REL]-> (b:" ++ dquote :: str "y" ++ dquote ::
  str ")".

(** The bullets of an input: the items that the loop of
    [parseFactsBullets] goes through. *)
Definition bulletsOf (input : jsstring) : list jsstring :=
  match factsBlockOf input with
  | Some block => rawItems block
  | None => []
  end.

(** The two entities of a bullet that the loop accepts: the triple pattern
    matches and both entities parse.  A bullet that the loop skips, on
    either [continue], has none. *)
Definition bulletEntities (item : jsstring) : list KGNode.t :=
  match exec tripleRegex item with
  | Some m =>
      match parseEntity (grp 1 m), parseEntity (grp 3 m) with
      | Some left_, Some right_ => [left_; right_]
      | _, _ => []
      end
  | None => []
  end.

(** A facts block whose first bullet mentions [(a, x)] beside an entity
    that does not parse, and one in which both mentions do so. *)
Definition skipped_first_input : jsstring :=
  str "Retrieved Facts: " ++ bullet :: str " (a:" ++ dquote :: str "x" ++
  dquote :: str " url=https://first) -[R]-> (oops) " ++ bullet ::
  str " (a:" ++ dquote :: str "x" ++ dquote ::
  str " url=https://second) -[R]-> (b:" ++ dquote :: str "y" ++ dquote ::
  str ")".

Definition skipped_both_input : jsstring :=
  str "Retrieved Facts: " ++ bullet :: str " (a:" ++ dquote :: str "x" ++
  dquote :: str ") -[R]-> (oops) " ++ bullet :: str " (a:" ++ dquote ::
  str "x" ++ dquote :: str " url=https://a.com) -[R]-> (oops)".

(** Sample graph elements. *)
Definition sample_node (t l : String.string) : KGNode.t :=
  KGNode.mk (makeNodeId (str t) (str l)) (str t) (str l) None None None.
Arguments sample_node (t l)%_string.

Definition sample_edge (s t : KGNode.t) (rel : String.string) : KGEdge.t :=
  KGEdge.mk (str "e_0") (KGNode.id s) (KGNode.id t) (str rel) None None.
Arguments sample_edge s t rel%_string.

(* ===================================================================== *)
(** ** Escaping and tenants (api.ts), tenant resolution (route.ts) *)
(* ===================================================================== *)

(** [input.replace(r, f)] for a pattern with [g] and a replacement that
    depends on the match, as a replacement pattern with [$&] does. *)
Fixpoint replace_from_with (fuel : nat) (r : regex)
  (repl : nat * MState -> jsstring) (b a : list N) : jsstring :=
  match fuel with
  | O => a
  | S f =>
      match search r b a with
      | None => a
      | Some (i, s') =>
          firstn (i - length b) a ++ repl (i, s') ++
          (if length (before s') =? i
           then match after s' with
                | [] => []
                | c :: a' => c :: replace_from_with f r repl (c :: before s') a'
                end
           else replace_from_with f r repl (before s') (after s'))
      end
  end.

Definition replace_all_with (r : regex) (repl : nat * MState -> jsstring)
  (input : jsstring) : jsstring :=
  replace_from_with (S (length input)) r repl [] input.

(** The members of the class [[.*+?^${}()|[\]\\]]. *)
Definition is_special (c : N) : bool :=
  existsb (N.eqb c) (str ".*+?^${}()|[]" ++ [backslash]).

(** [s.replace(/[.*+?^${}()|[\]\\]/g, '\\$&')] *)
Definition escapeRegExp (s : jsstring) : jsstring :=
  replace_all_with (Chr is_special) (fun m => backslash :: m_0 m) s.

(** The [switch] of [brandIdToTenant]; [None] is a missing argument. *)
Definition brandIdToTenant (id : option jsstring) : jsstring :=
  match id with
  | Some s =>
      if jsstring_eqb s (str "letsgobegreeat") then str "lets_go_be_great"
      else if jsstring_eqb s (str "messinglaw") then str "messing_law"
      else if jsstring_eqb s (str "usi") then str "usi"
      else str "storyshift"
  | None => str "storyshift"
  end.

(** [searchParams.get(name) || undefined]: [get] returns [null] or a
    string. *)
Definition paramOrUndefined (p : option jsstring) : option jsstring :=
  match p with
  | Some (_ :: _) => p
  | _ => None
  end.

(** The tenant that the [GET] handler of the full-graph route settles on,
    from the query parameters [tenant] and [brandId]; [None] is the
    [bad_request:api] response of its [if (!tenant)]. *)
Definition resolveTenant (tenantParam brandIdParam : option jsstring)
  : option jsstring :=
  let rawTenant := paramOrUndefined tenantParam in
  let brandId := paramOrUndefined brandIdParam in
  let tenant :=
    match rawTenant with
    | Some t => t
    | None => brandIdToTenant brandId
    end in
  if negb (truthy tenant) then None else Some tenant.

(* ===================================================================== *)
(** ** The viewer: colours, citations and legend (knowledge-graph.tsx) *)
(* ===================================================================== *)

(** [ToInt32]: the signed 32-bit integer congruent to [z]. *)
Definition toInt32 (z : Z) : Z := ((z + 2 ^ 31) mod 2 ^ 32 - 2 ^ 31)%Z.

(** One turn of the hashing loop:
    [hash = (hash << 5) - hash + input.charCodeAt(i); hash |= 0].  The
    shift works on 32 bits; the subtraction and the addition are exact. *)
Definition hashStep (hash : Z) (c : N) : Z :=
  toInt32 (toInt32 (hash * 32) - hash + Z.of_N c).

Definition hashOf (input : jsstring) : Z := fold_left hashStep input 0%Z.

(** [Math.abs(hash) % 360] *)
Definition hueOf (input : jsstring) : Z := (Z.abs (hashOf input) mod 360)%Z.

Module Colors.
Record t : Type := mk {
  fill : jsstring;
  stroke : jsstring;
  glow : option jsstring
}.
End Colors.

(** [`hsl(${h} ${s}% ${l}%)`] *)
Definition hsl (h : Z) (s l : nat) : jsstring :=
  str "hsl(" ++ nat_to_jsstring (Z.to_nat h) ++ str " " ++
  nat_to_jsstring s ++ str "% " ++ nat_to_jsstring l ++ str "%)".

Definition hashColor (input : jsstring) : Colors.t :=
  let hue := hueOf input in
  Colors.mk (hsl hue 80 92) (hsl hue 60 45) None.

Definition modernColors : list Colors.t :=
  [ Colors.mk (hsl 210 100 95) (hsl 210 100 50) (Some (hsl 210 100 70));
    Colors.mk (hsl 142 76 95) (hsl 142 76 45) (Some (hsl 142 76 65));
    Colors.mk (hsl 262 83 95) (hsl 262 83 55) (Some (hsl 262 83 75));
    Colors.mk (hsl 346 87 95) (hsl 346 87 55) (Some (hsl 346 87 75));
    Colors.mk (hsl 31 91 95) (hsl 31 91 55) (Some (hsl 31 91 75));
    Colors.mk (hsl 199 89 95) (hsl 199 89 50) (Some (hsl 199 89 70));
    Colors.mk (hsl 48 96 95) (hsl 48 96 45) (Some (hsl 48 96 65));
    Colors.mk (hsl 280 100 95) (hsl 280 100 60) (Some (hsl 280 100 80)) ].

(** [brandColorForColumn(typeName, index)] for an integer [index] (the
    callers pass an array index or the result of [indexOf]).  [None] is
    [undefined], which [modernColors[index]] is for a negative index. *)
Definition brandColorForColumn (typeName : jsstring) (index : Z)
  : option Colors.t :=
  if (index <? Z.of_nat (length modernColors))%Z then
    if (index <? 0)%Z then None
    else nth_error modernColors (Z.to_nat index)
  else
    let hue := hueOf typeName in
    Some (Colors.mk (hsl hue 85 95) (hsl hue 70 50) (Some (hsl hue 70 70))).

(** [l.indexOf(x)]; -1 when [x] is not in [l]. *)
Fixpoint indexOf_from (i : Z) (x : jsstring) (l : list jsstring) : Z :=
  match l with
  | [] => (-1)%Z
  | y :: l' => if jsstring_eqb y x then i else indexOf_from (i + 1)%Z x l'
  end.

Definition indexOf (x : jsstring) (l : list jsstring) : Z :=
  indexOf_from 0%Z x l.

(** [types && types.length ? types : Array.from(new Set(...))] *)
Definition typeOrder (types : option (list jsstring))
  (filteredNodes : list KGNode.t) : list jsstring :=
  match types with
  | Some ((_ :: _) as ts) => ts
  | _ => dedup (map KGNode.type filteredNodes)
  end.

(** The colours of the positioned nodes, in the order of the nodes.
    [const { fill, stroke } = brandColorForColumn(...)] throws a TypeError
    on [undefined]; [None] is that exception. *)
Fixpoint all_some {A : Type} (l : list (option A)) : option (list A) :=
  match l with
  | [] => Some []
  | Some x :: l' => option_map (cons x) (all_some l')
  | None :: _ => None
  end.

Definition positionedColors (types : option (list jsstring))
  (filteredNodes : list KGNode.t) : option (list Colors.t) :=
  let order := typeOrder types filteredNodes in
  all_some
    (map (fun node =>
            brandColorForColumn (KGNode.type node)
                                (indexOf (KGNode.type node) order))
         filteredNodes).

(** [Array.from(new Set(arr)).sort((a, b) => a - b)] on integers. *)
Fixpoint dedupZ_acc (seen l : list Z) : list Z :=
  match l with
  | [] => []
  | x :: l' =>
      if existsb (Z.eqb x) seen then dedupZ_acc seen l'
      else x :: dedupZ_acc (x :: seen) l'
  end.

Definition dedupZ (l : list Z) : list Z := dedupZ_acc [] l.

Fixpoint insertZ (x : Z) (l : list Z) : list Z :=
  match l with
  | [] => [x]
  | y :: l' => if (x <=? y)%Z then x :: l else y :: insertZ x l'
  end.

Definition sortZ (l : list Z) : list Z := fold_right insertZ [] l.

Definition uniq (arr : list Z) : list Z := sortZ (dedupZ arr).

(** [map.get(id) ?? []] *)
Definition citationsIn (m : JSMap.t jsstring (list Z)) (id : jsstring)
  : list Z :=
  match JSMap.get jsstring_eqb id m with Some l => l | None => [] end.

(** The closure [add] of [citationsByNodeId]. *)
Definition addCitations (idxs : list Z) (id : jsstring)
  (m : JSMap.t jsstring (list Z)) : JSMap.t jsstring (list Z) :=
  JSMap.set jsstring_eqb id (uniq (citationsIn m id ++ idxs)) m.

(** [e.sourceIndices ?? []] *)
Definition sourceIndicesOf (e : KGEdge.t) : list Z :=
  match KGEdge.sourceIndices e with Some l => l | None => [] end.

(** One turn of the loop of [citationsByNodeId]. *)
Definition citationsStep (m : JSMap.t jsstring (list Z)) (e : KGEdge.t)
  : JSMap.t jsstring (list Z) :=
  match sourceIndicesOf e with
  | [] => m
  | idxs => addCitations idxs (KGEdge.target e)
              (addCitations idxs (KGEdge.source e) m)
  end.

Definition citationsByNodeId (edges : list KGEdge.t)
  : JSMap.t jsstring (list Z) :=
  fold_left citationsStep edges [].

(** [citationsByNodeId.get(n.id) ?? []] *)
Definition citationsOf (edges : list KGEdge.t) (id : jsstring) : list Z :=
  citationsIn (citationsByNodeId edges) id.

(** A row of [legendData]. *)
Record LegendRow : Type := mkLegendRow {
  legendType : jsstring;
  legendColors : option Colors.t;
  nodeCount : nat;
  displayedCount : nat;
  hiddenCount : Z
}.

Definition countOfType (type : jsstring) (l : list KGNode.t) : nat :=
  length (filter (fun n => jsstring_eqb (KGNode.type n) type) l).

(** [typeOrder.map((type, index) => ...)] from index [i] on; a positioned
    node has the type of the filtered node it comes from. *)
Fixpoint legendRows (i : Z) (order : list jsstring)
  (nodes positioned : list KGNode.t) : list LegendRow :=
  match order with
  | [] => []
  | type :: order' =>
      let nodeCount := countOfType type nodes in
      let displayedCount := countOfType type positioned in
      mkLegendRow type (brandColorForColumn type i) nodeCount displayedCount
                  (Z.of_nat nodeCount - Z.of_nat displayedCount)
      :: legendRows (i + 1)%Z order' nodes positioned
  end.

Section Legend.
Variable toLowerCase : jsstring -> jsstring.

Definition legendData (types : option (list jsstring))
  (nodes : list KGNode.t) (edges : list KGEdge.t) (fs : FilterState)
  : list LegendRow :=
  let v := view toLowerCase nodes edges fs in
  legendRows 0%Z (typeOrder types (filteredNodes v)) nodes (filteredNodes v).

End Legend.

(* ===================================================================== *)
(** ** The graph service (service.ts) *)
(* ===================================================================== *)

Definition STOPWORDS : list jsstring :=
  map str
    [ "the"; "a"; "an"; "and"; "or"; "but"; "if"; "then"; "else"; "when";
      "what"; "which"; "who"; "whom"; "this"; "that"; "those"; "these";
      "for"; "from"; "by"; "with"; "about"; "into"; "onto"; "over"; "to";
      "of"; "in"; "on"; "at"; "as"; "is"; "are"; "was"; "were"; "be";
      "been"; "being"; "do"; "does"; "did"; "doing"; "how"; "why"; "where";
      "can"; "could"; "should"; "would"; "may"; "might"; "will"; "i"; "you";
      "we"; "they"; "he"; "she"; "it"; "them"; "our"; "your"; "their"; "my";
      "me"; "us"; "his"; "her"; "provide"; "provides"; "provided";
      "providing"; "service"; "services" ]%string.

(** [[a-z0-9]] *)
Definition is_lower_alnum (c : N) : bool :=
  (N_between 97 122 c || is_digit c)%bool.

(** [/[a-z0-9]+/g] *)
Definition termRegex : regex := Plus (Chr is_lower_alnum).

(** The [filter] of [extractTerms], with its set [seen]. *)
Fixpoint filterTerms (seen tokens : list jsstring) : list jsstring :=
  match tokens with
  | [] => []
  | t :: tokens' =>
      if ((3 <=? length t) && negb (set_has t STOPWORDS)
          && negb (set_has t seen))%bool
      then t :: filterTerms (t :: seen) tokens'
      else filterTerms seen tokens'
  end.

Section Service.

(** [String.prototype.toLowerCase] is a parameter, as in the viewer. *)
Variable toLowerCase : jsstring -> jsstring.

Definition extractTerms (text : jsstring) : list jsstring :=
  let tokens := map m_0 (match_all termRegex (toLowerCase text)) in
  filterTerms [] tokens.

End Service.

(** The names that a plain object inherits from [Object.prototype]: reading
    one of them from an object that has no such property of its own gives
    a function (or the prototype), which is truthy. *)
Definition Object_prototype_keys : list jsstring :=
  map str
    [ "constructor"; "__defineGetter__"; "__defineSetter__";
      "hasOwnProperty"; "__lookupGetter__"; "__lookupSetter__";
      "isPrototypeOf"; "propertyIsEnumerable"; "toString"; "valueOf";
      "__proto__"; "toLocaleString" ]%string.

(** The object [urlToId] with the counter [nextId]. *)
Record UrlIndex : Type := mkUrlIndex {
  urlToId : JSMap.t jsstring nat;
  nextId : nat
}.

Definition emptyUrlIndex : UrlIndex := mkUrlIndex [] 1.

(** [urlToId[url]] is truthy: an own id other than zero, or an inherited
    property. *)
Definition urlKnown (url : jsstring) (m : JSMap.t jsstring nat) : bool :=
  match JSMap.get jsstring_eqb url m with
  | Some n => negb (n =? 0)
  | None => set_has url Object_prototype_keys
  end.

(** [if (url && !urlToId[url]) urlToId[url] = nextId++] for a [url] that
    is a string or [null]. *)
Definition maybeAddUrl (st : UrlIndex) (url : option jsstring) : UrlIndex :=
  match url with
  | Some u =>
      if (truthy u && negb (urlKnown u (urlToId st)))%bool
      then mkUrlIndex (JSMap.set jsstring_eqb u (nextId st) (urlToId st))
                      (S (nextId st))
      else st
  | None => st
  end.

(** The index built from the urls in the order the loops visit them. *)
Definition buildUrlIndex (urls : list (option jsstring)) : UrlIndex :=
  fold_left maybeAddUrl urls emptyUrlIndex.

(** [entries.sort(([, a], [, b]) => a - b)]: a stable sort on the ids. *)
Fixpoint insertById (x : jsstring * nat) (l : list (jsstring * nat))
  : list (jsstring * nat) :=
  match l with
  | [] => [x]
  | y :: l' => if snd x <=? snd y then x :: l else y :: insertById x l'
  end.

Definition sortById (l : list (jsstring * nat)) : list (jsstring * nat) :=
  fold_right insertById [] l.

(** A node as [nodeToDict] returns it, with string-valued properties:
    [labels] may be missing, a missing [name] reads as the empty string,
    [url] and [page_id] may be [null]. *)
Module Dict.
Record t : Type := mk {
  labels : option (list jsstring);
  name : jsstring;
  url : option jsstring;
  page_id : option jsstring
}.
End Dict.

(** [Array.isArray(labels) && labels.length > 0 ? labels[0] : 'Thing'] after
    [node.labels || ['Thing']] *)
Definition firstLabel (labels : option (list jsstring)) : jsstring :=
  match labels with
  | Some (l :: _) => l
  | _ => str "Thing"
  end.

Definition metaParts (node : Dict.t) : list jsstring :=
  (if truthy_opt (Dict.url node)
   then [str "url=" ++ match Dict.url node with Some u => u | None => [] end]
   else [])
  ++
  (if truthy_opt (Dict.page_id node)
   then [str "page=" ++
         match Dict.page_id node with Some p => p | None => [] end]
   else []).

(** [`(${label}:"${name}"${metaStr})`] *)
Definition formatNodeForPrompt (node : Dict.t) : jsstring :=
  let label := firstLabel (Dict.labels node) in
  let parts := metaParts node in
  let metaStr :=
    match parts with
    | [] => []
    | _ => str " " ++ join (str " ") parts
    end in
  str "(" ++ label ++ colon :: dquote :: Dict.name node ++ dquote ::
  metaStr ++ str ")".

(** [`${srcStr} -[${rel_type}]-> ${tgtStr} ${citationStr}`.trim()], the
    fact line of [buildContext] and of [queryWithGraphRAG]. *)
Definition factLine (src : Dict.t) (rel_type : jsstring) (tgt : Dict.t)
  (citationStr : jsstring) : jsstring :=
  trim (formatNodeForPrompt src ++ str " -[" ++ rel_type ++ str "]-> " ++
        formatNodeForPrompt tgt ++ str " " ++ citationStr).

(** [`${label}:${name}`], the [stableId] of [fetchEntireGraph] and the
    [toId] of the full-graph route. *)
Definition stableId (n : Dict.t) : jsstring :=
  firstLabel (Dict.labels n) ++ colon :: Dict.name n.

(* ===================================================================== *)
(** ** The text part of a message (message.tsx) *)
(* ===================================================================== *)

Record StructuredGraphRAGResponse : Type := mkStructuredGraphRAG {
  structured_response : StructuredResponse;
  response_sources : list Source;
  response_factsPreview : option (list jsstring)
}.

Record TextPartView : Type := mkTextPartView {
  parsedData : option StructuredParsedResponse;
  displayText : jsstring;
  hasKG : bool;
  hasDebugData : bool
}.

Section Message.

(** [detectStructuredResponse], which rests on [JSON.parse], is a
    parameter. *)
Variable detectStructuredResponse
  : jsstring -> option StructuredGraphRAGResponse.

(** What the [type === 'text'] branch derives in view mode from the role
    of the message and the text of the part.  A source map that the fact
    parser leaves undefined is copied as the map without entries:
    [hasDebugInfo], its only reader here, reads it through [|| {}]. *)
Definition renderTextPart (isAssistant : bool) (text : jsstring)
  : TextPartView :=
  let structuredResponse :=
    if isAssistant then detectStructuredResponse text else None in
  let parsedData :=
    match structuredResponse with
    | Some sr =>
        Some (parseStructuredGraphRAGResponse
                (structured_response sr) (response_sources sr)
                (response_factsPreview sr))
    | None =>
        if isAssistant then
          match parseRetrievedFacts text with
          | Some legacyParsed =>
              let p :=
                parseLegacyGraphRAGResponse
                  (ParsedFacts.cleanText legacyParsed) [] (Some []) in
              Some (mkParsed (chatResponse p) (researchTargets p)
                      (researchFindings p) (suggestedActions p)
                      (ParsedFacts.nodes legacyParsed)
                      (ParsedFacts.edges legacyParsed)
                      (ParsedFacts.types legacyParsed)
                      (match ParsedFacts.sourceIndexToUrl legacyParsed with
                       | Some m => m
                       | None => []
                       end)
                      (ParsedFacts.preamble legacyParsed)
                      (hasStructuredData p))
          | None => None
          end
        else None
    end in
  let displayText :=
    match parsedData with
    | Some p => if truthy (chatResponse p) then chatResponse p else text
    | None => text
    end in
  mkTextPartView parsedData displayText
    (match parsedData with
     | Some p => hasKnowledgeGraphData p
     | None => false
     end)
    (match parsedData with Some p => hasDebugInfo p | None => false end).

End Message.

(* ===================================================================== *)
(** ** Further notions used to state the properties *)
(* ===================================================================== *)

(** What [escapeRegExp] does to one code unit. *)
Definition escapeUnit (c : N) : jsstring :=
  if is_special c then [backslash; c] else [c].

(** The value of the polynomial [c0*31^(n-1) + ... + c(n-1)] that the
    hashing loop evaluates, from the accumulator [acc]. *)
Definition polyHash (acc : Z) (s : jsstring) : Z :=
  fold_left (fun h c => (h * 31 + Z.of_N c)%Z) s acc.

(** The edge [e] ends at the node id [k]. *)
Definition endsAt (k : jsstring) (e : KGEdge.t) : Prop :=
  KGEdge.source e = k \/ KGEdge.target e = k.

(** The ids [e_0], [e_1], ... of [n] edges counted from [k]. *)
Definition edgeIdsFrom (k n : nat) : list jsstring :=
  map (fun i => str "e_" ++ nat_to_jsstring i) (seq k n).

(** Strictly ascending order of code units. *)
Definition jsstring_lt (a b : jsstring) : Prop :=
  jsstring_leb a b = true /\ a <> b.

(** The filter state of a viewer that has just been mounted. *)
Definition initialFilter : FilterState :=
  mkFilter false [] [] [] (Finite 0) Infinity.

(** A node that carries nothing but its identity. *)
Definition bare (n : KGNode.t) : Prop :=
  KGNode.url n = None /\ KGNode.page n = None /\ KGNode.attrs n = None.

(** The identity of a node as the parsers build it: the id is the type, a
    colon and the label; the type is a non-empty word; the label is
    non-empty and holds no double quote. *)
Definition identified (n : KGNode.t) : Prop :=
  KGNode.id n = makeNodeId (KGNode.type n) (KGNode.label n)
  /\ KGNode.type n <> []
  /\ Forall (fun c => is_word c = true) (KGNode.type n)
  /\ KGNode.label n <> []
  /\ ~ In dquote (KGNode.label n).

(** The citation URLs that a list of indices resolves to:
    [idxs.map((i) => sourceIndexToUrl[i]).filter(Boolean)]. *)
Definition resolvedUrls (sourceIndexToUrl : JSMap.t Z jsstring)
  (idxs : list Z) : list jsstring :=
  filter truthy
    (filter_some (map (fun i => JSMap.get Z.eqb i sourceIndexToUrl) idxs)).

(** An edge whose URLs are those that its indices resolve to. *)
Definition cited (sourceIndexToUrl : JSMap.t Z jsstring) (e : KGEdge.t)
  : Prop :=
  match KGEdge.sourceIndices e with
  | Some idxs =>
      idxs <> [] /\ Forall (fun i => (0 <= i)%Z) idxs
      /\ KGEdge.sources e = nonempty_list (resolvedUrls sourceIndexToUrl idxs)
  | None => KGEdge.sources e = None
  end.

(** What the loop of [parseFactsBullets] keeps true. *)
Definition bulletShape (st : BulletState) : Prop :=
  edgeCounter st = length (bulletEdges st)
  /\ map KGEdge.id (bulletEdges st) = edgeIdsFrom 0 (length (bulletEdges st))
  /\ (forall e, In e (bulletEdges st) ->
        In (KGEdge.source e) (JSMap.keys (nodesById st))
        /\ In (KGEdge.target e) (JSMap.keys (nodesById st)))
  /\ (forall k, In k (JSMap.keys (nodesById st)) ->
        exists e, In e (bulletEdges st) /\ endsAt k e).

(** The nodes of the grouped parser's map: keyed by their ids, identified
    and bare. *)
Definition nodesOK (m : JSMap.t jsstring KGNode.t) : Prop :=
  keyed (fun n => identified n /\ bare n) m.

(** What the loop of [parseFactsPreviewGrouped] keeps true. *)
Definition groupedShape (sourceIndexToUrl : JSMap.t Z jsstring)
  (st : Grouped.State) : Prop :=
  nodesOK (Grouped.nodesById st)
  /\ (forall n, Grouped.currentCentral st = Some n ->
        In (KGNode.id n) (JSMap.keys (Grouped.nodesById st)))
  /\ Grouped.edgeCounter st = length (Grouped.edges st)
  /\ map KGEdge.id (Grouped.edges st)
     = edgeIdsFrom 0 (length (Grouped.edges st))
  /\ (forall e, In e (Grouped.edges st) ->
        In (KGEdge.source e) (JSMap.keys (Grouped.nodesById st))
        /\ In (KGEdge.target e) (JSMap.keys (Grouped.nodesById st)))
  /\ (forall e, In e (Grouped.edges st) -> cited sourceIndexToUrl e).

(** An entry of the source map: a non-negative index and a non-empty URL
    without white space. *)
Definition goodEntry (e : Z * jsstring) : Prop :=
  (0 <= fst e)%Z /\ snd e <> []
  /\ Forall (fun c => is_space c = false) (snd e).

(** A grouped relation line that no central node precedes. *)
Definition orphan_relation_line : jsstring :=
  str "-[REL]-> (b:" ++ dquote :: str "y" ++ dquote :: str ")".

(** An index that numbers its urls 1, 2, ... in the order of their
    registration. *)
Definition numbered (st : UrlIndex) : Prop :=
  map snd (urlToId st) = seq 1 (length (urlToId st))
  /\ nextId st = S (length (urlToId st))
  /\ NoDup (JSMap.keys (urlToId st)).

(** A url that [maybeAddUrl] can register. *)
Definition registrable (u : jsstring) : Prop :=
  u <> [] /\ ~ In u Object_prototype_keys.

(** The urls that [maybeAddUrl] can register, in the order in which a
    list of urls brings them up for the first time. *)
Definition registrableb (u : jsstring) : bool :=
  (truthy u && negb (set_has u Object_prototype_keys))%bool.

Definition firstMet (urls : list (option jsstring)) : list jsstring :=
  dedup (filter registrableb (filter_some urls)).

(** The first way a pattern runs from a state: what the matcher reports
    when it does not have to backtrack. *)
Definition leads (r : regex) (s s' : MState) : Prop :=
  exists rest, run r s = s' :: rest.

(** The text [rest] stops a run of the class [p]. *)
Definition stops (p : N -> bool) (rest : jsstring) : Prop :=
  match rest with
  | [] => True
  | c :: _ => p c = false
  end.

(** A property value that is set: [if (node.url)]. *)
Definition present (o : option jsstring) : option jsstring :=
  match o with
  | Some (_ :: _) => o
  | _ => None
  end.

(** The node that a fact line stands for. *)
Definition attrsOfDict (d : Dict.t) : JSObject :=
  match present (Dict.url d) with
  | Some u => [(str "url", u)]
  | None => []
  end ++
  match present (Dict.page_id d) with
  | Some p => [(str "page", p)]
  | None => []
  end.

Definition nodeOfDict (d : Dict.t) : KGNode.t :=
  KGNode.mk (stableId d) (firstLabel (Dict.labels d)) (Dict.name d)
            (present (Dict.url d)) (present (Dict.page_id d))
            (match attrsOfDict d with [] => None | a => Some a end).

(** A name that can stand between the quotes of a fact line, and a value
    that can follow [url=] or [page=]. *)
Definition plainName (s : jsstring) : bool :=
  forallb (fun c => negb (N.eqb c dquote || N.eqb c rparen || N.eqb c equals))
          s.

Definition plainValue (s : jsstring) : bool :=
  forallb (fun c => negb (is_space c || N.eqb c rparen || N.eqb c dquote)) s.

Definition plainOption (o : option jsstring) : bool :=
  match o with
  | Some v => plainValue v
  | None => true
  end.

(** A node that [formatNodeForPrompt] writes so that the fact parser can
    read it back. *)
Definition promptable (d : Dict.t) : bool :=
  (truthy (firstLabel (Dict.labels d))
   && forallb is_word (firstLabel (Dict.labels d))
   && truthy (Dict.name d) && plainName (Dict.name d)
   && plainOption (Dict.url d) && plainOption (Dict.page_id d))%bool.

(** Sample nodes of the graph service. *)
Definition sample_dict_service : Dict.t :=
  Dict.mk (Some [str "service"]) (str "risk mgmt")
          (Some (str "https://a.com/?q=1")) (Some (str "p7")).

Definition sample_dict_risk : Dict.t :=
  Dict.mk None (str "fraud") None None.

(** The text that [formatNodeForPrompt] puts between the parentheses. *)
Definition metaTail (kvs : JSObject) : jsstring :=
  flat_map (fun kv => str " " ++ fst kv ++ equals :: snd kv) kvs.

Definition entityText (d : Dict.t) : jsstring :=
  firstLabel (Dict.labels d) ++ colon :: dquote :: Dict.name d ++
  dquote :: metaTail (attrsOfDict d).

(* ===================================================================== *)
(** * Properties *)
(* ===================================================================== *)

(** ** Strings and maps *)

Lemma jsstring_eqb_eq (a b : jsstring) : jsstring_eqb a b = true <-> a = b.
Proof.
  revert b; induction a as [|x a IH]; intros [|y b]; simpl;
    try (split; congruence).
  rewrite andb_true_iff, N.eqb_eq, IH. split.
  - intros [-> ->]; reflexivity.
  - intros H; injection H; auto.
Qed.

Lemma jsstring_eqb_refl (a : jsstring) : jsstring_eqb a a = true.
Proof. apply jsstring_eqb_eq; reflexivity. Qed.

Lemma jsstring_eqb_neq (a b : jsstring) : jsstring_eqb a b = false <-> a <> b.
Proof.
  rewrite <- jsstring_eqb_eq. destruct (jsstring_eqb a b); split; congruence.
Qed.


Lemma set_has_In (x : jsstring) (s : list jsstring) :
  set_has x s = true <-> In x s.
Proof.
  unfold set_has; rewrite existsb_exists; split.
  - intros [y [Hy E]]; apply jsstring_eqb_eq in E; subst; assumption.
  - intros H; exists x; split; [assumption | apply jsstring_eqb_refl].
Qed.

Lemma startsWith_app (p s : jsstring) :
  startsWith p s = true <-> exists post, s = p ++ post.
Proof.
  revert s; induction p as [|x p IH]; intros s; simpl.
  - split; [intros _; exists s; reflexivity | reflexivity].
  - destruct s as [|y s].
    + split; [discriminate | intros [post H]; discriminate].
    + rewrite andb_true_iff, N.eqb_eq, IH. split.
      * intros [-> [post ->]]; exists post; reflexivity.
      * intros [post H]; injection H as -> ->; split; eauto.
Qed.

Lemma includes_substring (p s : jsstring) :
  includes p s = true <-> substring p s.
Proof.
  unfold substring; induction s as [|y s IH].
  - simpl; rewrite orb_false_r, startsWith_app; split.
    + intros [post H]; exists [], post; assumption.
    + intros [pre [post H]]. destruct pre; [exists post; assumption|discriminate].
  - cbn [includes]; rewrite orb_true_iff, IH, startsWith_app; split.
    + intros [[post H] | [pre [post H]]].
      * exists [], post; assumption.
      * exists (y :: pre), post; rewrite H; reflexivity.
    + intros [[|c pre] [post H]].
      * left; exists post; assumption.
      * right; injection H as _ H; exists pre, post; assumption.
Qed.

Module JSMapFacts.
Section WithKey.
Variables (K V : Type) (eqb : K -> K -> bool).
Hypothesis eqb_eq : forall a b, eqb a b = true <-> a = b.

Lemma eqb_refl k : eqb k k = true.
Proof. apply eqb_eq; reflexivity. Qed.

Lemma get_set_same k (v : V) m : JSMap.get eqb k (JSMap.set eqb k v m) = Some v.
Proof.
  induction m as [|[k' v'] m IH]; simpl.
  - rewrite eqb_refl; reflexivity.
  - destruct (eqb k k') eqn:E; simpl; rewrite E; auto.
Qed.

Lemma get_set_other k k' (v : V) m :
  k <> k' -> JSMap.get eqb k (JSMap.set eqb k' v m) = JSMap.get eqb k m.
Proof.
  intros Hne. induction m as [|[k2 v2] m IH]; simpl.
  - destruct (eqb k k') eqn:E; [apply eqb_eq in E; contradiction | reflexivity].
  - destruct (eqb k' k2) eqn:E; simpl.
    + apply eqb_eq in E; subst k2.
      destruct (eqb k k') eqn:E2; [apply eqb_eq in E2; contradiction|reflexivity].
    + destruct (eqb k k2); auto.
Qed.

Lemma set_absent k (v : V) m :
  JSMap.get eqb k m = None -> JSMap.set eqb k v m = m ++ [(k, v)].
Proof.
  induction m as [|[k' v'] m IH]; simpl; [reflexivity|].
  destruct (eqb k k'); [discriminate|]. intros H; rewrite IH; auto.
Qed.

Lemma get_none_keys k (m : JSMap.t K V) :
  JSMap.get eqb k m = None <-> ~ In k (JSMap.keys m).
Proof.
  unfold JSMap.keys. induction m as [|[k' v'] m IH]; simpl.
  - tauto.
  - destruct (eqb k k') eqn:E.
    + apply eqb_eq in E; subst. split; [discriminate | tauto].
    + rewrite IH. split.
      * intros H [H1|H1]; [subst; rewrite eqb_refl in E; discriminate | tauto].
      * tauto.
Qed.

Lemma get_some_in k (v : V) m :
  JSMap.get eqb k m = Some v -> In (k, v) m.
Proof.
  induction m as [|[k' v'] m IH]; simpl; [discriminate|].
  destruct (eqb k k') eqn:E.
  - apply eqb_eq in E; subst. intros H; injection H as ->; auto.
  - auto.
Qed.
End WithKey.
End JSMapFacts.

(** ** Degrees (the first memo of the viewer) *)

Lemma degreeOf_bump_same (m : DegreeMap) k :
  degreeOf (bump k m) k = degreeOf m k + 1.
Proof.
  unfold bump, degreeOf at 1.
  rewrite (JSMapFacts.get_set_same jsstring_eqb jsstring_eqb_eq); reflexivity.
Qed.

Lemma degreeOf_bump_other (m : DegreeMap) k k' :
  k <> k' -> degreeOf (bump k' m) k = degreeOf m k.
Proof.
  intros H. unfold bump, degreeOf at 1.
  rewrite (JSMapFacts.get_set_other jsstring_eqb jsstring_eqb_eq) by assumption; reflexivity.
Qed.

Lemma degreeOf_bump (m : DegreeMap) k k' :
  degreeOf (bump k' m) k
  = degreeOf m k + (if jsstring_eqb k' k then 1 else 0).
Proof.
  destruct (jsstring_eqb k' k) eqn:E.
  - apply jsstring_eqb_eq in E; subst. apply degreeOf_bump_same.
  - apply jsstring_eqb_neq in E. rewrite degreeOf_bump_other by congruence. lia.
Qed.

Lemma degreeOf_edges (edges : list KGEdge.t) (m : DegreeMap) k :
  degreeOf
    (fold_left (fun m e => bump (KGEdge.target e) (bump (KGEdge.source e) m))
               edges m) k
  = degreeOf m k + incidentEnds edges k.
Proof.
  revert m; induction edges as [|e edges IH]; intros m; simpl.
  - unfold incidentEnds; simpl; lia.
  - rewrite IH, !degreeOf_bump. unfold incidentEnds; simpl.
    destruct (jsstring_eqb (KGEdge.source e) k),
             (jsstring_eqb (KGEdge.target e) k); simpl; lia.
Qed.

Lemma degreeOf_nodes (nodes : list KGNode.t) (m : DegreeMap) k :
  degreeOf m k = 0 ->
  degreeOf
    (fold_left (fun m n => JSMap.set jsstring_eqb (KGNode.id n) 0 m) nodes m) k
  = 0.
Proof.
  revert m; induction nodes as [|n nodes IH]; intros m H; simpl; [assumption|].
  apply IH. unfold degreeOf.
  destruct (jsstring_eqb k (KGNode.id n)) eqn:E.
  - apply jsstring_eqb_eq in E; subst.
    rewrite (JSMapFacts.get_set_same jsstring_eqb jsstring_eqb_eq); reflexivity.
  - apply jsstring_eqb_neq in E.
    rewrite (JSMapFacts.get_set_other jsstring_eqb jsstring_eqb_eq) by assumption. exact H.
Qed.

Lemma graphStats_degree (nodes : list KGNode.t) (edges : list KGEdge.t) k :
  degreeOf (degreeMap (graphStats nodes edges)) k = incidentEnds edges k.
Proof.
  unfold graphStats.
  destruct (fold_left _ (JSMap.values _) (0, 0)) as [iso maxDeg]; simpl.
  rewrite degreeOf_edges, degreeOf_nodes; reflexivity.
Qed.

(** C6. Degree noninterference: whatever two filter states the viewer is
    in, the degree it reports for a node id is the same, namely the number
    of edge ends at that id in the full edge set. *)
Theorem degree_noninterference
  (toLowerCase : jsstring -> jsstring)
  (nodes : list KGNode.t) (edges : list KGEdge.t) (fs1 fs2 : FilterState)
  (k : jsstring) :
  degreeOf (degreeMap (stats (view toLowerCase nodes edges fs1))) k
  = degreeOf (degreeMap (stats (view toLowerCase nodes edges fs2))) k
  /\ degreeOf (degreeMap (stats (view toLowerCase nodes edges fs1))) k
     = incidentEnds edges k.
Proof.
  unfold view; simpl. rewrite graphStats_degree. split; reflexivity.
Qed.

(** ** Visibility (the filters of the second memo) *)

Lemma set_selection (x : jsstring) (selected : list jsstring) :
  (set_nonempty selected && negb (set_has x selected))%bool = false
  <-> passesSelection x selected.
Proof.
  unfold passesSelection. destruct selected as [|y l].
  - simpl. split; auto.
  - cbn [set_nonempty andb]. rewrite negb_false_iff, set_has_In.
    split; [auto | intros [H|H]; [discriminate|exact H]].
Qed.

Lemma bounds_spec (lo hi : bound) (degree : nat) :
  (lt_bound degree lo || gt_bound degree hi)%bool = false
  <-> withinBounds lo hi degree.
Proof.
  unfold withinBounds. rewrite orb_false_iff.
  destruct lo as [a|], hi as [b|]; simpl;
    rewrite ?Z.ltb_ge; intuition (try discriminate; auto).
Qed.

Lemma isolate_spec (show : bool) (degree : nat) :
  (negb show && (degree =? 0))%bool = false
  <-> (0 < degree \/ show = true).
Proof.
  destruct show; simpl.
  - split; auto.
  - rewrite Nat.eqb_neq. split.
    + intros H; left; lia.
    + intros [H|H]; [lia | discriminate].
Qed.

Section VisibilityRules.
Variable toLowerCase : jsstring -> jsstring.
Hypothesis toLowerCase_empty : toLowerCase [] = [].

Lemma search_spec (term label : jsstring) :
  (truthy term && negb (includes (toLowerCase term) (toLowerCase label)))%bool
  = false
  <-> substring (toLowerCase term) (toLowerCase label).
Proof.
  destruct term as [|c term]; simpl.
  - rewrite toLowerCase_empty. split; [|reflexivity].
    intros _. exists [], (toLowerCase label). reflexivity.
  - rewrite negb_false_iff. apply includes_substring.
Qed.

Lemma nodePasses_spec (dm : DegreeMap) (fs : FilterState) (n : KGNode.t) :
  nodePasses toLowerCase dm fs n = true <->
  passesSelection (KGNode.type n) (selectedEntityTypes fs)
  /\ substring (toLowerCase (searchTerm fs)) (toLowerCase (KGNode.label n))
  /\ withinBounds (minDegree fs) (maxDegree fs) (degreeOf dm (KGNode.id n))
  /\ (0 < degreeOf dm (KGNode.id n) \/ showIsolates fs = true).
Proof.
  rewrite <- set_selection, <- search_spec, <- bounds_spec, <- isolate_spec.
  unfold nodePasses.
  destruct (set_nonempty _ && negb (set_has _ _))%bool;
    [intuition discriminate|].
  destruct (truthy _ && negb (includes _ _))%bool; [intuition discriminate|].
  destruct (lt_bound _ _ || gt_bound _ _)%bool; [intuition discriminate|].
  destruct (negb _ && (_ =? 0))%bool; intuition discriminate.
Qed.

Lemma edgePasses_spec (nodeIds : list jsstring) (fs : FilterState)
  (e : KGEdge.t) :
  edgePasses nodeIds fs e = true <->
  In (KGEdge.source e) nodeIds /\ In (KGEdge.target e) nodeIds
  /\ passesSelection (KGEdge.label e) (selectedRelationTypes fs).
Proof.
  rewrite <- set_selection, <- !set_has_In. unfold edgePasses.
  destruct (set_has (KGEdge.source e) nodeIds),
           (set_has (KGEdge.target e) nodeIds); simpl;
    try (intuition discriminate).
  destruct (set_nonempty _ && negb (set_has _ _))%bool; intuition discriminate.
Qed.

(** C7. Visibility rules.  A node of the graph is visible exactly when
    its type passes the entity-type selection, the lower-cased search
    term is a substring of its lower-cased label, its degree in the full
    graph lies within the two bounds, and it has an edge or isolates are
    shown.  An edge is visible exactly when both its ends are ids of
    visible nodes and its label passes the relation-type selection. *)
Theorem visibility_rules
  (nodes : list KGNode.t) (edges : list KGEdge.t) (fs : FilterState) :
  let v := view toLowerCase nodes edges fs in
  (forall n,
      In n (filteredNodes v) <->
      In n nodes
      /\ passesSelection (KGNode.type n) (selectedEntityTypes fs)
      /\ substring (toLowerCase (searchTerm fs))
                   (toLowerCase (KGNode.label n))
      /\ withinBounds (minDegree fs) (maxDegree fs)
                      (incidentEnds edges (KGNode.id n))
      /\ (0 < incidentEnds edges (KGNode.id n) \/ showIsolates fs = true))
  /\
  (forall e,
      In e (filteredEdges v) <->
      In e edges
      /\ (exists n, In n (filteredNodes v) /\ KGNode.id n = KGEdge.source e)
      /\ (exists n, In n (filteredNodes v) /\ KGNode.id n = KGEdge.target e)
      /\ passesSelection (KGEdge.label e) (selectedRelationTypes fs)).
Proof.
  unfold view; simpl. split.
  - intros n. rewrite filter_In, nodePasses_spec, !graphStats_degree.
    reflexivity.
  - intros e. rewrite filter_In, edgePasses_spec, !in_map_iff.
    split.
    + intros [He [[n1 [E1 H1]] [[n2 [E2 H2]] Hr]]]. repeat split; eauto.
    + intros [He [[n1 [H1 E1]] [[n2 [H2 E2]] Hr]]]. repeat split; eauto.
Qed.

End VisibilityRules.

Lemma asciiLower_empty : asciiLower [] = [].
Proof. reflexivity. Qed.

(** The rules at a graph of three nodes and one edge, with the search term
    [FRA]: the node labelled [Fraud] is visible. *)
Lemma visibility_rules_witness :
  let a := sample_node "service" "Risk Mgmt" in
  let b := sample_node "risk" "Fraud" in
  let c := sample_node "risk" "fraud ring" in
  let e := sample_edge a b "ADDRESSES" in
  let fs := mkFilter false [] [] (str "FRA") (Finite 0) Infinity in
  asciiLower [] = []
  /\ In b (filteredNodes (view asciiLower [a; b; c] [e] fs)).
Proof.
  intros a b c e fs. split; [reflexivity|].
  pose proof (visibility_rules asciiLower asciiLower_empty [a; b; c] [e] fs)
    as H.
  cbv zeta in H. destruct H as [Hn _]. refine (proj2 (Hn b) _).
  split; [right; left; reflexivity|].
  split; [left; reflexivity|].
  split; [exists [], (str "ud"); reflexivity|].
  split; [split; vm_compute; [discriminate | exact I]|].
  left. vm_compute. lia.
Defined.

(** ** Canvas dimensions *)

Module DimensionsFacts.
Import Dimensions.

Section WithArithmetic.
Context {A : Arithmetic}.

Lemma int_mono (a b : Z) : (a <= b)%Z -> le (int a) (int b).
Proof. intros H. apply ofQ_mono. rewrite <- Zle_Qle. exact H. Qed.

Lemma int_refl (z : Z) : le (int z) (int z).
Proof. apply int_mono. lia. Qed.

Lemma int_positive (z : Z) : (0 < z <= 1000)%Z -> positive (int z).
Proof.
  intros [H0 H1]. apply positive_ofQ. split; [exact H0|].
  apply Z.le_trans with (1 := H1). apply Z.leb_le. vm_compute. reflexivity.
Qed.

Lemma count_mono (n1 n2 : nat) : n1 <= n2 -> le (count n1) (count n2).
Proof. intros H. apply int_mono. lia. Qed.

Lemma zero_le_div (a c : number) :
  positive c -> le (ofQ 0) a -> le (ofQ 0) (div a c).
Proof.
  intros Hc Ha. rewrite <- (div_zero_l c Hc). apply div_mono; assumption.
Qed.

(** [(nodeCount - 50) / 200] *)
Local Abbreviation excess n := (div (sub (count n) (int 50)) (int 200)).

Lemma excess_mono (n1 n2 : nat) : n1 <= n2 -> le (excess n1) (excess n2).
Proof.
  intros H. apply div_mono; [apply int_positive; lia|].
  apply sub_mono_l; [apply int_positive; lia|]. apply count_mono, H.
Qed.

Lemma excess_nonneg (n : nat) : 50 < n -> le (ofQ 0) (excess n).
Proof.
  intros H. apply zero_le_div; [apply int_positive; lia|].
  rewrite <- (sub_diag (int 50)) by (apply int_positive; lia).
  apply sub_mono_l; [apply int_positive; lia|].
  apply int_mono. lia.
Qed.

Lemma scaleFactor_le_one (n : nat) : le (scaleFactor n) (int 1).
Proof.
  unfold scaleFactor. destruct (50 <? n) eqn:E; [|apply int_refl].
  apply Nat.ltb_lt in E. apply max_lub.
  - apply ofQ_mono. unfold inject_Z, Qle. simpl. lia.
  - rewrite <- (sub_zero_r (int 1)) at 2 by (apply int_positive; lia).
    apply sub_anti_r; [apply int_positive; lia|]. apply excess_nonneg, E.
Qed.

Lemma scaleFactor_antitone (n1 n2 : nat) :
  n1 <= n2 -> le (scaleFactor n2) (scaleFactor n1).
Proof.
  intros H. pose proof (scaleFactor_le_one n2) as Hone.
  unfold scaleFactor in *.
  destruct (50 <? n1) eqn:E1, (50 <? n2) eqn:E2.
  - apply max_mono_r; [apply ofQ_mono, Qle_refl|].
    apply sub_anti_r; [apply int_positive; lia|]. apply excess_mono, H.
  - apply Nat.ltb_lt in E1. apply Nat.ltb_ge in E2. lia.
  - exact Hone.
  - apply int_refl.
Qed.

Lemma sizeMultiplier_monotone (n1 n2 : nat) :
  n1 <= n2 ->
  le (sqrt (div (count n1) (int 10))) (sqrt (div (count n2) (int 10))).
Proof.
  intros H. apply sqrt_mono.
  - apply zero_le_div; [apply int_positive; lia|].
    change (le (int 0) (int (Z.of_nat n1))). apply int_mono. lia.
  - apply div_mono; [apply int_positive; lia|]. apply count_mono, H.
Qed.

(** C9. Dimension monotonicity with minimums, in every arithmetic of the
    interface (the doubles of the source among them): for node counts
    [n1 <= n2] the canvas of [n1] is at most that of [n2] and the node
    width (and height) of [n1] is at least that of [n2]; for every node
    count the canvas is at least 800, the node width at least 80 and the
    node height at least 24. *)
Theorem dimensions_monotone (n1 n2 : nat) (Hle : n1 <= n2) :
  le (canvasSize (calculateDimensions n1)) (canvasSize (calculateDimensions n2))
  /\ le (nodeW (calculateDimensions n2)) (nodeW (calculateDimensions n1))
  /\ le (nodeH (calculateDimensions n2)) (nodeH (calculateDimensions n1))
  /\ (forall n : nat,
        le (int 800) (canvasSize (calculateDimensions n))
        /\ le (int 80) (nodeW (calculateDimensions n))
        /\ le (int 24) (nodeH (calculateDimensions n))).
Proof.
  assert (forall a b, a <= b ->
            le (mul (int 800) (sqrt (div (count a) (int 10))))
               (mul (int 800) (sqrt (div (count b) (int 10))))) as Hcanvas.
  { intros a b H. apply mul_mono; [apply int_positive; lia|].
    apply sizeMultiplier_monotone, H. }
  assert (forall w a b, (0 < w <= 1000)%Z -> a <= b ->
            le (mul (int w) (scaleFactor b)) (mul (int w) (scaleFactor a)))
    as Hnode.
  { intros w a b Hw H. apply mul_mono; [apply int_positive; exact Hw|].
    apply scaleFactor_antitone, H. }
  unfold calculateDimensions; cbn [canvasSize nodeW nodeH]. repeat split.
  - apply max_mono_r; [apply int_refl | apply Hcanvas, Hle].
  - apply max_mono_r; [apply int_refl | apply Hnode; [lia | exact Hle]].
  - apply max_mono_r; [apply int_refl | apply Hnode; [lia | exact Hle]].
  - apply max_l; [apply int_refl|]. apply (le_left _ _ (Hcanvas n n (le_n n))).
  - apply max_l; [apply int_refl|].
    apply (le_left _ _ (Hnode 120%Z n n ltac:(lia) (le_n n))).
  - apply max_l; [apply int_refl|].
    apply (le_left _ _ (Hnode 32%Z n n ltac:(lia) (le_n n))).
Qed.

End WithArithmetic.

(** *** The real numbers are an arithmetic of the interface *)

Lemma Q2R_inject_Z_pos (z : Z) : (0 < z <= 2 ^ 53)%Z -> (0 < Q2R (inject_Z z))%R.
Proof.
  intros [H _]. unfold Q2R, inject_Z. simpl.
  apply IZR_lt in H. lra.
Qed.

Lemma Rdiv_mono (a b c : R) : (0 < c -> a <= b -> a / c <= b / c)%R.
Proof.
  intros Hc H. unfold Rdiv. apply Rmult_le_compat_r; [|exact H].
  left. apply Rinv_0_lt_compat. exact Hc.
Qed.

Lemma Rmul_mono (a b c : R) : (0 < c -> a <= b -> c * a <= c * b)%R.
Proof. intros Hc H. apply Rmult_le_compat_l; [lra | exact H]. Qed.

Definition RealArithmetic : Arithmetic :=
  {| number := R;
     le := Rle;
     positive := fun c => (0 < c)%R;
     ofQ := Q2R;
     sub := Rminus;
     mul := Rmult;
     div := Rdiv;
     sqrt := R_sqrt.sqrt;
     max := Rmax;
     le_trans := Rle_trans;
     le_left := fun a _ _ => Rle_refl a;
     le_right := fun _ b _ => Rle_refl b;
     ofQ_mono := Qle_Rle;
     positive_ofQ := Q2R_inject_Z_pos;
     sub_mono_l := fun a b c _ H => Rplus_le_compat_r (- c) a b H;
     sub_anti_r :=
       fun a b c _ H => Rplus_le_compat_l c (- b) (- a)
                          (Ropp_le_contravar b a H);
     mul_mono := Rmul_mono;
     div_mono := Rdiv_mono;
     sqrt_mono := fun a b _ H => sqrt_le_1_alt a b H;
     max_l := fun a b _ _ => Rbasic_fun.Rmax_l a b;
     max_mono_r := fun a b c _ H => Rle_max_compat_l a b c H;
     max_lub := fun a b c => Rmax_lub a b c;
     sub_diag := fun c _ => eq_trans (Rminus_diag c) (eq_sym RMicromega.Q2R_0);
     sub_zero_r :=
       fun c _ => eq_trans (f_equal (Rminus c) RMicromega.Q2R_0) (Rminus_0_r c);
     div_zero_l :=
       fun c _ =>
         eq_trans (f_equal (fun x => Rdiv x c) RMicromega.Q2R_0)
                  (eq_trans (Rmult_0_l (/ c)) (eq_sym RMicromega.Q2R_0))
  |}.

(** Ten nodes against a hundred, over the real numbers. *)
Lemma dimensions_monotone_witness :
  10 <= 100
  /\ @le RealArithmetic
       (canvasSize (@calculateDimensions RealArithmetic 10))
       (canvasSize (@calculateDimensions RealArithmetic 100))
  /\ @le RealArithmetic
       (nodeW (@calculateDimensions RealArithmetic 100))
       (nodeW (@calculateDimensions RealArithmetic 10)).
Proof.
  split; [lia|].
  pose proof (@dimensions_monotone RealArithmetic 10 100 ltac:(lia))
    as (H1 & H2 & _).
  split; assumption.
Defined.

End DimensionsFacts.

(** ** The force layout *)

Module LayoutFacts.
Import PrimFloat Layout.
Local Open Scope float_scope.
#[local] Set Warnings "-inexact-float".

(** The decimal constants of the source, as the doubles they denote. *)
Example decimal_constants :
  0.85 = 0x1.b333333333333p-1 /\ 0.8 = 0x1.999999999999ap-1
  /\ 0.35 = 0x1.6666666666666p-2 /\ 0.2 = 0x1.999999999999ap-3
  /\ 0.05 = 0x1.999999999999ap-5 /\ 0.01 = 0x1.47ae147ae147bp-7
  /\ 0.008 = 0x1.0624dd2f1a9fcp-7 /\ 0.4 = 0x1.999999999999ap-2
  /\ 0.6 = 0x1.3333333333333p-1 /\ 0.7 = 0x1.6666666666666p-1.
Proof. repeat split. Qed.

(** What [calculateDimensions] gives for two nodes, and the circle that
    the layout derives from it. *)
Example dimensions_of_two :
  calculateDimensions 2 = (800, 120)
  /\ center 800 = 400 /\ radius 800 120 = 160
  /\ softBoundaryStart 800 120 = -20.
Proof. repeat split. Qed.

(** C5, at an input on which the code fails it.  Every position that
    [simulateForceLayout] returns should lie within the radius
    [canvasSize / 2 - 2 * nodeW] of the centre.  The graph that the parser
    returns for one fact between two entities of one type has two nodes
    and one edge; with the dimensions that [calculateDimensions] gives for
    two nodes (centre 400, radius 160) and the draws 0.25, 0.75, 0.5, 0.25
    of [Math.random], the hard cap of the last iteration leaves both
    nodes at points whose distance from the centre, taken exactly, is
    greater than 160; the distance computed in doubles is greater too.
    Only [Math.cos(0) = 1] and [Math.sin(0) = 0] are used of the two
    functions. *)
Theorem layout_leaves_the_circle (cos sin : float -> float) :
  cos 0 = 1 -> sin 0 = 0 ->
  exists r,
    parseRetrievedFacts layout_facts_input = Some r
    /\ map KGNode.id (ParsedFacts.nodes r) = [str "T:a"; str "T:b"]
    /\ map (fun e => (KGEdge.source e, KGEdge.target e)) (ParsedFacts.edges r)
       = [(str "T:a", str "T:b")]
    /\ let canvasSize :=
         fst (calculateDimensions (length (ParsedFacts.nodes r))) in
       let nodeW :=
         snd (calculateDimensions (length (ParsedFacts.nodes r))) in
       let positions :=
         simulateForceLayout cos sin two_draws canvasSize nodeW
                             (ParsedFacts.nodes r) (ParsedFacts.edges r)
                             defaultIterations in
       center canvasSize = 400
       /\ radius canvasSize nodeW = 160
       /\ map (fun p => (x p, y p)) positions
          = [(0x1.a01ca95dc28cfp+8, 0x1.1797e5b6edf04p+9);
             (0x1.f4881e1ca833cp+8, 0x1.1387119364692p+8)]
       /\ Forall (outsideCircle (center canvasSize) (radius canvasSize nodeW))
                 positions
       /\ Forall (fun p =>
                    let dx := x p - center canvasSize in
                    let dy := y p - center canvasSize in
                    (radius canvasSize nodeW <? sqrt (dx * dx + dy * dy))
                    = true)
                 positions.
Proof.
  intros Hcos Hsin. eexists. split; [vm_compute; reflexivity|].
  split; [reflexivity|]. split; [reflexivity|].
  cbv zeta. cbn [ParsedFacts.nodes ParsedFacts.edges].
  unfold simulateForceLayout.
  match goal with
  | |- context [typePositions _ _ _ ?n] =>
      replace n with 1%nat by reflexivity
  end.
  unfold typePositions. cbn [seq map].
  replace (ofNat 0 / ofNat 1 * 2 * Math_PI) with 0 by reflexivity.
  rewrite Hcos, Hsin.
  split; [reflexivity|]. split; [reflexivity|].
  match goal with
  | |- context [simulateFrom ?c ?w ?e ?i ?ps] =>
      let v := eval vm_compute in (simulateFrom c w e i ps) in
      replace (simulateFrom c w e i ps) with v by (vm_compute; reflexivity)
  end.
  split; [reflexivity|]. split.
  - repeat constructor;
      (do 4 eexists; repeat (split; [vm_compute; reflexivity|]);
       vm_compute; reflexivity).
  - repeat constructor.
Qed.

(** The theorem with functions that are constant. *)
Lemma layout_leaves_the_circle_witness :
  exists r,
    parseRetrievedFacts layout_facts_input = Some r
    /\ Forall (outsideCircle 400 160)
              (simulateForceLayout (fun _ => 1) (fun _ => 0) two_draws 800 120
                                   (ParsedFacts.nodes r) (ParsedFacts.edges r)
                                   150).
Proof.
  destruct (@layout_leaves_the_circle (fun _ => 1) (fun _ => 0)
              eq_refl eq_refl) as (r & Hr & Hn & _ & H).
  exists r. split; [exact Hr|].
  assert (length (ParsedFacts.nodes r) = 2%nat) as Hlen
      by (rewrite <- (length_map KGNode.id), Hn; reflexivity).
  cbv zeta in H. rewrite Hlen in H.
  destruct H as (_ & _ & _ & H & _). exact H.
Defined.

End LayoutFacts.

(** ** The grouped facts-preview parser *)

Module GroupedFacts.
Import Grouped.

Lemma parseEntity_edges (raw : jsstring) (st : State) :
  edges (snd (parseEntity raw st)) = edges st
  /\ edgeCounter (snd (parseEntity raw st)) = edgeCounter st
  /\ currentCentral (snd (parseEntity raw st)) = currentCentral st.
Proof.
  unfold parseEntity. destruct (exec groupedEntityRegex raw) as [m|]; simpl;
    [|auto].
  destruct (JSMap.get _ _ _); simpl; auto.
Qed.

Lemma parseEntity_result (raw : jsstring) (st : State) :
  match exec groupedEntityRegex raw with
  | Some m =>
      exists node,
        fst (parseEntity raw st) = Some node
        /\ JSMap.get jsstring_eqb (makeNodeId (grp 1 m) (grp 2 m))
                     (nodesById (snd (parseEntity raw st))) = Some node
  | None => parseEntity raw st = (None, st)
  end.
Proof.
  unfold parseEntity. destruct (exec groupedEntityRegex raw) as [m|]; [|auto].
  destruct (JSMap.get _ _ _) as [node|] eqn:E; simpl.
  - exists node; auto.
  - eexists; split; [reflexivity|].
    apply (JSMapFacts.get_set_same jsstring_eqb jsstring_eqb_eq).
Qed.

Lemma step_paren_edges
  (sourceIndexToUrl : JSMap.t Z jsstring) (st : State) (rawLine : jsstring) :
  startsWith [lparen] (trim rawLine) = true ->
  edges (step sourceIndexToUrl st rawLine) = edges st.
Proof.
  intros Hparen. unfold step.
  destruct (trim rawLine) as [|c line]; [discriminate Hparen|].
  cbn [truthy negb]. rewrite Hparen.
  pose proof (parseEntity_edges (c :: line) st) as (He & _ & _).
  destruct (parseEntity (c :: line) st) as [[node|] st1]; exact He.
Qed.

(** C10. A line that, once trimmed, begins with an opening parenthesis is
    consumed by the central-entity branch alone: the step appends no edge
    and leaves the edge counter as it was; when the line holds an entity,
    the current central entity becomes the node registered under the id of
    that entity, and otherwise the state is unchanged.  The full-triple
    branch is never reached for such a line. *)
Theorem paren_line_is_central
  (sourceIndexToUrl : JSMap.t Z jsstring) (st : State) (rawLine : jsstring)
  (Hparen : startsWith [lparen] (trim rawLine) = true) :
  let st' := step sourceIndexToUrl st rawLine in
  edges st' = edges st
  /\ edgeCounter st' = edgeCounter st
  /\ match exec groupedEntityRegex (trim rawLine) with
     | Some m =>
         exists node,
           currentCentral st' = Some node
           /\ JSMap.get jsstring_eqb (makeNodeId (grp 1 m) (grp 2 m))
                        (nodesById st') = Some node
     | None => st' = st
     end.
Proof.
  unfold step. destruct (trim rawLine) as [|c line] eqn:Eline;
    [discriminate Hparen|].
  cbn [truthy negb]. rewrite Hparen.
  pose proof (parseEntity_edges (c :: line) st) as (He & Hc & _).
  pose proof (parseEntity_result (c :: line) st) as Hr.
  destruct (exec groupedEntityRegex (c :: line)) as [m|].
  - destruct Hr as [node [Hf Hg]].
    destruct (parseEntity (c :: line) st) as [o st1]; simpl in *.
    subst o. simpl. repeat split; try assumption. exists node; auto.
  - rewrite Hr. auto.
Qed.

(** Lines that all begin with an opening parenthesis yield no edge at all,
    full triples among them. *)
Lemma paren_lines_no_edges
  (sourceIndexToUrl : JSMap.t Z jsstring) (lines : list jsstring) :
  Forall (fun l => startsWith [lparen] (trim l) = true) lines ->
  snd (fst (parseFactsPreviewGrouped lines sourceIndexToUrl)) = [].
Proof.
  unfold parseFactsPreviewGrouped, run_lines; simpl.
  assert (forall st,
             Forall (fun l => startsWith [lparen] (trim l) = true) lines ->
             edges (fold_left (step sourceIndexToUrl) lines st) = edges st)
    as Hgen.
  { induction lines as [|l lines IH]; intros st Hall; simpl; [reflexivity|].
    inversion Hall as [|? ? Hl Hrest]; subst.
    rewrite IH by assumption.
    apply (step_paren_edges sourceIndexToUrl st l Hl). }
  intros Hall. rewrite Hgen by assumption. reflexivity.
Qed.

(** The full triple line of the sample: the step from the initial state
    appends no edge and makes the left entity the central one. *)
Lemma paren_line_is_central_witness :
  startsWith [lparen] (trim sample_triple_line) = true
  /\ edges (step [] init sample_triple_line) = []
  /\ exists node,
       currentCentral (step [] init sample_triple_line) = Some node
       /\ KGNode.id node = str "a:x".
Proof.
  split; [reflexivity|].
  pose proof (@paren_line_is_central [] init sample_triple_line eq_refl)
    as (He & _ & _).
  split; [exact He|].
  eexists; split; vm_compute; reflexivity.
Defined.

End GroupedFacts.

(** ** The example of the specification *)

(** C2. On the example input the parser returns the two nodes, the one
    edge with citation index 1 and the source map of the specification,
    but the edge carries no citation URL: [sources] is [undefined].  The
    pattern that is meant to strip the brackets of [[1]] before [parseInt]
    strips nothing, so the index is NaN and resolves to no URL. *)
Theorem example_edge_has_no_citation_urls :
  parseRetrievedFacts example_input
  = Some (ParsedFacts.mk
            []
            [sample_node "service" "risk mgmt"; sample_node "risk" "fraud"]
            [KGEdge.mk (str "e_0") (str "service:risk mgmt") (str "risk:fraud")
                       (str "ADDRESSES") None (Some [1%Z])]
            [str "risk"; str "service"]
            (Some [(1%Z, str "https://a.com")])
            None)
  /\ replace_all bracketsRegex [] (str "[1]") = str "[1]"
  /\ parseInt (str "[1]") = None
  /\ replace_all nonDigitRegex [] (str "[1]") = str "1".
Proof. vm_compute. repeat split. Qed.

(** ** The normaliser *)

Lemma structured_chatResponse
  (sr : StructuredResponse) (sources : list Source)
  (factsPreview : option (list jsstring)) :
  chatResponse (parseStructuredGraphRAGResponse sr sources factsPreview)
  = cleanTextOr (structuredKgData (Chat_Response sr) factsPreview)
                (Chat_Response sr).
Proof.
  unfold parseStructuredGraphRAGResponse, structuredKgData.
  destruct (if truthy (Chat_Response sr)
            then parseRetrievedFacts (Chat_Response sr) else None) as [kg|];
    [reflexivity|].
  destruct factsPreview as [[|l lines]|]; try reflexivity.
  destruct (parseRetrievedFacts (join [newline] (l :: lines))) as [kg|];
    [reflexivity|].
  destruct (parseFactsPreviewGrouped _ _) as [[gn ge] gt]. reflexivity.
Qed.

Lemma structured_flag
  (sr : StructuredResponse) (sources : list Source)
  (factsPreview : option (list jsstring)) :
  hasStructuredData (parseStructuredGraphRAGResponse sr sources factsPreview)
  = true.
Proof.
  unfold parseStructuredGraphRAGResponse.
  destruct (if truthy (Chat_Response sr)
            then parseRetrievedFacts (Chat_Response sr) else None) as [kg|];
    [reflexivity|].
  destruct factsPreview as [[|l lines]|]; try reflexivity.
  destruct (parseRetrievedFacts (join [newline] (l :: lines))) as [kg|];
    [reflexivity|].
  destruct (parseFactsPreviewGrouped _ _) as [[gn ge] gt]. reflexivity.
Qed.

Lemma parseRetrievedFacts_empty : parseRetrievedFacts [] = None.
Proof. reflexivity. Qed.

(** C4, as the code has it.  For every structured payload
    [hasStructuredData] is true.  When the parser succeeds on
    [Chat_Response], [chatResponse] is its clean text if that is not
    empty, and the original [Chat_Response] if it is.  When graph
    extraction fails (no parse, of [Chat_Response] or of the facts
    preview, yields a result), [chatResponse] is the original
    [Chat_Response]. *)
Theorem structured_chatResponse_rule
  (sr : StructuredResponse) (sources : list Source)
  (factsPreview : option (list jsstring)) :
  let r := parseStructuredGraphRAGResponse sr sources factsPreview in
  hasStructuredData r = true
  /\ (forall kg,
        parseRetrievedFacts (Chat_Response sr) = Some kg ->
        chatResponse r
        = if truthy (ParsedFacts.cleanText kg) then ParsedFacts.cleanText kg
          else Chat_Response sr)
  /\ (structuredKgData (Chat_Response sr) factsPreview = None ->
      chatResponse r = Chat_Response sr).
Proof.
  cbv zeta. rewrite structured_flag, structured_chatResponse.
  split; [reflexivity|]. split.
  - intros kg Hkg. unfold structuredKgData.
    destruct (truthy (Chat_Response sr)) eqn:Et.
    + rewrite Hkg. reflexivity.
    + destruct (Chat_Response sr); [|discriminate].
      rewrite parseRetrievedFacts_empty in Hkg. discriminate.
  - intros Hnone. rewrite Hnone. reflexivity.
Qed.

(** The rule at an answer that is a fact block and nothing else: the clean
    text is empty, so [chatResponse] is the original text. *)
Lemma structured_chatResponse_rule_witness :
  let sr := mkStructuredResponse None example_input None in
  exists kg,
    parseRetrievedFacts (Chat_Response sr) = Some kg
    /\ chatResponse (parseStructuredGraphRAGResponse sr [] None)
       = if truthy (ParsedFacts.cleanText kg) then ParsedFacts.cleanText kg
         else Chat_Response sr.
Proof.
  intros sr.
  destruct (parseRetrievedFacts (Chat_Response sr)) as [kg|] eqn:E;
    [|vm_compute in E; discriminate].
  exists kg. split; [reflexivity|].
  pose proof (structured_chatResponse_rule sr [] None) as H.
  cbv zeta in H. destruct H as (_ & H & _). exact (H kg E).
Defined.

(** The specification's wording fails where the fact block opens the answer:
    the parser succeeds with an empty clean text, and [chatResponse] is
    the whole original text, fact block included. *)
Lemma chatResponse_keeps_fact_block :
  let sr := mkStructuredResponse None example_input None in
  exists kg,
    parseRetrievedFacts (Chat_Response sr) = Some kg
    /\ ParsedFacts.nodes kg <> []
    /\ ParsedFacts.cleanText kg = []
    /\ chatResponse (parseStructuredGraphRAGResponse sr [] None)
       = example_input
    /\ chatResponse (parseStructuredGraphRAGResponse sr [] None)
       <> ParsedFacts.cleanText kg.
Proof.
  eexists. split; [vm_compute; reflexivity|].
  split; [discriminate|]. split; [reflexivity|].
  split; [vm_compute; reflexivity|]. vm_compute. discriminate.
Qed.

(** ** The matcher *)

Module RegexFacts.

Lemma passes_refl (s : MState) : passes s s [].
Proof. split; reflexivity. Qed.

Lemma passes_consumed (s s' : MState) (x : jsstring) :
  passes s s' x -> consumed_since s s' = x.
Proof.
  intros [_ B]. unfold consumed_since. rewrite B, length_app, length_rev.
  replace (length x + length (before s) - length (before s)) with (length x)
    by lia.
  rewrite <- (length_rev x), firstn_app, Nat.sub_diag, firstn_all.
  simpl. rewrite app_nil_r. apply rev_involutive.
Qed.

Lemma in_run_seq (a b : regex) (s s' : MState) :
  In s' (run (Seq a b) s) <-> exists s1, In s1 (run a s) /\ In s' (run b s1).
Proof. simpl. apply in_flat_map. Qed.

Lemma in_run_alt (a b : regex) (s s' : MState) :
  In s' (run (Alt a b) s) <-> In s' (run a s) \/ In s' (run b s).
Proof. simpl. apply in_app_iff. Qed.

Lemma in_run_chr (p : N -> bool) (s s' : MState) :
  In s' (run (Chr p) s) <->
  exists c rest,
    after s = c :: rest /\ p c = true
    /\ s' = mkState (c :: before s) rest (groups s).
Proof.
  simpl. destruct (after s) as [|c rest].
  - split; [intros [] | intros (c & rest & H & _); discriminate].
  - destruct (p c) eqn:E; simpl.
    + split.
      * intros [<-|[]]. exists c, rest. auto.
      * intros (c' & rest' & H & _ & ->). injection H as <- <-. auto.
    + split; [intros [] |].
      intros (c' & rest' & H & Hp & _). injection H as <- <-. congruence.
Qed.

Lemma in_run_grp (i : nat) (a : regex) (s s' : MState) :
  In s' (run (Grp i a) s) <->
  exists s1, In s1 (run a s) /\ s' = record_group i s s1.
Proof.
  simpl. rewrite in_map_iff. split; intros [s1 [H1 H2]]; exists s1; auto.
Qed.

Lemma in_run_eol (s s' : MState) :
  In s' (run Eol s) <-> s' = s /\ after s = [].
Proof.
  simpl. destruct (after s); simpl; intuition (try discriminate; auto).
Qed.

Lemma in_star_zero (g : bool) (step : MState -> list MState) (fuel : nat)
  (s : MState) : In s (star_loop g step fuel s).
Proof.
  destruct fuel; simpl; [auto|].
  destruct g; [apply in_or_app; right|]; simpl; auto.
Qed.

Lemma in_run_star_zero (g : bool) (a : regex) (s : MState) :
  In s (run (Star g a) s).
Proof. apply in_star_zero. Qed.

(** Membership in the iterations of a loop, by cases. *)
Lemma in_star_loop (g : bool) (step : MState -> list MState) (fuel : nat)
  (s s' : MState) :
  In s' (star_loop g step (S fuel) s) <->
  s' = s \/
  exists s1, In s1 (step s) /\ progressed s s1 = true
             /\ In s' (star_loop g step fuel s1).
Proof.
  cbn [star_loop].
  assert (In s' (flat_map (fun s1 => if progressed s s1
                                     then star_loop g step fuel s1 else [])
                          (step s)) <->
          exists s1, In s1 (step s) /\ progressed s s1 = true
                     /\ In s' (star_loop g step fuel s1)) as Hmore.
  { rewrite in_flat_map. split; intros [s1 [H1 H2]]; exists s1.
    - destruct (progressed s s1); [auto | contradiction].
    - destruct H2 as [-> H2]. auto. }
  destruct g.
  - rewrite in_app_iff, Hmore. simpl. intuition.
  - simpl. rewrite Hmore. intuition.
Qed.

(** A loop over a character class passes text of that class and records
    nothing. *)
Lemma star_chr_passes (g : bool) (p : N -> bool) (fuel : nat) :
  forall s s',
    In s' (star_loop g (run (Chr p)) fuel s) ->
    exists x, passes s s' x /\ Forall (fun c => p c = true) x
              /\ groups s' = groups s.
Proof.
  induction fuel as [|fuel IH]; intros s s' H.
  - simpl in H. destruct H as [<-|[]]. exists []. split; [apply passes_refl|].
    auto.
  - apply in_star_loop in H. destruct H as [->|(s1 & H1 & _ & H2)].
    + exists []. split; [apply passes_refl|]. auto.
    + apply in_run_chr in H1. destruct H1 as (c & rest & Ha & Hp & ->).
      apply IH in H2. destruct H2 as (x & [A B] & Hx & Hg). simpl in *.
      exists (c :: x). split; [split|split].
      * rewrite Ha, A. reflexivity.
      * rewrite B. simpl. rewrite <- app_assoc. reflexivity.
      * constructor; assumption.
      * assumption.
Qed.

Lemma run_star_chr (g : bool) (p : N -> bool) (s s' : MState) :
  In s' (run (Star g (Chr p)) s) ->
  exists x, passes s s' x /\ Forall (fun c => p c = true) x
            /\ groups s' = groups s.
Proof. apply star_chr_passes. Qed.

Lemma run_plus_chr (p : N -> bool) (s s' : MState) :
  In s' (run (Plus (Chr p)) s) ->
  exists x, passes s s' x /\ Forall (fun c => p c = true) x
            /\ groups s' = groups s.
Proof.
  unfold Plus. rewrite in_run_seq. intros (s1 & H1 & H2).
  apply in_run_chr in H1. destruct H1 as (c & rest & Ha & Hp & ->).
  apply run_star_chr in H2. destruct H2 as (x & [A B] & Hx & Hg).
  simpl in *. exists (c :: x). split; [split|split].
  - rewrite Ha, A. reflexivity.
  - rewrite B. simpl. rewrite <- app_assoc. reflexivity.
  - constructor; assumption.
  - assumption.
Qed.

(** With enough fuel a loop over [[\s\S]] reaches the end of the input. *)
Lemma star_any_reaches_end (g : bool) (fuel : nat) :
  forall s,
    length (after s) <= fuel ->
    exists s', In s' (star_loop g (run (Chr any)) fuel s) /\ after s' = []
               /\ groups s' = groups s.
Proof.
  induction fuel as [|fuel IH]; intros s Hlen.
  - exists s. split; [apply in_star_zero|].
    destruct (after s); [auto | simpl in Hlen; lia].
  - destruct (after s) as [|c rest] eqn:Ea.
    + exists s. split; [apply in_star_zero | auto].
    + destruct (IH (mkState (c :: before s) rest (groups s)))
        as (s' & Hin & Hend & Hg); [simpl in *; lia|].
      exists s'. split; [|auto].
      apply in_star_loop. right.
      exists (mkState (c :: before s) rest (groups s)). split; [|split].
      * apply in_run_chr. exists c, rest. auto.
      * unfold progressed. simpl. rewrite Ea. simpl.
        apply negb_true_iff, Nat.eqb_neq. lia.
      * exact Hin.
Qed.

Lemma run_star_any_end (g : bool) (s : MState) :
  exists s', In s' (run (Star g (Chr any)) s) /\ after s' = [].
Proof.
  destruct (@star_any_reaches_end g (S (length (after s))) s)
    as (s' & H1 & H2 & _); [lia|].
  exists s'. auto.
Qed.

(** *** The matcher on small inputs *)

Example exec_facts_lazy :
  let input := str "Retrieved Facts: x" ++ newline :: str "Sources: y" in
  option_map (fun m => (m_index m, grp 1 m, length (m_0 m)))
             (exec factsRegex input)
  = Some (0, str "x", 27).
Proof. vm_compute. reflexivity. Qed.

Example exec_triple_groups :
  option_map (fun m => (grp 1 m, grp 2 m, grp 3 m))
             (exec tripleRegex (str "see (a b) -[ R ]->  (c) [1]"))
  = Some (str "a b", str " R ", str "c").
Proof. vm_compute. reflexivity. Qed.

Example match_all_source_entries :
  map (fun m => (grp 1 m, grp 2 m))
      (match_all sourceEntryRegex (str "[1] https://a [22]b, [x] c"))
  = [(str "1", str "https://a"); (str "22", str "b,")].
Proof. vm_compute. reflexivity. Qed.

Example word_boundary_key_value :
  map (fun m => (grp 1 m, grp 2 m))
      (match_all keyValueRegex (str "url=https://a?b=1 page=3) x= y"))
  = [(str "url", str "https://a?b=1"); (str "page", str "3")].
Proof. vm_compute. reflexivity. Qed.

Example replace_all_non_digits :
  replace_all nonDigitRegex [] (str "[12]") = str "12".
Proof. vm_compute. reflexivity. Qed.

Example trim_both_ends :
  trim (str "  a b ") = str "a b" /\ trimEnd (str " a  ") = str " a".
Proof. vm_compute. split; reflexivity. Qed.

Example lastIndexOf_newline :
  lastIndexOf newline (str "a" ++ newline :: str "b" ++ newline :: str "c") 2
  = Some 1
  /\ lastIndexOf newline (str "abc") (-1) = None.
Proof. vm_compute. split; reflexivity. Qed.

(** *** Literals *)

Lemma run_lit_ci_sound (l : jsstring) :
  forall s s', In s' (run (lit_ci l) s) -> startsWith_ci l (after s) = true.
Proof.
  induction l as [|c l IH]; intros s s' H; [reflexivity|].
  cbn [lit_ci] in H. apply in_run_seq in H. destruct H as (s1 & H1 & H2).
  apply in_run_chr in H1. destruct H1 as (c' & rest & Ha & Hp & ->).
  apply IH in H2. simpl in H2. rewrite Ha. simpl. rewrite Hp, H2. reflexivity.
Qed.

Lemma run_lit_ci_complete (l : jsstring) :
  forall s, startsWith_ci l (after s) = true ->
            exists s', In s' (run (lit_ci l) s).
Proof.
  induction l as [|c l IH]; intros s H.
  - exists s. simpl. auto.
  - destruct (after s) as [|c' rest] eqn:Ea; [discriminate|].
    simpl in H. apply andb_true_iff in H. destruct H as [Hc Hl].
    destruct (IH (mkState (c' :: before s) rest (groups s)) Hl) as [s' Hs'].
    exists s'. cbn [lit_ci]. apply in_run_seq.
    exists (mkState (c' :: before s) rest (groups s)). split; [|exact Hs'].
    apply in_run_chr. exists c', rest. auto.
Qed.

(** *** Search *)

Lemma search_none (r : regex) :
  forall a b,
    search r b a = None ->
    forall x y, a = x ++ y -> run r (mkState (rev x ++ b) y []) = [].
Proof.
  induction a as [|c a IH]; intros b H x y E; simpl in H.
  - destruct x; [|discriminate]. simpl in E; subst y. simpl.
    destruct (run r (mkState b [] [])); [reflexivity|discriminate].
  - destruct (run r (mkState b (c :: a) [])) eqn:R; [|discriminate].
    destruct x as [|c' x]; simpl in E.
    + subst y. exact R.
    + injection E as <- E. simpl. rewrite <- app_assoc. simpl.
      apply (IH (c :: b) H x y E).
Qed.

Lemma search_some (r : regex) :
  forall a b i s',
    search r b a = Some (i, s') ->
    exists x y,
      a = x ++ y /\ i = length b + length x
      /\ (exists rest, run r (mkState (rev x ++ b) y []) = s' :: rest)
      /\ (forall x' y', a = x' ++ y' -> length x' < length x ->
                        run r (mkState (rev x' ++ b) y' []) = []).
Proof.
  induction a as [|c a IH]; intros b i s' H; simpl in H.
  - destruct (run r (mkState b [] [])) as [|s0 rest] eqn:R; [discriminate|].
    injection H as <- <-. exists [], []. simpl.
    repeat split; eauto; try lia; try (intros x' y' _ Hl; simpl in Hl; lia).
  - destruct (run r (mkState b (c :: a) [])) as [|s0 rest] eqn:R.
    + apply IH in H. destruct H as (x & y & E & Hi & Hrun & Hleft).
      exists (c :: x), y. simpl in *. subst a.
      split; [reflexivity|]. split; [lia|]. split.
      * rewrite <- app_assoc. exact Hrun.
      * intros x' y' E' Hlen. destruct x' as [|c' x']; simpl in E'.
        -- subst y'. exact R.
        -- injection E' as <- E'. simpl. rewrite <- app_assoc. simpl.
           apply Hleft; [assumption | simpl in Hlen; lia].
    + injection H as <- <-. exists [], (c :: a). simpl.
      repeat split; eauto; try lia; try (intros x' y' _ Hl; simpl in Hl; lia).
Qed.

End RegexFacts.

(** ** Markers and blocks *)

Module MarkerFacts.
Import RegexFacts.

Lemma startsWith_ci_app (p y z : jsstring) :
  startsWith_ci p y = true -> startsWith_ci p (y ++ z) = true.
Proof.
  revert y; induction p as [|c p IH]; intros [|d y] H; simpl in *;
    try reflexivity; try discriminate.
  apply andb_true_iff in H. destruct H as [H1 H2].
  rewrite H1, (IH _ H2). reflexivity.
Qed.

Lemma startsWith_ci_length (p y : jsstring) :
  startsWith_ci p y = true -> length p <= length y.
Proof.
  revert y; induction p as [|c p IH]; intros [|d y] H; simpl in *;
    try lia; try discriminate.
  apply andb_true_iff in H. destruct H as [_ H]. apply IH in H. lia.
Qed.

Lemma includes_ci_split (p s : jsstring) :
  includes_ci p s = true <->
  exists x y, s = x ++ y /\ startsWith_ci p y = true.
Proof.
  induction s as [|c s IH].
  - cbn [includes_ci]. rewrite orb_false_r. split.
    + intros H. exists [], []. auto.
    + intros (x & y & E & H). destruct x, y; try discriminate. exact H.
  - cbn [includes_ci]. rewrite orb_true_iff, IH. split.
    + intros [H | (x & y & E & H)].
      * exists [], (c :: s). auto.
      * exists (c :: x), y. subst s. auto.
    + intros ([|d x] & y & E & H); simpl in E.
      * subst y. auto.
      * injection E as _ E. right. exists x, y. auto.
Qed.

Lemma includes_ci_false (p s : jsstring) :
  includes_ci p s = false <->
  forall x y, s = x ++ y -> startsWith_ci p y = false.
Proof.
  split.
  - intros H x y E. destruct (startsWith_ci p y) eqn:S; [|reflexivity].
    assert (includes_ci p s = true) by (apply includes_ci_split; eauto).
    congruence.
  - intros H. destruct (includes_ci p s) eqn:I; [|reflexivity].
    apply includes_ci_split in I. destruct I as (x & y & E & S).
    rewrite (H x y E) in S. discriminate.
Qed.

Lemma includes_ci_suffix (p x s : jsstring) :
  includes_ci p (x ++ s) = false -> includes_ci p s = false.
Proof.
  rewrite !includes_ci_false. intros H u v E. apply (H (x ++ u) v).
  rewrite E, app_assoc. reflexivity.
Qed.

Lemma includes_ci_skipn (p s : jsstring) (k : nat) :
  includes_ci p s = false -> includes_ci p (skipn k s) = false.
Proof.
  intros H. apply (@includes_ci_suffix p (firstn k s)).
  rewrite firstn_skipn. exact H.
Qed.

(** A prefix holds no marker that the whole text does not hold at the same
    place. *)
Lemma includes_ci_prefix (p pre post : jsstring) :
  includes_ci p (pre ++ post) = false -> includes_ci p pre = false.
Proof.
  rewrite !includes_ci_false. intros H u v E.
  destruct (startsWith_ci p v) eqn:S; [|reflexivity].
  rewrite <- (H u (v ++ post)).
  - symmetry. apply startsWith_ci_app. exact S.
  - rewrite E, app_assoc. reflexivity.
Qed.

Lemma dropWhile_suffix (p : N -> bool) (l : jsstring) :
  exists u, l = u ++ dropWhile p l.
Proof.
  induction l as [|c l [u IH]]; simpl.
  - exists []. reflexivity.
  - destruct (p c).
    + exists (c :: u). simpl. rewrite <- IH. reflexivity.
    + exists []. reflexivity.
Qed.

Lemma trimEnd_prefix (s : jsstring) : exists t, s = trimEnd s ++ t.
Proof.
  unfold trimEnd. destruct (dropWhile_suffix is_space (rev s)) as [u E].
  exists (rev u). rewrite <- rev_app_distr, <- E, rev_involutive. reflexivity.
Qed.

Lemma lastIndexOf_upto_le (c : N) (s : jsstring) :
  forall i bound j, lastIndexOf_upto c s i bound = Some j -> j <= i + bound.
Proof.
  induction s as [|x s IH]; intros i bound j H; simpl in H; [discriminate|].
  destruct bound as [|b].
  - destruct (N.eqb x c); [injection H as <-; lia | discriminate].
  - destruct (lastIndexOf_upto c s (S i) b) as [j'|] eqn:E.
    + injection H as <-. apply IH in E. lia.
    + destruct (N.eqb x c); [injection H as <-; lia | discriminate].
Qed.

(** *** The three marker patterns *)

Local Abbreviation factsTail :=
  (seqs [Star true ws; Grp 1 (Star false (Chr any));
         Alt (seqs [Chr (ch newline); Star true ws; lit_ci SOURCES_LABEL])
             (Alt (lit_ci SOURCES_LABEL) Eol)]).

Lemma factsRegex_eq : factsRegex = Seq (lit_ci FACTS_LABEL) factsTail.
Proof. reflexivity. Qed.

Lemma factsTail_total (s : MState) : exists s', In s' (run factsTail s).
Proof.
  destruct (run_star_any_end false s) as (s1 & H1 & Hend).
  exists (record_group 1 s s1).
  cbn [seqs]. apply in_run_seq.
  exists s. split; [apply in_run_star_zero|].
  apply in_run_seq. exists (record_group 1 s s1). split.
  - apply in_run_grp. exists s1. auto.
  - apply in_run_alt. right. apply in_run_alt. right.
    apply in_run_eol. split; [reflexivity | exact Hend].
Qed.

(** The facts pattern matches at a position exactly when the label stands
    there. *)
Lemma facts_run_iff (s : MState) :
  run factsRegex s <> [] <-> startsWith_ci FACTS_LABEL (after s) = true.
Proof.
  rewrite factsRegex_eq. split.
  - intros H. destruct (run (Seq (lit_ci FACTS_LABEL) factsTail) s)
      as [|s' rest] eqn:R; [contradiction|].
    assert (In s' (run (Seq (lit_ci FACTS_LABEL) factsTail) s)) as Hin
        by (rewrite R; left; reflexivity).
    apply in_run_seq in Hin. destruct Hin as (s1 & H1 & _).
    apply (@run_lit_ci_sound _ _ _ H1).
  - intros H. destruct (@run_lit_ci_complete _ _ H) as [s1 H1].
    destruct (factsTail_total s1) as [s2 H2].
    assert (In s2 (run (Seq (lit_ci FACTS_LABEL) factsTail) s)) as Hin
        by (apply in_run_seq; eauto).
    intros E. rewrite E in Hin. contradiction.
Qed.

Lemma exec_facts_none (input : jsstring) :
  exec factsRegex input = None <-> includes_ci FACTS_LABEL input = false.
Proof.
  split.
  - intros H. apply includes_ci_false. intros x y E.
    pose proof (@search_none _ _ _ H x y E) as R.
    destruct (startsWith_ci FACTS_LABEL y) eqn:S; [|reflexivity].
    exfalso. apply (proj2 (facts_run_iff (mkState (rev x ++ []) y [])) S R).
  - intros H. destruct (exec factsRegex input) as [[i s']|] eqn:E;
      [|reflexivity].
    apply search_some in E. destruct E as (x & y & E & _ & [rest R] & _).
    assert (startsWith_ci FACTS_LABEL y = true) as S.
    { apply (proj1 (facts_run_iff (mkState (rev x ++ []) y []))).
      rewrite R. discriminate. }
    rewrite (proj1 (includes_ci_false _ _) H x y E) in S. discriminate.
Qed.

(** The match of the facts pattern is at the first place where the label
    stands. *)
Lemma exec_facts_leftmost (input : jsstring) (m : nat * MState) :
  exec factsRegex input = Some m ->
  forall x y, input = x ++ y -> length x < m_index m ->
              startsWith_ci FACTS_LABEL y = false.
Proof.
  destruct m as [i s']. intros H x y E Hlen. simpl in Hlen.
  apply search_some in H. destruct H as (x0 & y0 & _ & Hi & _ & Hleft).
  simpl in Hi. subst i.
  pose proof (Hleft x y E Hlen) as R.
  destruct (startsWith_ci FACTS_LABEL y) eqn:S; [|reflexivity].
  exfalso. apply (proj2 (facts_run_iff (mkState (rev x ++ []) y [])) S R).
Qed.


(** A pattern that opens with a label matches only where the label
    stands. *)
Lemma exec_label_marker (label : jsstring) (tail : regex) (input : jsstring)
  (m : nat * MState) :
  exec (Seq (lit_ci label) tail) input = Some m ->
  includes_ci label input = true.
Proof.
  destruct m as [i s']. intros H.
  apply search_some in H. destruct H as (x & y & E & _ & [rest R] & _).
  assert (In s' (run (Seq (lit_ci label) tail) (mkState (rev x ++ []) y [])))
    as Hin by (rewrite R; left; reflexivity).
  apply in_run_seq in Hin. destruct Hin as (s1 & H1 & _).
  apply run_lit_ci_sound in H1. simpl in H1.
  apply includes_ci_split. eauto.
Qed.

Lemma exec_sources_marker (input : jsstring) (m : nat * MState) :
  exec sourcesRegex input = Some m -> includes_ci SOURCES_LABEL input = true.
Proof. apply exec_label_marker. Qed.

Lemma exec_chat_marker (input : jsstring) (m : nat * MState) :
  exec chatResponseRegex input = Some m ->
  includes_ci CHAT_RESPONSE_LABEL input = true.
Proof.
  destruct m as [i s']. intros H.
  apply search_some in H. destruct H as (x & y & E & _ & [rest R] & _).
  assert (In s' (run chatResponseRegex (mkState (rev x ++ []) y [])))
    as Hin by (rewrite R; left; reflexivity).
  unfold chatResponseRegex in Hin. cbn [seqs] in Hin.
  apply in_run_seq in Hin. destruct Hin as (s1 & H1 & H2).
  apply in_run_seq in H2. destruct H2 as (s2 & H2 & _).
  apply run_lit_ci_sound in H2.
  apply in_run_alt in H1. destruct H1 as [H1|H1].
  - simpl in H1. destruct (rev x ++ []); [|contradiction].
    destruct H1 as [<-|[]]. simpl in H2.
    apply includes_ci_split. eauto.
  - apply in_run_chr in H1. destruct H1 as (c & rest1 & Ha & _ & ->).
    simpl in Ha, H2. subst y.
    apply includes_ci_split. exists (x ++ [c]), rest1.
    rewrite <- app_assoc. auto.
Qed.

(** What [replace] leaves of a text from which the sources-only pattern
    cuts is the part before the match. *)
Lemma replace_sourcesOnly_prefix (input : jsstring) :
  exists post, input = replace sourcesOnlyRegex [] input ++ post.
Proof.
  unfold replace. destruct (exec sourcesOnlyRegex input) as [[i s']|] eqn:H.
  - apply search_some in H. destruct H as (x & y & E & _ & [rest R] & _).
    assert (In s' (run sourcesOnlyRegex (mkState (rev x ++ []) y [])))
      as Hin by (rewrite R; left; reflexivity).
    unfold sourcesOnlyRegex in Hin. cbn [seqs] in Hin.
    apply in_run_seq in Hin. destruct Hin as (s1 & _ & Hin).
    apply in_run_seq in Hin. destruct Hin as (s2 & _ & Hin).
    apply in_run_seq in Hin. destruct Hin as (s3 & _ & Hin).
    apply in_run_seq in Hin. destruct Hin as (s4 & _ & Hin).
    apply in_run_eol in Hin. destruct Hin as [-> Hend].
    simpl. rewrite Hend. exists (skipn i input).
    rewrite app_nil_r, firstn_skipn. reflexivity.
  - exists []. rewrite app_nil_r. reflexivity.
Qed.

(** *** The clean text holds no facts marker *)

Lemma cleanText_is_prefix_before (input : jsstring) (m : nat * MState) :
  let start :=
    match lastIndexOf newline input (Z.of_nat (m_index m) - 1) with
    | None => 0
    | Some i => i + 1
    end in
  exists post,
    input = trimEnd (slice_to start input) ++ post
    /\ length (trimEnd (slice_to start input)) <= Nat.max (m_index m) 1.
Proof.
  intros start.
  assert (start <= Nat.max (m_index m) 1) as Hstart.
  { unfold start, lastIndexOf.
    destruct (lastIndexOf_upto _ _ _ _) as [j|] eqn:E; [|lia].
    apply lastIndexOf_upto_le in E. lia. }
  destruct (trimEnd_prefix (slice_to start input)) as [t Ht].
  exists (t ++ skipn start input). split.
  - rewrite app_assoc, <- Ht. unfold slice_to. rewrite firstn_skipn.
    reflexivity.
  - assert (length (slice_to start input) <= start) as Hl
        by (unfold slice_to; apply firstn_le_length).
    rewrite Ht in Hl at 1. rewrite length_app in Hl. lia.
Qed.

Lemma FACTS_LABEL_length : length FACTS_LABEL = 16.
Proof. reflexivity. Qed.

Lemma cleanText_no_facts_marker (content : jsstring) :
  includes_ci FACTS_LABEL (blocksCleanText (extractBlocks content)) = false.
Proof.
  unfold extractBlocks. cbn [blocksCleanText].
  destruct (exec factsRegex content) as [m|] eqn:Hm.
  - destruct (cleanText_is_prefix_before content m) as (post & E & Hlen).
    cbv zeta in E, Hlen.
    set (ct := trimEnd _) in *.
    apply includes_ci_false. intros x y Ex.
    destruct (startsWith_ci FACTS_LABEL y) eqn:S; [|reflexivity].
    pose proof (startsWith_ci_length _ _ S) as Hy.
    rewrite FACTS_LABEL_length in Hy.
    assert (length ct = length x + length y) as Hct
        by (rewrite Ex, length_app; reflexivity).
    rewrite <- (@exec_facts_leftmost content m Hm x (y ++ post)).
    + symmetry. apply startsWith_ci_app. exact S.
    + rewrite E, Ex, app_assoc. reflexivity.
    + lia.
  - apply exec_facts_none in Hm.
    destruct (truthy_opt _).
    + destruct (replace_sourcesOnly_prefix content) as [post E].
      destruct (trimEnd_prefix (replace sourcesOnlyRegex [] content))
        as [t Et].
      apply (@includes_ci_prefix _ _ t). rewrite <- Et.
      apply (@includes_ci_prefix _ _ post). rewrite <- E. exact Hm.
    + exact Hm.
Qed.

(** *** The shape of a result *)

Lemma parseRetrievedFacts_some (input : jsstring) (r : ParsedFacts.t) :
  parseRetrievedFacts input = Some r ->
  let blocks := extractBlocks (snd (splitChatResponse input)) in
  let sourceMap := parseSourcesMap (sourcesBlock blocks) in
  ParsedFacts.cleanText r = blocksCleanText blocks
  /\ ParsedFacts.nodes r
     = match factsBlock blocks with
       | Some ((_ :: _) as block) => fst (parseFactsBullets block sourceMap)
       | _ => []
       end
  /\ ParsedFacts.edges r
     = match factsBlock blocks with
       | Some ((_ :: _) as block) => snd (parseFactsBullets block sourceMap)
       | _ => []
       end.
Proof.
  unfold parseRetrievedFacts.
  destruct (negb (truthy input)); [discriminate|].
  destruct (splitChatResponse input) as [pre content]. cbn [snd].
  generalize (extractBlocks content) as blocks; intros blocks.
  destruct (negb (truthy_opt pre) && _)%bool; [discriminate|].
  intros H; injection H as <-.
  cbn [ParsedFacts.cleanText ParsedFacts.nodes ParsedFacts.edges].
  destruct (factsBlock blocks) as [[|c b]|];
    cbn [truthy_opt truthy fst snd]; auto.
Qed.

Lemma splitChatResponse_suffix (input : jsstring) :
  exists k, snd (splitChatResponse input) = skipn k input.
Proof.
  unfold splitChatResponse. destruct (exec chatResponseRegex input) as [m|].
  - eexists. reflexivity.
  - exists 0. reflexivity.
Qed.

Lemma factsBlock_none (content : jsstring) :
  includes_ci FACTS_LABEL content = false ->
  factsBlock (extractBlocks content) = None.
Proof.
  intros H. apply exec_facts_none in H. unfold extractBlocks.
  rewrite H. reflexivity.
Qed.

Lemma no_marker_no_graph (text : jsstring) (r : ParsedFacts.t) :
  includes_ci FACTS_LABEL text = false ->
  parseRetrievedFacts text = Some r ->
  ParsedFacts.nodes r = [] /\ ParsedFacts.edges r = [].
Proof.
  intros Hno Hr. apply parseRetrievedFacts_some in Hr.
  destruct Hr as (_ & Hn & He).
  destruct (splitChatResponse_suffix text) as [k Hk].
  rewrite Hk in Hn, He.
  rewrite (@factsBlock_none _ (@includes_ci_skipn _ _ k Hno)) in Hn, He.
  auto.
Qed.

End MarkerFacts.

(** ** The null result, by what the parser extracts *)

Lemma exec_none_of_no_marker (r : regex) (label input : jsstring) :
  (forall m, exec r input = Some m -> includes_ci label input = true) ->
  includes_ci label input = false -> exec r input = None.
Proof.
  intros H Hno. destruct (exec r input) as [m|] eqn:E; [|reflexivity].
  rewrite (H m eq_refl) in Hno. discriminate.
Qed.

Lemma no_markers_null (input : jsstring) :
  includes_ci CHAT_RESPONSE_LABEL input = false ->
  includes_ci FACTS_LABEL input = false ->
  includes_ci SOURCES_LABEL input = false ->
  parseRetrievedFacts input = None.
Proof.
  intros Hc Hf Hs.
  assert (exec chatResponseRegex input = None) as Ec
      by (apply (@exec_none_of_no_marker _ _ _
                   (fun m => @MarkerFacts.exec_chat_marker input m) Hc)).
  assert (exec sourcesRegex input = None) as Es
      by (apply (@exec_none_of_no_marker _ _ _
                   (fun m => @MarkerFacts.exec_sources_marker input m) Hs)).
  apply MarkerFacts.exec_facts_none in Hf.
  unfold parseRetrievedFacts. destruct (negb (truthy input)); [reflexivity|].
  unfold splitChatResponse. rewrite Ec.
  unfold extractBlocks. rewrite Hf, Es. reflexivity.
Qed.

Lemma null_iff_nothing_found (input : jsstring) :
  parseRetrievedFacts input = None <->
  truthy_opt (preambleOf input) = false
  /\ truthy_opt (factsBlockOf input) = false
  /\ truthy_opt (sourcesBlockOf input) = false.
Proof.
  destruct input as [|c input].
  - split; [intros _; vm_compute; auto | reflexivity].
  - unfold parseRetrievedFacts, preambleOf, factsBlockOf, sourcesBlockOf.
    cbn [truthy negb].
    destruct (splitChatResponse (c :: input)) as [pre content].
    cbn [fst snd].
    generalize (extractBlocks content) as blocks; intros blocks.
    destruct (truthy_opt pre), (truthy_opt (factsBlock blocks)),
      (truthy_opt (sourcesBlock blocks)); cbn;
      split; try discriminate; intuition discriminate.
Qed.

(** ** Node merging *)

Module MergeFacts.
Import RegexFacts.

Lemma in_run_wordb (s s' : MState) : In s' (run Wordb s) -> s' = s.
Proof.
  simpl. destruct (at_word_boundary s); simpl; [|contradiction].
  intros [H|[]]; auto.
Qed.

Lemma chr_groups (p : N -> bool) (s s' : MState) :
  In s' (run (Chr p) s) -> groups s' = groups s.
Proof.
  intros H. apply in_run_chr in H. destruct H as (c & rest & _ & _ & ->).
  reflexivity.
Qed.

(** The first group of the type-and-label pattern is made of word
    characters. *)
Lemma typeLabel_type_word (raw : jsstring) (m : nat * MState) :
  exec typeLabelRegex raw = Some m ->
  Forall (fun c => is_word c = true) (grp 1 m).
Proof.
  destruct m as [i s']. intros H.
  apply search_some in H. destruct H as (x & y & _ & _ & [rest R] & _).
  assert (In s' (run typeLabelRegex (mkState (rev x ++ []) y [])))
    as Hin by (rewrite R; left; reflexivity).
  clear R. unfold typeLabelRegex in Hin. cbn [seqs] in Hin.
  apply in_run_seq in Hin. destruct Hin as (s1 & H1 & Hin).
  apply in_run_wordb in H1. subst s1.
  apply in_run_seq in Hin. destruct Hin as (s2 & H2 & Hin).
  apply in_run_grp in H2. destruct H2 as (s2' & H2 & ->).
  apply run_plus_chr in H2. destruct H2 as (t & Hpass & Hword & Hg2).
  apply in_run_seq in Hin. destruct Hin as (s3 & H3 & Hin).
  apply chr_groups in H3.
  apply in_run_seq in Hin. destruct Hin as (s4 & H4 & Hin).
  apply chr_groups in H4.
  apply in_run_seq in Hin. destruct Hin as (s5 & H5 & Hin).
  apply in_run_grp in H5. destruct H5 as (s5' & H5 & ->).
  apply run_plus_chr in H5. destruct H5 as (u & _ & _ & Hg5).
  apply chr_groups in Hin.
  unfold grp, m_group. cbn [snd]. rewrite Hin. cbn [record_group groups].
  rewrite Hg5, H4, H3. cbn [record_group groups assoc_nat Nat.eqb].
  rewrite (passes_consumed Hpass). exact Hword.
Qed.

Lemma parseEntity_some (raw : jsstring) (n : KGNode.t) :
  parseEntity raw = Some n ->
  KGNode.id n = makeNodeId (KGNode.type n) (KGNode.label n)
  /\ Forall (fun c => is_word c = true) (KGNode.type n).
Proof.
  unfold parseEntity.
  destruct (exec typeLabelRegex raw) as [m|] eqn:E.
  - destruct (negb (truthy (grp 1 m)) || negb (truthy (grp 2 m)))%bool;
      [discriminate|].
    intros H; injection H as <-. cbn. split; [reflexivity|].
    exact (@typeLabel_type_word _ _ E).
  - cbn. discriminate.
Qed.

Lemma is_word_colon (c : N) : is_word c = true -> c <> colon.
Proof. intros H ->. discriminate. Qed.

Lemma makeNodeId_inj (t1 l1 t2 l2 : jsstring) :
  Forall (fun c => is_word c = true) t1 ->
  Forall (fun c => is_word c = true) t2 ->
  makeNodeId t1 l1 = makeNodeId t2 l2 -> t1 = t2 /\ l1 = l2.
Proof.
  unfold makeNodeId. intros H1; revert t2.
  induction H1 as [|c t1 Hc H1 IH]; intros t2 H2 E.
  - destruct H2 as [|d t2 Hd H2]; simpl in E.
    + injection E as ->. auto.
    + injection E as <- _. exfalso. exact (is_word_colon Hd eq_refl).
  - destruct H2 as [|d t2 Hd H2]; simpl in E.
    + injection E as -> _. exfalso. exact (is_word_colon Hc eq_refl).
    + injection E as -> E. destruct (IH t2 H2 E) as [-> ->]. auto.
Qed.

Lemma wellFormed_same (a b : KGNode.t) :
  wellFormed a -> wellFormed b ->
  same_entity a b = jsstring_eqb (KGNode.id a) (KGNode.id b).
Proof.
  intros [Ia Wa] [Ib Wb]. unfold same_entity.
  destruct (jsstring_eqb (KGNode.id a) (KGNode.id b)) eqn:E.
  - apply jsstring_eqb_eq in E. rewrite Ia, Ib in E.
    destruct (@makeNodeId_inj _ _ _ _ Wa Wb E) as [-> ->].
    rewrite !jsstring_eqb_refl. reflexivity.
  - apply jsstring_eqb_neq in E.
    destruct (jsstring_eqb (KGNode.type a) (KGNode.type b)) eqn:Et;
      [|reflexivity].
    destruct (jsstring_eqb (KGNode.label a) (KGNode.label b)) eqn:El;
      [|reflexivity].
    apply jsstring_eqb_eq in Et, El. exfalso. apply E.
    rewrite Ia, Ib, Et, El. reflexivity.
Qed.

Lemma parseBullet_wellFormed (sourceMap : JSMap.t Z jsstring)
  (item : jsstring) (l r : KGNode.t) rel es ei :
  parseBullet sourceMap item = Some (l, r, rel, es, ei) ->
  wellFormed l /\ wellFormed r.
Proof.
  unfold parseBullet. destruct (exec tripleRegex item) as [m|]; [|discriminate].
  destruct (parseEntity (grp 1 m)) as [l'|] eqn:El; [|discriminate].
  destruct (parseEntity (grp 3 m)) as [r'|] eqn:Er; [|discriminate].
  intros H; injection H as <- <- _ _ _.
  split; [exact (@parseEntity_some _ _ El) | exact (@parseEntity_some _ _ Er)].
Qed.

Lemma occurrences_wellFormed (sourceMap : JSMap.t Z jsstring)
  (block : jsstring) (n : KGNode.t) :
  In n (occurrences sourceMap block) -> wellFormed n.
Proof.
  unfold occurrences, occurrencesIn. rewrite in_flat_map.
  intros (item & _ & H).
  destruct (parseBullet sourceMap item) as [[[[[l r] rel] es] ei]|] eqn:E;
    [|contradiction].
  destruct (@parseBullet_wellFormed _ _ _ _ _ _ _ E) as [Hl Hr].
  destruct H as [<-|[<-|[]]]; assumption.
Qed.

(** *** Registering nodes *)

Lemma get_register (n : KGNode.t) (m : JSMap.t jsstring KGNode.t) k :
  JSMap.get jsstring_eqb k (register n m)
  = match JSMap.get jsstring_eqb k m with
    | Some x => Some x
    | None => if jsstring_eqb k (KGNode.id n) then Some n else None
    end.
Proof.
  unfold register, JSMap.has.
  destruct (JSMap.get jsstring_eqb (KGNode.id n) m) as [x|] eqn:E.
  - destruct (JSMap.get jsstring_eqb k m) eqn:Ek; [reflexivity|].
    destruct (jsstring_eqb k (KGNode.id n)) eqn:Ekn; [|reflexivity].
    apply jsstring_eqb_eq in Ekn. subst k. congruence.
  - destruct (jsstring_eqb k (KGNode.id n)) eqn:Ekn.
    + apply jsstring_eqb_eq in Ekn. subst k.
      rewrite (JSMapFacts.get_set_same jsstring_eqb jsstring_eqb_eq), E.
      reflexivity.
    + apply jsstring_eqb_neq in Ekn.
      rewrite (JSMapFacts.get_set_other jsstring_eqb jsstring_eqb_eq)
        by assumption.
      destruct (JSMap.get jsstring_eqb k m); reflexivity.
Qed.

Lemma register_cases (n : KGNode.t) (m : JSMap.t jsstring KGNode.t) :
  register n m = m
  \/ (register n m = m ++ [(KGNode.id n, n)]
      /\ ~ In (KGNode.id n) (JSMap.keys m)).
Proof.
  unfold register, JSMap.has.
  destruct (JSMap.get jsstring_eqb (KGNode.id n) m) eqn:E; [left; reflexivity|].
  right. split.
  - apply (JSMapFacts.set_absent jsstring_eqb _ _ _ E).
  - apply (JSMapFacts.get_none_keys jsstring_eqb jsstring_eqb_eq). exact E.
Qed.

Lemma keyed_register (known : KGNode.t -> Prop) n m :
  known n -> keyed known m -> keyed known (register n m).
Proof.
  intros Hn [Hnd Hk]. destruct (register_cases n m) as [->|[-> Hfresh]].
  - split; assumption.
  - split.
    + unfold JSMap.keys in *. rewrite map_app. simpl.
      apply NoDup_app; [assumption | repeat constructor; auto | ].
      intros x Hx [<-|[]]. contradiction.
    + intros k x H. apply in_app_or in H. destruct H as [H|[H|[]]].
      * apply Hk; assumption.
      * injection H as <- <-. auto.
Qed.

Lemma bulletStep_nodes (sourceMap : JSMap.t Z jsstring) (st : BulletState)
  (item : jsstring) :
  nodesById (bulletStep sourceMap st item)
  = match parseBullet sourceMap item with
    | Some (l, r, _, _, _) => register r (register l (nodesById st))
    | None => nodesById st
    end.
Proof.
  unfold bulletStep.
  destruct (parseBullet sourceMap item) as [[[[[l r] rel] es] ei]|] eqn:E;
    [|reflexivity].
  destruct (@parseBullet_wellFormed _ _ _ _ _ _ _ E) as [[Il _] [Ir _]].
  cbn [nodesById]. unfold register. rewrite <- Il, <- Ir. reflexivity.
Qed.

Section Fold.
Variable sourceMap : JSMap.t Z jsstring.

Local Abbreviation occ := (occurrencesIn sourceMap).

Lemma fold_get (items : list jsstring) :
  forall st k,
    JSMap.get jsstring_eqb k
      (nodesById (fold_left (bulletStep sourceMap) items st))
    = match JSMap.get jsstring_eqb k (nodesById st) with
      | Some x => Some x
      | None => find (fun n => jsstring_eqb k (KGNode.id n)) (occ items)
      end.
Proof.
  induction items as [|item items IH]; intros st k; simpl.
  - destruct (JSMap.get _ _ _); reflexivity.
  - rewrite IH, bulletStep_nodes.
    destruct (parseBullet sourceMap item) as [[[[[l r] rel] es] ei]|].
    + rewrite !get_register. simpl.
      destruct (JSMap.get jsstring_eqb k (nodesById st)); [reflexivity|].
      destruct (jsstring_eqb k (KGNode.id l)); [reflexivity|].
      destruct (jsstring_eqb k (KGNode.id r)); reflexivity.
    + reflexivity.
Qed.

Lemma fold_keyed (known : KGNode.t -> Prop) (items : list jsstring) :
  (forall n, In n (occ items) -> known n) ->
  forall st,
    keyed known (nodesById st) ->
    keyed known (nodesById (fold_left (bulletStep sourceMap) items st)).
Proof.
  induction items as [|item items IH]; intros Hocc st Hst; simpl;
    [assumption|].
  simpl in Hocc. apply IH.
  - intros n Hn. apply Hocc. apply in_or_app. auto.
  - rewrite bulletStep_nodes.
    destruct (parseBullet sourceMap item) as [[[[[l r] rel] es] ei]|];
      [|assumption].
    apply keyed_register; [|apply keyed_register; [|assumption]];
      apply Hocc; simpl; auto.
Qed.
End Fold.

Lemma find_ext {A : Type} (p q : A -> bool) (l : list A) :
  (forall x, In x l -> p x = q x) -> find p l = find q l.
Proof.
  induction l as [|x l IH]; intros H; simpl; [reflexivity|].
  rewrite (H x) by (left; reflexivity).
  destruct (q x); [reflexivity|]. apply IH. intros y Hy. apply H. right; exact Hy.
Qed.

Lemma find_present {A : Type} (p : A -> bool) (l : list A) (x : A) :
  In x l -> p x = true -> exists y, find p l = Some y.
Proof.
  induction l as [|z l IH]; intros Hin Hp; simpl; [contradiction|].
  destruct (p z) eqn:E; [eauto|].
  destruct Hin as [->|Hin]; [congruence | auto].
Qed.

Lemma NoDup_map_compat {A B C : Type} (f : A -> B) (g : A -> C) (l : list A) :
  (forall x y, In x l -> In y l -> f x = f y -> g x = g y) ->
  NoDup (map g l) -> NoDup (map f l).
Proof.
  induction l as [|x l IH]; intros H Hnd; simpl; [constructor|].
  simpl in Hnd. inversion Hnd as [|? ? Hx Hl]; subst.
  constructor.
  - intros Hin. apply Hx. apply in_map_iff in Hin.
    destruct Hin as (y & Ey & Hy). apply in_map_iff. exists y. split; [|exact Hy].
    apply H; simpl; auto.
  - apply IH; [|assumption]. intros a b Ha Hb. apply H; simpl; auto.
Qed.

(** The nodes that [parseFactsBullets] returns, against the occurrences of
    the block. *)
Lemma parseFactsBullets_nodes (sourceMap : JSMap.t Z jsstring)
  (block : jsstring) :
  let ns := fst (parseFactsBullets block sourceMap) in
  let occ := occurrences sourceMap block in
  NoDup (map (fun n => (KGNode.type n, KGNode.label n)) ns)
  /\ (forall n, In n ns -> In n occ)
  /\ (forall e, In e occ ->
        exists n, In n ns
                  /\ KGNode.type n = KGNode.type e
                  /\ KGNode.label n = KGNode.label e
                  /\ find (same_entity e) occ = Some n).
Proof.
  intros ns occ. unfold parseFactsBullets in ns. cbn [fst] in ns.
  set (st := fold_left _ _ _) in ns.
  assert (keyed (fun n => In n occ) (nodesById st)) as [Hnd Hk].
  { apply fold_keyed; [auto|]. split; [constructor | intros k n []]. }
  assert (forall n, In n ns -> In (KGNode.id n, n) (nodesById st)) as Hns.
  { intros n Hn. unfold ns, JSMap.values in Hn. apply in_map_iff in Hn.
    destruct Hn as ([k x] & <- & Hx). simpl.
    destruct (Hk k x Hx) as [-> _]. exact Hx. }
  assert (forall n, In n ns -> In n occ) as Hsub.
  { intros n Hn. apply Hns in Hn. apply Hk in Hn. tauto. }
  split; [|split].
  - apply NoDup_map_compat with (g := KGNode.id).
    + intros x y Hx Hy E. injection E as Et El.
      destruct (occurrences_wellFormed _ _ _ (Hsub x Hx)) as [-> _].
      destruct (occurrences_wellFormed _ _ _ (Hsub y Hy)) as [-> _].
      rewrite Et, El. reflexivity.
    + replace (map KGNode.id ns) with (JSMap.keys (nodesById st));
        [assumption|].
      unfold ns, JSMap.keys, JSMap.values. rewrite map_map.
      apply map_ext_in. intros [k x] Hx. simpl. apply Hk. exact Hx.
  - exact Hsub.
  - intros e He.
    pose proof (fold_get sourceMap (rawItems block) (mkBulletState [] [] 0)
                  (KGNode.id e)) as Hget.
    cbn [nodesById JSMap.get] in Hget. fold st in Hget.
    change (occurrencesIn sourceMap (rawItems block)) with occ in Hget.
    destruct (find_present (fun n => jsstring_eqb (KGNode.id e) (KGNode.id n))
                occ e He (jsstring_eqb_refl _)) as [n Hfind].
    rewrite Hfind in Hget.
    apply (JSMapFacts.get_some_in jsstring_eqb jsstring_eqb_eq) in Hget.
    destruct (Hk _ _ Hget) as [Hid Hocc].
    pose proof (occurrences_wellFormed _ _ _ He) as We.
    pose proof (occurrences_wellFormed _ _ _ Hocc) as Wn.
    assert (same_entity e n = true) as Hsame
        by (rewrite (wellFormed_same We Wn), Hid; apply jsstring_eqb_refl).
    unfold same_entity in Hsame. apply andb_true_iff in Hsame.
    destruct Hsame as [Et El]. apply jsstring_eqb_eq in Et, El.
    exists n. repeat split; auto.
    + unfold ns, JSMap.values. apply in_map_iff. exists (KGNode.id e, n). auto.
    + rewrite <- Hfind. apply find_ext. intros x Hx.
      apply wellFormed_same; [assumption|].
      exact (occurrences_wellFormed _ _ _ Hx).
Qed.

End MergeFacts.

Lemma occurrences_empty_block (sourceMap : JSMap.t Z jsstring) :
  occurrences sourceMap [] = [].
Proof. reflexivity. Qed.

Lemma occurrences_accepted (input : jsstring) :
  occurrencesOf input = flat_map bulletEntities (bulletsOf input).
Proof.
  unfold occurrencesOf, bulletsOf, occurrences, occurrencesIn.
  destruct (factsBlockOf input) as [block|]; [|reflexivity].
  apply flat_map_ext. intros item.
  unfold parseBullet, bulletEntities.
  destruct (exec tripleRegex item) as [m|]; [|reflexivity].
  destruct (parseEntity (grp 1 m)), (parseEntity (grp 3 m)); reflexivity.
Qed.

(* ===================================================================== *)
(** * Further properties *)
(* ===================================================================== *)

(** ** Keys of a map *)

Module MapKeyFacts.
Section WithKey.
Variables (K V : Type) (eqb : K -> K -> bool).
Hypothesis eqb_eq : forall a b, eqb a b = true <-> a = b.

Lemma has_keys (m : JSMap.t K V) k :
  JSMap.has eqb k m = true <-> In k (JSMap.keys m).
Proof.
  unfold JSMap.has, JSMap.keys. induction m as [|[k' v'] m IH]; simpl.
  - split; [discriminate | contradiction].
  - destruct (eqb k k') eqn:E.
    + apply eqb_eq in E. subst. tauto.
    + rewrite IH. split; [tauto|]. intros [->|H]; [|exact H].
      rewrite (proj2 (eqb_eq k k) eq_refl) in E. discriminate.
Qed.

Lemma keys_set (m : JSMap.t K V) k (v : V) :
  JSMap.keys (JSMap.set eqb k v m)
  = if JSMap.has eqb k m then JSMap.keys m else JSMap.keys m ++ [k].
Proof.
  unfold JSMap.keys, JSMap.has.
  induction m as [|[k' v'] m IH]; simpl; [reflexivity|].
  destruct (eqb k k') eqn:E; simpl.
  - apply eqb_eq in E. subst. reflexivity.
  - rewrite IH. destruct (JSMap.get eqb k m); reflexivity.
Qed.

Lemma NoDup_keys_set (m : JSMap.t K V) k (v : V) :
  NoDup (JSMap.keys m) -> NoDup (JSMap.keys (JSMap.set eqb k v m)).
Proof.
  intros Hnd. rewrite keys_set.
  destruct (JSMap.has eqb k m) eqn:E; [assumption|].
  apply NoDup_app; [assumption | repeat constructor; auto |].
  intros x Hx [<-|[]]. apply has_keys in Hx. congruence.
Qed.

(** An entry of a map after [set] is the new one or an old one. *)
Lemma in_set (m : JSMap.t K V) k (v : V) k' v' :
  In (k', v') (JSMap.set eqb k v m) ->
  In (k', v') m \/ (k' = k /\ v' = v).
Proof.
  induction m as [|[k2 v2] m IH]; simpl.
  - intros [H|[]]. injection H as <- <-. auto.
  - destruct (eqb k k2) eqn:E; simpl.
    + apply eqb_eq in E. subst k2.
      intros [H|H]; [injection H as <- <-; auto | auto].
    + intros [H|H]; [auto|]. destruct (IH H); auto.
Qed.

End WithKey.
End MapKeyFacts.

(** ** Degree statistics *)

Module StatsFacts.

Local Abbreviation keys_set :=
  (MapKeyFacts.keys_set jsstring_eqb jsstring_eqb_eq).
Local Abbreviation has_keys :=
  (MapKeyFacts.has_keys jsstring_eqb jsstring_eqb_eq).
Local Abbreviation NoDup_keys_set :=
  (MapKeyFacts.NoDup_keys_set jsstring_eqb jsstring_eqb_eq).

Lemma sum_set (m : DegreeMap) k v :
  list_sum (JSMap.values (JSMap.set jsstring_eqb k v m)) + degreeOf m k
  = list_sum (JSMap.values m) + v.
Proof.
  unfold degreeOf, JSMap.values.
  induction m as [|[k' v'] m IH]; simpl.
  - lia.
  - destruct (jsstring_eqb k k') eqn:E; simpl; lia.
Qed.

Lemma sum_bump (m : DegreeMap) k :
  list_sum (JSMap.values (bump k m)) = list_sum (JSMap.values m) + 1.
Proof. unfold bump. pose proof (sum_set m k (degreeOf m k + 1)). lia. Qed.

Lemma sum_edges (edges : list KGEdge.t) (m : DegreeMap) :
  list_sum (JSMap.values
    (fold_left (fun m e => bump (KGEdge.target e) (bump (KGEdge.source e) m))
               edges m))
  = list_sum (JSMap.values m) + 2 * length edges.
Proof.
  revert m; induction edges as [|e edges IH]; intros m; simpl; [lia|].
  rewrite IH, !sum_bump. lia.
Qed.

Lemma zero_set (m : DegreeMap) k :
  Forall (fun v => v = 0) (JSMap.values m) ->
  Forall (fun v => v = 0) (JSMap.values (JSMap.set jsstring_eqb k 0 m)).
Proof.
  unfold JSMap.values. induction m as [|[k' v'] m IH]; simpl; intros H.
  - repeat constructor.
  - inversion H; subst. destruct (jsstring_eqb k k'); simpl; constructor; auto.
Qed.

Lemma zero_nodes (nodes : list KGNode.t) (m : DegreeMap) :
  Forall (fun v => v = 0) (JSMap.values m) ->
  Forall (fun v => v = 0)
    (JSMap.values
       (fold_left (fun m n => JSMap.set jsstring_eqb (KGNode.id n) 0 m)
                  nodes m)).
Proof.
  revert m; induction nodes as [|n nodes IH]; intros m H; simpl; [assumption|].
  apply IH, zero_set, H.
Qed.

Lemma sum_zero (l : list nat) : Forall (fun v => v = 0) l -> list_sum l = 0.
Proof. induction 1; simpl; lia. Qed.

(** The loop over the values: the count of zeros and the maximum. *)
Lemma stats_fold (l : list nat) (iso maxDeg : nat) :
  fold_left (fun '(iso, maxDeg) v =>
               ((if v =? 0 then S iso else iso), Nat.max maxDeg v))
            l (iso, maxDeg)
  = (iso + length (filter (fun v => v =? 0) l),
     fold_left Nat.max l maxDeg).
Proof.
  revert iso maxDeg; induction l as [|v l IH]; intros iso maxDeg; simpl.
  - f_equal; lia.
  - rewrite IH. destruct (v =? 0); simpl; f_equal; lia.
Qed.

Lemma fold_max_ge (l : list nat) (a : nat) :
  a <= fold_left Nat.max l a
  /\ (forall v, In v l -> v <= fold_left Nat.max l a)
  /\ (fold_left Nat.max l a = a \/ In (fold_left Nat.max l a) l).
Proof.
  revert a; induction l as [|v l IH]; intros a; simpl.
  - split; [lia|]. split; [intros v []|auto].
  - destruct (IH (Nat.max a v)) as (H1 & H2 & H3).
    split; [lia|]. split.
    + intros w [<-|Hw]; [lia | auto].
    + destruct H3 as [H3|H3]; [|auto].
      destruct (Nat.max_spec a v) as [[_ E]|[_ E]]; rewrite E in *.
      * right. left. symmetry. exact H3.
      * left. exact H3.
Qed.

Lemma graphStats_fields (nodes : list KGNode.t) (edges : list KGEdge.t) :
  let m := degreeMap (graphStats nodes edges) in
  isolatesCount (graphStats nodes edges)
  = length (filter (fun v => v =? 0) (JSMap.values m))
  /\ maxDegreeValue (graphStats nodes edges)
     = fold_left Nat.max (JSMap.values m) 0.
Proof.
  unfold graphStats. rewrite stats_fold. simpl. auto.
Qed.

(** The keys of a map and its degrees. *)
Lemma values_degreeOf (m : DegreeMap) :
  NoDup (JSMap.keys m) ->
  JSMap.values m = map (degreeOf m) (JSMap.keys m).
Proof.
  unfold JSMap.values, JSMap.keys, degreeOf.
  induction m as [|[k v] m IH]; simpl; intros Hnd; [reflexivity|].
  inversion Hnd as [|? ? Hk Hm]; subst.
  rewrite jsstring_eqb_refl. f_equal.
  rewrite (IH Hm). rewrite !map_map. apply map_ext_in.
  intros [k' v'] Hin. simpl.
  destruct (jsstring_eqb k' k) eqn:E; [|reflexivity].
  apply jsstring_eqb_eq in E. subst k'. exfalso. apply Hk.
  apply in_map_iff. exists (k, v'). auto.
Qed.

(** The keys of the degree map: the node ids without repetition, then the
    edge ends that are no node id. *)
Lemma dedup_acc_spec (seen l : list jsstring) :
  NoDup (dedup_acc seen l)
  /\ (forall x, In x (dedup_acc seen l) <-> In x l /\ ~ In x seen).
Proof.
  revert seen; induction l as [|x l IH]; intros seen; simpl.
  - split; [constructor|]. intros x; tauto.
  - destruct (existsb (jsstring_eqb x) seen) eqn:E.
    + apply set_has_In in E. destruct (IH seen) as [H1 H2].
      split; [assumption|]. intros y. rewrite H2. split.
      * tauto.
      * intros [[<-|Hy] Hn]; [contradiction | tauto].
    + assert (~ In x seen) as Hx.
      { intros Hin. apply set_has_In in Hin. unfold set_has in Hin. congruence. }
      destruct (IH (x :: seen)) as [H1 H2]. split.
      * constructor; [|assumption]. rewrite H2. simpl. tauto.
      * intros y. simpl. rewrite H2. simpl. split.
        -- intros [<-|[Hy Hn]]; [tauto|]. tauto.
        -- intros [[<-|Hy] Hn]; [tauto|].
           destruct (list_eq_dec N.eq_dec x y) as [->|Hne]; [tauto|]. tauto.
Qed.

Lemma dedup_spec (l : list jsstring) :
  NoDup (dedup l) /\ (forall x, In x (dedup l) <-> In x l).
Proof.
  destruct (dedup_acc_spec [] l) as [H1 H2]. split; [exact H1|].
  intros x. unfold dedup. rewrite H2. simpl. tauto.
Qed.

Lemma dedup_acc_ext (s1 s2 l : list jsstring) :
  (forall y, existsb (jsstring_eqb y) s1 = existsb (jsstring_eqb y) s2) ->
  dedup_acc s1 l = dedup_acc s2 l.
Proof.
  revert s1 s2; induction l as [|x l IH]; intros s1 s2 H; simpl;
    [reflexivity|].
  rewrite (H x). destruct (existsb (jsstring_eqb x) s2).
  - apply IH, H.
  - f_equal. apply IH. intros y. simpl. rewrite H. reflexivity.
Qed.

Lemma keys_nodes_acc (nodes : list KGNode.t) (m : DegreeMap) :
  JSMap.keys
    (fold_left (fun m n => JSMap.set jsstring_eqb (KGNode.id n) 0 m) nodes m)
  = JSMap.keys m ++ dedup_acc (JSMap.keys m) (map KGNode.id nodes).
Proof.
  revert m; induction nodes as [|n nodes IH]; intros m; simpl.
  - rewrite app_nil_r. reflexivity.
  - rewrite IH, keys_set.
    destruct (JSMap.has jsstring_eqb (KGNode.id n) m) eqn:E.
    + apply has_keys in E. apply set_has_In in E. unfold set_has in E.
      rewrite E. reflexivity.
    + assert (existsb (jsstring_eqb (KGNode.id n)) (JSMap.keys m) = false) as E'.
      { destruct (existsb _ _) eqn:E2; [|reflexivity].
        apply set_has_In, has_keys in E2. congruence. }
      rewrite E'. rewrite <- app_assoc. simpl.
      f_equal. f_equal. apply dedup_acc_ext.
      intros y. rewrite existsb_app. simpl.
      rewrite orb_false_r. apply orb_comm.
Qed.

Lemma NoDup_keys_nodes (nodes : list KGNode.t) (m : DegreeMap) :
  NoDup (JSMap.keys m) ->
  NoDup (JSMap.keys
    (fold_left (fun m n => JSMap.set jsstring_eqb (KGNode.id n) 0 m) nodes m)).
Proof.
  revert m; induction nodes as [|n nodes IH]; intros m H; simpl; [assumption|].
  apply IH, NoDup_keys_set, H.
Qed.

Lemma keys_bump (m : DegreeMap) k :
  JSMap.keys (bump k m)
  = if JSMap.has jsstring_eqb k m then JSMap.keys m else JSMap.keys m ++ [k].
Proof. apply keys_set. Qed.

Lemma keys_edges (edges : list KGEdge.t) (m : DegreeMap) :
  exists ext,
    JSMap.keys
      (fold_left (fun m e => bump (KGEdge.target e) (bump (KGEdge.source e) m))
                 edges m)
    = JSMap.keys m ++ ext
    /\ forall k, In k ext -> exists e, In e edges /\ endsAt k e.
Proof.
  revert m; induction edges as [|e edges IH]; intros m; simpl.
  - exists []. rewrite app_nil_r. split; [reflexivity | intros k []].
  - destruct (IH (bump (KGEdge.target e) (bump (KGEdge.source e) m)))
      as (ext & E & Hext).
    rewrite E, !keys_bump.
    assert (forall k, In k ext -> exists e0, (e = e0 \/ In e0 edges) /\ endsAt k e0)
      as Hext' by (intros k Hk; destruct (Hext k Hk) as (e0 & ? & ?); eauto).
    destruct (JSMap.has jsstring_eqb (KGEdge.source e) m);
      destruct (JSMap.has jsstring_eqb (KGEdge.target e) _);
      rewrite <- ?app_assoc; eexists; (split; [reflexivity|]);
      intros k Hk; simpl in Hk;
      repeat (destruct Hk as [<-|Hk]; [exists e; unfold endsAt; auto|]);
      auto.
Qed.

Lemma NoDup_keys_edges (edges : list KGEdge.t) (m : DegreeMap) :
  NoDup (JSMap.keys m) ->
  NoDup (JSMap.keys
    (fold_left (fun m e => bump (KGEdge.target e) (bump (KGEdge.source e) m))
               edges m)).
Proof.
  revert m; induction edges as [|e edges IH]; intros m H; simpl; [assumption|].
  apply IH. unfold bump. apply NoDup_keys_set, NoDup_keys_set, H.
Qed.

Lemma incidentEnds_pos (edges : list KGEdge.t) k e :
  In e edges -> endsAt k e -> 0 < incidentEnds edges k.
Proof.
  unfold incidentEnds. induction edges as [|x edges IH]; simpl; [contradiction|].
  intros [->|Hin] Hk.
  - destruct Hk as [Hk|Hk]; rewrite Hk, jsstring_eqb_refl; simpl; lia.
  - specialize (IH Hin Hk).
    destruct (jsstring_eqb (KGEdge.source x) k),
             (jsstring_eqb (KGEdge.target x) k); simpl; lia.
Qed.

Lemma filter_map_length {A : Type} (f : A -> nat) (l : list A) :
  length (filter (fun v => v =? 0) (map f l))
  = length (filter (fun k => f k =? 0) l).
Proof.
  induction l as [|x l IH]; simpl; [reflexivity|].
  destruct (f x =? 0); simpl; rewrite IH; reflexivity.
Qed.

Lemma graphStats_keys (nodes : list KGNode.t) (edges : list KGEdge.t) :
  let m := degreeMap (graphStats nodes edges) in
  NoDup (JSMap.keys m)
  /\ exists ext,
       JSMap.keys m = dedup (map KGNode.id nodes) ++ ext
       /\ forall k, In k ext -> exists e, In e edges /\ endsAt k e.
Proof.
  unfold graphStats.
  destruct (fold_left _ (JSMap.values _) (0, 0)) as [iso maxDeg].
  cbn [degreeMap]. split.
  - apply NoDup_keys_edges, NoDup_keys_nodes. constructor.
  - match goal with
    | |- context [fold_left _ edges ?m0] =>
        destruct (keys_edges edges m0) as (ext & E & Hext)
    end.
    exists ext. split; [|exact Hext].
    rewrite E, keys_nodes_acc. reflexivity.
Qed.

End StatsFacts.

(** X1. The degrees that the viewer counts add up to twice the number of
    edges: every edge is counted at its source and at its target,
    whether or not the two are nodes of the graph. *)
Theorem degree_sum_is_twice_edge_count
  (nodes : list KGNode.t) (edges : list KGEdge.t) :
  list_sum (JSMap.values (degreeMap (graphStats nodes edges)))
  = 2 * length edges.
Proof.
  unfold graphStats.
  destruct (fold_left _ (JSMap.values _) (0, 0)) as [iso maxDeg].
  cbn [degreeMap]. rewrite StatsFacts.sum_edges.
  rewrite StatsFacts.sum_zero; [reflexivity|].
  apply StatsFacts.zero_nodes. constructor.
Qed.

(** X2. [maxDegreeValue] is the greatest degree of the graph: no id has
    more edge ends, and some id has exactly that many. *)
Theorem maxDegreeValue_is_greatest_degree
  (nodes : list KGNode.t) (edges : list KGEdge.t) :
  (forall k, incidentEnds edges k <= maxDegreeValue (graphStats nodes edges))
  /\ exists k, incidentEnds edges k = maxDegreeValue (graphStats nodes edges).
Proof.
  destruct (StatsFacts.graphStats_fields nodes edges) as [_ Hmax].
  destruct (StatsFacts.graphStats_keys nodes edges) as [Hnd _].
  cbv zeta in Hmax, Hnd. rewrite Hmax.
  set (m := degreeMap (graphStats nodes edges)) in *.
  destruct (StatsFacts.fold_max_ge (JSMap.values m) 0) as (_ & Hge & Hat).
  assert (forall k, incidentEnds edges k <= fold_left Nat.max (JSMap.values m) 0)
    as Hall.
  { intros k. rewrite <- (graphStats_degree nodes edges k). fold m.
    unfold degreeOf. destruct (JSMap.get jsstring_eqb k m) as [v|] eqn:E; [|lia].
    apply Hge. apply (JSMapFacts.get_some_in jsstring_eqb jsstring_eqb_eq) in E.
    unfold JSMap.values. apply in_map_iff. exists (k, v). auto. }
  split; [exact Hall|].
  destruct Hat as [E0|Hin].
  - destruct edges as [|e edges].
    + exists []. rewrite E0. reflexivity.
    + exfalso. specialize (Hall (KGEdge.source e)).
      assert (0 < incidentEnds (e :: edges) (KGEdge.source e))
        by (apply StatsFacts.incidentEnds_pos with (e := e);
            [left; reflexivity | left; reflexivity]).
      lia.
  - rewrite (StatsFacts.values_degreeOf _ Hnd) in Hin at 2.
    apply in_map_iff in Hin. destruct Hin as (k & Hk & _).
    exists k. rewrite <- Hk. symmetry. apply graphStats_degree.
Qed.

(** X3. [isolatesCount] is the number of distinct node ids at which no
    edge ends. *)
Theorem isolatesCount_counts_isolated_ids
  (nodes : list KGNode.t) (edges : list KGEdge.t) :
  isolatesCount (graphStats nodes edges)
  = length (filter (fun k => incidentEnds edges k =? 0)
                   (dedup (map KGNode.id nodes))).
Proof.
  destruct (StatsFacts.graphStats_fields nodes edges) as [Hiso _].
  destruct (StatsFacts.graphStats_keys nodes edges) as [Hnd (ext & Hk & Hext)].
  cbv zeta in Hiso, Hnd, Hk. rewrite Hiso.
  rewrite (StatsFacts.values_degreeOf _ Hnd), StatsFacts.filter_map_length.
  rewrite (filter_ext _ (fun k => incidentEnds edges k =? 0));
    [|intros k; rewrite graphStats_degree; reflexivity].
  rewrite Hk, filter_app, length_app.
  replace (filter _ ext) with (@nil jsstring); [simpl; lia|].
  symmetry. clear Hk. induction ext as [|k ext IH]; simpl; [reflexivity|].
  destruct (Hext k (or_introl eq_refl)) as (e & He & Hend).
  pose proof (StatsFacts.incidentEnds_pos _ He Hend) as Hpos.
  destruct (incidentEnds edges k =? 0) eqn:E;
    [apply Nat.eqb_eq in E; lia|].
  apply IH. intros k' Hk'. apply Hext. right. exact Hk'.
Qed.

(** ** The type hash and the colours *)

Module ColorFacts.

Lemma toInt32_mod (z : Z) : (toInt32 z mod 2 ^ 32 = z mod 2 ^ 32)%Z.
Proof.
  unfold toInt32. rewrite Zminus_mod_idemp_l. f_equal. lia.
Qed.

Lemma toInt32_congr (a b : Z) :
  (a mod 2 ^ 32 = b mod 2 ^ 32)%Z -> toInt32 a = toInt32 b.
Proof.
  intros H. unfold toInt32.
  rewrite <- (Zplus_mod_idemp_l a), <- (Zplus_mod_idemp_l b), H. reflexivity.
Qed.

Lemma hashStep_toInt32 (x : Z) (c : N) :
  hashStep (toInt32 x) c = toInt32 (x * 31 + Z.of_N c).
Proof.
  unfold hashStep. apply toInt32_congr.
  rewrite <- Zplus_mod_idemp_l, <- Zminus_mod_idemp_l, toInt32_mod.
  rewrite <- (Zminus_mod_idemp_r _ (toInt32 x)), toInt32_mod.
  rewrite <- (Zmult_mod_idemp_l (toInt32 x)), toInt32_mod.
  rewrite Zmult_mod_idemp_l, Zminus_mod_idemp_r, Zminus_mod_idemp_l.
  rewrite Zplus_mod_idemp_l. f_equal. lia.
Qed.

Lemma hash_fold (s : jsstring) (x : Z) :
  fold_left hashStep s (toInt32 x) = toInt32 (polyHash x s).
Proof.
  revert x; induction s as [|c s IH]; intros x; simpl; [reflexivity|].
  rewrite hashStep_toInt32. apply IH.
Qed.

Lemma indexOf_from_In (x : jsstring) (l : list jsstring) (i : Z) :
  In x l -> (i <= indexOf_from i x l)%Z.
Proof.
  revert i; induction l as [|y l IH]; intros i; simpl; [contradiction|].
  intros H. destruct (jsstring_eqb y x) eqn:E; [lia|].
  destruct H as [->|H]; [rewrite jsstring_eqb_refl in E; discriminate|].
  specialize (IH (i + 1)%Z H). lia.
Qed.

Lemma brandColor_defined (t : jsstring) (i : Z) :
  (0 <= i)%Z -> exists c, brandColorForColumn t i = Some c.
Proof.
  intros Hi. unfold brandColorForColumn.
  destruct (i <? Z.of_nat (length modernColors))%Z eqn:E; [|eauto].
  apply Z.ltb_lt in E.
  destruct (i <? 0)%Z eqn:E0; [apply Z.ltb_lt in E0; lia|].
  destruct (nth_error modernColors (Z.to_nat i)) eqn:En; [eauto|].
  apply nth_error_None in En. lia.
Qed.

Lemma all_some_defined {A : Type} (l : list (option A)) :
  Forall (fun o => exists x, o = Some x) l ->
  exists xs, all_some l = Some xs /\ length xs = length l.
Proof.
  induction 1 as [|o l [x ->] _ (xs & E & Hl)]; simpl.
  - exists []. auto.
  - rewrite E. exists (x :: xs). simpl. auto.
Qed.

Lemma insert_sorted_In (x y : jsstring) (l : list jsstring) :
  In y (insert_sorted x l) <-> y = x \/ In y l.
Proof.
  induction l as [|z l IH]; simpl; [intuition congruence|].
  destruct (jsstring_leb x z); simpl; [intuition congruence|].
  rewrite IH. intuition congruence.
Qed.

Lemma sort_In (y : jsstring) (l : list jsstring) : In y (sort l) <-> In y l.
Proof.
  unfold sort. induction l as [|x l IH]; simpl; [tauto|].
  rewrite insert_sorted_In, IH. intuition congruence.
Qed.

Lemma types_cover (nodes : list KGNode.t) (n : KGNode.t) :
  In n nodes -> In (KGNode.type n) (sort (dedup (map KGNode.type nodes))).
Proof.
  intros H. apply sort_In. apply (proj2 (StatsFacts.dedup_spec _)).
  apply in_map. exact H.
Qed.

Lemma positionedColors_defined (types : option (list jsstring))
  (filteredNodes : list KGNode.t) :
  (forall ts n, types = Some ts -> ts <> [] -> In n filteredNodes ->
                In (KGNode.type n) ts) ->
  exists cs, positionedColors types filteredNodes = Some cs
             /\ length cs = length filteredNodes.
Proof.
  intros Hcover. unfold positionedColors.
  match goal with
  | |- context [all_some ?l] =>
      destruct (@all_some_defined _ l) as (cs & E & Hl)
  end.
  - apply Forall_forall. intros o Ho. apply in_map_iff in Ho.
    destruct Ho as (n & <- & Hn). apply brandColor_defined.
    apply (@indexOf_from_In _ _ 0%Z).
    unfold typeOrder. destruct types as [[|t ts]|].
    + apply (proj2 (StatsFacts.dedup_spec _)). apply in_map. exact Hn.
    + apply (Hcover (t :: ts) n eq_refl); [discriminate | exact Hn].
    + apply (proj2 (StatsFacts.dedup_spec _)). apply in_map. exact Hn.
  - exists cs. rewrite length_map in Hl. auto.
Qed.

(** The normalisers report as types the sorted set of the types of their
    nodes. *)
Lemma parseRetrievedFacts_types (input : jsstring) (r : ParsedFacts.t) :
  parseRetrievedFacts input = Some r ->
  ParsedFacts.types r = sort (dedup (map KGNode.type (ParsedFacts.nodes r))).
Proof.
  unfold parseRetrievedFacts.
  destruct (negb (truthy input)); [discriminate|].
  destruct (splitChatResponse input) as [pre content].
  generalize (extractBlocks content) as blocks; intros blocks.
  destruct (negb (truthy_opt pre) && _)%bool; [discriminate|].
  intros H; injection H as <-. reflexivity.
Qed.

Lemma structured_types (sr : StructuredResponse) (sources : list Source)
  (fp : option (list jsstring)) :
  let p := parseStructuredGraphRAGResponse sr sources fp in
  types p = sort (dedup (map KGNode.type (nodes p))).
Proof.
  unfold parseStructuredGraphRAGResponse.
  destruct (truthy (Chat_Response sr)).
  - destruct (parseRetrievedFacts (Chat_Response sr)) as [kg|] eqn:E.
    + cbn. apply (parseRetrievedFacts_types _ E).
    + destruct fp as [[|l ls]|]; [reflexivity| |reflexivity].
      destruct (parseRetrievedFacts (join [newline] (l :: ls))) as [kg|] eqn:E2.
      * cbn. apply (parseRetrievedFacts_types _ E2).
      * reflexivity.
  - destruct fp as [[|l ls]|]; [reflexivity| |reflexivity].
    destruct (parseRetrievedFacts (join [newline] (l :: ls))) as [kg|] eqn:E2.
    + cbn. apply (parseRetrievedFacts_types _ E2).
    + reflexivity.
Qed.

End ColorFacts.

(** X4. The hash that colours a type name is the polynomial [c0*31^(n-1)
    + ... + c(n-1)] of its code units, reduced to a signed 32-bit
    integer: the reductions inside the loop lose nothing.  The hue drawn
    from it lies in [0, 360). *)
Theorem hashOf_is_polynomial_hash (input : jsstring) :
  hashOf input = toInt32 (polyHash 0 input)
  /\ (0 <= hueOf input < 360)%Z.
Proof.
  split.
  - unfold hashOf. change 0%Z with (toInt32 0) at 1.
    apply ColorFacts.hash_fold.
  - unfold hueOf. apply Z.mod_pos_bound. lia.
Qed.

(** X5. A graph that a normaliser returns is coloured without failure:
    in whatever filter state, [brandColorForColumn] has a colour for
    every visible node (the index that [typeOrder.indexOf] finds is
    never -1), and the viewer gets one colour per visible node. *)
Theorem normalised_graph_colours_defined
  (toLowerCase : jsstring -> jsstring)
  (sr : StructuredResponse) (sources : list Source)
  (fp : option (list jsstring)) (fs : FilterState) :
  let p := parseStructuredGraphRAGResponse sr sources fp in
  let visible := filteredNodes (view toLowerCase (nodes p) (edges p) fs) in
  exists cs,
    positionedColors (Some (types p)) visible = Some cs
    /\ length cs = length visible.
Proof.
  intros p visible. apply ColorFacts.positionedColors_defined.
  intros ts n E _ Hn. injection E as <-.
  unfold p. rewrite ColorFacts.structured_types. fold p.
  apply ColorFacts.types_cover.
  unfold visible, view in Hn. cbn [filteredNodes] in Hn.
  apply filter_In in Hn. tauto.
Qed.

(** ** Citation badges, the initial view and the legend *)

Module BadgeFacts.

Lemma dedupZ_acc_spec (seen l : list Z) :
  NoDup (dedupZ_acc seen l)
  /\ (forall x, In x (dedupZ_acc seen l) <-> In x l /\ ~ In x seen).
Proof.
  revert seen; induction l as [|x l IH]; intros seen; simpl.
  - split; [constructor|]. intros x; tauto.
  - destruct (existsb (Z.eqb x) seen) eqn:E.
    + apply existsb_exists in E. destruct E as (y & Hy & E).
      apply Z.eqb_eq in E. subst y.
      destruct (IH seen) as [H1 H2]. split; [assumption|].
      intros y. rewrite H2. split; [tauto|].
      intros [[<-|Hl] Hn]; [contradiction | tauto].
    + assert (~ In x seen) as Hx.
      { intros Hin. assert (existsb (Z.eqb x) seen = true) as E2; [|congruence].
        apply existsb_exists. exists x. split; [assumption | apply Z.eqb_refl]. }
      destruct (IH (x :: seen)) as [H1 H2]. split.
      * constructor; [|assumption]. rewrite H2. simpl. tauto.
      * intros y. simpl. rewrite H2. simpl.
        destruct (Z.eq_dec x y) as [->|Hne]; tauto.
Qed.

Lemma insertZ_In (x y : Z) (l : list Z) :
  In y (insertZ x l) <-> y = x \/ In y l.
Proof.
  induction l as [|z l IH]; simpl; [intuition congruence|].
  destruct (x <=? z)%Z; simpl; [intuition congruence|].
  rewrite IH. intuition congruence.
Qed.

Lemma sortZ_In (y : Z) (l : list Z) : In y (sortZ l) <-> In y l.
Proof.
  unfold sortZ. induction l as [|x l IH]; simpl; [tauto|].
  rewrite insertZ_In, IH. intuition congruence.
Qed.

Lemma insertZ_sorted (x : Z) (l : list Z) :
  ~ In x l -> StronglySorted Z.lt l -> StronglySorted Z.lt (insertZ x l).
Proof.
  intros Hx Hs. induction Hs as [|y l Hs IH Hy]; simpl.
  - repeat constructor.
  - destruct (x <=? y)%Z eqn:E.
    + apply Z.leb_le in E.
      assert (x < y)%Z as Hlt by (simpl in Hx; lia).
      constructor; [constructor; assumption|].
      constructor; [assumption|].
      rewrite Forall_forall in Hy |- *. intros z Hz. specialize (Hy z Hz). lia.
    + apply Z.leb_gt in E. constructor.
      * apply IH. simpl in Hx. tauto.
      * rewrite Forall_forall in Hy |- *. intros z Hz.
        apply insertZ_In in Hz. destruct Hz as [->|Hz]; [lia | auto].
Qed.

Lemma sortZ_sorted (l : list Z) : NoDup l -> StronglySorted Z.lt (sortZ l).
Proof.
  unfold sortZ. induction 1 as [|x l Hx Hnd IH]; simpl; [constructor|].
  apply insertZ_sorted; [|assumption]. rewrite sortZ_In in *.
  exact Hx.
Qed.

Lemma uniq_spec (l : list Z) :
  StronglySorted Z.lt (uniq l) /\ (forall x, In x (uniq l) <-> In x l).
Proof.
  destruct (dedupZ_acc_spec [] l) as [H1 H2]. unfold uniq, dedupZ. split.
  - apply sortZ_sorted, H1.
  - intros x. rewrite sortZ_In, H2. simpl. tauto.
Qed.

Lemma cit_add (idxs : list Z) (id id' : jsstring) m :
  citationsIn (addCitations idxs id m) id'
  = if jsstring_eqb id' id then uniq (citationsIn m id ++ idxs)
    else citationsIn m id'.
Proof.
  unfold addCitations, citationsIn at 1.
  destruct (jsstring_eqb id' id) eqn:E.
  - apply jsstring_eqb_eq in E. subst id'.
    rewrite (JSMapFacts.get_set_same jsstring_eqb jsstring_eqb_eq).
    reflexivity.
  - apply jsstring_eqb_neq in E.
    rewrite (JSMapFacts.get_set_other jsstring_eqb jsstring_eqb_eq)
      by assumption.
    reflexivity.
Qed.

Lemma step_In (m : JSMap.t jsstring (list Z)) (e : KGEdge.t) id i :
  In i (citationsIn (citationsStep m e) id)
  <-> In i (citationsIn m id) \/ (endsAt id e /\ In i (sourceIndicesOf e)).
Proof.
  unfold citationsStep, endsAt.
  destruct (sourceIndicesOf e) as [|j js] eqn:Ei.
  - simpl. tauto.
  - rewrite !cit_add.
    destruct (jsstring_eqb id (KGEdge.target e)) eqn:Et;
      destruct (jsstring_eqb (KGEdge.target e) (KGEdge.source e)) eqn:Ets;
      destruct (jsstring_eqb id (KGEdge.source e)) eqn:Es;
      repeat match goal with
             | H : jsstring_eqb _ _ = true |- _ => apply jsstring_eqb_eq in H
             | H : jsstring_eqb _ _ = false |- _ => apply jsstring_eqb_neq in H
             end;
      rewrite ?(proj2 (uniq_spec _)), ?in_app_iff,
              ?(proj2 (uniq_spec _)), ?in_app_iff;
      try congruence; subst; try tauto.
    all: try (rewrite Ets in *); try (rewrite <- Ets in *); try tauto.
    all: split; [tauto|]; intros [H|[[H|H] _]]; congruence || tauto.
Qed.

Lemma step_sorted (m : JSMap.t jsstring (list Z)) (e : KGEdge.t) id :
  StronglySorted Z.lt (citationsIn m id) ->
  StronglySorted Z.lt (citationsIn (citationsStep m e) id).
Proof.
  intros H. unfold citationsStep.
  destruct (sourceIndicesOf e) as [|j js]; [assumption|].
  rewrite cit_add. destruct (jsstring_eqb id (KGEdge.target e)).
  - apply uniq_spec.
  - rewrite cit_add. destruct (jsstring_eqb id (KGEdge.source e)).
    + apply uniq_spec.
    + assumption.
Qed.

Lemma fold_step (edges : list KGEdge.t) m id :
  StronglySorted Z.lt (citationsIn m id) ->
  StronglySorted Z.lt (citationsIn (fold_left citationsStep edges m) id)
  /\ forall i,
       In i (citationsIn (fold_left citationsStep edges m) id)
       <-> In i (citationsIn m id)
           \/ exists e, In e edges /\ endsAt id e /\ In i (sourceIndicesOf e).
Proof.
  revert m; induction edges as [|e edges IH]; intros m Hs; simpl.
  - split; [assumption|]. intros i. split; [tauto|].
    intros [H|(e & [] & _)]. exact H.
  - destruct (IH (citationsStep m e) (step_sorted _ _ _ Hs)) as [H1 H2].
    split; [assumption|]. intros i. rewrite H2, step_In. split.
    + intros [[H|H]|(e' & He' & H)]; [tauto | right; exists e; tauto |].
      right. exists e'. tauto.
    + intros [H|(e' & [<-|He'] & H)]; [tauto | tauto |].
      right. exists e'. tauto.
Qed.

Lemma nodePasses_initial (toLowerCase : jsstring -> jsstring)
  (dm : DegreeMap) (n : KGNode.t) :
  nodePasses toLowerCase dm initialFilter n
  = negb (degreeOf dm (KGNode.id n) =? 0).
Proof.
  unfold nodePasses, initialFilter. cbn.
  destruct (Z.of_nat (degreeOf dm (KGNode.id n)) <? 0)%Z eqn:E;
    [apply Z.ltb_lt in E; lia|].
  cbn. destruct (degreeOf dm (KGNode.id n) =? 0); reflexivity.
Qed.

Lemma count_filter_le {A : Type} (p q : A -> bool) (l : list A) :
  length (filter p (filter q l)) + length (filter p (filter (fun x => negb (q x)) l))
  = length (filter p l).
Proof.
  induction l as [|x l IH]; simpl; [reflexivity|].
  destruct (q x); simpl; destruct (p x); simpl; lia.
Qed.

Lemma legendRows_In (order : list jsstring) (nodes positioned : list KGNode.t)
  (row : LegendRow) (i : Z) :
  In row (legendRows i order nodes positioned) ->
  In (legendType row) order
  /\ nodeCount row = countOfType (legendType row) nodes
  /\ displayedCount row = countOfType (legendType row) positioned
  /\ hiddenCount row
     = (Z.of_nat (nodeCount row) - Z.of_nat (displayedCount row))%Z.
Proof.
  revert i; induction order as [|t order IH]; intros i; simpl; [contradiction|].
  intros [<-|H]; [cbn; auto|].
  destruct (IH _ H) as (H1 & H2). auto.
Qed.

Lemma initial_view
  (toLowerCase : jsstring -> jsstring)
  (nodes : list KGNode.t) (edges : list KGEdge.t) :
  let v := view toLowerCase nodes edges initialFilter in
  filteredNodes v
  = filter (fun n => negb (incidentEnds edges (KGNode.id n) =? 0)) nodes
  /\ filteredEdges v
     = filter (fun e => set_has (KGEdge.source e) (map KGNode.id nodes)
                        && set_has (KGEdge.target e) (map KGNode.id nodes))
              edges.
Proof.
  cbv zeta. unfold view. cbn [filteredNodes filteredEdges].
  assert (filter (nodePasses toLowerCase (degreeMap (graphStats nodes edges))
                             initialFilter) nodes
          = filter (fun n => negb (incidentEnds edges (KGNode.id n) =? 0)) nodes)
    as Hn.
  { apply filter_ext. intros n.
    rewrite nodePasses_initial, graphStats_degree. reflexivity. }
  split; [exact Hn|]. rewrite Hn.
  apply filter_ext_in. intros e He.
  assert (forall k, endsAt k e ->
            set_has k (map KGNode.id
                         (filter (fun n => negb (incidentEnds edges (KGNode.id n) =? 0))
                                 nodes))
            = set_has k (map KGNode.id nodes)) as Hk.
  { intros k Hend.
    pose proof (StatsFacts.incidentEnds_pos _ He Hend) as Hpos.
    destruct (set_has k (map KGNode.id nodes)) eqn:E.
    - apply set_has_In in E. apply set_has_In.
      apply in_map_iff in E. destruct E as (n & <- & Hn').
      apply in_map. apply filter_In. split; [assumption|].
      destruct (incidentEnds edges (KGNode.id n) =? 0) eqn:E0;
        [apply Nat.eqb_eq in E0; lia | reflexivity].
    - destruct (set_has k (map _ (filter _ _))) eqn:E2; [|reflexivity].
      apply set_has_In in E2. apply in_map_iff in E2.
      destruct E2 as (n & <- & Hn'). apply filter_In in Hn'.
      assert (set_has (KGNode.id n) (map KGNode.id nodes) = true)
        by (apply set_has_In, in_map; tauto).
      congruence. }
  unfold edgePasses, initialFilter. cbn.
  rewrite (Hk (KGEdge.source e)) by (left; reflexivity).
  rewrite (Hk (KGEdge.target e)) by (right; reflexivity).
  destruct (set_has (KGEdge.source e) _), (set_has (KGEdge.target e) _);
    reflexivity.
Qed.

End BadgeFacts.

(** X6. The citation badges of a node: the indices are in strictly
    ascending order, hence without repetition, and they are exactly the
    source indices of the edges that end at the node. *)
Theorem citations_sorted_and_exact (edges : list KGEdge.t) (id : jsstring) :
  StronglySorted Z.lt (citationsOf edges id)
  /\ forall i,
       In i (citationsOf edges id)
       <-> exists e idxs,
             In e edges /\ endsAt id e
             /\ KGEdge.sourceIndices e = Some idxs /\ In i idxs.
Proof.
  destruct (@BadgeFacts.fold_step edges [] id) as [H1 H2];
    [constructor|].
  fold (citationsByNodeId edges) in H1, H2.
  fold (citationsOf edges id) in H1, H2.
  split; [exact H1|]. intros i. rewrite H2. cbn. split.
  - intros [[]|(e & He & Hend & Hi)]. unfold sourceIndicesOf in Hi.
    destruct (KGEdge.sourceIndices e) as [l|] eqn:E; [|contradiction].
    exists e, l. auto.
  - intros (e & l & He & Hend & E & Hi). right. exists e.
    unfold sourceIndicesOf. rewrite E. auto.
Qed.

(** X7. A viewer that has just been mounted hides the isolated nodes and
    nothing else: the visible nodes are those at which an edge ends, and
    the visible edges are those whose two ends are nodes of the graph. *)
Theorem initial_view_hides_isolates_only
  (toLowerCase : jsstring -> jsstring)
  (nodes : list KGNode.t) (edges : list KGEdge.t) :
  let v := view toLowerCase nodes edges initialFilter in
  filteredNodes v
  = filter (fun n => negb (incidentEnds edges (KGNode.id n) =? 0)) nodes
  /\ filteredEdges v
     = filter (fun e => set_has (KGEdge.source e) (map KGNode.id nodes)
                        && set_has (KGEdge.target e) (map KGNode.id nodes))
              edges.
Proof. exact (BadgeFacts.initial_view toLowerCase nodes edges). Qed.

(** X8. The legend counts add up: in whatever filter state, the hidden
    count of a row is the number of nodes of its type that the filters
    remove, so it is never negative, and shown and hidden nodes make the
    total. *)
Theorem legend_hidden_count_is_filtered_out
  (toLowerCase : jsstring -> jsstring) (types : option (list jsstring))
  (nodes : list KGNode.t) (edges : list KGEdge.t) (fs : FilterState)
  (row : LegendRow) :
  In row (legendData toLowerCase types nodes edges fs) ->
  let dm := degreeMap (graphStats nodes edges) in
  hiddenCount row
  = Z.of_nat
      (countOfType (legendType row)
         (filter (fun n => negb (nodePasses toLowerCase dm fs n)) nodes))
  /\ (Z.of_nat (displayedCount row) + hiddenCount row
      = Z.of_nat (nodeCount row))%Z.
Proof.
  intros Hrow dm. unfold legendData in Hrow.
  apply BadgeFacts.legendRows_In in Hrow.
  destruct Hrow as (_ & Hn & Hd & Hh).
  unfold view in Hd. cbn [filteredNodes] in Hd. fold dm in Hd.
  pose proof (BadgeFacts.count_filter_le
                (fun n => jsstring_eqb (KGNode.type n) (legendType row))
                (nodePasses toLowerCase dm fs) nodes) as Hsum.
  unfold countOfType in *. lia.
Qed.

Lemma legend_hidden_count_is_filtered_out_witness :
  let nodes := [KGNode.mk (str "a:x") (str "a") (str "x") None None None;
                KGNode.mk (str "a:y") (str "a") (str "y") None None None] in
  let edges := [KGEdge.mk (str "e_0") (str "a:x") (str "a:x") (str "r")
                          None None] in
  let row := mkLegendRow (str "a") (brandColorForColumn (str "a") 0) 2 1 1 in
  In row (legendData (fun s => s) None nodes edges initialFilter)
  /\ hiddenCount row
     = Z.of_nat
         (countOfType (legendType row)
            (filter (fun n =>
                       negb (nodePasses (fun s => s)
                               (degreeMap (graphStats nodes edges))
                               initialFilter n))
                    nodes))
  /\ (Z.of_nat (displayedCount row) + hiddenCount row
      = Z.of_nat (nodeCount row))%Z.
Proof.
  intros nodes edges row.
  assert (In row (legendData (fun s => s) None nodes edges initialFilter))
    as Hrow by (left; reflexivity).
  split; [exact Hrow|].
  exact (@legend_hidden_count_is_filtered_out
           (fun s => s) None nodes edges initialFilter row Hrow).
Defined.

(** ** Decimal numerals *)

Module NumeralFacts.

Lemma digits_value_app (a b : jsstring) :
  digits_value (a ++ b)
  = fold_left (fun acc d => (acc * 10 + (Z.of_N d - 48))%Z) b (digits_value a).
Proof. unfold digits_value. apply fold_left_app. Qed.

(** The digits that [digits_fuel] puts in front of [acc] are the decimal
    numeral of [n]. *)
Lemma digits_fuel_spec (fuel : nat) :
  forall n acc,
    n < fuel ->
    exists ds,
      digits_fuel fuel n acc = ds ++ acc
      /\ ds <> []
      /\ Forall (fun c => is_digit c = true) ds
      /\ digits_value ds = Z.of_nat n.
Proof.
  induction fuel as [|fuel IH]; intros n acc Hn; [lia|].
  cbn [digits_fuel].
  assert (n mod 10 < 10) as Hmod by (apply Nat.mod_upper_bound; lia).
  assert (is_digit (48 + N.of_nat (n mod 10)) = true) as Hd.
  { unfold is_digit, N_between. apply andb_true_iff.
    split; apply N.leb_le; lia. }
  destruct (n / 10 =? 0) eqn:E.
  - apply Nat.eqb_eq in E. exists [(48 + N.of_nat (n mod 10))%N].
    split; [reflexivity|]. split; [discriminate|].
    split; [repeat constructor; exact Hd|].
    apply Nat.div_small_iff in E; [|lia].
    rewrite (Nat.mod_small _ _ E).
    unfold digits_value. cbn [fold_left]. lia.
  - apply Nat.eqb_neq in E.
    assert (n / 10 < fuel) as Hlt.
    { assert (n / 10 < n); [|lia]. apply Nat.div_lt; [|lia].
      destruct n; [simpl in E; congruence | lia]. }
    destruct (IH (n / 10) ((48 + N.of_nat (n mod 10))%N :: acc) Hlt)
      as (ds & Eds & Hne & Hdig & Hval).
    exists (ds ++ [(48 + N.of_nat (n mod 10))%N]).
    split; [rewrite Eds, <- app_assoc; reflexivity|].
    split; [destruct ds; discriminate|].
    split; [apply Forall_app; split; [assumption | repeat constructor; exact Hd]|].
    rewrite digits_value_app. cbn [fold_left]. rewrite Hval.
    pose proof (Nat.div_mod_eq n 10) as Hdm.
    set (q := n / 10) in *. set (r := n mod 10) in *. lia.
Qed.

Lemma nat_to_jsstring_spec (n : nat) :
  nat_to_jsstring n <> []
  /\ Forall (fun c => is_digit c = true) (nat_to_jsstring n)
  /\ digits_value (nat_to_jsstring n) = Z.of_nat n.
Proof.
  unfold nat_to_jsstring.
  destruct (@digits_fuel_spec (S n) n [] (Nat.lt_succ_diag_r n))
    as (ds & -> & H). rewrite app_nil_r. exact H.
Qed.

Lemma nat_to_jsstring_inj (a b : nat) :
  nat_to_jsstring a = nat_to_jsstring b -> a = b.
Proof.
  intros E. apply Nat2Z.inj.
  rewrite <- (proj2 (proj2 (nat_to_jsstring_spec a))),
          <- (proj2 (proj2 (nat_to_jsstring_spec b))), E.
  reflexivity.
Qed.

Lemma edgeIdsFrom_NoDup (k n : nat) : NoDup (edgeIdsFrom k n).
Proof.
  unfold edgeIdsFrom.
  apply MergeFacts.NoDup_map_compat with (g := fun i : nat => i).
  - intros a b _ _ E. apply app_inv_head in E. apply nat_to_jsstring_inj, E.
  - rewrite map_id. apply seq_NoDup.
Qed.

Lemma edgeIdsFrom_snoc (k n : nat) :
  edgeIdsFrom k (S n)
  = edgeIdsFrom k n ++ [str "e_" ++ nat_to_jsstring (k + n)].
Proof.
  unfold edgeIdsFrom. rewrite seq_S, map_app. reflexivity.
Qed.

Lemma takeWhile_all (p : N -> bool) (s : jsstring) :
  Forall (fun c => p c = true) s -> takeWhile p s = s.
Proof.
  induction 1 as [|c s Hc _ IH]; simpl; [reflexivity|].
  rewrite Hc, IH. reflexivity.
Qed.

Lemma digits_value_nonneg (ds : jsstring) :
  Forall (fun c => is_digit c = true) ds -> (0 <= digits_value ds)%Z.
Proof.
  unfold digits_value.
  assert (forall acc, Forall (fun c => is_digit c = true) ds -> (0 <= acc)%Z ->
            (0 <= fold_left (fun acc d => (acc * 10 + (Z.of_N d - 48))%Z) ds acc)%Z)
    as H.
  { induction ds as [|d ds IH]; intros acc Hd Hacc; simpl; [assumption|].
    inversion Hd as [|? ? Hd1 Hd2]; subst. apply IH; [assumption|].
    unfold is_digit, N_between in Hd1. apply andb_true_iff in Hd1.
    destruct Hd1 as [H1 _]. apply N.leb_le in H1. lia. }
  intros Hd. apply H; [assumption | lia].
Qed.

(** The Number value of a non-negative integer is not negative, and it is
    the integer itself below 2^53. *)
Lemma toNumber_nonneg (z : Z) : (0 <= z)%Z -> (0 <= toNumber z)%Z.
Proof.
  intros Hz. unfold toNumber.
  destruct (z <? 2 ^ 53)%Z; [exact Hz|]. cbv zeta.
  set (sh := (Z.log2 z - 52)%Z).
  set (q := Z.shiftr z sh).
  assert (0 <= q)%Z as Hq by (apply Z.shiftr_nonneg; exact Hz).
  destruct (_ <? 2 ^ 1024)%Z; [|unfold JS_INFINITY; lia].
  apply Z.shiftl_nonneg.
  destruct (_ || _)%bool; lia.
Qed.

Lemma toNumber_small (z : Z) : (z < 2 ^ 53)%Z -> toNumber z = z.
Proof.
  intros Hz. unfold toNumber.
  destruct (Z.ltb_spec z (2 ^ 53)); [reflexivity | lia].
Qed.

Example toNumber_rounds_to_even :
  toNumber (2 ^ 53 + 1) = (2 ^ 53)%Z
  /\ toNumber (2 ^ 53 + 3) = (2 ^ 53 + 4)%Z
  /\ toNumber (10 ^ 22 + 1) = (10 ^ 22)%Z
  /\ toNumber (2 ^ 1024 - 2 ^ 970 - 1) = (2 ^ 1024 - 2 ^ 971)%Z
  /\ toNumber (2 ^ 1024 - 2 ^ 970) = JS_INFINITY
  /\ toNumber (10 ^ 400) = JS_INFINITY.
Proof. vm_compute. repeat split. Qed.

(** [parseInt] of a run of digits. *)
Lemma parseInt_digits (ds : jsstring) :
  ds <> [] -> Forall (fun c => is_digit c = true) ds ->
  parseInt ds = Some (toNumber (digits_value ds)).
Proof.
  intros Hne Hd. destruct ds as [|d ds]; [contradiction|].
  inversion Hd as [|? ? Hd1 Hd2]; subst.
  assert (d = 48 \/ d = 49 \/ d = 50 \/ d = 51 \/ d = 52 \/ d = 53
          \/ d = 54 \/ d = 55 \/ d = 56 \/ d = 57)%N as Hcases.
  { unfold is_digit, N_between in Hd1. apply andb_true_iff in Hd1.
    destruct Hd1 as [H1 H2]. apply N.leb_le in H1, H2. lia. }
  unfold parseInt, trimStart.
  repeat (destruct Hcases as [->|Hcases]);
    try subst d; cbn -[digits_value toNumber];
    rewrite (@takeWhile_all is_digit ds Hd2); reflexivity.
Qed.

End NumeralFacts.

(** ** The shape of a parsed graph *)

Module GraphFacts.
Import MergeFacts.

Lemma bulletStep_cases (sm : JSMap.t Z jsstring) (st : BulletState)
  (item : jsstring) :
  (parseBullet sm item = None /\ bulletStep sm st item = st)
  \/ exists l r rel es ei,
       parseBullet sm item = Some (l, r, rel, es, ei)
       /\ bulletStep sm st item
          = mkBulletState
              (register r (register l (nodesById st)))
              (bulletEdges st ++
               [KGEdge.mk (str "e_" ++ nat_to_jsstring (edgeCounter st))
                          (KGNode.id l) (KGNode.id r) rel es ei])
              (S (edgeCounter st)).
Proof.
  pose proof (bulletStep_nodes sm st item) as Hn. unfold bulletStep in *.
  destruct (parseBullet sm item) as [[[[[l r] rel] es] ei]|] eqn:E;
    [|left; auto].
  right. exists l, r, rel, es, ei. split; [reflexivity|].
  destruct (@parseBullet_wellFormed _ _ _ _ _ _ _ E) as [[Il _] [Ir _]].
  cbn [nodesById] in Hn. rewrite Hn, <- Il, <- Ir. reflexivity.
Qed.

Lemma keys_register_In (n : KGNode.t) (m : JSMap.t jsstring KGNode.t) k :
  In k (JSMap.keys (register n m)) <-> In k (JSMap.keys m) \/ k = KGNode.id n.
Proof.
  unfold register.
  destruct (JSMap.has jsstring_eqb (KGNode.id n) m) eqn:E.
  - apply (MapKeyFacts.has_keys jsstring_eqb jsstring_eqb_eq) in E. split; [tauto|].
    intros [H| ->]; assumption.
  - rewrite (MapKeyFacts.keys_set jsstring_eqb jsstring_eqb_eq), E,
            in_app_iff.
    simpl. intuition congruence.
Qed.

Lemma shaped_step (sm : JSMap.t Z jsstring) (st : BulletState)
  (item : jsstring) : bulletShape st -> bulletShape (bulletStep sm st item).
Proof.
  intros (Hc & Hids & Hends & Hnodes).
  destruct (bulletStep_cases sm st item)
    as [[_ ->]|(l & r & rel & es & ei & _ & ->)];
    [repeat split; assumption || apply Hends; assumption|].
  unfold bulletShape. cbn [edgeCounter bulletEdges nodesById].
  rewrite length_app. cbn [length]. rewrite Nat.add_1_r.
  split; [lia|]. split; [|split].
  - rewrite map_app, Hids, NumeralFacts.edgeIdsFrom_snoc, Hc. reflexivity.
  - intros e He. rewrite !keys_register_In. apply in_app_or in He.
    destruct He as [He|[<-|[]]].
    + destruct (Hends e He). tauto.
    + cbn. tauto.
  - intros k Hk. rewrite !keys_register_In in Hk.
    destruct Hk as [[Hk| ->]| ->].
    + destruct (Hnodes k Hk) as (e & He & Hend). exists e.
      split; [apply in_or_app; auto | exact Hend].
    + eexists. split; [apply in_or_app; right; left; reflexivity|].
      left. reflexivity.
    + eexists. split; [apply in_or_app; right; left; reflexivity|].
      right. reflexivity.
Qed.

Lemma shaped_fold (sm : JSMap.t Z jsstring) (items : list jsstring) :
  forall st, bulletShape st -> bulletShape (fold_left (bulletStep sm) items st).
Proof.
  induction items as [|item items IH]; intros st H; simpl; [assumption|].
  apply IH, shaped_step, H.
Qed.

Lemma shaped_init : bulletShape (mkBulletState [] [] 0).
Proof.
  unfold bulletShape. simpl. repeat split; try contradiction; reflexivity.
Qed.

Lemma values_ids (sm : JSMap.t Z jsstring) (items : list jsstring) :
  let st := fold_left (bulletStep sm) items (mkBulletState [] [] 0) in
  map KGNode.id (JSMap.values (nodesById st)) = JSMap.keys (nodesById st).
Proof.
  intros st.
  assert (keyed (fun _ => True) (nodesById st)) as [_ Hk].
  { apply fold_keyed; [auto|]. split; [constructor | intros k n []]. }
  unfold JSMap.values, JSMap.keys. rewrite map_map.
  apply map_ext_in. intros [k n] Hin. simpl. symmetry. apply (Hk k n Hin).
Qed.

(** The graph of a result: empty, or what the loop over the bullets of a
    block leaves. *)
Lemma result_graph (input : jsstring) (r : ParsedFacts.t) :
  parseRetrievedFacts input = Some r ->
  (ParsedFacts.nodes r = [] /\ ParsedFacts.edges r = [])
  \/ exists sm items,
       let st := fold_left (bulletStep sm) items (mkBulletState [] [] 0) in
       ParsedFacts.nodes r = JSMap.values (nodesById st)
       /\ ParsedFacts.edges r = bulletEdges st.
Proof.
  intros H. apply MarkerFacts.parseRetrievedFacts_some in H.
  destruct H as (_ & Hn & He). cbv zeta in Hn, He.
  destruct (factsBlock _) as [[|c b]|]; [left; auto| |left; auto].
  right. eexists _, _. cbv zeta. rewrite Hn, He. split; reflexivity.
Qed.

Lemma edges_and_nodes_fit (input : jsstring) (r : ParsedFacts.t) :
  parseRetrievedFacts input = Some r ->
  (forall e, In e (ParsedFacts.edges r) ->
     In (KGEdge.source e) (map KGNode.id (ParsedFacts.nodes r))
     /\ In (KGEdge.target e) (map KGNode.id (ParsedFacts.nodes r)))
  /\ (forall n, In n (ParsedFacts.nodes r) ->
        exists e, In e (ParsedFacts.edges r) /\ endsAt (KGNode.id n) e).
Proof.
  intros Hparse. destruct (result_graph _ Hparse)
    as [[-> ->]|(sm & items & Hn & He)].
  - split; [intros e [] | intros n []].
  - cbv zeta in Hn, He. rewrite Hn, He, values_ids.
    destruct (@shaped_fold sm items _ shaped_init)
      as (_ & _ & Hends & Hnodes).
    split; [exact Hends|]. intros n Hin. apply Hnodes.
    rewrite <- values_ids. apply in_map. exact Hin.
Qed.

End GraphFacts.

(** X9. Edges and nodes of a parsed fact block fit: every edge joins two
    nodes of the result, and every node of the result is an end of one
    of its edges, so the result has no dangling edge and no isolated
    node. *)
Theorem parsed_edges_and_nodes_fit (input : jsstring) (r : ParsedFacts.t)
  (Hparse : parseRetrievedFacts input = Some r) :
  (forall e, In e (ParsedFacts.edges r) ->
     In (KGEdge.source e) (map KGNode.id (ParsedFacts.nodes r))
     /\ In (KGEdge.target e) (map KGNode.id (ParsedFacts.nodes r)))
  /\ (forall n, In n (ParsedFacts.nodes r) ->
        exists e, In e (ParsedFacts.edges r) /\ endsAt (KGNode.id n) e).
Proof. exact (GraphFacts.edges_and_nodes_fit _ Hparse). Qed.

(** The theorem at the example of the specification. *)
Lemma parsed_edges_and_nodes_fit_witness :
  exists r,
    parseRetrievedFacts example_input = Some r
    /\ (forall e, In e (ParsedFacts.edges r) ->
          In (KGEdge.source e) (map KGNode.id (ParsedFacts.nodes r))
          /\ In (KGEdge.target e) (map KGNode.id (ParsedFacts.nodes r)))
    /\ (forall n, In n (ParsedFacts.nodes r) ->
          exists e, In e (ParsedFacts.edges r) /\ endsAt (KGNode.id n) e).
Proof.
  destruct (parseRetrievedFacts example_input) as [r|] eqn:E;
    [|vm_compute in E; discriminate].
  exists r. split; [reflexivity|].
  exact (@parsed_edges_and_nodes_fit example_input r E).
Defined.

(** X10. The edge ids of a parsed fact block are [e_0], [e_1], ... in
    the order of the edges, and no two edges share an id. *)
Theorem parsed_edge_ids_are_sequential (input : jsstring) (r : ParsedFacts.t)
  (Hparse : parseRetrievedFacts input = Some r) :
  map KGEdge.id (ParsedFacts.edges r)
  = edgeIdsFrom 0 (length (ParsedFacts.edges r))
  /\ NoDup (map KGEdge.id (ParsedFacts.edges r)).
Proof.
  assert (map KGEdge.id (ParsedFacts.edges r)
          = edgeIdsFrom 0 (length (ParsedFacts.edges r))) as H.
  { destruct (GraphFacts.result_graph _ Hparse)
      as [[_ ->]|(sm & items & _ & He)]; [reflexivity|].
    cbv zeta in He. rewrite He.
    apply (@GraphFacts.shaped_fold sm items _ GraphFacts.shaped_init). }
  split; [exact H|]. rewrite H. apply NumeralFacts.edgeIdsFrom_NoDup.
Qed.

Lemma parsed_edge_ids_are_sequential_witness :
  exists r,
    parseRetrievedFacts second_mention_input = Some r
    /\ map KGEdge.id (ParsedFacts.edges r) = [str "e_0"; str "e_1"]
    /\ NoDup (map KGEdge.id (ParsedFacts.edges r)).
Proof.
  destruct (parseRetrievedFacts second_mention_input) as [r|] eqn:E;
    [|vm_compute in E; discriminate].
  exists r. split; [reflexivity|].
  destruct (@parsed_edge_ids_are_sequential second_mention_input r E)
    as [H1 H2].
  split; [|exact H2]. rewrite H1.
  vm_compute in E. injection E as <-. reflexivity.
Defined.

(** X11. A parsed fact block is shown whole by a viewer that has just
    been mounted: the initial filters hide none of its nodes and none of
    its edges. *)
Theorem parsed_graph_is_shown_whole
  (toLowerCase : jsstring -> jsstring)
  (input : jsstring) (r : ParsedFacts.t)
  (Hparse : parseRetrievedFacts input = Some r) :
  let v := view toLowerCase (ParsedFacts.nodes r) (ParsedFacts.edges r)
                initialFilter in
  filteredNodes v = ParsedFacts.nodes r
  /\ filteredEdges v = ParsedFacts.edges r.
Proof.
  destruct (GraphFacts.edges_and_nodes_fit _ Hparse) as [Hends Hnodes].
  destruct (BadgeFacts.initial_view toLowerCase (ParsedFacts.nodes r)
              (ParsedFacts.edges r)) as [Hn He].
  cbv zeta in *. rewrite Hn, He. split.
  - apply forallb_filter_id. apply forallb_forall. intros n Hin.
    destruct (Hnodes n Hin) as (e & He' & Hend).
    pose proof (StatsFacts.incidentEnds_pos _ He' Hend).
    destruct (incidentEnds _ _ =? 0) eqn:E0;
      [apply Nat.eqb_eq in E0; lia | reflexivity].
  - apply forallb_filter_id. apply forallb_forall. intros e Hin.
    destruct (Hends e Hin) as [H1 H2].
    apply set_has_In in H1, H2. rewrite H1, H2. reflexivity.
Qed.

Lemma parsed_graph_is_shown_whole_witness :
  exists r,
    parseRetrievedFacts example_input = Some r
    /\ filteredNodes (view asciiLower (ParsedFacts.nodes r)
                           (ParsedFacts.edges r) initialFilter)
       = ParsedFacts.nodes r
    /\ filteredEdges (view asciiLower (ParsedFacts.nodes r)
                           (ParsedFacts.edges r) initialFilter)
       = ParsedFacts.edges r.
Proof.
  destruct (parseRetrievedFacts example_input) as [r|] eqn:E;
    [|vm_compute in E; discriminate].
  exists r. split; [reflexivity|].
  exact (@parsed_graph_is_shown_whole asciiLower example_input r E).
Defined.

(** ** Matches of a pattern *)

Module MatchFacts.
Import RegexFacts.

Lemma in_scan (fuel : nat) (r : regex) :
  forall b a m,
    In m (scan fuel r b a) -> exists b' a', search r b' a' = Some m.
Proof.
  induction fuel as [|fuel IH]; intros b a m H; simpl in H; [contradiction|].
  destruct (search r b a) as [[i s']|] eqn:E; [|contradiction].
  destruct H as [<-|H]; [eauto|].
  destruct (length (before s') =? i).
  - destruct (after s') as [|c a']; [contradiction|]. eapply IH, H.
  - eapply IH, H.
Qed.

(** A match that a search reports is the first way the pattern runs from
    the position where the match starts. *)
Lemma search_run (r : regex) (b a : list N) (m : nat * MState) :
  search r b a = Some m ->
  exists s0,
    In (snd m) (run r s0) /\ groups s0 = []
    /\ m_index m = length (before s0).
Proof.
  destruct m as [i s']. intros H. apply search_some in H.
  destruct H as (x & y & _ & Hi & [rest R] & _).
  exists (mkState (rev x ++ b) y []). cbn. split; [|split].
  - rewrite R. left. reflexivity.
  - reflexivity.
  - rewrite length_app, length_rev. lia.
Qed.

Lemma match_all_run (r : regex) (input : jsstring) (m : nat * MState) :
  In m (match_all r input) ->
  exists s0,
    In (snd m) (run r s0) /\ groups s0 = []
    /\ m_index m = length (before s0).
Proof.
  intros H. apply in_scan in H. destruct H as (b & a & H).
  exact (search_run _ _ _ H).
Qed.

Lemma exec_run (r : regex) (input : jsstring) (m : nat * MState) :
  exec r input = Some m ->
  exists s0,
    In (snd m) (run r s0) /\ groups s0 = []
    /\ m_index m = length (before s0).
Proof. apply search_run. Qed.

(** [match[0]] is the text between the start and the end of the match. *)
Lemma m_0_passes (m : nat * MState) (s0 : MState) (t : jsstring) :
  m_index m = length (before s0) -> passes s0 (snd m) t -> m_0 m = t.
Proof.
  intros Hi [_ B]. unfold m_0, m_end. rewrite Hi, B, length_app, length_rev.
  replace (length t + length (before s0) - length (before s0))
    with (length (rev t)) by (rewrite length_rev; lia).
  rewrite firstn_app, Nat.sub_diag, firstn_all. simpl.
  rewrite app_nil_r. apply rev_involutive.
Qed.

Lemma passes_trans (s1 s2 s3 : MState) (x y : jsstring) :
  passes s1 s2 x -> passes s2 s3 y -> passes s1 s3 (x ++ y).
Proof.
  intros [A1 B1] [A2 B2]. split.
  - rewrite A1, A2, app_assoc. reflexivity.
  - rewrite B2, B1, rev_app_distr, app_assoc. reflexivity.
Qed.

Lemma run_chr_passes (p : N -> bool) (s s' : MState) :
  In s' (run (Chr p) s) ->
  exists c, passes s s' [c] /\ p c = true /\ groups s' = groups s.
Proof.
  intros H. apply in_run_chr in H. destruct H as (c & rest & Ha & Hp & ->).
  exists c. split; [split; simpl; auto|]. auto.
Qed.

Lemma passes_record_group (i : nat) (s s' : MState) (x : jsstring) :
  passes s s' x -> passes s (record_group i s s') x.
Proof. intros H. exact H. Qed.

(** A captured run of a character class. *)
Lemma run_grp_plus_chr (i : nat) (p : N -> bool) (s s' : MState) :
  In s' (run (Grp i (Plus (Chr p))) s) ->
  exists x, passes s s' x /\ x <> [] /\ Forall (fun c => p c = true) x
            /\ groups s' = (i, x) :: groups s.
Proof.
  intros H. apply in_run_grp in H. destruct H as (s1 & H & ->).
  unfold Plus in H. apply in_run_seq in H. destruct H as (s2 & H2 & H3).
  apply run_chr_passes in H2. destruct H2 as (c & P2 & Hc & G2).
  apply run_star_chr in H3. destruct H3 as (x & P3 & Hx & G3).
  pose proof (passes_trans P2 P3) as P.
  exists ([c] ++ x). split; [exact P|]. split; [discriminate|].
  split; [constructor; assumption|].
  unfold record_group. cbn [groups]. rewrite (passes_consumed P), G3, G2.
  reflexivity.
Qed.

(** The shape of a citation mark [[n]]: what [/\[(\d+)\]/g] matches. *)
Lemma sourceIdx_match (item : jsstring) (m : nat * MState) :
  In m (match_all sourceIdxRegex item) ->
  exists ds,
    ds <> [] /\ Forall (fun c => is_digit c = true) ds
    /\ m_0 m = lbracket :: ds ++ [rbracket].
Proof.
  intros H. apply match_all_run in H. destruct H as (s0 & Hin & _ & Hi).
  unfold sourceIdxRegex in Hin. cbn [seqs] in Hin.
  apply in_run_seq in Hin. destruct Hin as (s1 & H1 & Hin).
  apply run_chr_passes in H1. destruct H1 as (c1 & P1 & Hc1 & _).
  apply in_run_seq in Hin. destruct Hin as (s2 & H2 & Hin).
  apply run_grp_plus_chr in H2. destruct H2 as (ds & P2 & Hne & Hd & _).
  apply run_chr_passes in Hin. destruct Hin as (c3 & P3 & Hc3 & _).
  apply N.eqb_eq in Hc1, Hc3. subst c1 c3.
  exists ds. split; [exact Hne|]. split; [exact Hd|].
  apply (m_0_passes _ Hi).
  exact (passes_trans P1 (passes_trans P2 P3)).
Qed.

(** *** Replacing the members of a character class *)

Lemma search_chr (p : N -> bool) :
  forall a b,
    (search (Chr p) b a = None /\ Forall (fun c => p c = false) a)
    \/ exists pre c rest,
         a = pre ++ c :: rest
         /\ Forall (fun c => p c = false) pre /\ p c = true
         /\ search (Chr p) b a
            = Some (length b + length pre,
                    mkState (c :: rev pre ++ b) rest []).
Proof.
  induction a as [|c a IH]; intros b.
  - left. split; [reflexivity | constructor].
  - cbn [search run after before groups]. destruct (p c) eqn:E.
    + right. exists [], c, a. simpl. rewrite Nat.add_0_r. auto.
    + destruct (IH (c :: b)) as [[H1 H2]|(pre & d & rest & -> & Hp & Hd & H)].
      * left. split; [exact H1 | constructor; assumption].
      * right. exists (c :: pre), d, rest. split; [reflexivity|].
        split; [constructor; assumption|]. split; [assumption|].
        rewrite H. simpl. rewrite <- app_assoc. simpl.
        f_equal. f_equal. lia.
Qed.

(** With a replacement that depends on the matched unit only, replacing
    every member of a class works unit by unit. *)
Lemma replace_class (p : N -> bool) (repl : nat * MState -> jsstring)
  (g : N -> jsstring) :
  (forall b c rest, repl (length b, mkState (c :: b) rest []) = g c) ->
  forall fuel a b,
    length a < fuel ->
    replace_from_with fuel (Chr p) repl b a
    = flat_map (fun c => if p c then g c else [c]) a.
Proof.
  intros Hrepl. induction fuel as [|fuel IH]; intros a b Hlen; [lia|].
  cbn [replace_from_with].
  destruct (search_chr p a b)
    as [[-> Hall]|(pre & c & rest & -> & Hpre & Hc & ->)].
  - clear Hlen. induction Hall as [|c a Hc _ IHa]; simpl; [reflexivity|].
    rewrite Hc. simpl. f_equal. exact IHa.
  - cbn [before after].
    replace (length b + length pre - length b) with (length pre) by lia.
    assert (length b + length pre = length (rev pre ++ b)) as Hi
        by (rewrite length_app, length_rev; lia).
    rewrite Hi at 1. rewrite Hrepl.
    rewrite firstn_app, Nat.sub_diag, firstn_all. simpl firstn.
    rewrite app_nil_r.
    assert ((length (c :: rev pre ++ b) =? length b + length pre) = false) as ->.
    { apply Nat.eqb_neq. simpl. rewrite length_app, length_rev. lia. }
    rewrite IH by (rewrite length_app in Hlen; simpl in Hlen; lia).
    rewrite flat_map_app. simpl. rewrite Hc. f_equal.
    clear -Hpre. induction Hpre as [|d pre Hd _ IHp]; simpl; [reflexivity|].
    rewrite Hd. simpl. f_equal. exact IHp.
Qed.

Lemma replace_from_const (fuel : nat) (r : regex) (repl : jsstring) :
  forall b a,
    replace_from fuel r repl b a
    = replace_from_with fuel r (fun _ => repl) b a.
Proof.
  induction fuel as [|fuel IH]; intros b a; simpl; [reflexivity|].
  destruct (search r b a) as [[i s']|]; [|reflexivity].
  destruct (length (before s') =? i).
  - destruct (after s'); [reflexivity|]. rewrite IH. reflexivity.
  - rewrite IH. reflexivity.
Qed.

(** [s.replace(/[class]/g, '')] drops the members of the class. *)
Lemma replace_all_class_empty (p : N -> bool) (s : jsstring) :
  replace_all (Chr p) [] s = filter (fun c => negb (p c)) s.
Proof.
  unfold replace_all. rewrite replace_from_const.
  rewrite (@replace_class p (fun _ => []) (fun _ => []))
    by (auto || lia).
  induction s as [|c s IH]; simpl; [reflexivity|].
  destruct (p c); simpl; rewrite IH; reflexivity.
Qed.

End MatchFacts.

(** ** Citations of a bullet *)

Module CitationFacts.
Import RegexFacts MatchFacts.

Lemma digit_not_bracket (d : N) :
  is_digit d = true ->
  (N.eqb d backslash || N.eqb d lbracket)%bool = false
  /\ ch rbracket d = false.
Proof.
  unfold is_digit, N_between, ch, backslash, lbracket, rbracket.
  intros H. apply andb_true_iff in H. destruct H as [H1 H2].
  apply N.leb_le in H1, H2. split.
  - apply orb_false_iff. split; apply N.eqb_neq; lia.
  - apply N.eqb_neq. lia.
Qed.

Lemma search_brackets_digits (ds : jsstring) :
  Forall (fun c => is_digit c = true) ds ->
  forall b, search bracketsRegex b (ds ++ [rbracket]) = None.
Proof.
  induction 1 as [|d ds Hd _ IH]; intros b.
  - reflexivity.
  - destruct (digit_not_bracket _ Hd) as [H1 _].
    cbn [app search bracketsRegex run after before groups].
    rewrite H1. cbn [flat_map]. apply IH.
Qed.

(** The pattern [/[\\[\\]]/g] finds nothing in a citation mark, so the
    replacement leaves the mark as it is. *)
Lemma brackets_untouched (ds : jsstring) :
  ds <> [] -> Forall (fun c => is_digit c = true) ds ->
  replace_all bracketsRegex [] (lbracket :: ds ++ [rbracket])
  = lbracket :: ds ++ [rbracket].
Proof.
  intros Hne Hd. destruct ds as [|d ds]; [contradiction|].
  inversion Hd as [|? ? Hd1 Hd2]; subst.
  destruct (digit_not_bracket _ Hd1) as [_ H2].
  unfold replace_all. cbn [replace_from].
  assert (search bracketsRegex [] (lbracket :: (d :: ds) ++ [rbracket]) = None)
    as ->; [|reflexivity].
  cbn [app search bracketsRegex run after before groups].
  change ((N.eqb lbracket backslash || N.eqb lbracket lbracket)%bool)
    with true.
  cbn [flat_map run after]. rewrite H2. cbn [app].
  apply (search_brackets_digits Hd).
Qed.

Lemma parseInt_mark (s : jsstring) : parseInt (lbracket :: s) = None.
Proof. reflexivity. Qed.

Lemma filter_digits_mark (ds : jsstring) :
  Forall (fun c => is_digit c = true) ds ->
  filter (fun c => negb (negb (is_digit c))) (lbracket :: ds ++ [rbracket])
  = ds.
Proof.
  intros Hd. cbn [filter]. change (negb (negb (is_digit lbracket))) with false.
  cbv iota. rewrite filter_app. cbn [filter].
  change (negb (negb (is_digit rbracket))) with false. cbv iota.
  rewrite app_nil_r. apply forallb_filter_id. apply forallb_forall.
  rewrite Forall_forall in Hd. intros c Hc. rewrite (Hd c Hc). reflexivity.
Qed.

(** The index of a citation mark, as [parseInt(m.replace(/\D/g, ''), 10)]
    reads it. *)
Lemma mark_index (ds : jsstring) :
  ds <> [] -> Forall (fun c => is_digit c = true) ds ->
  parseInt (replace_all nonDigitRegex [] (lbracket :: ds ++ [rbracket]))
  = Some (toNumber (digits_value ds)).
Proof.
  intros Hne Hd. unfold nonDigitRegex.
  rewrite replace_all_class_empty, (filter_digits_mark Hd).
  apply NumeralFacts.parseInt_digits; assumption.
Qed.

Lemma filter_some_In {A : Type} (l : list (option A)) (x : A) :
  In x (filter_some l) <-> In (Some x) l.
Proof.
  unfold filter_some. rewrite in_flat_map. split.
  - intros ([y|] & H1 & H2); [|contradiction].
    destruct H2 as [->|[]]. exact H1.
  - intros H. exists (Some x). split; [exact H | left; reflexivity].
Qed.

Lemma filter_some_none {A : Type} (l : list (option A)) :
  (forall o, In o l -> o = None) -> filter_some l = [].
Proof.
  intros H. unfold filter_some. induction l as [|o l IH]; [reflexivity|].
  simpl. rewrite (H o (or_introl eq_refl)). apply IH.
  intros o' Ho'. apply H. right. exact Ho'.
Qed.

(** The indices that [extractSourceIndices] and the loop of
    [parseFactsBullets] read off a line: none is negative. *)
Lemma indices_nonneg (item : jsstring) (i : Z) :
  In i (filter_some
          (map (fun m => parseInt (replace_all nonDigitRegex [] m))
               (map m_0 (match_all sourceIdxRegex item)))) ->
  (0 <= i)%Z.
Proof.
  intros H. apply filter_some_In in H. rewrite map_map in H.
  apply in_map_iff in H. destruct H as (m & E & Hm).
  apply sourceIdx_match in Hm. destruct Hm as (ds & Hne & Hd & Em).
  rewrite Em, (mark_index Hne Hd) in E. injection E as <-.
  apply NumeralFacts.toNumber_nonneg, NumeralFacts.digits_value_nonneg, Hd.
Qed.

(** What a bullet contributes to its edge, citations included. *)
Lemma parseBullet_citations (sm : JSMap.t Z jsstring) (item : jsstring)
  l r rel es ei :
  parseBullet sm item = Some (l, r, rel, es, ei) ->
  es = None
  /\ forall idxs, ei = Some idxs ->
       idxs <> [] /\ Forall (fun i => (0 <= i)%Z) idxs.
Proof.
  unfold parseBullet.
  destruct (exec tripleRegex item) as [m|]; [|discriminate].
  destruct (parseEntity (grp 1 m)) as [l'|]; [|discriminate].
  destruct (parseEntity (grp 3 m)) as [r'|]; [|discriminate].
  intros H; injection H as _ _ _ <- <-. split.
  - rewrite filter_some_none; [reflexivity|].
    intros o Ho. apply in_map_iff in Ho. destruct Ho as (t & <- & Ht).
    apply in_map_iff in Ht. destruct Ht as (m' & <- & Hm').
    apply sourceIdx_match in Hm'. destruct Hm' as (ds & Hne & Hd & ->).
    rewrite (brackets_untouched Hne Hd), parseInt_mark. reflexivity.
  - intros idxs E. unfold nonempty_list in E.
    destruct (filter_some _) as [|i rest] eqn:Ef; [discriminate|].
    injection E as <-. split; [discriminate|].
    apply Forall_forall. intros j Hj. rewrite <- Ef in Hj.
    exact (indices_nonneg _ _ Hj).
Qed.

(** Every edge of the loop comes from a bullet. *)
Lemma edge_origin (sm : JSMap.t Z jsstring) (items : list jsstring) :
  forall st e,
    In e (bulletEdges (fold_left (bulletStep sm) items st)) ->
    In e (bulletEdges st)
    \/ exists item l r,
         In item items
         /\ parseBullet sm item
            = Some (l, r, KGEdge.label e, KGEdge.sources e,
                    KGEdge.sourceIndices e)
         /\ KGEdge.source e = KGNode.id l /\ KGEdge.target e = KGNode.id r.
Proof.
  induction items as [|item items IH]; intros st e H; simpl in H; [auto|].
  apply IH in H. destruct H as [H|(it & l & r & Hit & H)].
  - destruct (GraphFacts.bulletStep_cases sm st item)
      as [[_ E]|(l & r & rel & es & ei & Ep & E)]; rewrite E in H; [auto|].
    cbn [bulletEdges] in H. apply in_app_or in H.
    destruct H as [H|[<-|[]]]; [auto|].
    right. exists item, l, r. cbn. split; [left; reflexivity|]. auto.
  - right. exists it, l, r. split; [right; exact Hit | exact H].
Qed.

Lemma result_edge_origin (input : jsstring) (r : ParsedFacts.t)
  (e : KGEdge.t) :
  parseRetrievedFacts input = Some r -> In e (ParsedFacts.edges r) ->
  exists sm item l r',
    parseBullet sm item
    = Some (l, r', KGEdge.label e, KGEdge.sources e, KGEdge.sourceIndices e).
Proof.
  intros Hparse He.
  destruct (GraphFacts.result_graph _ Hparse)
    as [[_ E]|(sm & items & _ & E)]; rewrite E in He; [contradiction|].
  cbv zeta in He. apply edge_origin in He.
  destruct He as [[]|(item & l & r' & _ & H & _)]. eauto.
Qed.

End CitationFacts.

(** X12. The fact text parser attaches no citation URL to any edge:
    whatever the text and whatever its source list, [sources] is
    undefined on every edge of the result. *)
Theorem parsed_edges_cite_no_urls (input : jsstring) (r : ParsedFacts.t)
  (Hparse : parseRetrievedFacts input = Some r) :
  forall e, In e (ParsedFacts.edges r) -> KGEdge.sources e = None.
Proof.
  intros e He.
  destruct (@CitationFacts.result_edge_origin input r e Hparse He)
    as (sm & item & l & r' & H).
  apply CitationFacts.parseBullet_citations in H. tauto.
Qed.

Lemma parsed_edges_cite_no_urls_witness :
  exists r,
    parseRetrievedFacts example_input = Some r
    /\ ParsedFacts.edges r <> []
    /\ forall e, In e (ParsedFacts.edges r) -> KGEdge.sources e = None.
Proof.
  destruct (parseRetrievedFacts example_input) as [r|] eqn:E;
    [|vm_compute in E; discriminate].
  exists r. split; [reflexivity|]. split.
  - vm_compute in E. injection E as <-. discriminate.
  - exact (@parsed_edges_cite_no_urls example_input r E).
Defined.

(** The source indices of a parsed edge, when it has any, are a non-empty
    list of non-negative numbers. *)
Lemma parsed_source_indices_are_naturals
  (input : jsstring) (r : ParsedFacts.t)
  (Hparse : parseRetrievedFacts input = Some r) :
  forall e idxs,
    In e (ParsedFacts.edges r) -> KGEdge.sourceIndices e = Some idxs ->
    idxs <> [] /\ Forall (fun i => (0 <= i)%Z) idxs.
Proof.
  intros e idxs He Hi.
  destruct (@CitationFacts.result_edge_origin input r e Hparse He)
    as (sm & item & l & r' & H).
  apply CitationFacts.parseBullet_citations in H. destruct H as [_ H].
  exact (H idxs Hi).
Qed.

Lemma parsed_source_indices_are_naturals_witness :
  exists r e,
    parseRetrievedFacts example_input = Some r
    /\ In e (ParsedFacts.edges r)
    /\ KGEdge.sourceIndices e = Some [1%Z]
    /\ Forall (fun i => (0 <= i)%Z) [1%Z].
Proof.
  destruct (parseRetrievedFacts example_input) as [r|] eqn:E;
    [|vm_compute in E; discriminate].
  assert (exists e, In e (ParsedFacts.edges r)
                    /\ KGEdge.sourceIndices e = Some [1%Z]) as (e & He & Hi).
  { vm_compute in E. injection E as <-. eexists. split; [left; reflexivity|].
    reflexivity. }
  exists r, e. split; [reflexivity|]. split; [exact He|].
  split; [exact Hi|].
  exact (proj2 (@parsed_source_indices_are_naturals example_input r E
                  e [1%Z] He Hi)).
Defined.

(** ** Sorted sets of strings *)

Module SortFacts.

Lemma leb_total (a b : jsstring) :
  jsstring_leb a b = false -> jsstring_leb b a = true.
Proof.
  revert b; induction a as [|x a IH]; intros [|y b]; simpl;
    try reflexivity; try discriminate.
  destruct (N.ltb x y) eqn:E1; [discriminate|].
  destruct (N.ltb y x) eqn:E2; [reflexivity|]. apply IH.
Qed.

Lemma leb_trans (a b c : jsstring) :
  jsstring_leb a b = true -> jsstring_leb b c = true ->
  jsstring_leb a c = true.
Proof.
  revert b c; induction a as [|x a IH]; intros [|y b] [|z c]; simpl;
    try reflexivity; try discriminate.
  destruct (N.ltb x y) eqn:Exy, (N.ltb y x) eqn:Eyx,
           (N.ltb y z) eqn:Eyz, (N.ltb z y) eqn:Ezy,
           (N.ltb x z) eqn:Exz, (N.ltb z x) eqn:Ezx;
    try reflexivity; try discriminate;
    rewrite ?N.ltb_lt, ?N.ltb_ge in *; try lia.
  apply IH.
Qed.

Lemma leb_antisym (a b : jsstring) :
  jsstring_leb a b = true -> jsstring_leb b a = true -> a = b.
Proof.
  revert b; induction a as [|x a IH]; intros [|y b]; simpl;
    try reflexivity; try discriminate.
  destruct (N.ltb x y) eqn:Exy, (N.ltb y x) eqn:Eyx;
    try discriminate; rewrite ?N.ltb_lt, ?N.ltb_ge in *; try lia.
  intros H1 H2. f_equal; [lia | apply IH; assumption].
Qed.

Lemma lt_trans (a b c : jsstring) :
  jsstring_lt a b -> jsstring_lt b c -> jsstring_lt a c.
Proof.
  intros [H1 N1] [H2 N2]. split; [exact (leb_trans _ _ _ H1 H2)|].
  intros ->. apply N1. apply leb_antisym; assumption.
Qed.

Lemma insert_sorted_sorted (x : jsstring) (l : list jsstring) :
  ~ In x l -> StronglySorted jsstring_lt l ->
  StronglySorted jsstring_lt (insert_sorted x l).
Proof.
  intros Hx Hs. induction Hs as [|y l Hs IH Hy]; simpl.
  - repeat constructor.
  - simpl in Hx. destruct (jsstring_leb x y) eqn:E.
    + assert (jsstring_lt x y) as Hxy by (split; [exact E | intuition congruence]).
      constructor; [constructor; assumption|].
      constructor; [assumption|].
      rewrite Forall_forall in Hy |- *. intros z Hz.
      exact (lt_trans Hxy (Hy z Hz)).
    + constructor.
      * apply IH. tauto.
      * rewrite Forall_forall in Hy |- *. intros z Hz.
        apply ColorFacts.insert_sorted_In in Hz. destruct Hz as [->|Hz]; [|auto].
        split; [apply leb_total, E | intuition congruence].
Qed.

Lemma sort_sorted (l : list jsstring) :
  NoDup l -> StronglySorted jsstring_lt (sort l).
Proof.
  induction 1 as [|x l Hx Hnd IH]; [constructor|].
  change (sort (x :: l)) with (insert_sorted x (sort l)).
  apply insert_sorted_sorted; [|assumption].
  intros H. apply (proj1 (ColorFacts.sort_In x l)) in H. contradiction.
Qed.

(** [Array.from(new Set(l)).sort()]: the members of [l], each once, in
    strictly ascending order. *)
Lemma sorted_set (l : list jsstring) :
  StronglySorted jsstring_lt (sort (dedup l))
  /\ forall x, In x (sort (dedup l)) <-> In x l.
Proof.
  destruct (StatsFacts.dedup_spec l) as [H1 H2]. split.
  - apply sort_sorted, H1.
  - intros x. rewrite ColorFacts.sort_In. apply H2.
Qed.

End SortFacts.

(** X13. The types of a parse result are the types of its nodes, each
    once, in strictly ascending order of code units. *)
Theorem parsed_types_are_sorted_node_types
  (input : jsstring) (r : ParsedFacts.t)
  (Hparse : parseRetrievedFacts input = Some r) :
  StronglySorted jsstring_lt (ParsedFacts.types r)
  /\ forall t,
       In t (ParsedFacts.types r)
       <-> exists n, In n (ParsedFacts.nodes r) /\ KGNode.type n = t.
Proof.
  rewrite (ColorFacts.parseRetrievedFacts_types _ Hparse).
  destruct (SortFacts.sorted_set (map KGNode.type (ParsedFacts.nodes r)))
    as [H1 H2].
  split; [exact H1|]. intros t. rewrite H2, in_map_iff.
  split; intros (n & A & B); exists n; auto.
Qed.

Lemma parsed_types_are_sorted_node_types_witness :
  exists r,
    parseRetrievedFacts example_input = Some r
    /\ ParsedFacts.types r = [str "risk"; str "service"]
    /\ StronglySorted jsstring_lt (ParsedFacts.types r).
Proof.
  destruct (parseRetrievedFacts example_input) as [r|] eqn:E;
    [|vm_compute in E; discriminate].
  exists r. split; [reflexivity|]. split.
  - vm_compute in E. injection E as <-. reflexivity.
  - exact (proj1 (@parsed_types_are_sorted_node_types example_input r E)).
Defined.

(** The relation types that the viewer offers as filters are the labels of
    the edges, each once, in strictly ascending order of code units. *)
Lemma relationTypes_are_sorted_edge_labels
  (nodes : list KGNode.t) (edges : list KGEdge.t) :
  StronglySorted jsstring_lt (relationTypes (graphStats nodes edges))
  /\ forall l,
       In l (relationTypes (graphStats nodes edges))
       <-> exists e, In e edges /\ KGEdge.label e = l.
Proof.
  unfold graphStats.
  destruct (fold_left _ (JSMap.values _) (0, 0)) as [iso maxDeg].
  cbn [relationTypes].
  destruct (SortFacts.sorted_set (map KGEdge.label edges)) as [H1 H2].
  split; [exact H1|]. intros l. rewrite H2, in_map_iff.
  split; intros (e & A & B); exists e; auto.
Qed.

(** ** Entities, the clean text and the source map *)

Module ShapeFacts.
Import RegexFacts MatchFacts MergeFacts.

(** The two groups of the type-and-label pattern. *)
Lemma typeLabel_groups (s0 s' : MState) :
  In s' (run typeLabelRegex s0) -> groups s0 = [] ->
  exists t u,
    groups s' = [(2, u); (1, t)]
    /\ t <> [] /\ Forall (fun c => is_word c = true) t
    /\ u <> [] /\ Forall (fun c => not_ch dquote c = true) u.
Proof.
  intros Hin G0. unfold typeLabelRegex in Hin. cbn [seqs] in Hin.
  apply in_run_seq in Hin. destruct Hin as (s1 & H1 & Hin).
  apply in_run_wordb in H1. subst s1.
  apply in_run_seq in Hin. destruct Hin as (s2 & H2 & Hin).
  apply run_grp_plus_chr in H2. destruct H2 as (t & _ & Ht & Hw & G2).
  apply in_run_seq in Hin. destruct Hin as (s3 & H3 & Hin).
  apply chr_groups in H3.
  apply in_run_seq in Hin. destruct Hin as (s4 & H4 & Hin).
  apply chr_groups in H4.
  apply in_run_seq in Hin. destruct Hin as (s5 & H5 & Hin).
  apply run_grp_plus_chr in H5. destruct H5 as (u & _ & Hu & Hq & G5).
  apply chr_groups in Hin.
  exists t, u. rewrite Hin, G5, H4, H3, G2, G0. auto.
Qed.

Lemma parseEntity_shape (raw : jsstring) (n : KGNode.t) :
  parseEntity raw = Some n ->
  KGNode.id n = makeNodeId (KGNode.type n) (KGNode.label n)
  /\ KGNode.type n <> []
  /\ Forall (fun c => is_word c = true) (KGNode.type n)
  /\ KGNode.label n <> []
  /\ ~ In dquote (KGNode.label n).
Proof.
  unfold parseEntity.
  destruct (exec typeLabelRegex raw) as [m|] eqn:E; [|cbn; discriminate].
  apply exec_run in E. destruct E as (s0 & Hin & G0 & _).
  destruct (typeLabel_groups _ _ Hin G0) as (t & u & G & Ht & Hw & Hu & Hq).
  assert (grp 1 m = t) as E1 by (unfold grp, m_group; rewrite G; reflexivity).
  assert (grp 2 m = u) as E2 by (unfold grp, m_group; rewrite G; reflexivity).
  rewrite E1, E2.
  destruct (negb (truthy t) || negb (truthy u))%bool; [discriminate|].
  intros H; injection H as <-. cbn.
  repeat split; try assumption.
  intros Hin'. rewrite Forall_forall in Hq. specialize (Hq _ Hin').
  unfold not_ch in Hq. rewrite N.eqb_refl in Hq. discriminate.
Qed.

Lemma occurrence_parsed (sm : JSMap.t Z jsstring) (block : jsstring)
  (n : KGNode.t) :
  In n (occurrences sm block) -> exists raw, parseEntity raw = Some n.
Proof.
  unfold occurrences, occurrencesIn. rewrite in_flat_map.
  intros (item & _ & H). unfold parseBullet in H.
  destruct (exec tripleRegex item) as [m|]; [|contradiction].
  destruct (parseEntity (grp 1 m)) as [l|] eqn:El; [|contradiction].
  destruct (parseEntity (grp 3 m)) as [r|] eqn:Er; [|contradiction].
  destruct H as [<-|[<-|[]]]; eauto.
Qed.

Lemma result_nodes (input : jsstring) (r : ParsedFacts.t) :
  parseRetrievedFacts input = Some r ->
  NoDup (map KGNode.id (ParsedFacts.nodes r))
  /\ forall n, In n (ParsedFacts.nodes r) ->
       exists raw, parseEntity raw = Some n.
Proof.
  intros H. apply MarkerFacts.parseRetrievedFacts_some in H.
  destruct H as (_ & Hn & _). cbv zeta in Hn. rewrite Hn.
  destruct (factsBlock _) as [[|c b]|];
    try (split; [constructor | intros n []]).
  set (sm := parseSourcesMap _).
  destruct (parseFactsBullets_nodes sm (c :: b)) as (_ & Hsub & _).
  split.
  - unfold parseFactsBullets. cbn [fst]. unfold rawItems.
    rewrite GraphFacts.values_ids.
    apply (@fold_keyed sm (fun _ => True)); [auto|].
    split; [constructor | intros k n []].
  - intros n Hin. apply Hsub in Hin. exact (occurrence_parsed _ _ _ Hin).
Qed.

(** The clean text of a content is its beginning. *)
Lemma blocksCleanText_prefix (content : jsstring) :
  exists post, content = blocksCleanText (extractBlocks content) ++ post.
Proof.
  unfold extractBlocks. cbn [blocksCleanText].
  destruct (exec factsRegex content) as [m|].
  - destruct (MarkerFacts.cleanText_is_prefix_before content m) as (post & E & _).
    exists post. exact E.
  - destruct (truthy_opt _).
    + destruct (MarkerFacts.replace_sourcesOnly_prefix content) as [post E].
      destruct (MarkerFacts.trimEnd_prefix (replace sourcesOnlyRegex [] content))
        as [t Et].
      exists (t ++ post). rewrite app_assoc, <- Et. exact E.
    + exists []. rewrite app_nil_r. reflexivity.
Qed.

(** The two groups of a source entry. *)
Lemma sourceEntry_groups (s0 s' : MState) :
  In s' (run sourceEntryRegex s0) -> groups s0 = [] ->
  exists ds u,
    groups s' = [(2, u); (1, ds)]
    /\ ds <> [] /\ Forall (fun c => is_digit c = true) ds
    /\ u <> [] /\ Forall (fun c => is_space c = false) u.
Proof.
  intros Hin G0. unfold sourceEntryRegex in Hin. cbn [seqs] in Hin.
  apply in_run_seq in Hin. destruct Hin as (s1 & H1 & Hin).
  apply chr_groups in H1.
  apply in_run_seq in Hin. destruct Hin as (s2 & H2 & Hin).
  apply run_grp_plus_chr in H2. destruct H2 as (ds & _ & Hne & Hd & G2).
  apply in_run_seq in Hin. destruct Hin as (s3 & H3 & Hin).
  apply chr_groups in H3.
  apply in_run_seq in Hin. destruct Hin as (s4 & H4 & Hin).
  apply run_star_chr in H4. destruct H4 as (_ & _ & _ & G4).
  apply run_grp_plus_chr in Hin. destruct Hin as (u & _ & Hu & Hs & G5).
  exists ds, u. rewrite G5, G4, H3, G2, H1, G0.
  repeat split; try assumption.
  apply Forall_forall. rewrite Forall_forall in Hs. intros c Hc.
  specialize (Hs c Hc). apply negb_true_iff in Hs. exact Hs.
Qed.

Lemma parseSourcesMap_entries (block : option jsstring) :
  NoDup (JSMap.keys (parseSourcesMap block))
  /\ Forall goodEntry (parseSourcesMap block).
Proof.
  unfold parseSourcesMap.
  destruct block as [[|c block]|]; try (split; constructor).
  set (ms := match_all sourceEntryRegex (c :: block)).
  assert (forall m, In m ms ->
            exists ds u, grp 1 m = ds /\ grp 2 m = u
              /\ ds <> [] /\ Forall (fun c => is_digit c = true) ds
              /\ u <> [] /\ Forall (fun c => is_space c = false) u) as Hms.
  { intros m Hm. apply match_all_run in Hm.
    destruct Hm as (s0 & Hin & G0 & _).
    destruct (sourceEntry_groups _ _ Hin G0) as (ds & u & G & H).
    exists ds, u. unfold grp, m_group. rewrite G. cbn. auto. }
  clearbody ms.
  assert (forall map0,
            NoDup (JSMap.keys map0) /\ Forall goodEntry map0 ->
            let map1 :=
              fold_left (fun map m =>
                           match parseInt (grp 1 m) with
                           | Some idx =>
                               if truthy (grp 2 m)
                               then JSMap.set Z.eqb idx (grp 2 m) map else map
                           | None => map
                           end) ms map0 in
            NoDup (JSMap.keys map1) /\ Forall goodEntry map1) as Hfold.
  { induction ms as [|m ms IH]; intros map0 H0; [exact H0|].
    cbn [fold_left]. apply IH; [intros m' Hm'; apply Hms; right; exact Hm'|].
    destruct (Hms m (or_introl eq_refl)) as (ds & u & -> & -> & Hne & Hd & Hu & Hs).
    rewrite (NumeralFacts.parseInt_digits Hne Hd).
    destruct (truthy u); [|exact H0]. destruct H0 as [Hnd Hgood]. split.
    - apply (MapKeyFacts.NoDup_keys_set Z.eqb Z.eqb_eq). exact Hnd.
    - apply Forall_forall. intros [k v] Hin.
      apply (MapKeyFacts.in_set Z.eqb Z.eqb_eq) in Hin.
      destruct Hin as [Hin|[-> ->]].
      + rewrite Forall_forall in Hgood. exact (Hgood _ Hin).
      + split; [apply NumeralFacts.toNumber_nonneg,
                      NumeralFacts.digits_value_nonneg, Hd|].
        cbn. auto. }
  apply Hfold. split; constructor.
Qed.

Lemma cleanText_part (input : jsstring) (r : ParsedFacts.t)
  (Hparse : parseRetrievedFacts input = Some r) :
  exists pre post,
    input = pre ++ ParsedFacts.cleanText r ++ post
    /\ (ParsedFacts.preamble r = None -> pre = []).
Proof.
  pose proof (MarkerFacts.parseRetrievedFacts_some _ Hparse) as (Hc & _ & _).
  cbv zeta in Hc. rewrite Hc.
  assert (ParsedFacts.preamble r = fst (splitChatResponse input)) as Hp.
  { revert Hparse. unfold parseRetrievedFacts.
    destruct (negb (truthy input)); [discriminate|].
    destruct (splitChatResponse input) as [pre content].
    generalize (extractBlocks content) as blocks; intros blocks.
    destruct (negb (truthy_opt pre) && _)%bool; [discriminate|].
    intros H; injection H as <-. reflexivity. }
  rewrite Hp. unfold splitChatResponse.
  destruct (exec chatResponseRegex input) as [m|]; cbn [fst snd].
  - destruct (blocksCleanText_prefix
                (slice_from (m_index m + length (m_0 m)) input)) as [post E].
    exists (firstn (m_index m + length (m_0 m)) input), post.
    split; [|discriminate]. rewrite <- E. unfold slice_from.
    symmetry. apply firstn_skipn.
  - destruct (blocksCleanText_prefix input) as [post E].
    exists [], post. split; [exact E | reflexivity].
Qed.

End ShapeFacts.

(** X14. The nodes of a parse result are well formed: the id of a node
    is its type, a colon and its label; the type is a non-empty word of
    letters, digits and underscores; the label is non-empty and holds no
    double quote; and no two nodes share an id. *)
Theorem parsed_nodes_are_well_formed (input : jsstring) (r : ParsedFacts.t)
  (Hparse : parseRetrievedFacts input = Some r) :
  NoDup (map KGNode.id (ParsedFacts.nodes r))
  /\ forall n, In n (ParsedFacts.nodes r) ->
       KGNode.id n = makeNodeId (KGNode.type n) (KGNode.label n)
       /\ KGNode.type n <> []
       /\ Forall (fun c => is_word c = true) (KGNode.type n)
       /\ KGNode.label n <> []
       /\ ~ In dquote (KGNode.label n).
Proof.
  destruct (ShapeFacts.result_nodes _ Hparse) as [Hnd Hraw].
  split; [exact Hnd|]. intros n Hin. destruct (Hraw n Hin) as [raw E].
  exact (ShapeFacts.parseEntity_shape _ E).
Qed.

Lemma parsed_nodes_are_well_formed_witness :
  exists r,
    parseRetrievedFacts second_mention_input = Some r
    /\ map KGNode.id (ParsedFacts.nodes r) = [str "a:x"; str "b:y"]
    /\ NoDup (map KGNode.id (ParsedFacts.nodes r)).
Proof.
  destruct (parseRetrievedFacts second_mention_input) as [r|] eqn:E;
    [|vm_compute in E; discriminate].
  exists r. split; [reflexivity|]. split.
  - vm_compute in E. injection E as <-. reflexivity.
  - exact (proj1 (@parsed_nodes_are_well_formed second_mention_input r E)).
Defined.

(** X15. The clean text is a piece of the input: the parser cuts, it
    never rewrites.  Without a preamble the clean text is the beginning
    of the input. *)
Theorem clean_text_is_part_of_input (input : jsstring) (r : ParsedFacts.t)
  (Hparse : parseRetrievedFacts input = Some r) :
  exists pre post,
    input = pre ++ ParsedFacts.cleanText r ++ post
    /\ (ParsedFacts.preamble r = None -> pre = []).
Proof. exact (@ShapeFacts.cleanText_part input r Hparse). Qed.

Lemma clean_text_is_part_of_input_witness :
  exists r pre post,
    parseRetrievedFacts sources_first_input = Some r
    /\ sources_first_input = pre ++ ParsedFacts.cleanText r ++ post.
Proof.
  destruct (parseRetrievedFacts sources_first_input) as [r|] eqn:E;
    [|vm_compute in E; discriminate].
  destruct (@clean_text_is_part_of_input sources_first_input r E)
    as (pre & post & H & _).
  exists r, pre, post. split; [reflexivity | exact H].
Defined.

(** X16. The source map of a parse result: its indices are non-negative,
    no index is listed twice, and every URL is a non-empty run of
    characters other than white space. *)
Theorem parsed_source_map_is_well_formed
  (input : jsstring) (r : ParsedFacts.t) (m : JSMap.t Z jsstring)
  (Hparse : parseRetrievedFacts input = Some r)
  (Hmap : ParsedFacts.sourceIndexToUrl r = Some m) :
  NoDup (JSMap.keys m)
  /\ forall k u, In (k, u) m ->
       (0 <= k)%Z /\ u <> [] /\ Forall (fun c => is_space c = false) u.
Proof.
  assert (exists block, m = parseSourcesMap block) as [block ->].
  { revert Hparse Hmap. unfold parseRetrievedFacts.
    destruct (negb (truthy input)); [discriminate|].
    destruct (splitChatResponse input) as [pre content].
    generalize (extractBlocks content) as blocks; intros blocks.
    destruct (negb (truthy_opt pre) && _)%bool; [discriminate|].
    intros H; injection H as <-. cbn. intros H; injection H as <-. eauto. }
  destruct (ShapeFacts.parseSourcesMap_entries block) as [Hnd Hgood].
  split; [exact Hnd|]. intros k u Hin.
  rewrite Forall_forall in Hgood. exact (Hgood _ Hin).
Qed.

Lemma parsed_source_map_is_well_formed_witness :
  exists r,
    parseRetrievedFacts example_input = Some r
    /\ ParsedFacts.sourceIndexToUrl r = Some [(1%Z, str "https://a.com")]
    /\ NoDup (JSMap.keys [(1%Z, str "https://a.com")]).
Proof.
  destruct (parseRetrievedFacts example_input) as [r|] eqn:E;
    [|vm_compute in E; discriminate].
  assert (ParsedFacts.sourceIndexToUrl r = Some [(1%Z, str "https://a.com")])
    as Em.
  { pose proof E as E'. vm_compute in E'. injection E' as <-. reflexivity. }
  exists r. split; [reflexivity|]. split; [exact Em|].
  exact (proj1 (@parsed_source_map_is_well_formed example_input r _ E Em)).
Defined.

(** ** The grouped parser *)

Module GroupedShape.
Import Grouped RegexFacts MatchFacts MergeFacts.

Local Abbreviation keysOf st := (JSMap.keys (nodesById st)).

Lemma groupedEntity_groups (s0 s' : MState) :
  In s' (run groupedEntityRegex s0) -> groups s0 = [] ->
  exists t u,
    groups s' = [(2, u); (1, t)]
    /\ t <> [] /\ Forall (fun c => is_word c = true) t
    /\ u <> [] /\ Forall (fun c => not_ch dquote c = true) u.
Proof.
  intros Hin G0. unfold groupedEntityRegex in Hin. cbn [seqs] in Hin.
  apply in_run_seq in Hin. destruct Hin as (s1 & H1 & Hin).
  apply chr_groups in H1.
  apply in_run_seq in Hin. destruct Hin as (s2 & H2 & Hin).
  apply run_star_chr in H2. destruct H2 as (_ & _ & _ & G2).
  apply in_run_seq in Hin. destruct Hin as (s3 & H3 & Hin).
  apply run_grp_plus_chr in H3. destruct H3 as (t & _ & Ht & Hw & G3).
  apply in_run_seq in Hin. destruct Hin as (s4 & H4 & Hin).
  apply run_star_chr in H4. destruct H4 as (_ & _ & _ & G4).
  apply in_run_seq in Hin. destruct Hin as (s5 & H5 & Hin).
  apply chr_groups in H5.
  apply in_run_seq in Hin. destruct Hin as (s6 & H6 & Hin).
  apply run_star_chr in H6. destruct H6 as (_ & _ & _ & G6).
  apply in_run_seq in Hin. destruct Hin as (s7 & H7 & Hin).
  apply chr_groups in H7.
  apply in_run_seq in Hin. destruct Hin as (s8 & H8 & Hin).
  apply run_grp_plus_chr in H8. destruct H8 as (u & _ & Hu & Hq & G8).
  apply in_run_seq in Hin. destruct Hin as (s9 & H9 & Hin).
  apply chr_groups in H9.
  apply in_run_seq in Hin. destruct Hin as (s10 & H10 & Hin).
  apply run_star_chr in H10. destruct H10 as (_ & _ & _ & G10).
  apply chr_groups in Hin.
  exists t, u. rewrite Hin, G10, H9, G8, H7, G6, H5, G4, G3, G2, H1, G0. auto.
Qed.

Lemma parseEntity_spec (raw : jsstring) (st : State) :
  nodesOK (nodesById st) ->
  let o := fst (parseEntity raw st) in
  let st' := snd (parseEntity raw st) in
  nodesOK (nodesById st')
  /\ edges st' = edges st
  /\ edgeCounter st' = edgeCounter st
  /\ currentCentral st' = currentCentral st
  /\ (forall k, In k (keysOf st) -> In k (keysOf st'))
  /\ (forall n, o = Some n -> In (KGNode.id n) (keysOf st'))
  /\ (o = None -> st' = st).
Proof.
  intros Hok. cbv zeta. unfold parseEntity.
  destruct (exec groupedEntityRegex raw) as [m|] eqn:E; cbn [fst snd];
    [|split; [exact Hok|]; do 4 (split; [auto|]); split;
      [intros n Hn; discriminate Hn | reflexivity]].
  apply exec_run in E. destruct E as (s0 & Hin & G0 & _).
  destruct (groupedEntity_groups _ _ Hin G0) as (t & u & G & Ht & Hw & Hu & Hq).
  assert (grp 1 m = t) as -> by (unfold grp, m_group; rewrite G; reflexivity).
  assert (grp 2 m = u) as -> by (unfold grp, m_group; rewrite G; reflexivity).
  destruct (JSMap.get jsstring_eqb (makeNodeId t u) (nodesById st))
    as [node|] eqn:Eg; cbn [fst snd nodesById edges edgeCounter currentCentral].
  - split; [exact Hok|]. do 4 (split; [auto|]). split; [|discriminate].
    intros n H; injection H as <-.
    apply (JSMapFacts.get_some_in jsstring_eqb jsstring_eqb_eq) in Eg.
    destruct Hok as [_ Hk]. destruct (Hk _ _ Eg) as [<- _].
    apply in_map_iff. exists (makeNodeId t u, node). auto.
  - set (node := KGNode.mk (makeNodeId t u) t u None None None).
    assert (JSMap.set jsstring_eqb (makeNodeId t u) node (nodesById st)
            = register node (nodesById st)) as Er.
    { unfold register, JSMap.has. cbn [KGNode.id node]. rewrite Eg.
      reflexivity. }
    rewrite Er. split; [|do 3 (split; [reflexivity|]); split; [|split]].
    + apply keyed_register; [|exact Hok]. split.
      * repeat split; cbn; auto.
        intros Hd. rewrite Forall_forall in Hq. specialize (Hq _ Hd).
        unfold not_ch in Hq. rewrite N.eqb_refl in Hq. discriminate.
      * repeat split.
    + intros k Hk. apply GraphFacts.keys_register_In. auto.
    + intros n H; injection H as <-. apply GraphFacts.keys_register_In. auto.
    + discriminate.
Qed.

Lemma makeEdge_cited (sm : JSMap.t Z jsstring) (line : jsstring) (n : nat)
  (s t rel : jsstring) :
  cited sm (makeEdge sm line n s t rel).
Proof.
  unfold cited, makeEdge. cbn [KGEdge.sourceIndices KGEdge.sources].
  pose proof (CitationFacts.indices_nonneg line) as Hnn.
  fold (extractSourceIndices line) in Hnn.
  destruct (extractSourceIndices line) as [|i idxs]; [reflexivity|].
  cbn [nonempty_list]. split; [discriminate|]. split; [|reflexivity].
  apply Forall_forall. exact Hnn.
Qed.

Lemma grouped_init (sm : JSMap.t Z jsstring) : groupedShape sm init.
Proof.
  unfold groupedShape, Grouped.init. cbn.
  repeat split; try contradiction; try discriminate; try constructor.
Qed.

Lemma grouped_push (sm : JSMap.t Z jsstring) (st : State) (line : jsstring)
  (s t rel : jsstring) :
  groupedShape sm st -> In s (keysOf st) -> In t (keysOf st) ->
  groupedShape sm (pushEdge (makeEdge sm line (edgeCounter st) s t rel) st).
Proof.
  intros (Hok & Hc & Hn & Hids & Hends & Hcit) Hs Ht.
  unfold groupedShape, pushEdge. cbn [nodesById edges edgeCounter currentCentral].
  rewrite length_app. cbn [length]. rewrite Nat.add_1_r.
  split; [exact Hok|]. split; [exact Hc|]. split; [lia|]. split; [|split].
  - rewrite map_app, Hids, NumeralFacts.edgeIdsFrom_snoc, Hn. reflexivity.
  - intros e He. apply in_app_or in He.
    destruct He as [He|[<-|[]]]; [auto | cbn; auto].
  - intros e He. apply in_app_or in He.
    destruct He as [He|[<-|[]]]; [auto | apply makeEdge_cited].
Qed.

(** A state that differs only by registered nodes. *)
Lemma grouped_more_nodes (sm : JSMap.t Z jsstring) (st st' : State) :
  groupedShape sm st ->
  nodesOK (nodesById st') -> edges st' = edges st ->
  edgeCounter st' = edgeCounter st ->
  currentCentral st' = currentCentral st ->
  (forall k, In k (keysOf st) -> In k (keysOf st')) ->
  groupedShape sm st'.
Proof.
  intros (Hok & Hc & Hn & Hids & Hends & Hcit) Hok' He Hec Hcc Hsub.
  unfold groupedShape. rewrite He, Hec, Hcc.
  split; [exact Hok'|]. split; [auto|]. split; [exact Hn|].
  split; [exact Hids|]. split; [|exact Hcit].
  intros e H. split; apply Hsub; apply (Hends e H).
Qed.

Lemma grouped_entity (sm : JSMap.t Z jsstring) (raw : jsstring) (st : State) :
  groupedShape sm st ->
  groupedShape sm (snd (parseEntity raw st))
  /\ (forall k, In k (keysOf st) -> In k (keysOf (snd (parseEntity raw st))))
  /\ (forall n, fst (parseEntity raw st) = Some n ->
        In (KGNode.id n) (keysOf (snd (parseEntity raw st)))).
Proof.
  intros H. pose proof H as (Hok & _).
  destruct (parseEntity_spec raw st Hok) as (H1 & H2 & H3 & H4 & H5 & H6 & _).
  split; [|split; assumption].
  exact (@grouped_more_nodes sm st _ H H1 H2 H3 H4 H5).
Qed.

Lemma grouped_central (sm : JSMap.t Z jsstring) (st : State) (n : KGNode.t) :
  groupedShape sm st -> In (KGNode.id n) (keysOf st) ->
  groupedShape sm (setCentral n st).
Proof.
  intros (Hok & Hc & Hn & Hids & Hends & Hcit) Hin.
  unfold groupedShape, setCentral.
  cbn [nodesById edges edgeCounter currentCentral].
  split; [exact Hok|]. split; [|auto].
  intros n' E. injection E as <-. exact Hin.
Qed.

Lemma grouped_step (sm : JSMap.t Z jsstring) (st : State) (rawLine : jsstring) :
  groupedShape sm st -> groupedShape sm (step sm st rawLine).
Proof.
  intros H. unfold step.
  destruct (negb (truthy (trim rawLine))); [exact H|].
  destruct (startsWith [lparen] (trim rawLine)).
  { destruct (@grouped_entity sm (trim rawLine) _ H) as (H1 & _ & H3).
    destruct (parseEntity (trim rawLine) st) as [[node|] st1];
      cbn [fst snd] in *; [|exact H1].
    apply grouped_central; [exact H1 | apply H3; reflexivity]. }
  destruct (exec tripleRegex (trim rawLine)) as [triple|].
  { destruct (@grouped_entity sm (parenthesised (grp 1 triple)) _ H)
      as (H1 & S1 & K1).
    destruct (parseEntity (parenthesised (grp 1 triple)) st) as [left_ st1].
    cbn [fst snd] in *.
    destruct (@grouped_entity sm (parenthesised (grp 3 triple)) _ H1)
      as (H2 & S2 & K2).
    destruct (parseEntity (parenthesised (grp 3 triple)) st1) as [right_ st2].
    cbn [fst snd] in *.
    destruct left_ as [l|]; [|exact H2].
    destruct right_ as [r|]; [|exact H2].
    apply grouped_push; [exact H2 | apply S2, K1; reflexivity
                         | apply K2; reflexivity]. }
  destruct (exec outwardRegex (trim rawLine)) as [outward|].
  { destruct (currentCentral st) as [central|] eqn:Ec.
    - destruct (@grouped_entity sm (parenthesised (grp 2 outward)) _ H)
        as (H1 & S1 & K1).
      destruct (parseEntity (parenthesised (grp 2 outward)) st) as [[r|] st1];
        cbn [fst snd] in *; [|exact H1].
      apply grouped_push; [exact H1 | | apply K1; reflexivity].
      apply S1. destruct H as (_ & Hc & _). apply Hc, Ec.
    - destruct (exec inwardRegex (trim rawLine)); exact H. }
  destruct (exec inwardRegex (trim rawLine)) as [inward|]; [|exact H].
  destruct (currentCentral st) as [central|] eqn:Ec; [|exact H].
  destruct (@grouped_entity sm (parenthesised (grp 2 inward)) _ H)
    as (H1 & S1 & K1).
  destruct (parseEntity (parenthesised (grp 2 inward)) st) as [[l|] st1];
    cbn [fst snd] in *; [|exact H1].
  apply grouped_push; [exact H1 | apply K1; reflexivity |].
  apply S1. destruct H as (_ & Hc & _). apply Hc, Ec.
Qed.

Lemma grouped_run (sm : JSMap.t Z jsstring) (lines : list jsstring) :
  groupedShape sm (run_lines sm lines).
Proof.
  unfold run_lines.
  assert (forall st, groupedShape sm st ->
            groupedShape sm (fold_left (step sm) lines st)) as Hfold.
  { induction lines as [|l lines IH]; intros st H; simpl; [exact H|].
    apply IH, grouped_step, H. }
  apply Hfold, grouped_init.
Qed.

Lemma grouped_values_ids (st : State) :
  nodesOK (nodesById st) ->
  map KGNode.id (JSMap.values (nodesById st)) = keysOf st.
Proof.
  intros [_ Hk]. unfold JSMap.values, JSMap.keys. rewrite map_map.
  apply map_ext_in. intros [k n] Hin. simpl. symmetry. apply (Hk k n Hin).
Qed.

(** The graph that the loop leaves. *)
Lemma closed (lines : list jsstring) (sm : JSMap.t Z jsstring) :
  let '(nodes, edges, _) := parseFactsPreviewGrouped lines sm in
  NoDup (map KGNode.id nodes)
  /\ (forall e, In e edges ->
        In (KGEdge.source e) (map KGNode.id nodes)
        /\ In (KGEdge.target e) (map KGNode.id nodes))
  /\ map KGEdge.id edges = edgeIdsFrom 0 (length edges).
Proof.
  unfold parseFactsPreviewGrouped.
  destruct (grouped_run sm lines) as (Hok & _ & _ & Hids & Hends & _).
  rewrite (grouped_values_ids _ Hok).
  split; [apply Hok|]. split; [exact Hends | exact Hids].
Qed.

End GroupedShape.

(** X17. The graph of the grouped parser is closed: no two nodes share
    an id, every edge joins two nodes of the result, and the edge ids
    are [e_0], [e_1], ... in the order of the edges. *)
Theorem grouped_graph_is_closed
  (lines : list jsstring) (sourceIndexToUrl : JSMap.t Z jsstring) :
  let '(nodes, edges, _) := parseFactsPreviewGrouped lines sourceIndexToUrl in
  NoDup (map KGNode.id nodes)
  /\ (forall e, In e edges ->
        In (KGEdge.source e) (map KGNode.id nodes)
        /\ In (KGEdge.target e) (map KGNode.id nodes))
  /\ map KGEdge.id edges = edgeIdsFrom 0 (length edges).
Proof. exact (GroupedShape.closed lines sourceIndexToUrl). Qed.

(** X18. The nodes of the grouped parser carry their identity and
    nothing else: the id is the type, a colon and the label, and [url],
    [page] and [attrs] are undefined, whatever attributes the line
    gives. *)
Theorem grouped_nodes_are_bare
  (lines : list jsstring) (sourceIndexToUrl : JSMap.t Z jsstring) :
  let '(nodes, _, _) := parseFactsPreviewGrouped lines sourceIndexToUrl in
  forall n, In n nodes -> identified n /\ bare n.
Proof.
  unfold parseFactsPreviewGrouped.
  destruct (GroupedShape.grouped_run sourceIndexToUrl lines) as ([_ Hk] & _).
  intros n Hin. unfold JSMap.values in Hin. apply in_map_iff in Hin.
  destruct Hin as ([k x] & <- & Hx). apply (Hk k x Hx).
Qed.

(** X19. The grouped parser resolves the citations of an edge: when a
    line cites indices, they are non-negative, and the URLs of the edge
    are those that the source list gives for them, in the order of the
    indices; an edge without indices has no URLs. *)
Theorem grouped_edges_cite_resolved_urls
  (lines : list jsstring) (sourceIndexToUrl : JSMap.t Z jsstring) :
  let '(_, edges, _) := parseFactsPreviewGrouped lines sourceIndexToUrl in
  forall e, In e edges ->
    match KGEdge.sourceIndices e with
    | Some idxs =>
        idxs <> [] /\ Forall (fun i => (0 <= i)%Z) idxs
        /\ KGEdge.sources e
           = nonempty_list (resolvedUrls sourceIndexToUrl idxs)
    | None => KGEdge.sources e = None
    end.
Proof.
  unfold parseFactsPreviewGrouped.
  destruct (GroupedShape.grouped_run sourceIndexToUrl lines)
    as (_ & _ & _ & _ & _ & Hcit).
  exact Hcit.
Qed.

(** X20. A grouped relation needs a central node: as long as no line
    begins with an opening parenthesis and none holds a full triple, the
    grouped parser has no central node to attach a relation to, and it
    returns no node, no edge and no type. *)
Theorem grouped_relations_need_a_central_node
  (lines : list jsstring) (sourceIndexToUrl : JSMap.t Z jsstring)
  (Hlines : Forall (fun l => startsWith [lparen] (trim l) = false
                             /\ exec tripleRegex (trim l) = None) lines) :
  parseFactsPreviewGrouped lines sourceIndexToUrl = ([], [], []).
Proof.
  unfold parseFactsPreviewGrouped, Grouped.run_lines.
  assert (fold_left (Grouped.step sourceIndexToUrl) lines Grouped.init
          = Grouped.init) as ->; [|reflexivity].
  induction Hlines as [|l lines [Hp Ht] _ IH]; [reflexivity|].
  cbn [fold_left].
  assert (Grouped.step sourceIndexToUrl Grouped.init l = Grouped.init) as ->;
    [|exact IH].
  unfold Grouped.step. rewrite Hp, Ht. cbn [Grouped.currentCentral Grouped.init].
  destruct (negb (truthy (trim l))); [reflexivity|].
  destruct (exec outwardRegex (trim l)); destruct (exec inwardRegex (trim l));
    reflexivity.
Qed.

Lemma grouped_relations_need_a_central_node_witness :
  parseFactsPreviewGrouped [orphan_relation_line] [] = ([], [], []).
Proof.
  apply grouped_relations_need_a_central_node.
  repeat constructor; vm_compute; reflexivity.
Defined.

(** ** The two normalisers *)

Module NormaliserFacts.

Lemma find_app {A : Type} (p : A -> bool) (l1 l2 : list A) :
  find p (l1 ++ l2)
  = match find p l1 with Some x => Some x | None => find p l2 end.
Proof.
  induction l1 as [|x l1 IH]; simpl; [reflexivity|].
  destruct (p x); [reflexivity | exact IH].
Qed.

Lemma sourceMapping_fold (sources : list Source) :
  forall (m : JSMap.t Z jsstring) (id : Z),
    JSMap.get Z.eqb id
      (fold_left (fun rec source =>
                    JSMap.set Z.eqb (source_id source) (source_url source) rec)
                 sources m)
    = match find (fun s => Z.eqb (source_id s) id) (rev sources) with
      | Some s => Some (source_url s)
      | None => JSMap.get Z.eqb id m
      end.
Proof.
  induction sources as [|s sources IH]; intros m id; [reflexivity|].
  cbn [fold_left rev]. rewrite IH, find_app.
  destruct (find _ (rev sources)) as [s'|]; [reflexivity|].
  cbn [find]. destruct (Z.eqb (source_id s) id) eqn:E.
  - apply Z.eqb_eq in E. subst id.
    apply (JSMapFacts.get_set_same Z.eqb Z.eqb_eq).
  - apply Z.eqb_neq in E.
    apply (JSMapFacts.get_set_other Z.eqb Z.eqb_eq). congruence.
Qed.

(** The graph of a structured result comes from one of the two parsers. *)
Lemma structured_graph (sr : StructuredResponse) (sources : list Source)
  (fp : option (list jsstring)) :
  let p := parseStructuredGraphRAGResponse sr sources fp in
  (nodes p = [] /\ edges p = [])
  \/ (exists input r,
        parseRetrievedFacts input = Some r
        /\ nodes p = ParsedFacts.nodes r /\ edges p = ParsedFacts.edges r)
  \/ (exists lines,
        (nodes p, edges p, types p)
        = parseFactsPreviewGrouped lines (sourceMapping sources)).
Proof.
  unfold parseStructuredGraphRAGResponse.
  destruct (if truthy (Chat_Response sr)
            then parseRetrievedFacts (Chat_Response sr) else None)
    as [kg|] eqn:E0.
  - right. left. exists (Chat_Response sr), kg. split; [|cbn; auto].
    destruct (truthy (Chat_Response sr)); [exact E0 | discriminate].
  - destruct fp as [[|l ls]|]; [left; cbn; auto| |left; cbn; auto].
    destruct (parseRetrievedFacts (join [newline] (l :: ls))) as [kg|] eqn:E1.
    + right. left. exists (join [newline] (l :: ls)), kg. cbn. auto.
    + right. right. exists (l :: ls).
      destruct (parseFactsPreviewGrouped (l :: ls) (sourceMapping sources))
        as [[gn ge] gt]. reflexivity.
Qed.

End NormaliserFacts.

(** X21. The source map of a normaliser answers an index with the URL of
    the last source of the payload that carries this index, and with
    nothing when no source carries it. *)
Theorem source_mapping_last_entry_wins (sources : list Source) (id : Z) :
  JSMap.get Z.eqb id (sourceMapping sources)
  = option_map source_url
      (find (fun s => Z.eqb (source_id s) id) (rev sources)).
Proof.
  unfold sourceMapping. rewrite NormaliserFacts.sourceMapping_fold.
  destruct (find _ (rev sources)); reflexivity.
Qed.

(** X22. The legacy normaliser and the structured one agree on the chat
    response, the source map and the preamble of every payload.  They
    agree on the graph as well whenever the fact text parser succeeds on
    the answer or on the joined preview; when it fails on both, the
    legacy result has no graph and the structured result has the graph
    of the grouped parser. *)
Theorem legacy_and_structured_normalisers_agree
  (sr : StructuredResponse) (sources : list Source)
  (fp : option (list jsstring)) :
  let s := parseStructuredGraphRAGResponse sr sources fp in
  let l := parseLegacyGraphRAGResponse (Chat_Response sr) sources fp in
  chatResponse s = chatResponse l
  /\ sourceIndexToUrl s = sourceIndexToUrl l
  /\ preamble s = preamble l
  /\ match structuredKgData (Chat_Response sr) fp with
     | Some _ => nodes s = nodes l /\ edges s = edges l /\ types s = types l
     | None =>
         nodes l = [] /\ edges l = [] /\ types l = []
         /\ (nodes s, edges s, types s)
            = match fp with
              | Some ((_ :: _) as lines) =>
                  parseFactsPreviewGrouped lines (sourceMapping sources)
              | _ => ([], [], [])
              end
     end.
Proof.
  unfold parseStructuredGraphRAGResponse, parseLegacyGraphRAGResponse,
    structuredKgData.
  destruct (if truthy (Chat_Response sr)
            then parseRetrievedFacts (Chat_Response sr) else None)
    as [kg|]; [cbn; auto 10|].
  destruct fp as [[|x xs]|]; [cbn; auto 10| |cbn; auto 10].
  destruct (parseRetrievedFacts (join [newline] (x :: xs))) as [kg|];
    [cbn; auto 10|].
  destruct (parseFactsPreviewGrouped (x :: xs) (sourceMapping sources))
    as [[gn ge] gt]. cbn. auto 10.
Qed.

(** X23. The graph that the structured normaliser hands to the viewer is
    closed, whichever parser it comes from: no two nodes share an id and
    every edge joins two nodes of the result.  So the result has
    knowledge-graph data exactly when it has a node. *)
Theorem normalised_graph_is_closed
  (sr : StructuredResponse) (sources : list Source)
  (fp : option (list jsstring)) :
  let p := parseStructuredGraphRAGResponse sr sources fp in
  NoDup (map KGNode.id (nodes p))
  /\ (forall e, In e (edges p) ->
        In (KGEdge.source e) (map KGNode.id (nodes p))
        /\ In (KGEdge.target e) (map KGNode.id (nodes p)))
  /\ hasKnowledgeGraphData p = (0 <? length (nodes p)).
Proof.
  intros p.
  assert (NoDup (map KGNode.id (nodes p))
          /\ (forall e, In e (edges p) ->
                In (KGEdge.source e) (map KGNode.id (nodes p))
                /\ In (KGEdge.target e) (map KGNode.id (nodes p))))
    as [Hnd Hends].
  { destruct (NormaliserFacts.structured_graph sr sources fp)
      as [[Hn He]|[(input & r & Hr & Hn & He)|(lines & Hg)]];
      fold p in Hn, He || fold p in Hg.
    - rewrite Hn, He. split; [constructor | intros e []].
    - rewrite Hn, He. split.
      + apply (ShapeFacts.result_nodes _ Hr).
      + apply (GraphFacts.edges_and_nodes_fit _ Hr).
    - pose proof (GroupedShape.closed lines (sourceMapping sources)) as H.
      rewrite <- Hg in H. tauto. }
  split; [exact Hnd|]. split; [exact Hends|].
  unfold hasKnowledgeGraphData.
  destruct (nodes p) as [|n ns] eqn:En; [|reflexivity].
  destruct (edges p) as [|e es] eqn:Ee; [reflexivity|].
  destruct (Hends e (or_introl eq_refl)) as [[] _].
Qed.

(** ** Escaping and tenants *)

(** X24. [escapeRegExp] puts a backslash before each of the fourteen
    special characters and copies every other code unit, so a text
    without special characters, such as the two labels of the fact
    parser, is left as it is. *)
Theorem escapeRegExp_escapes_each_special (s : jsstring) :
  escapeRegExp s = flat_map escapeUnit s
  /\ (Forall (fun c => is_special c = false) s -> escapeRegExp s = s).
Proof.
  assert (escapeRegExp s = flat_map escapeUnit s) as H.
  { unfold escapeRegExp, replace_all_with.
    apply (@MatchFacts.replace_class is_special _ (fun c => [backslash; c]));
      [|lia].
    intros b c rest. unfold m_0, m_end, m_index. cbn [fst snd before length].
    replace (S (length b) - length b) with 1 by lia. reflexivity. }
  split; [exact H|]. intros Hall. rewrite H. clear H.
  induction Hall as [|c s' Hc _ IH]; [reflexivity|].
  cbn [flat_map]. unfold escapeUnit at 1. rewrite Hc. cbn [app].
  f_equal. exact IH.
Qed.

Lemma escapeRegExp_escapes_each_special_witness :
  escapeRegExp FACTS_LABEL = FACTS_LABEL
  /\ escapeRegExp SOURCES_LABEL = SOURCES_LABEL.
Proof.
  split; apply escapeRegExp_escapes_each_special;
    repeat constructor.
Defined.

(** X25. The full-graph route always settles on a tenant: its
    bad-request answer for a missing tenant cannot be reached.  The
    tenant is the [tenant] parameter when that is given and non-empty,
    and otherwise one of the four tenants of [brandIdToTenant],
    [storyshift] for an unknown or missing brand. *)
Theorem tenant_is_always_resolved (tenantParam brandIdParam : option jsstring) :
  exists tenant,
    resolveTenant tenantParam brandIdParam = Some tenant
    /\ tenant <> []
    /\ match paramOrUndefined tenantParam with
       | Some t => tenant = t
       | None =>
           tenant = brandIdToTenant (paramOrUndefined brandIdParam)
           /\ In tenant [str "lets_go_be_great"; str "messing_law";
                         str "usi"; str "storyshift"]
       end.
Proof.
  assert (forall id,
            In (brandIdToTenant id)
               [str "lets_go_be_great"; str "messing_law"; str "usi";
                str "storyshift"]) as Hin.
  { intros [s|]; unfold brandIdToTenant; [|cbn; auto].
    destruct (jsstring_eqb s (str "letsgobegreeat")); [cbn; auto|].
    destruct (jsstring_eqb s (str "messinglaw")); [cbn; auto|].
    destruct (jsstring_eqb s (str "usi")); cbn; auto. }
  assert (forall x,
            In x [str "lets_go_be_great"; str "messing_law"; str "usi";
                  str "storyshift"] -> truthy x = true) as Htruthy.
  { intros x [<-|[<-|[<-|[<-|[]]]]]; reflexivity. }
  unfold resolveTenant.
  destruct (paramOrUndefined tenantParam) as [t|] eqn:Et.
  - assert (truthy t = true) as Ht.
    { destruct tenantParam as [[|c u]|]; cbn in Et; try discriminate.
      injection Et as <-. reflexivity. }
    rewrite Ht. cbn. exists t. split; [reflexivity|]. split; [|reflexivity].
    destruct t; [discriminate Ht | discriminate].
  - specialize (Hin (paramOrUndefined brandIdParam)).
    rewrite (Htruthy _ Hin). cbn. eexists. split; [reflexivity|].
    split; [|split; [reflexivity | exact Hin]].
    specialize (Htruthy _ Hin). intros E. rewrite E in Htruthy. discriminate.
Qed.

(** ** The terms of a question *)

Module TermFacts.
Import RegexFacts MatchFacts.

Lemma term_token (input : jsstring) (m : nat * MState) :
  In m (match_all termRegex input) ->
  Forall (fun c => is_lower_alnum c = true) (m_0 m).
Proof.
  intros H. apply match_all_run in H. destruct H as (s0 & Hin & _ & Hi).
  apply run_plus_chr in Hin. destruct Hin as (x & P & Hx & _).
  rewrite (m_0_passes _ Hi P). exact Hx.
Qed.

Lemma filterTerms_spec (tokens : list jsstring) :
  forall seen,
    NoDup (filterTerms seen tokens)
    /\ forall t, In t (filterTerms seen tokens) ->
         In t tokens /\ 3 <= length t /\ ~ In t STOPWORDS /\ ~ In t seen.
Proof.
  induction tokens as [|t tokens IH]; intros seen; cbn [filterTerms].
  - split; [constructor | intros t []].
  - destruct ((3 <=? length t) && negb (set_has t STOPWORDS)
              && negb (set_has t seen))%bool eqn:E.
    + apply andb_true_iff in E. destruct E as [E E3].
      apply andb_true_iff in E. destruct E as [E1 E2].
      apply Nat.leb_le in E1. apply negb_true_iff in E2, E3.
      assert (~ In t STOPWORDS) as H2
          by (intros H; apply set_has_In in H; congruence).
      assert (~ In t seen) as H3
          by (intros H; apply set_has_In in H; congruence).
      destruct (IH (t :: seen)) as [Hnd Hin]. split.
      * constructor; [|exact Hnd]. intros H. apply Hin in H.
        destruct H as (_ & _ & _ & H). apply H. left. reflexivity.
      * intros u [<-|Hu]; [repeat split; auto; left; reflexivity|].
        destruct (Hin u Hu) as (A & B & C & D).
        repeat split; auto; [right; exact A|].
        intros H. apply D. right. exact H.
    + destruct (IH seen) as [Hnd Hin]. split; [exact Hnd|].
      intros u Hu. destruct (Hin u Hu) as (A & B & C & D).
      repeat split; auto. right. exact A.
Qed.

End TermFacts.

(** X26. The search terms drawn from a question are pairwise distinct;
    each is at least three characters long, is made of the characters
    [a-z] and [0-9] only, and is no stop word. *)
Theorem extracted_terms_are_distinct_keywords
  (toLowerCase : jsstring -> jsstring) (text : jsstring) :
  NoDup (extractTerms toLowerCase text)
  /\ forall t, In t (extractTerms toLowerCase text) ->
       3 <= length t
       /\ Forall (fun c => is_lower_alnum c = true) t
       /\ ~ In t STOPWORDS.
Proof.
  unfold extractTerms.
  destruct (TermFacts.filterTerms_spec
              (map m_0 (match_all termRegex (toLowerCase text))) [])
    as [Hnd Hin].
  split; [exact Hnd|]. intros t Ht.
  destruct (Hin t Ht) as (A & B & C & _).
  repeat split; auto.
  apply in_map_iff in A. destruct A as (m & <- & Hm).
  exact (TermFacts.term_token _ _ Hm).
Qed.

(** ** The index of the source urls *)

Module UrlIndexFacts.

Lemma ids_positive (st : UrlIndex) (u : jsstring) (n : nat) :
  numbered st -> JSMap.get jsstring_eqb u (urlToId st) = Some n -> 0 < n.
Proof.
  intros (Hids & _ & _) Hget.
  apply (JSMapFacts.get_some_in jsstring_eqb jsstring_eqb_eq) in Hget.
  assert (In n (map snd (urlToId st))) as Hin
      by (apply in_map_iff; exists (u, n); auto).
  rewrite Hids in Hin. apply in_seq in Hin. lia.
Qed.

Lemma urlKnown_spec (st : UrlIndex) (u : jsstring) :
  numbered st ->
  urlKnown u (urlToId st) = true
  <-> In u (JSMap.keys (urlToId st)) \/ In u Object_prototype_keys.
Proof.
  intros Hst. unfold urlKnown.
  destruct (JSMap.get jsstring_eqb u (urlToId st)) as [n|] eqn:E.
  - pose proof (@ids_positive st u n Hst E) as Hn.
    assert (negb (n =? 0) = true) as ->
        by (apply negb_true_iff, Nat.eqb_neq; lia).
    split; [intros _|reflexivity]. left.
    apply (JSMapFacts.get_some_in jsstring_eqb jsstring_eqb_eq) in E.
    apply in_map_iff. exists (u, n). auto.
  - apply (JSMapFacts.get_none_keys jsstring_eqb jsstring_eqb_eq) in E.
    rewrite set_has_In. tauto.
Qed.

Lemma maybeAddUrl_cases (st : UrlIndex) (url : option jsstring) :
  numbered st ->
  (maybeAddUrl st url = st
   /\ forall u, url = Some u -> registrable u ->
                In u (JSMap.keys (urlToId st)))
  \/ exists u,
       url = Some u /\ registrable u /\ ~ In u (JSMap.keys (urlToId st))
       /\ maybeAddUrl st url
          = mkUrlIndex (urlToId st ++ [(u, nextId st)]) (S (nextId st)).
Proof.
  intros Hst. unfold maybeAddUrl. destruct url as [u|];
    [|left; split; [reflexivity | discriminate]].
  destruct (truthy u) eqn:Et; cbn [andb].
  - destruct (urlKnown u (urlToId st)) eqn:Ek; cbn [negb].
    + left. split; [reflexivity|]. intros u' E [_ Hp]. injection E as <-.
      apply (@urlKnown_spec st u Hst) in Ek. tauto.
    + right. exists u.
      assert (~ (In u (JSMap.keys (urlToId st)) \/ In u Object_prototype_keys))
        as Hn.
      { intros H. apply (@urlKnown_spec st u Hst) in H. congruence. }
      split; [reflexivity|]. split; [split|split].
      * intros ->. discriminate.
      * tauto.
      * tauto.
      * f_equal. apply (JSMapFacts.set_absent jsstring_eqb).
        apply (JSMapFacts.get_none_keys jsstring_eqb jsstring_eqb_eq). tauto.
  - left. split; [reflexivity|]. intros u' E [Hne _]. injection E as <-.
    destruct u; [contradiction | discriminate].
Qed.

Lemma numbered_step (st : UrlIndex) (url : option jsstring) :
  numbered st -> numbered (maybeAddUrl st url).
Proof.
  intros Hst.
  destruct (@maybeAddUrl_cases st url Hst)
    as [[-> _]|(u & _ & _ & Hfresh & ->)]; [exact Hst|].
  destruct Hst as (Hids & Hnext & Hnd).
  unfold numbered. cbn [urlToId nextId].
  rewrite length_app. cbn [length]. rewrite Nat.add_1_r.
  split; [|split].
  - rewrite map_app, Hids, seq_S, Hnext. reflexivity.
  - lia.
  - unfold JSMap.keys in *. rewrite map_app.
    apply NoDup_app; [assumption | repeat constructor; auto |].
    intros x Hx [<-|[]]. contradiction.
Qed.

Lemma numbered_fold (urls : list (option jsstring)) :
  forall st,
    numbered st ->
    numbered (fold_left maybeAddUrl urls st)
    /\ forall u,
         In u (JSMap.keys (urlToId (fold_left maybeAddUrl urls st)))
         <-> In u (JSMap.keys (urlToId st))
             \/ (In (Some u) urls /\ registrable u).
Proof.
  induction urls as [|url urls IH]; intros st Hst; cbn [fold_left].
  - split; [exact Hst|]. intros u. split; [tauto|].
    intros [H|[[] _]]. exact H.
  - destruct (IH _ (@numbered_step st url Hst)) as [H1 H2].
    split; [exact H1|]. intros u. rewrite H2.
    destruct (@maybeAddUrl_cases st url Hst)
      as [[E Hk]|(v & -> & Hreg & Hfresh & E)]; rewrite E.
    + split.
      * intros [H|[H R]]; [tauto|]. right. split; [right; exact H | exact R].
      * intros [H|[[H|H] R]]; [tauto | left; apply Hk; assumption | tauto].
    + cbn [urlToId]. unfold JSMap.keys. rewrite map_app, in_app_iff.
      cbn [map fst In]. split.
      * intros [[H|[<-|[]]]|[H R]]; [tauto | | ].
        -- right. split; [left; reflexivity | exact Hreg].
        -- right. split; [right; exact H | exact R].
      * intros [H|[[H|H] R]]; [tauto | | tauto].
        injection H as <-. tauto.
Qed.

Lemma numbered_empty : numbered emptyUrlIndex.
Proof. repeat split. constructor. Qed.

(** Sorting by id. *)
Lemma insertById_perm (x : jsstring * nat) (l : list (jsstring * nat)) :
  Permutation (insertById x l) (x :: l).
Proof.
  induction l as [|y l IH]; cbn [insertById]; [reflexivity|].
  destruct (snd x <=? snd y); [reflexivity|].
  rewrite IH. apply perm_swap.
Qed.

Lemma sortById_perm (l : list (jsstring * nat)) : Permutation (sortById l) l.
Proof.
  induction l as [|x l IH]; [reflexivity|].
  change (sortById (x :: l)) with (insertById x (sortById l)).
  rewrite insertById_perm, IH. reflexivity.
Qed.

Lemma insertById_sorted (x : jsstring * nat) (l : list (jsstring * nat)) :
  StronglySorted (fun a b => snd a <= snd b) l ->
  StronglySorted (fun a b => snd a <= snd b) (insertById x l).
Proof.
  intros Hs. induction Hs as [|y l Hs IH Hy]; cbn [insertById].
  - repeat constructor.
  - destruct (snd x <=? snd y) eqn:E.
    + apply Nat.leb_le in E. constructor; [constructor; assumption|].
      constructor; [exact E|].
      rewrite Forall_forall in Hy |- *. intros z Hz. specialize (Hy z Hz). lia.
    + apply Nat.leb_gt in E. constructor; [exact IH|].
      rewrite Forall_forall in Hy |- *. intros z Hz.
      apply (Permutation_in _ (insertById_perm x l)) in Hz.
      destruct Hz as [<-|Hz]; [lia | auto].
Qed.

Lemma sortById_sorted (l : list (jsstring * nat)) :
  StronglySorted (fun a b => snd a <= snd b) (sortById l).
Proof.
  induction l as [|x l IH]; [constructor|].
  change (sortById (x :: l)) with (insertById x (sortById l)).
  apply insertById_sorted, IH.
Qed.

Lemma strictly_sorted (l : list (jsstring * nat)) :
  StronglySorted (fun a b => snd a <= snd b) l -> NoDup (map snd l) ->
  StronglySorted (fun a b => snd a < snd b) l.
Proof.
  induction 1 as [|x l Hs IH Hx]; intros Hnd; [constructor|].
  cbn [map] in Hnd. inversion Hnd as [|? ? Hn Hnd']; subst.
  constructor; [apply IH, Hnd'|].
  rewrite Forall_forall in Hx |- *. intros y Hy. specialize (Hx y Hy).
  assert (snd x <> snd y); [|lia].
  intros E. apply Hn. rewrite E. apply in_map. exact Hy.
Qed.

Lemma sorted_perm_unique (l1 : list (jsstring * nat)) :
  forall l2,
    StronglySorted (fun a b => snd a < snd b) l1 ->
    StronglySorted (fun a b => snd a < snd b) l2 ->
    Permutation l1 l2 -> l1 = l2.
Proof.
  induction l1 as [|x l1 IH]; intros l2 H1 H2 Hp.
  - apply Permutation_nil in Hp. congruence.
  - destruct l2 as [|y l2];
      [apply Permutation_sym, Permutation_nil in Hp; discriminate|].
    inversion H1 as [|? ? H1' Hx]; subst.
    inversion H2 as [|? ? H2' Hy]; subst.
    assert (x = y) as ->.
    { assert (In x (y :: l2)) as Hin
          by (apply (Permutation_in _ Hp); left; reflexivity).
      assert (In y (x :: l1)) as Hin'
          by (apply (Permutation_in _ (Permutation_sym Hp)); left; reflexivity).
      destruct Hin as [->|Hin]; [reflexivity|].
      destruct Hin' as [->|Hin']; [reflexivity|].
      rewrite Forall_forall in Hx, Hy.
      specialize (Hx _ Hin'). specialize (Hy _ Hin). lia. }
    f_equal. apply IH; try assumption.
    exact (Permutation_cons_inv Hp).
Qed.

Lemma seq_strictly_sorted (l : list (jsstring * nat)) (k : nat) :
  map snd l = seq k (length l) ->
  StronglySorted (fun a b => snd a < snd b) l.
Proof.
  revert k; induction l as [|x l IH]; intros k H; [constructor|].
  cbn in H. injection H as Hx Hl. constructor; [exact (IH _ Hl)|].
  apply Forall_forall. intros y Hy.
  assert (In (snd y) (seq (S k) (length l))) as Hin
      by (rewrite <- Hl; apply in_map; exact Hy).
  apply in_seq in Hin. lia.
Qed.

End UrlIndexFacts.

Module UrlOrderFacts.
Import UrlIndexFacts.

Lemma registrableb_spec (u : jsstring) :
  registrableb u = true <-> registrable u.
Proof.
  unfold registrableb, registrable.
  rewrite andb_true_iff, negb_true_iff.
  destruct (set_has u Object_prototype_keys) eqn:E.
  - apply set_has_In in E. split; [intros [_ H]; discriminate | tauto].
  - assert (~ In u Object_prototype_keys) as Hn
        by (intros H; apply set_has_In in H; congruence).
    destruct u; cbn; split; intros [H1 H2]; try tauto; try discriminate.
    split; [discriminate | assumption].
Qed.

Lemma existsb_keys (y : jsstring) (l : list jsstring) :
  existsb (jsstring_eqb y) l = true <-> In y l.
Proof.
  rewrite existsb_exists. split.
  - intros (x & Hx & E). apply jsstring_eqb_eq in E. subst. exact Hx.
  - intros H. exists y. split; [exact H | apply jsstring_eqb_refl].
Qed.

Lemma existsb_same (y : jsstring) (l1 l2 : list jsstring) :
  (In y l1 <-> In y l2) ->
  existsb (jsstring_eqb y) l1 = existsb (jsstring_eqb y) l2.
Proof.
  intros H.
  destruct (existsb (jsstring_eqb y) l1) eqn:E1,
           (existsb (jsstring_eqb y) l2) eqn:E2; try reflexivity.
  - apply existsb_keys in E1. apply H, existsb_keys in E1. congruence.
  - apply existsb_keys in E2. apply H, existsb_keys in E2. congruence.
Qed.

(** The keys of the index after a run of [maybeAddUrl]: the keys it had,
    then the new registrable urls in the order of their first mention. *)
Lemma keys_fold (urls : list (option jsstring)) :
  forall st,
    numbered st ->
    JSMap.keys (urlToId (fold_left maybeAddUrl urls st))
    = JSMap.keys (urlToId st)
      ++ dedup_acc (JSMap.keys (urlToId st))
                   (filter registrableb (filter_some urls)).
Proof.
  induction urls as [|url urls IH]; intros st Hst; cbn [fold_left].
  - cbn. rewrite app_nil_r. reflexivity.
  - rewrite (IH _ (@numbered_step st url Hst)).
    destruct (@maybeAddUrl_cases st url Hst)
      as [[E Hk]|(u & -> & Hreg & Hfresh & E)]; rewrite E.
    + f_equal. destruct url as [u|]; [|reflexivity].
      change (filter_some (Some u :: urls)) with (u :: filter_some urls).
      cbn [filter]. destruct (registrableb u) eqn:Er; [|reflexivity].
      cbn [dedup_acc].
      assert (existsb (jsstring_eqb u) (JSMap.keys (urlToId st)) = true)
        as -> by (apply existsb_keys, (Hk u eq_refl),
                  registrableb_spec, Er).
      reflexivity.
    + cbn [urlToId]. unfold JSMap.keys at 1 2. rewrite map_app.
      cbn [map fst]. rewrite <- app_assoc. f_equal.
      change (filter_some (Some u :: urls)) with (u :: filter_some urls).
      cbn [filter].
      rewrite (proj2 (registrableb_spec u) Hreg). cbn [dedup_acc app].
      assert (existsb (jsstring_eqb u) (JSMap.keys (urlToId st)) = false)
        as ->.
      { destruct (existsb _ _) eqn:Ex; [|reflexivity].
        apply existsb_keys in Ex. contradiction. }
      f_equal. apply StatsFacts.dedup_acc_ext. intros y.
      apply existsb_same. unfold JSMap.keys. rewrite in_app_iff. cbn.
      tauto.
Qed.

Lemma combine_fst_snd {A B : Type} (l : list (A * B)) :
  l = combine (map fst l) (map snd l).
Proof.
  induction l as [|[a b] l IH]; [reflexivity|]. cbn. f_equal. exact IH.
Qed.

Lemma index_closed_form (urls : list (option jsstring)) :
  urlToId (buildUrlIndex urls)
  = combine (firstMet urls) (seq 1 (length (firstMet urls))).
Proof.
  destruct (@numbered_fold urls emptyUrlIndex numbered_empty)
    as [(H1 & _ & _) _].
  pose proof (@keys_fold urls emptyUrlIndex numbered_empty) as Hk.
  fold (buildUrlIndex urls) in H1, Hk. cbn [emptyUrlIndex urlToId app] in Hk.
  change (JSMap.keys (@nil (jsstring * nat))) with (@nil jsstring) in Hk.
  cbn [app] in Hk. fold (dedup (filter registrableb (filter_some urls))) in Hk.
  fold (firstMet urls) in Hk.
  rewrite (combine_fst_snd (urlToId (buildUrlIndex urls))).
  unfold JSMap.keys in Hk. rewrite Hk, H1.
  rewrite <- Hk at 3. rewrite length_map. reflexivity.
Qed.

End UrlOrderFacts.

(** X27. The citation index numbers the urls 1, 2, 3, ... in the order
    in which they are first met: its entries are the urls that can be
    registered (the non-empty ones, save those that are the name of a
    property that every object inherits), each once, in the order of
    their first mention, and the k-th of them has the id k. *)
Theorem url_index_numbers_urls_in_order (urls : list (option jsstring)) :
  let st := buildUrlIndex urls in
  urlToId st = combine (firstMet urls) (seq 1 (length (firstMet urls)))
  /\ map snd (urlToId st) = seq 1 (length (urlToId st))
  /\ NoDup (JSMap.keys (urlToId st))
  /\ forall u,
       In u (JSMap.keys (urlToId st))
       <-> In (Some u) urls /\ u <> [] /\ ~ In u Object_prototype_keys.
Proof.
  destruct (@UrlIndexFacts.numbered_fold urls emptyUrlIndex
              UrlIndexFacts.numbered_empty) as [(H1 & _ & H3) H4].
  cbv zeta. fold (buildUrlIndex urls) in H1, H3, H4.
  split; [apply UrlOrderFacts.index_closed_form|].
  split; [exact H1|]. split; [exact H3|].
  intros u. rewrite H4. unfold registrable. cbn. tauto.
Qed.

Example first_met_order :
  urlToId (buildUrlIndex [Some (str "b"); None; Some (str "toString");
                          Some (str "a"); Some []; Some (str "b")])
  = [(str "b", 1); (str "a", 2)].
Proof. reflexivity. Qed.

(** X28. The sources of an answer are listed by ascending id, which is
    the order in which their urls were first met: in whatever order the
    entries of the index are enumerated, sorting them by id gives the
    entries in the order of their registration. *)
Theorem sources_are_listed_in_order_of_first_use
  (urls : list (option jsstring)) (entries : list (jsstring * nat))
  (Henum : Permutation entries (urlToId (buildUrlIndex urls))) :
  sortById entries = urlToId (buildUrlIndex urls).
Proof.
  destruct (@UrlIndexFacts.numbered_fold urls emptyUrlIndex
              UrlIndexFacts.numbered_empty) as [(H1 & _ & _) _].
  fold (buildUrlIndex urls) in H1.
  pose proof (@UrlIndexFacts.seq_strictly_sorted _ _ H1) as Hs.
  apply UrlIndexFacts.sorted_perm_unique; [|exact Hs|].
  - apply UrlIndexFacts.strictly_sorted; [apply UrlIndexFacts.sortById_sorted|].
    apply (Permutation_NoDup
             (l := map snd (urlToId (buildUrlIndex urls)))).
    + apply Permutation_map. symmetry.
      rewrite UrlIndexFacts.sortById_perm. exact Henum.
    + rewrite H1. apply seq_NoDup.
  - rewrite UrlIndexFacts.sortById_perm. exact Henum.
Qed.

Lemma sources_are_listed_in_order_of_first_use_witness :
  sortById [(str "https://b.com", 2); (str "https://a.com", 1)]
  = urlToId
      (buildUrlIndex
         [Some (str "https://a.com"); None; Some (str "https://b.com");
          Some (str "https://a.com")]).
Proof.
  apply sources_are_listed_in_order_of_first_use.
  vm_compute. apply perm_swap.
Defined.

(** ** The text part of a message *)

Module MessageFacts.

Lemma part_trans (a b c : jsstring) :
  substring b c -> substring a b -> substring a c.
Proof.
  intros (p1 & q1 & ->) (p2 & q2 & ->).
  exists (p1 ++ p2), (q2 ++ q1). rewrite <- !app_assoc. reflexivity.
Qed.

Lemma part_refl (a : jsstring) : substring a a.
Proof. exists [], []. rewrite app_nil_r. reflexivity. Qed.

Lemma parsed_part (input : jsstring) (r : ParsedFacts.t) :
  parseRetrievedFacts input = Some r ->
  substring (ParsedFacts.cleanText r) input
  /\ includes_ci FACTS_LABEL (ParsedFacts.cleanText r) = false.
Proof.
  intros H. split.
  - destruct (@ShapeFacts.cleanText_part input r H) as (pre & post & E & _).
    exists pre, post. exact E.
  - apply MarkerFacts.parseRetrievedFacts_some in H.
    destruct H as (-> & _ & _). apply MarkerFacts.cleanText_no_facts_marker.
Qed.

(** The chat response that the legacy normaliser derives from a clean
    text: the clean text of parsing it once more when that is not empty,
    and the clean text itself otherwise. *)
Lemma legacy_of_clean (c : jsstring) :
  let p := parseLegacyGraphRAGResponse c [] (Some []) in
  hasStructuredData p = false
  /\ chatResponse p
     = match parseRetrievedFacts c with
       | Some r2 =>
           if truthy (ParsedFacts.cleanText r2) then ParsedFacts.cleanText r2
           else c
       | None => c
       end
  /\ (includes_ci FACTS_LABEL c = false ->
      substring (chatResponse p) c
      /\ includes_ci FACTS_LABEL (chatResponse p) = false
      /\ (c <> [] -> chatResponse p <> [])).
Proof.
  unfold parseLegacyGraphRAGResponse. cbn [chatResponse hasStructuredData].
  split; [reflexivity|]. split.
  { destruct c as [|x c]; [reflexivity|]. cbn [truthy].
    destruct (parseRetrievedFacts (x :: c)); reflexivity. }
  intros Hno. destruct (truthy c) eqn:Et.
  - destruct (parseRetrievedFacts c) as [r2|] eqn:E2; cbn [cleanTextOr].
    + destruct (parsed_part _ E2) as [Hp Hn].
      destruct (truthy (ParsedFacts.cleanText r2)) eqn:Et2.
      * split; [exact Hp|]. split; [exact Hn|]. intros _ E.
        rewrite E in Et2. discriminate.
      * split; [apply part_refl|]. split; [exact Hno | auto].
    + split; [apply part_refl|]. split; [exact Hno | auto].
  - cbn [cleanTextOr]. split; [apply part_refl|]. split; [exact Hno | auto].
Qed.

End MessageFacts.

(** X29. An assistant message in the legacy format gets the graph of the
    fact parser, and its text is parsed twice: the displayed text is the
    clean text of parsing the clean text once more (which removes a
    source list that the first parse kept) when that is not empty, and
    the clean text of the first parse otherwise.  It is then a non-empty
    piece of the clean text and holds no [Retrieved Facts:] marker.  When
    the clean text of the first parse is empty (the fact block opens the
    message) the whole message is displayed, fact block included; and a
    message that does not parse is displayed as it is, without a
    graph. *)
Theorem legacy_message_display
  (detectStructuredResponse : jsstring -> option StructuredGraphRAGResponse)
  (text : jsstring)
  (Hlegacy : detectStructuredResponse text = None) :
  let v := renderTextPart detectStructuredResponse true text in
  match parseRetrievedFacts text with
  | Some r =>
      let c := ParsedFacts.cleanText r in
      (exists p,
         parsedData v = Some p
         /\ nodes p = ParsedFacts.nodes r
         /\ edges p = ParsedFacts.edges r
         /\ types p = ParsedFacts.types r
         /\ preamble p = ParsedFacts.preamble r
         /\ hasStructuredData p = false)
      /\ displayText v
         = (if truthy c then
              match parseRetrievedFacts c with
              | Some r2 =>
                  if truthy (ParsedFacts.cleanText r2)
                  then ParsedFacts.cleanText r2 else c
              | None => c
              end
            else text)
      /\ (c <> [] ->
          displayText v <> []
          /\ substring (displayText v) c
          /\ substring (displayText v) text
          /\ includes_ci FACTS_LABEL (displayText v) = false)
  | None =>
      parsedData v = None /\ displayText v = text
      /\ hasKG v = false /\ hasDebugData v = false
  end.
Proof.
  unfold renderTextPart. rewrite Hlegacy.
  destruct (parseRetrievedFacts text) as [r|] eqn:E;
    cbn [parsedData displayText hasKG hasDebugData]; [|auto].
  destruct (MessageFacts.parsed_part _ E) as [Hp Hn].
  destruct (MessageFacts.legacy_of_clean (ParsedFacts.cleanText r))
    as (Hs & H0 & H1).
  cbv zeta in Hs, H0, H1 |- *. cbn [chatResponse].
  destruct (H1 Hn) as (A & B & C).
  set (shown := chatResponse
                  (parseLegacyGraphRAGResponse (ParsedFacts.cleanText r) []
                     (Some []))) in *.
  assert ((if truthy shown then shown else text)
          = (if truthy (ParsedFacts.cleanText r) then shown else text)) as Hd.
  { destruct (ParsedFacts.cleanText r) as [|x c] eqn:Ec.
    - rewrite H0. reflexivity.
    - assert (shown <> []) as Hne by (apply C; discriminate).
      destruct shown; [contradiction | reflexivity]. }
  split; [|split].
  - eexists. split; [reflexivity|]. cbn. auto.
  - rewrite Hd, H0. reflexivity.
  - intros Ec. specialize (C Ec).
    destruct shown as [|x xs] eqn:Ex; [contradiction|]. cbn [truthy].
    rewrite <- Ex in *.
    split; [rewrite Ex; discriminate|]. split; [exact A|].
    split; [exact (MessageFacts.part_trans Hp A) | exact B].
Qed.

(** The theorem at a message whose source list stands between the prose
    and the facts line: the first parse keeps the source list in its clean
    text, the second removes it, and the message shows its first line. *)
Lemma legacy_message_display_witness :
  exists r,
    parseRetrievedFacts sources_between_input = Some r
    /\ ParsedFacts.cleanText r
       = str "Intro" ++ newline :: str "Sources:" ++ newline ::
         str "[1] https://a.com"
    /\ displayText (renderTextPart (fun _ => None) true sources_between_input)
       = str "Intro".
Proof.
  pose proof (@legacy_message_display (fun _ => None) sources_between_input
                eq_refl) as H.
  cbv zeta in H.
  destruct (parseRetrievedFacts sources_between_input) as [r|] eqn:E;
    [|vm_compute in E; discriminate].
  destruct H as (_ & H & _).
  assert (ParsedFacts.cleanText r
          = str "Intro" ++ newline :: str "Sources:" ++ newline ::
            str "[1] https://a.com") as Hc.
  { pose proof E as E'. vm_compute in E'. injection E' as <-. reflexivity. }
  exists r. split; [reflexivity|]. split; [exact Hc|].
  rewrite H, Hc. vm_compute. reflexivity.
Defined.

(** ** Matches that need no backtracking *)

Module LeadFacts.
Import RegexFacts MatchFacts.

Lemma leads_seq (a b : regex) (s s1 s2 : MState) :
  leads a s s1 -> leads b s1 s2 -> leads (Seq a b) s s2.
Proof.
  intros [r1 E1] [r2 E2]. unfold leads. cbn [run]. rewrite E1.
  cbn [flat_map]. rewrite E2. cbn [app]. eauto.
Qed.

Lemma leads_chr (p : N -> bool) (b rest : list N) (g : list (nat * jsstring))
  (c : N) :
  p c = true ->
  leads (Chr p) (mkState b (c :: rest) g) (mkState (c :: b) rest g).
Proof.
  intros Hp. unfold leads. cbn [run after before groups]. rewrite Hp. eauto.
Qed.


Lemma leads_wordb (s : MState) :
  at_word_boundary s = true -> leads Wordb s s.
Proof. intros H. unfold leads. cbn [run]. rewrite H. eauto. Qed.

Lemma leads_grp (i : nat) (a : regex) (s s1 : MState) :
  leads a s s1 -> leads (Grp i a) s (record_group i s s1).
Proof.
  intros [r E]. unfold leads. cbn [run]. rewrite E. cbn [map]. eauto.
Qed.

Lemma run_chr_cons (p : N -> bool) (b rest : list N)
  (g : list (nat * jsstring)) (c : N) :
  run (Chr p) (mkState b (c :: rest) g)
  = if p c then [mkState (c :: b) rest g] else [].
Proof. reflexivity. Qed.

Lemma run_chr_nil (p : N -> bool) (b : list N) (g : list (nat * jsstring)) :
  run (Chr p) (mkState b [] g) = [].
Proof. reflexivity. Qed.

(** A greedy loop over a class takes the whole run of the class. *)
Lemma star_loop_run (p : N -> bool) (x : jsstring) :
  forall fuel b rest g,
    Forall (fun c => p c = true) x -> stops p rest -> length x <= fuel ->
    exists more,
      star_loop true (run (Chr p)) fuel (mkState b (x ++ rest) g)
      = mkState (rev x ++ b) rest g :: more.
Proof.
  induction x as [|c x IH]; intros fuel b rest g Hx Hstop Hlen.
  - destruct fuel as [|fuel]; cbn [star_loop app rev]; [eauto|].
    assert (run (Chr p) (mkState b rest g) = []) as ->.
    { destruct rest as [|d rest]; [reflexivity|].
      rewrite run_chr_cons. cbn in Hstop. rewrite Hstop. reflexivity. }
    cbn [flat_map app]. eauto.
  - destruct fuel as [|fuel]; [cbn in Hlen; lia|].
    inversion Hx as [|? ? Hc Hx']; subst.
    cbn [star_loop app]. rewrite run_chr_cons, Hc.
    cbn [flat_map].
    assert (progressed (mkState b (c :: x ++ rest) g)
                       (mkState (c :: b) (x ++ rest) g) = true) as ->.
    { unfold progressed. cbn [after length].
      apply negb_true_iff, Nat.eqb_neq. lia. }
    destruct (IH fuel (c :: b) rest g Hx' Hstop) as [more E];
      [cbn in Hlen; lia|].
    rewrite E, app_nil_r. cbn [rev]. rewrite <- app_assoc. cbn [app]. eauto.
Qed.

Lemma leads_star (p : N -> bool) (x : jsstring) (b rest : list N)
  (g : list (nat * jsstring)) :
  Forall (fun c => p c = true) x -> stops p rest ->
  leads (Star true (Chr p)) (mkState b (x ++ rest) g)
        (mkState (rev x ++ b) rest g).
Proof.
  intros Hx Hstop. unfold leads. cbn [run after].
  apply star_loop_run; [assumption | assumption |].
  rewrite length_app. lia.
Qed.

Lemma leads_plus (p : N -> bool) (x : jsstring) (b rest : list N)
  (g : list (nat * jsstring)) :
  x <> [] -> Forall (fun c => p c = true) x -> stops p rest ->
  leads (Plus (Chr p)) (mkState b (x ++ rest) g)
        (mkState (rev x ++ b) rest g).
Proof.
  intros Hne Hx Hstop. destruct x as [|c x]; [contradiction|].
  inversion Hx as [|? ? Hc Hx']; subst. unfold Plus.
  apply leads_seq with (s1 := mkState (c :: b) (x ++ rest) g).
  - apply leads_chr, Hc.
  - cbn [rev]. rewrite <- app_assoc. apply leads_star; assumption.
Qed.

Lemma leads_grp_plus (i : nat) (p : N -> bool) (x : jsstring)
  (b rest : list N) (g : list (nat * jsstring)) :
  x <> [] -> Forall (fun c => p c = true) x -> stops p rest ->
  leads (Grp i (Plus (Chr p))) (mkState b (x ++ rest) g)
        (mkState (rev x ++ b) rest ((i, x) :: g)).
Proof.
  intros Hne Hx Hstop.
  pose proof (@leads_grp i _ _ _ (@leads_plus p x b rest g Hne Hx Hstop)) as H.
  unfold record_group in H. cbn [before after groups] in H.
  replace (consumed_since (mkState b (x ++ rest) g)
                          (mkState (rev x ++ b) rest g)) with x in H;
    [exact H|].
  symmetry. apply passes_consumed. split; reflexivity.
Qed.

(** The match that a search reports when the pattern runs at once. *)
Lemma search_leads (r : regex) (b a : list N) (s' : MState) :
  leads r (mkState b a []) s' -> search r b a = Some (length b, s').
Proof.
  intros [rest E]. destruct a as [|c a]; cbn [search]; rewrite E; reflexivity.
Qed.

(** A search passes over a text in which the pattern runs nowhere. *)
Lemma search_skip (r : regex) (pre : jsstring) :
  forall b rest,
    (forall x1 x2, pre = x1 ++ x2 -> x2 <> [] ->
                   run r (mkState (rev x1 ++ b) (x2 ++ rest) []) = []) ->
    search r b (pre ++ rest) = search r (rev pre ++ b) rest.
Proof.
  induction pre as [|c pre IH]; intros b rest H; [reflexivity|].
  cbn [app search].
  assert (run r (mkState b (c :: pre ++ rest) []) = []) as ->
      by (apply (H [] (c :: pre) eq_refl); discriminate).
  cbn [rev]. rewrite <- app_assoc. cbn [app]. apply IH.
  intros x1 x2 E Hne.
  specialize (H (c :: x1) x2). cbn [app rev] in H.
  rewrite <- app_assoc in H. apply H; [rewrite E; reflexivity | exact Hne].
Qed.

Lemma search_nowhere (r : regex) (a : jsstring) :
  forall b,
    (forall x1 x2, a = x1 ++ x2 ->
                   run r (mkState (rev x1 ++ b) x2 []) = []) ->
    search r b a = None.
Proof.
  induction a as [|c a IH]; intros b H.
  - cbn [search].
    assert (run r (mkState b [] []) = []) as -> by (apply (H [] [] eq_refl)).
    reflexivity.
  - cbn [search].
    assert (run r (mkState b (c :: a) []) = []) as ->
        by (apply (H [] (c :: a) eq_refl)).
    apply IH. intros x1 x2 E.
    specialize (H (c :: x1) x2). cbn [app rev] in H.
    rewrite <- app_assoc in H. apply H. rewrite E. reflexivity.
Qed.

Lemma run_nil (r : regex) (s : MState) :
  (forall s', ~ In s' (run r s)) -> run r s = [].
Proof.
  intros H. destruct (run r s) as [|s' rest]; [reflexivity|].
  exfalso. apply (H s'). left. reflexivity.
Qed.

End LeadFacts.

(** ** The first result of a pattern *)

Module FirstFacts.
Import RegexFacts MatchFacts LeadFacts.

Lemma head_flat_map {A B : Type} (f : A -> list B) (l : list A)
  (y : B) (ys : list B) :
  flat_map f l = y :: ys ->
  exists l1 x l2 ys',
    l = l1 ++ x :: l2 /\ (forall z, In z l1 -> f z = [])
    /\ f x = y :: ys'.
Proof.
  induction l as [|a l IH]; cbn [flat_map]; [discriminate|].
  destruct (f a) as [|y0 ys0] eqn:Ea.
  - cbn [app]. intros H. destruct (IH H) as (l1 & x & l2 & ys' & -> & Hz & Hx).
    exists (a :: l1), x, l2, ys'. split; [reflexivity|]. split; [|exact Hx].
    intros z [<-|Hin]; [exact Ea | exact (Hz z Hin)].
  - cbn [app]. intros H. injection H as <- _.
    exists [], a, l, ys0. split; [reflexivity|]. split; [intros z []|exact Ea].
Qed.

(** The first result of a sequence goes through a result of its first
    part, at which the second part has that first result. *)
Lemma first_seq (a b : regex) (s s' : MState) (rest : list MState) :
  run (Seq a b) s = s' :: rest ->
  exists s1 rest', In s1 (run a s) /\ run b s1 = s' :: rest'.
Proof.
  cbn [run]. intros H.
  destruct (head_flat_map _ _ H) as (l1 & x & l2 & ys' & E & _ & Hx).
  exists x, ys'. split; [|exact Hx]. rewrite E. apply in_or_app. right.
  left. reflexivity.
Qed.

Lemma seq_split (n : nat) :
  forall start n1 j n2,
    seq start n = n1 ++ j :: n2 -> n1 = seq start (j - start) /\ start <= j.
Proof.
  induction n as [|n IH]; intros start n1 j n2 E; cbn [seq] in E.
  - destruct n1; discriminate.
  - destruct n1 as [|x n1]; cbn [app] in E; injection E as E1 E2.
    + subst j. rewrite Nat.sub_diag. split; [reflexivity | lia].
    + subst x. destruct (IH _ _ _ _ E2) as [-> Hle].
      split; [|lia]. replace (j - start) with (S (j - S start)) by lia.
      reflexivity.
Qed.

(** The states that a lazy loop over every character goes through: the
    positions of the text from the current one on, in their order. *)
Lemma lazy_any_states (a : list N) :
  forall fuel b g,
    length a < fuel ->
    star_loop false (run (Chr any)) fuel (mkState b a g)
    = map (fun k => mkState (rev (firstn k a) ++ b) (skipn k a) g)
          (seq 0 (S (length a))).
Proof.
  induction a as [|c a IH]; intros fuel b g Hf;
    (destruct fuel as [|fuel]; [cbn in Hf; lia|]).
  - reflexivity.
  - cbn [star_loop]. rewrite run_chr_cons. cbn [any flat_map].
    assert (progressed (mkState b (c :: a) g) (mkState (c :: b) a g) = true)
      as ->.
    { unfold progressed. cbn [after length].
      apply negb_true_iff, Nat.eqb_neq. lia. }
    rewrite app_nil_r, IH by (cbn in Hf; lia).
    cbn [length]. change (seq 0 (S (S (length a))))
      with (0 :: seq 1 (S (length a))).
    cbn [map firstn skipn rev app]. f_equal.
    rewrite <- seq_shift, map_map. apply map_ext. intros k.
    cbn [firstn skipn rev]. rewrite <- app_assoc. reflexivity.
Qed.

(** The first result of a lazy group over every character and a
    continuation: the group takes the least text after which the
    continuation runs. *)
Lemma lazy_first (i : nat) (k : regex) (b a : list N)
  (g : list (nat * jsstring)) (s' : MState) (rest : list MState) :
  run (Seq (Grp i (Star false (Chr any))) k) (mkState b a g) = s' :: rest ->
  exists G T rest',
    a = G ++ T
    /\ run k (mkState (rev G ++ b) T ((i, G) :: g)) = s' :: rest'
    /\ forall G1 G2, G = G1 ++ G2 -> G2 <> [] ->
         run k (mkState (rev G1 ++ b) (G2 ++ T) ((i, G1) :: g)) = [].
Proof.
  cbn [run after]. rewrite lazy_any_states by lia. rewrite map_map.
  intros H. destruct (head_flat_map _ _ H) as (l1 & x & l2 & ys' & E & Hz & Hx).
  assert (forall j, j <= length a ->
            record_group i (mkState b a g)
              (mkState (rev (firstn j a) ++ b) (skipn j a) g)
            = mkState (rev (firstn j a) ++ b) (skipn j a)
                      ((i, firstn j a) :: g)) as Hrec.
  { intros j Hj. unfold record_group. cbn [before after groups]. f_equal.
    f_equal. f_equal. apply passes_consumed. split; cbn [before after].
    - rewrite firstn_skipn. reflexivity.
    - reflexivity. }
  (* the place of [x] in the list of positions *)
  apply map_eq_app in E. destruct E as (n1 & n2 & En & E1 & E2).
  destruct n2 as [|j n2]; [discriminate|]. cbn [map] in E2.
  injection E2 as Ex _.
  assert (In j (seq 0 (S (length a)))) as Hj
      by (rewrite En; apply in_or_app; right; left; reflexivity).
  apply in_seq in Hj.
  assert (n1 = seq 0 j) as ->
      by (destruct (@seq_split _ _ _ _ _ En) as [-> _]; f_equal; lia).
  exists (firstn j a), (skipn j a), ys'.
  split; [symmetry; apply firstn_skipn|]. split.
  - rewrite <- Hx, <- Ex. rewrite Hrec by lia. reflexivity.
  - intros G1 G2 EG Hne.
    assert (length G1 < j) as Hlt.
    { apply (f_equal (@length N)) in EG. rewrite length_app in EG.
      rewrite length_firstn in EG. destruct G2; [contradiction|].
      cbn in EG. lia. }
    assert (G1 = firstn (length G1) a) as EG1.
    { rewrite <- (firstn_skipn j a) at 1. rewrite EG.
      rewrite <- app_assoc, firstn_app, Nat.sub_diag, firstn_all, firstn_O,
        app_nil_r. reflexivity. }
    assert (G2 ++ skipn j a = skipn (length G1) a) as EG2.
    { rewrite <- (firstn_skipn j a) at 2. rewrite EG, <- app_assoc.
      rewrite skipn_app, Nat.sub_diag, skipn_all. reflexivity. }
    rewrite EG2. rewrite EG1 at 1 3.
    rewrite <- Hrec by lia. apply Hz. rewrite <- E1.
    apply in_map_iff. exists (length G1). split; [reflexivity|].
    apply in_seq. lia.
Qed.

(** The first result of a greedy loop over a class: the whole run of the
    class. *)
Lemma greedy_first (p : N -> bool) (b a : list N)
  (g : list (nat * jsstring)) (s' : MState) (rest : list MState) :
  run (Star true (Chr p)) (mkState b a g) = s' :: rest ->
  s' = mkState (rev (takeWhile p a) ++ b) (dropWhile p a) g.
Proof.
  assert (a = takeWhile p a ++ dropWhile p a) as Ea.
  { clear. induction a as [|c a IH]; [reflexivity|]. cbn.
    destruct (p c); [cbn; f_equal; exact IH | reflexivity]. }
  assert (Forall (fun c => p c = true) (takeWhile p a)) as Ht.
  { clear. induction a as [|c a IH]; cbn; [constructor|].
    destruct (p c) eqn:E; [constructor; assumption | constructor]. }
  assert (stops p (dropWhile p a)) as Hs.
  { clear. induction a as [|c a IH]; cbn; [exact I|].
    destruct (p c) eqn:E; [exact IH | exact E]. }
  destruct (@leads_star p (takeWhile p a) b (dropWhile p a) g Ht Hs)
    as [more E].
  rewrite <- Ea in E. intros H. rewrite E in H. injection H as <- _.
  reflexivity.
Qed.

End FirstFacts.

(** ** Markers, read off the text *)

Module TextFacts.
Import RegexFacts MatchFacts LeadFacts MarkerFacts FirstFacts.

Lemma firstAt_tail (label : jsstring) (c : N) (x y : jsstring) :
  firstAt label (c :: x) y ->
  startsWith_ci label (c :: x ++ y) = false /\ firstAt label x y.
Proof.
  intros [H1 H2]. split; [|split; [exact H1|]].
  - apply (H2 [] (c :: x ++ y)); [reflexivity | cbn; lia].
  - intros x' y' E Hl. apply (H2 (c :: x') y'); [cbn; f_equal; exact E|].
    cbn. lia.
Qed.

Lemma afterMarker_first (label x y : jsstring) :
  firstAt label x y ->
  afterMarker label (x ++ y) = Some (skipn (length label) y).
Proof.
  induction x as [|c x IH]; intros H.
  - destruct H as [H _]. cbn [app]. destruct y; cbn [afterMarker];
      rewrite H; reflexivity.
  - destruct (@firstAt_tail label c x y H) as [H0 H']. cbn [app afterMarker].
    rewrite H0. exact (IH H').
Qed.

Lemma beforeMarker_first (label x y : jsstring) :
  firstAt label x y -> beforeMarker label (x ++ y) = x.
Proof.
  induction x as [|c x IH]; intros H.
  - destruct H as [H _]. cbn [app]. destruct y; cbn [beforeMarker];
      rewrite H; reflexivity.
  - destruct (@firstAt_tail label c x y H) as [H0 H']. cbn [app beforeMarker].
    rewrite H0. f_equal. exact (IH H').
Qed.

Lemma afterMarker_none (label s : jsstring) :
  includes_ci label s = false -> afterMarker label s = None.
Proof.
  induction s as [|c s IH]; cbn [includes_ci afterMarker]; intros H;
    apply orb_false_iff in H; destruct H as [H1 H2]; rewrite H1;
    [reflexivity | exact (IH H2)].
Qed.

Lemma beforeMarker_none (label s : jsstring) :
  includes_ci label s = false -> beforeMarker label s = s.
Proof.
  induction s as [|c s IH]; cbn [includes_ci beforeMarker]; intros H;
    apply orb_false_iff in H; destruct H as [H1 H2]; rewrite H1;
    [reflexivity | f_equal; exact (IH H2)].
Qed.

(** Every text splits at the first place of a marker that it holds. *)
Lemma first_place (label s : jsstring) :
  includes_ci label s = true -> exists x y, s = x ++ y /\ firstAt label x y.
Proof.
  induction s as [|c s IH]; cbn [includes_ci]; intros H.
  - rewrite orb_false_r in H. exists [], []. split; [reflexivity|].
    split; [exact H|]. intros x' y' _ Hl. cbn in Hl. lia.
  - destruct (startsWith_ci label (c :: s)) eqn:E.
    + exists [], (c :: s). split; [reflexivity|]. split; [exact E|].
      intros x' y' _ Hl. cbn in Hl. lia.
    + cbn [orb] in H. destruct (IH H) as (x & y & -> & H1 & H2).
      exists (c :: x), y. split; [reflexivity|]. split; [exact H1|].
      intros [|d x'] y' Ex Hl; cbn [app] in Ex.
      * subst y'. exact E.
      * injection Ex as <- Ex. apply (H2 x' y' Ex). cbn in Hl. lia.
Qed.

(** A pattern that opens with a label and whose tail always runs. *)
Section Labelled.
Variables (label : jsstring) (tail : regex).
Hypothesis tail_total : forall s, exists s', In s' (run tail s).

Lemma labelled_run_iff (s : MState) :
  run (Seq (lit_ci label) tail) s <> []
  <-> startsWith_ci label (after s) = true.
Proof.
  split.
  - intros H. destruct (run (Seq (lit_ci label) tail) s)
      as [|s' rest] eqn:R; [contradiction|].
    assert (In s' (run (Seq (lit_ci label) tail) s)) as Hin
        by (rewrite R; left; reflexivity).
    apply in_run_seq in Hin. destruct Hin as (s1 & H1 & _).
    apply (@run_lit_ci_sound _ _ _ H1).
  - intros H. destruct (@run_lit_ci_complete _ _ H) as [s1 H1].
    destruct (tail_total s1) as [s2 H2].
    assert (In s2 (run (Seq (lit_ci label) tail) s)) as Hin
        by (apply in_run_seq; eauto).
    intros E. rewrite E in Hin. contradiction.
Qed.

(** The match of such a pattern stands at the first place of the label,
    and there is one as soon as the text holds the label. *)
Lemma labelled_exec_some (input : jsstring) (i : nat) (s' : MState) :
  exec (Seq (lit_ci label) tail) input = Some (i, s') ->
  exists x y rest,
    input = x ++ y /\ i = length x /\ firstAt label x y
    /\ run (Seq (lit_ci label) tail) (mkState (rev x) y []) = s' :: rest.
Proof.
  intros H. apply search_some in H.
  destruct H as (x & y & E & Hi & [rest R] & Hleft).
  rewrite app_nil_r in R. exists x, y, rest.
  split; [exact E|]. split; [cbn in Hi; exact Hi|]. split; [split|exact R].
  - apply (proj1 (labelled_run_iff (mkState (rev x) y []))).
    rewrite R. discriminate.
  - intros x' y' E' Hl. rewrite <- E in E'.
    pose proof (Hleft x' y' E' Hl) as R'.
    destruct (startsWith_ci label y') eqn:S; [|reflexivity].
    exfalso.
    apply (proj2 (labelled_run_iff (mkState (rev x' ++ []) y' [])) S R').
Qed.

Lemma labelled_exec_none (input : jsstring) :
  exec (Seq (lit_ci label) tail) input = None
  <-> includes_ci label input = false.
Proof.
  split.
  - intros H. apply includes_ci_false. intros x y E.
    pose proof (@search_none _ _ _ H x y E) as R.
    destruct (startsWith_ci label y) eqn:S; [|reflexivity].
    exfalso. apply (proj2 (labelled_run_iff (mkState (rev x ++ []) y [])) S R).
  - intros H. destruct (exec (Seq (lit_ci label) tail) input) as [[i s']|]
      eqn:E; [|reflexivity].
    destruct (@labelled_exec_some _ _ _ E) as (x & y & _ & Ex & _ & [S _] & _).
    rewrite (proj1 (includes_ci_false _ _) H x y Ex) in S. discriminate.
Qed.

End Labelled.

(** *** White space around a text *)

Local Abbreviation blankText := (Forall (fun c => is_space c = true)).

Lemma trimStart_lead (w g : jsstring) :
  blankText w -> trimStart (w ++ g) = trimStart g.
Proof.
  induction 1 as [|c w Hc _ IH]; [reflexivity|].
  cbn [app]. unfold trimStart in *. cbn [dropWhile]. rewrite Hc. exact IH.
Qed.

Lemma trimEnd_pad (g d : jsstring) :
  blankText d -> trimEnd (g ++ d) = trimEnd g.
Proof.
  intros Hd. unfold trimEnd. rewrite rev_app_distr. f_equal.
  apply (@trimStart_lead (rev d) (rev g)). apply Forall_rev. exact Hd.
Qed.

Lemma trimStart_blank (w : jsstring) : blankText w -> trimStart w = [].
Proof.
  intros H. rewrite <- (app_nil_r w). rewrite (@trimStart_lead w [] H).
  reflexivity.
Qed.

Lemma trim_pad (w g d : jsstring) :
  blankText w -> blankText d -> trim (w ++ g ++ d) = trim g.
Proof.
  intros Hw Hd. unfold trim. rewrite (@trimStart_lead w _ Hw).
  clear w Hw. induction g as [|c g IH].
  - cbn [app]. rewrite (@trimStart_blank d Hd). reflexivity.
  - cbn [app]. unfold trimStart in *. cbn [dropWhile].
    destruct (is_space c); [exact IH|].
    apply (@trimEnd_pad (c :: g) d Hd).
Qed.

Lemma trim_lead (w g : jsstring) : blankText w -> trim (w ++ g) = trim g.
Proof.
  intros Hw. rewrite <- (app_nil_r g) at 1.
  apply trim_pad; [exact Hw | constructor].
Qed.

Lemma trim_blank_iff (s : jsstring) : trim s = [] <-> blankText s.
Proof.
  split.
  - intros H. unfold trim in H.
    assert (forall t, trimEnd t = [] -> blankText t) as Hend.
    { intros t Ht. unfold trimEnd in Ht.
      assert (dropWhile is_space (rev t) = []) as Hr.
      { apply (f_equal (@rev N)) in Ht. rewrite rev_involutive in Ht.
        exact Ht. }
      assert (forall u, dropWhile is_space u = [] -> blankText u) as Hu.
      { induction u as [|c u IHu]; cbn [dropWhile]; [constructor|].
        destruct (is_space c) eqn:Ec; [|discriminate].
        intros Hd. constructor; [exact Ec | exact (IHu Hd)]. }
      rewrite <- (rev_involutive t). apply Forall_rev, Hu, Hr. }
    apply Hend in H. clear Hend.
    induction s as [|c s IH]; [constructor|].
    unfold trimStart in H. cbn [dropWhile] in H.
    destruct (is_space c) eqn:Ec.
    + constructor; [exact Ec | exact (IH H)].
    + inversion H as [|? ? Hc _]. congruence.
  - intros H. rewrite <- (app_nil_r s). rewrite (@trim_lead s [] H).
    reflexivity.
Qed.

(** *** What the patterns pass *)

Lemma run_lit_ci_passes (l : jsstring) :
  forall s s',
    In s' (run (lit_ci l) s) ->
    exists L, passes s s' L /\ length L = length l
              /\ groups s' = groups s.
Proof.
  induction l as [|c l IH]; intros s s' H.
  - cbn in H. destruct H as [<-|[]]. exists []. split; [|auto].
    apply passes_refl.
  - cbn [lit_ci] in H. apply in_run_seq in H. destruct H as (s1 & H1 & H2).
    apply run_chr_passes in H1. destruct H1 as (d & P1 & _ & G1).
    destruct (IH _ _ H2) as (L & P2 & HL & G2).
    exists ([d] ++ L). split; [exact (@passes_trans _ _ _ _ _ P1 P2)|].
    split; [cbn; lia | congruence].
Qed.

Lemma passes_state (b a : list N) (g : list (nat * jsstring))
  (s' : MState) (x : jsstring) :
  passes (mkState b a g) s' x ->
  a = x ++ after s' /\ before s' = rev x ++ b.
Proof. intros [H1 H2]. auto. Qed.

(** The source block that the sources pattern finds in a text: the text
    after the first [Sources:] marker, trimmed. *)
Lemma sources_block (content : jsstring) :
  option_map (fun m => trim (grp 1 m)) (exec sourcesRegex content)
  = option_map trim (afterMarker SOURCES_LABEL content).
Proof.
  assert (forall s, exists s',
            In s' (run (seqs [Star true ws; Grp 1 (Star true (Chr any)); Eol])
                       s)) as Htotal.
  { intros s. destruct (run_star_any_end true s) as (s1 & H1 & Hend).
    exists (record_group 1 s s1). cbn [seqs]. apply in_run_seq.
    exists s. split; [apply in_run_star_zero|].
    apply in_run_seq. exists (record_group 1 s s1). split.
    - apply in_run_grp. exists s1. auto.
    - apply in_run_eol. split; [reflexivity | exact Hend]. }
  change sourcesRegex
    with (Seq (lit_ci SOURCES_LABEL)
              (seqs [Star true ws; Grp 1 (Star true (Chr any)); Eol])).
  destruct (exec _ content) as [[i s']|] eqn:E.
  - destruct (@labelled_exec_some SOURCES_LABEL _ Htotal content i s' E)
      as (x & y & rest & -> & _ & Hfirst & R).
    rewrite (@afterMarker_first SOURCES_LABEL x y Hfirst).
    cbn [option_map]. f_equal.
    assert (In s' (run (Seq (lit_ci SOURCES_LABEL)
                          (seqs [Star true ws; Grp 1 (Star true (Chr any));
                                 Eol]))
                       (mkState (rev x) y []))) as Hin
        by (rewrite R; left; reflexivity).
    apply in_run_seq in Hin. destruct Hin as (s1 & H1 & Hin).
    cbn [seqs] in Hin.
    apply in_run_seq in Hin. destruct Hin as (s2 & H2 & Hin).
    apply in_run_seq in Hin. destruct Hin as (s3 & H3 & Hin).
    apply in_run_eol in Hin. destruct Hin as [-> Hend].
    apply run_lit_ci_passes in H1. destruct H1 as (L & P1 & HL & G1).
    apply run_star_chr in H2. destruct H2 as (W & P2 & HW & G2).
    apply in_run_grp in H3. destruct H3 as (s4 & H4 & ->).
    apply run_star_chr in H4. destruct H4 as (G & P4 & _ & G4).
    unfold grp, m_group. cbn [snd groups record_group assoc_nat Nat.eqb].
    rewrite (@passes_consumed _ _ _ P4).
    destruct P1 as [A1 _]. destruct P2 as [A2 _]. destruct P4 as [A4 _].
    cbn [after record_group] in *. rewrite Hend, app_nil_r in A4.
    rewrite A4 in A2. rewrite A2 in A1. rewrite A1.
    rewrite <- HL. rewrite skipn_app, Nat.sub_diag, skipn_all.
    cbn [app skipn]. symmetry. apply trim_lead. exact HW.
  - apply (@labelled_exec_none SOURCES_LABEL _ Htotal content) in E.
    rewrite (@afterMarker_none SOURCES_LABEL content E). reflexivity.
Qed.

(** *** The facts block *)

Local Abbreviation factsEnd :=
  (Alt (seqs [Chr (ch newline); Star true ws; lit_ci SOURCES_LABEL])
       (Alt (lit_ci SOURCES_LABEL) Eol)).

Lemma factsEnd_sound (s s' : MState) :
  In s' (run factsEnd s) ->
  factsEndsAt (after s) /\ groups s' = groups s
  /\ exists t, passes s s' t.
Proof.
  intros H. apply in_run_alt in H. destruct H as [H|H].
  - cbn [seqs] in H. apply in_run_seq in H. destruct H as (s1 & H1 & H).
    apply in_run_seq in H. destruct H as (s2 & H2 & H3).
    apply run_chr_passes in H1. destruct H1 as (c & P1 & Hc & G1).
    apply N.eqb_eq in Hc. subst c.
    apply run_star_chr in H2. destruct H2 as (w & P2 & Hw & G2).
    pose proof (run_lit_ci_sound _ _ _ H3) as S.
    apply run_lit_ci_passes in H3. destruct H3 as (L & P3 & _ & G3).
    split; [|split; [congruence|]].
    + right. right. exists w, (after s2).
      destruct P1 as [A1 _]. destruct P2 as [A2 _].
      rewrite A1, A2. cbn [app]. auto.
    + exists (([newline] ++ w) ++ L).
      exact (@passes_trans _ _ _ _ _ (@passes_trans _ _ _ _ _ P1 P2) P3).
  - apply in_run_alt in H. destruct H as [H|H].
    + pose proof (run_lit_ci_sound _ _ _ H) as S.
      apply run_lit_ci_passes in H. destruct H as (L & P & _ & G).
      split; [right; left; exact S|]. split; [exact G | eauto].
    + apply in_run_eol in H. destruct H as [-> Hend].
      split; [left; exact Hend|]. split; [reflexivity|].
      exists []. apply passes_refl.
Qed.

Lemma star_ws_reaches (w : jsstring) :
  forall b rest g,
    Forall (fun c => is_space c = true) w ->
    In (mkState (rev w ++ b) rest g)
       (run (Star true ws) (mkState b (w ++ rest) g)).
Proof.
  induction w as [|c w IH]; intros b rest g Hw.
  - apply in_run_star_zero.
  - inversion Hw as [|? ? Hc Hw']; subst.
    cbn [run after app]. apply in_star_loop. right.
    exists (mkState (c :: b) (w ++ rest) g). split; [|split].
    + unfold ws. rewrite run_chr_cons, Hc. left. reflexivity.
    + unfold progressed. cbn [after length].
      apply negb_true_iff, Nat.eqb_neq. lia.
    + specialize (IH (c :: b) rest g Hw').
      cbn [run after] in IH. cbn [rev length]. rewrite <- app_assoc.
      exact IH.
Qed.

Lemma factsEnd_complete (t : jsstring) (b : list N)
  (g : list (nat * jsstring)) :
  factsEndsAt t -> run factsEnd (mkState b t g) <> [].
Proof.
  intros H.
  assert (exists s', In s' (run factsEnd (mkState b t g))) as [s' Hin];
    [|intros E; rewrite E in Hin; contradiction].
  destruct H as [->|[H|(w & r & -> & Hw & H)]].
  - exists (mkState b [] g). apply in_run_alt. right. apply in_run_alt.
    right. apply in_run_eol. auto.
  - destruct (@run_lit_ci_complete SOURCES_LABEL (mkState b t g) H)
      as [s' Hs'].
    exists s'. apply in_run_alt. right. apply in_run_alt. left. exact Hs'.
  - destruct (@run_lit_ci_complete SOURCES_LABEL
                (mkState (rev w ++ newline :: b) r g) H) as [s' Hs'].
    exists s'. apply in_run_alt. left. cbn [seqs]. apply in_run_seq.
    exists (mkState (newline :: b) (w ++ r) g). split.
    + apply in_run_chr. exists newline, (w ++ r). split; [reflexivity|].
      split; [apply N.eqb_refl | reflexivity].
    + apply in_run_seq. exists (mkState (rev w ++ newline :: b) r g).
      split; [apply star_ws_reaches; exact Hw | exact Hs'].
Qed.

Lemma marker_not_blank (c : N) (t : jsstring) :
  startsWith_ci SOURCES_LABEL (c :: t) = true -> is_space c = false.
Proof.
  intros H.
  assert (is_ci 83 c = true) as Hc.
  { change SOURCES_LABEL with (83%N :: str "ources:") in H.
    cbn [startsWith_ci] in H. apply andb_true_iff in H. apply H. }
  clear H. unfold is_ci in Hc. apply N.eqb_eq in Hc.
  change (upcase 83) with 83%N in Hc. unfold upcase, N_between in Hc.
  assert (c = 83 \/ c = 115)%N as [-> | ->]; [|reflexivity|reflexivity].
  destruct (97 <=? c)%N eqn:E1; [destruct (c <=? 122)%N eqn:E2|];
    cbn [andb] in Hc; [right; apply N.leb_le in E1; lia | left | left];
    symmetry; exact Hc.
Qed.

Lemma blank_prefix (d b w r : jsstring) :
  d ++ b = newline :: w ++ r -> length d <= S (length w) ->
  Forall (fun c => is_space c = true) w ->
  Forall (fun c => is_space c = true) d.
Proof.
  intros E Hl Hw.
  assert (Forall (fun c => is_space c = true) (newline :: w)) as Hnw
      by (constructor; [reflexivity | exact Hw]).
  change (newline :: w ++ r) with ((newline :: w) ++ r) in E.
  apply app_eq_app in E. destruct E as [l [[E1 E2]|[E1 E2]]].
  - (* d = (newline :: w) ++ l *)
    assert (l = []) as ->.
    { apply (f_equal (@length N)) in E1. rewrite length_app in E1.
      cbn [length] in E1. destruct l; [reflexivity | cbn in E1; lia]. }
    rewrite app_nil_r in E1. subst d. exact Hnw.
  - rewrite E1 in Hnw. apply Forall_app in Hnw. apply Hnw.
Qed.

(** The text that the shortest run of the lazy group leaves before the end
    of the facts pattern is, white space aside, the text before the first
    [Sources:] marker. *)
Lemma facts_text (w g t : jsstring) :
  Forall (fun c => is_space c = true) w ->
  factsEndsAt t ->
  (forall g1 g2, g = g1 ++ g2 -> g2 <> [] -> ~ factsEndsAt (g2 ++ t)) ->
  trim (beforeMarker SOURCES_LABEL (w ++ g ++ t)) = trim g.
Proof.
  intros Hw Hend Hmin.
  destruct (includes_ci SOURCES_LABEL (w ++ g ++ t)) eqn:Hin.
  - destruct (@first_place _ _ Hin) as (a & b & E & Hfirst).
    rewrite E, (@beforeMarker_first SOURCES_LABEL a b Hfirst).
    destruct Hfirst as [Hb Hleft]. rewrite <- E in Hleft.
    assert (b <> []) as Hbne by (intros ->; discriminate).
    rewrite app_assoc in E. symmetry in E. apply app_eq_app in E.
    destruct E as [l [[E1 E2]|[E1 E2]]].
    + (* the marker stands after the group: a = (w ++ g) ++ l *)
      subst a. rewrite <- app_assoc.
      apply trim_pad; [exact Hw|].
      destruct Hend as [->|[H|(w' & r & Et & Hw' & H)]].
      * destruct l, b; discriminate.
      * destruct l as [|c l]; [constructor|]. exfalso.
        rewrite (Hleft (w ++ g) t) in H; [discriminate | |].
        -- rewrite <- app_assoc. reflexivity.
        -- rewrite !length_app. cbn [length]. lia.
      * apply (@blank_prefix l b w' r); [congruence | | exact Hw'].
        destruct (Nat.le_gt_cases (length l) (S (length w'))) as [Hle|Hgt];
          [exact Hle|]. exfalso.
        rewrite (Hleft (w ++ g ++ newline :: w') r) in H; [discriminate | |].
        -- rewrite Et, <- !app_assoc. reflexivity.
        -- rewrite ?length_app. cbn [length]. rewrite ?length_app.
           cbn [length]. lia.
    + (* the marker stands in [w ++ g]: w ++ g = a ++ l *)
      destruct l as [|c l].
      { rewrite app_nil_r in E1. subst a. apply trim_lead. exact Hw. }
      exfalso. symmetry in E1. apply app_eq_app in E1.
      destruct E1 as [l' [[E3 E4]|[E3 E4]]].
      * (* a = w ++ l', g = l' ++ c :: l *)
        apply (Hmin l' (c :: l) E4); [discriminate|].
        right. left. rewrite <- E2. exact Hb.
      * (* w = a ++ l', c :: l = l' ++ g *)
        destruct l' as [|d l'].
        -- cbn [app] in E4. apply (Hmin [] g); [reflexivity | | ].
           ++ rewrite <- E4. discriminate.
           ++ right. left. rewrite <- E4, <- E2. exact Hb.
        -- cbn [app] in E4. injection E4 as <- _.
           rewrite E2 in Hb. apply marker_not_blank in Hb.
           rewrite E3 in Hw. apply Forall_app in Hw. destruct Hw as [_ Hw].
           inversion Hw as [|? ? Hc _]. congruence.
  - rewrite (@beforeMarker_none _ _ Hin).
    assert (t = []) as ->.
    { destruct Hend as [->|[H|(w' & r & Et & _ & H)]]; [reflexivity| |];
        exfalso.
      - rewrite (proj1 (includes_ci_false _ _) Hin (w ++ g) t) in H;
          [discriminate|]. rewrite <- app_assoc. reflexivity.
      - rewrite (proj1 (includes_ci_false _ _) Hin
                   (w ++ g ++ newline :: w') r) in H; [discriminate|].
        rewrite Et, <- !app_assoc. reflexivity. }
    rewrite app_nil_r. apply trim_lead. exact Hw.
Qed.

(** The match of the facts pattern, piece by piece: the label at its
    first place, white space, the group, and the end of the pattern. *)
Lemma facts_match (content : jsstring) (i : nat) (s' : MState) :
  exec factsRegex content = Some (i, s') ->
  exists x L W G Tc R,
    content = x ++ L ++ W ++ G ++ Tc ++ R
    /\ i = length x
    /\ firstAt FACTS_LABEL x (L ++ W ++ G ++ Tc ++ R)
    /\ length L = length FACTS_LABEL
    /\ Forall (fun c => is_space c = true) W
    /\ factsEndsAt (Tc ++ R)
    /\ (forall G1 G2, G = G1 ++ G2 -> G2 <> [] ->
          ~ factsEndsAt (G2 ++ Tc ++ R))
    /\ grp 1 (i, s') = G
    /\ m_0 (i, s') = L ++ W ++ G ++ Tc
    /\ after s' = R.
Proof.
  intros H. rewrite factsRegex_eq in H.
  destruct (@labelled_exec_some FACTS_LABEL _ factsTail_total content i s' H)
    as (x & y & rest & -> & -> & Hfirst & R).
  destruct (first_seq _ _ _ R) as (s1 & rest1 & H1 & R1).
  apply run_lit_ci_passes in H1. destruct H1 as (L & P1 & HL & G1).
  cbn [seqs] in R1.
  destruct (first_seq _ _ _ R1) as (s2 & rest2 & H2 & R2).
  apply run_star_chr in H2. destruct H2 as (W & P2 & HW & G2).
  destruct s2 as [b2 a2 g2].
  destruct (lazy_first _ _ _ _ _ R2) as (G & T & rest3 & Ea & R3 & Hmin).
  assert (In s' (run factsEnd (mkState (rev G ++ b2) T ((1, G) :: g2))))
    as Hin by (cbn [seqs]; rewrite R3; left; reflexivity).
  destruct (factsEnd_sound _ _ Hin) as (Hend & Hg & Tc & P4).
  cbn [after groups] in Hend, Hg.
  pose proof (passes_state P4) as [E4 B4].
  pose proof P1 as [A1 B1]. pose proof P2 as [A2 B2].
  cbn [after before] in A1, B1, A2, B2.
  exists x, L, W, G, Tc, (after s').
  assert (y = L ++ W ++ G ++ Tc ++ after s') as Ey
      by (rewrite A1, A2, Ea, E4; reflexivity).
  assert (factsEndsAt (Tc ++ after s')) as Hend' by (rewrite <- E4; exact Hend).
  clear A1. subst y.
  split; [reflexivity|]. split; [reflexivity|]. split; [exact Hfirst|].
  split; [exact HL|]. split; [exact HW|]. split; [exact Hend'|].
  split; [|split; [|split; [|reflexivity]]].
  - intros Ga Gb EG Hne Hends. rewrite <- E4 in Hends.
    apply (@factsEnd_complete (Gb ++ T) (rev Ga ++ b2) ((1, Ga) :: g2) Hends).
    exact (Hmin Ga Gb EG Hne).
  - unfold grp, m_group. cbn [snd]. rewrite Hg.
    cbn [assoc_nat Nat.eqb]. reflexivity.
  - apply (@m_0_passes (length x, s')
             (mkState (rev x) (L ++ W ++ G ++ Tc ++ after s') [])).
    + cbn [m_index fst before]. rewrite length_rev. reflexivity.
    + cbn [snd]. split; cbn [after before].
      * rewrite <- !app_assoc. reflexivity.
      * rewrite B4, B2, B1, !rev_app_distr, <- !app_assoc. reflexivity.
Qed.

(** The facts block that the facts pattern finds in a text: the text
    between the first [Retrieved Facts:] marker and the first [Sources:]
    marker after it, trimmed. *)
Lemma facts_block (content : jsstring) :
  option_map (fun m => trim (grp 1 m)) (exec factsRegex content)
  = option_map (fun t => trim (beforeMarker SOURCES_LABEL t))
               (afterMarker FACTS_LABEL content).
Proof.
  destruct (exec factsRegex content) as [[i s']|] eqn:E.
  - destruct (@facts_match content i s' E)
      as (x & L & W & G & Tc & R & -> & _ & Hfirst & HL & HW & Hend & Hmin
          & Hg & _ & _).
    rewrite (@afterMarker_first FACTS_LABEL x _ Hfirst).
    rewrite <- HL, skipn_app, Nat.sub_diag, skipn_all. cbn [app skipn].
    cbn [option_map]. rewrite Hg. f_equal. symmetry.
    apply facts_text; assumption.
  - apply exec_facts_none in E.
    rewrite (@afterMarker_none FACTS_LABEL content E). reflexivity.
Qed.

(** *** The blocks of a text *)

Lemma blocks_facts (content : jsstring) :
  factsBlock (extractBlocks content)
  = option_map (fun t => trim (beforeMarker SOURCES_LABEL t))
               (afterMarker FACTS_LABEL content).
Proof. unfold extractBlocks. cbn [factsBlock]. apply facts_block. Qed.

(** Without a facts marker the source block is the text after the first
    [Sources:] marker. *)
Lemma blocks_sources_alone (content : jsstring) :
  includes_ci FACTS_LABEL content = false ->
  sourcesBlock (extractBlocks content)
  = option_map trim (afterMarker SOURCES_LABEL content).
Proof.
  intros H. apply exec_facts_none in H. unfold extractBlocks.
  cbn [sourcesBlock]. rewrite H. apply sources_block.
Qed.

Lemma afterMarker_some (label s t : jsstring) :
  afterMarker label s = Some t -> includes_ci label s = true.
Proof.
  intros H. destruct (includes_ci label s) eqn:E; [reflexivity|].
  rewrite (@afterMarker_none label s E) in H. discriminate.
Qed.

(** With a facts marker after which no [Sources:] marker stands, there is
    no source block. *)
Lemma blocks_sources_none (content t : jsstring) :
  afterMarker FACTS_LABEL content = Some t ->
  includes_ci SOURCES_LABEL t = false ->
  sourcesBlock (extractBlocks content) = None.
Proof.
  intros Ht Hno. pose proof (@afterMarker_some _ _ _ Ht) as Hin.
  unfold extractBlocks. cbn [sourcesBlock].
  destruct (exec factsRegex content) as [[i s']|] eqn:E;
    [|apply exec_facts_none in E; congruence].
  destruct (@facts_match content i s' E)
    as (x & L & W & G & Tc & R & -> & -> & Hfirst & HL & _ & _ & _
        & Hg & H0 & _).
  rewrite (@afterMarker_first FACTS_LABEL x _ Hfirst) in Ht.
  rewrite <- HL, skipn_app, Nat.sub_diag, skipn_all in Ht.
  cbn [app skipn] in Ht. injection Ht as <-.
  rewrite Hg, H0. cbn [m_index fst].
  assert (slice_fromZ
            (Z.of_nat (length x + length (L ++ W ++ G ++ Tc))
             - Z.of_nat (length G))
            (x ++ L ++ W ++ G ++ Tc ++ R)
          = skipn (length W + length Tc) (W ++ G ++ Tc ++ R)) as ->.
  { unfold slice_fromZ. rewrite !length_app.
    destruct (_ <? 0)%Z eqn:Hneg; [apply Z.ltb_lt in Hneg; lia|].
    replace (Z.to_nat _)
      with (length x + (length L + (length W + length Tc))) by lia.
    rewrite skipn_app, skipn_all2 by lia. cbn [app].
    replace (length x + (length L + (length W + length Tc)) - length x)
      with (length L + (length W + length Tc)) by lia.
    rewrite skipn_app, skipn_all2 by lia. cbn [app].
    f_equal. lia. }
  rewrite (@exec_none_of_no_marker sourcesRegex SOURCES_LABEL _
             (fun m => @exec_sources_marker _ m)
             (@includes_ci_skipn _ _ _ Hno)).
  reflexivity.
Qed.

(** *** The cut of the clean text *)

Lemma lastIndexOf_upto_nth (c : N) (s : jsstring) :
  forall i bound j,
    lastIndexOf_upto c s i bound = Some j ->
    i <= j /\ nth_error s (j - i) = Some c.
Proof.
  induction s as [|x s IH]; intros i bound j H; cbn [lastIndexOf_upto] in H;
    [discriminate|].
  assert ((if N.eqb x c then Some i else None) = Some j ->
          i <= j /\ nth_error (x :: s) (j - i) = Some c) as Hhere.
  { destruct (N.eqb x c) eqn:Ex; [|discriminate].
    intros Hj. injection Hj as <-. apply N.eqb_eq in Ex. subst x.
    rewrite Nat.sub_diag. split; [lia | reflexivity]. }
  destruct bound as [|b]; [exact (Hhere H)|].
  destruct (lastIndexOf_upto c s (S i) b) as [j'|] eqn:E;
    [|exact (Hhere H)].
  injection H as <-. destruct (IH _ _ _ E) as [Hle Hn].
  split; [lia|]. replace (j' - i) with (S (j' - S i)) by lia. exact Hn.
Qed.

Lemma facts_label_no_newline (y : jsstring) :
  startsWith_ci FACTS_LABEL y = true -> nth_error y 0 <> Some newline.
Proof.
  destruct y as [|c y]; [discriminate|].
  change FACTS_LABEL with (82%N :: str "etrieved Facts:").
  cbn [startsWith_ci nth_error]. intros H Hc. injection Hc as ->.
  discriminate.
Qed.

(** With a facts marker, the clean text is a piece of the text that
    precedes the marker. *)
Lemma cleanText_before_facts (content : jsstring) :
  includes_ci FACTS_LABEL content = true ->
  exists post,
    beforeMarker FACTS_LABEL content
    = blocksCleanText (extractBlocks content) ++ post.
Proof.
  intros Hin. unfold extractBlocks. cbn [blocksCleanText].
  destruct (exec factsRegex content) as [[i s']|] eqn:E;
    [|apply exec_facts_none in E; congruence].
  destruct (@facts_match content i s' E)
    as (x & L & W & G & Tc & R & -> & -> & Hfirst & _).
  rewrite (@beforeMarker_first FACTS_LABEL x _ Hfirst).
  cbn [m_index fst].
  set (y := L ++ W ++ G ++ Tc ++ R) in *.
  set (start := match lastIndexOf newline (x ++ y) _ with
                | Some j => j + 1 | None => 0 end).
  assert (start <= length x) as Hstart.
  { unfold start, lastIndexOf.
    destruct (lastIndexOf_upto _ _ _ _) as [j|] eqn:Ej; [|lia].
    pose proof (@lastIndexOf_upto_le _ _ _ _ _ Ej) as Hle.
    destruct (@lastIndexOf_upto_nth _ _ _ _ _ Ej) as [_ Hn].
    rewrite Nat.sub_0_r in Hn.
    destruct (Nat.eq_dec (length x) 0) as [H0|H0]; [|lia].
    exfalso. destruct x; [|discriminate]. cbn [app] in Hn.
    assert (j = 0) as -> by (cbn in Hle; lia).
    destruct Hfirst as [Hy _].
    exact (@facts_label_no_newline y Hy Hn). }
  unfold slice_to. rewrite firstn_app.
  replace (start - length x) with 0 by lia. rewrite firstn_O, app_nil_r.
  destruct (trimEnd_prefix (firstn start x)) as [t Et].
  exists (t ++ skipn start x).
  rewrite app_assoc, <- Et, firstn_skipn. reflexivity.
Qed.

(** The sources-only pattern runs wherever the [Sources:] marker
    stands. *)
Lemma sourcesOnly_runs (b y : jsstring) :
  startsWith_ci SOURCES_LABEL y = true ->
  run sourcesOnlyRegex (mkState b y []) <> [].
Proof.
  intros H.
  destruct (@run_lit_ci_complete SOURCES_LABEL (mkState b y []) H)
    as [s1 H1].
  destruct (run_star_any_end true s1) as (s2 & H2 & Hend).
  assert (In s2 (run sourcesOnlyRegex (mkState b y []))) as Hin.
  { unfold sourcesOnlyRegex. cbn [seqs]. apply in_run_seq.
    exists (mkState b y []). split.
    { unfold Opt. apply in_run_alt. right. left. reflexivity. }
    apply in_run_seq. exists (mkState b y []).
    split; [apply in_run_star_zero|].
    apply in_run_seq. exists s1. split; [exact H1|].
    apply in_run_seq. exists s2. split; [exact H2|].
    apply in_run_eol. auto. }
  intros E0. rewrite E0 in Hin. contradiction.
Qed.

(** What the sources-only pattern leaves of a text holds no [Sources:]
    marker. *)
Lemma replace_sourcesOnly_clean (content : jsstring) :
  includes_ci SOURCES_LABEL (replace sourcesOnlyRegex [] content) = false.
Proof.
  unfold replace.
  destruct (exec sourcesOnlyRegex content) as [[i s']|] eqn:E.
  - apply search_some in E.
    destruct E as (x & y & -> & Hi & [rest R] & Hleft).
    cbn [length Nat.add] in Hi. subst i.
    assert (In s' (run sourcesOnlyRegex (mkState (rev x ++ []) y [])))
      as Hin by (rewrite R; left; reflexivity).
    unfold sourcesOnlyRegex in Hin. cbn [seqs] in Hin.
    apply in_run_seq in Hin. destruct Hin as (s1 & _ & Hin).
    apply in_run_seq in Hin. destruct Hin as (s2 & _ & Hin).
    apply in_run_seq in Hin. destruct Hin as (s3 & _ & Hin).
    apply in_run_seq in Hin. destruct Hin as (s4 & _ & Hin).
    apply in_run_eol in Hin. destruct Hin as [-> Hend].
    cbn [m_index fst snd]. rewrite Hend, firstn_app, Nat.sub_diag, firstn_all.
    cbn [firstn app]. rewrite !app_nil_r.
    apply includes_ci_false. intros u v Ex.
    destruct (startsWith_ci SOURCES_LABEL v) eqn:S; [|reflexivity].
    exfalso.
    apply (@sourcesOnly_runs (rev u ++ []) (v ++ y)
             (@startsWith_ci_app _ _ y S)).
    apply Hleft; [rewrite Ex, <- app_assoc; reflexivity|].
    apply startsWith_ci_length in S. rewrite Ex, length_app.
    change (length SOURCES_LABEL) with 8 in S. lia.
  - apply includes_ci_false. intros u v Ex.
    destruct (startsWith_ci SOURCES_LABEL v) eqn:S; [|reflexivity].
    exfalso. apply (@sourcesOnly_runs (rev u ++ []) v S).
    exact (@search_none _ _ _ E u v Ex).
Qed.

(** Without a facts marker, a [Sources:] marker stays in the clean text
    only when nothing but white space follows the first one; the clean
    text is then the whole text. *)
Lemma cleanText_sources_alone (content : jsstring) :
  includes_ci FACTS_LABEL content = false ->
  includes_ci SOURCES_LABEL (blocksCleanText (extractBlocks content)) = true ->
  blocksCleanText (extractBlocks content) = content
  /\ exists t, afterMarker SOURCES_LABEL content = Some t
               /\ Forall (fun c => is_space c = true) t.
Proof.
  intros Hno Hin. pose proof (@blocks_sources_alone content Hno) as Hs.
  revert Hin Hs. unfold extractBlocks. cbn [blocksCleanText sourcesBlock].
  apply exec_facts_none in Hno. rewrite Hno.
  destruct (option_map _ (exec sourcesRegex content)) as [sb|] eqn:Eb;
    cbn [truthy_opt].
  - destruct sb as [|c sb]; cbn [truthy].
    + intros Hin Hs. split; [reflexivity|].
      destruct (afterMarker SOURCES_LABEL content) as [t|]; [|discriminate].
      exists t. split; [reflexivity|]. apply trim_blank_iff.
      cbn [option_map] in Hs. congruence.
    + intros Hin _. exfalso.
      destruct (trimEnd_prefix (replace sourcesOnlyRegex [] content))
        as [t Et].
      pose proof (replace_sourcesOnly_clean content) as Hc.
      rewrite Et in Hc. apply includes_ci_prefix in Hc. congruence.
  - intros Hin Hs. exfalso.
    destruct (afterMarker SOURCES_LABEL content) as [t|] eqn:Ea;
      [discriminate|].
    destruct (includes_ci SOURCES_LABEL content) eqn:Ei; [|congruence].
    destruct (@first_place _ _ Ei) as (x & y & -> & Hf).
    rewrite (@afterMarker_first _ _ _ Hf) in Ea. discriminate.
Qed.

(** *** The chat marker *)

Lemma run_lit_ci_det (l : jsstring) :
  forall b a g,
    run (lit_ci l) (mkState b a g)
    = if startsWith_ci l a
      then [mkState (rev (firstn (length l) a) ++ b) (skipn (length l) a) g]
      else [].
Proof.
  induction l as [|c l IH]; intros b a g; [reflexivity|].
  cbn [lit_ci run]. destruct a as [|d a]; [reflexivity|].
  fold (run (Chr (is_ci c)) (mkState b (d :: a) g)).
  rewrite run_chr_cons. cbn [startsWith_ci length firstn skipn rev].
  destruct (is_ci c d); cbn [flat_map andb]; [|reflexivity].
  rewrite IH, app_nil_r. destruct (startsWith_ci l a); [|reflexivity].
  rewrite <- app_assoc. reflexivity.
Qed.

Lemma takeWhile_dropWhile (p : N -> bool) (a : jsstring) :
  a = takeWhile p a ++ dropWhile p a.
Proof.
  induction a as [|c a IH]; [reflexivity|]. cbn.
  destruct (p c); [cbn; f_equal; exact IH | reflexivity].
Qed.

Lemma star_ws_first (b a : list N) (g : list (nat * jsstring)) :
  exists rest,
    run (Star true ws) (mkState b a g)
    = mkState (rev (takeWhile is_space a) ++ b) (dropWhile is_space a) g
      :: rest.
Proof.
  destruct (run (Star true ws) (mkState b a g)) as [|s' rest] eqn:R.
  - exfalso. pose proof (in_run_star_zero true ws (mkState b a g)) as H.
    rewrite R in H. contradiction.
  - exists rest. f_equal. exact (@greedy_first is_space b a g s' rest R).
Qed.

(** The label and the white space after it, from a given place. *)
Lemma label_ws_run (b a : list N) :
  run (Seq (lit_ci CHAT_RESPONSE_LABEL) (Star true ws)) (mkState b a [])
  = if startsWith_ci CHAT_RESPONSE_LABEL a
    then run (Star true ws)
             (mkState (rev (firstn (length CHAT_RESPONSE_LABEL) a) ++ b)
                      (skipn (length CHAT_RESPONSE_LABEL) a) [])
    else [].
Proof.
  cbn [run]. fold (run (lit_ci CHAT_RESPONSE_LABEL) (mkState b a [])).
  rewrite run_lit_ci_det.
  destruct (startsWith_ci CHAT_RESPONSE_LABEL a); [|reflexivity].
  cbn [flat_map]. rewrite app_nil_r. reflexivity.
Qed.

(** The chat pattern at one place of the text. *)
Lemma chat_run (b a : list N) :
  match chatMarkerAt (isnil b) a with
  | None => run chatResponseRegex (mkState b a []) = []
  | Some k =>
      exists rest,
        run chatResponseRegex (mkState b a [])
        = mkState (rev (takeWhile is_space (skipn k a))
                   ++ rev (firstn k a) ++ b)
                  (trimStart (skipn k a)) [] :: rest
  end.
Proof.
  unfold chatResponseRegex. cbn [seqs].
  change (run (Seq (Alt Bol (Chr (ch newline)))
                   (Seq (lit_ci CHAT_RESPONSE_LABEL) (Star true ws)))
              (mkState b a []))
    with (flat_map (run (Seq (lit_ci CHAT_RESPONSE_LABEL) (Star true ws)))
                   (run Bol (mkState b a [])
                    ++ run (Chr (ch newline)) (mkState b a []))).
  unfold chatMarkerAt.
  assert (run Bol (mkState b a []) = if isnil b then [mkState b a []] else [])
    as -> by (destruct b; reflexivity).
  destruct (isnil b) eqn:Eb; cbn [andb app flat_map].
  - rewrite label_ws_run.
    destruct (startsWith_ci CHAT_RESPONSE_LABEL a) eqn:S.
    + destruct (star_ws_first
                  (rev (firstn (length CHAT_RESPONSE_LABEL) a) ++ b)
                  (skipn (length CHAT_RESPONSE_LABEL) a) [])
        as [rest R].
      rewrite R. cbn [app]. unfold trimStart. eauto.
    + cbn [app]. destruct a as [|c a]; [reflexivity|].
      rewrite run_chr_cons. unfold ch.
      destruct (N.eqb newline c); cbn [andb flat_map]; [|reflexivity].
      rewrite label_ws_run, app_nil_r.
      destruct (startsWith_ci CHAT_RESPONSE_LABEL a) eqn:S'; [|reflexivity].
      destruct (star_ws_first
                  (rev (firstn (length CHAT_RESPONSE_LABEL) a) ++ c :: b)
                  (skipn (length CHAT_RESPONSE_LABEL) a) [])
        as [rest R].
      rewrite R. cbn [skipn firstn rev]. rewrite <- !app_assoc.
      unfold trimStart. eauto.
  - destruct a as [|c a]; [reflexivity|].
    rewrite run_chr_cons. unfold ch.
    destruct (N.eqb newline c); cbn [andb flat_map]; [|reflexivity].
    rewrite label_ws_run, app_nil_r.
    destruct (startsWith_ci CHAT_RESPONSE_LABEL a) eqn:S'; [|reflexivity].
    destruct (star_ws_first
                (rev (firstn (length CHAT_RESPONSE_LABEL) a) ++ c :: b)
                (skipn (length CHAT_RESPONSE_LABEL) a) [])
      as [rest R].
    rewrite R. cbn [skipn firstn rev]. rewrite <- !app_assoc.
    unfold trimStart. eauto.
Qed.

Lemma chatMarkerAt_le (atStart : bool) (a : jsstring) (k : nat) :
  chatMarkerAt atStart a = Some k -> k <= length a.
Proof.
  unfold chatMarkerAt.
  destruct (atStart && startsWith_ci CHAT_RESPONSE_LABEL a)%bool eqn:E.
  - intros H. injection H as <-. apply andb_true_iff in E.
    destruct E as [_ E]. exact (@startsWith_ci_length _ _ E).
  - destruct a as [|c a]; [discriminate|].
    destruct (N.eqb newline c && startsWith_ci CHAT_RESPONSE_LABEL a)%bool
      eqn:E'; [|discriminate].
    intros H. injection H as <-. apply andb_true_iff in E'.
    destruct E' as [_ E']. apply startsWith_ci_length in E'.
    change (length CHAT_RESPONSE_LABEL) with 14 in *. cbn [length]. lia.
Qed.

(** The search of the chat pattern follows the text-level split. *)
Lemma chat_search (a : jsstring) :
  forall b,
    match search chatResponseRegex b a, chatSplitFrom (isnil b) a with
    | None, None => True
    | Some (i, s'), Some (p, rest) =>
        i = length b + length p
        /\ after s' = rest
        /\ exists C, a = p ++ C ++ rest
                     /\ before s' = rev C ++ rev p ++ b
    | _, _ => False
    end.
Proof.
  induction a as [|c a IH]; intros b.
  - cbn [search chatSplitFrom]. pose proof (chat_run b []) as Hr.
    destruct (chatMarkerAt (isnil b) []) as [k|] eqn:Ek.
    + destruct Hr as [rest ->].
      pose proof (@chatMarkerAt_le _ _ _ Ek) as Hk. cbn in Hk.
      assert (k = 0) as -> by lia. cbn. split; [lia|]. split; [reflexivity|].
      exists []. auto.
    + rewrite Hr. exact I.
  - cbn [search chatSplitFrom]. pose proof (chat_run b (c :: a)) as Hr.
    destruct (chatMarkerAt (isnil b) (c :: a)) as [k|] eqn:Ek.
    + destruct Hr as [rest ->]. cbn [length app]. split; [lia|].
      split; [reflexivity|].
      exists (firstn k (c :: a) ++ takeWhile is_space (skipn k (c :: a))).
      split.
      * rewrite <- app_assoc. unfold trimStart.
        rewrite <- takeWhile_dropWhile, firstn_skipn. reflexivity.
      * cbn [before rev app]. rewrite rev_app_distr, <- app_assoc.
        reflexivity.
    + rewrite Hr. specialize (IH (c :: b)). cbn [isnil] in IH.
      destruct (search chatResponseRegex (c :: b) a) as [[i s']|],
        (chatSplitFrom false a) as [[p rest]|]; cbn [option_map fst snd];
        try exact IH.
      destruct IH as (Hi & Ha & C & E & B).
      split; [cbn [length] in *; lia|]. split; [exact Ha|].
      exists C. split; [cbn [app]; f_equal; exact E|].
      rewrite B. cbn [rev]. rewrite <- !app_assoc. reflexivity.
Qed.

(** The split of a message at the chat marker, read off the text. *)
Lemma split_by_text (input : jsstring) :
  splitChatResponse input = (preambleText input, answerText input).
Proof.
  unfold splitChatResponse, preambleText, answerText, exec.
  pose proof (chat_search input []) as H. cbn [isnil] in H.
  destruct (search chatResponseRegex [] input) as [[i s']|],
    (chatSplitFrom true input) as [[p rest]|]; try contradiction;
    [|reflexivity].
  destruct H as (Hi & Ha & C & E & B). cbn [length Nat.add] in Hi.
  subst i. cbn [option_map fst snd m_index].
  assert (m_0 (length p, s') = C) as ->.
  { apply (@m_0_passes (length p, s') (mkState (rev p) (C ++ rest) [])).
    - cbn [m_index fst before]. rewrite length_rev. reflexivity.
    - cbn [snd]. split; cbn [after before].
      + rewrite Ha. reflexivity.
      + rewrite B, app_nil_r. reflexivity. }
  unfold slice_to, slice_from. rewrite E. f_equal.
  - rewrite firstn_app, Nat.sub_diag, firstn_all. cbn [firstn].
    rewrite app_nil_r. reflexivity.
  - rewrite app_assoc, skipn_app.
    rewrite skipn_all2 by (rewrite length_app; lia).
    rewrite length_app, Nat.sub_diag. reflexivity.
Qed.



Lemma afterMarker_absent (label s : jsstring) :
  afterMarker label s = None -> includes_ci label s = false.
Proof.
  intros H. destruct (includes_ci label s) eqn:E; [|reflexivity].
  destruct (@first_place _ _ E) as (x & y & -> & Hf).
  rewrite (@afterMarker_first _ _ _ Hf) in H. discriminate.
Qed.

Lemma truthy_trim (t : jsstring) :
  truthy (trim t) = false <-> Forall (fun c => is_space c = true) t.
Proof.
  rewrite <- trim_blank_iff. destruct (trim t); cbn [truthy];
    split; intros H; try reflexivity; discriminate.
Qed.

(** The three things that the parser looks at, read off the text. *)
Lemma parts_by_text (input : jsstring) :
  preambleOf input = preambleText input
  /\ factsBlockOf input = factsText (answerText input)
  /\ (~ sourcesRightAfterFacts (answerText input) ->
      truthy_opt (factsText (answerText input)) = false ->
      sourcesBlockOf input = sourcesAfterFacts (answerText input)).
Proof.
  unfold preambleOf, factsBlockOf, sourcesBlockOf.
  rewrite split_by_text. cbn [fst snd].
  set (A := answerText input).
  split; [reflexivity|]. split; [apply blocks_facts|].
  intros Hout Hf. unfold sourcesAfterFacts.
  destruct (afterMarker FACTS_LABEL A) as [t|] eqn:Et.
  - assert (includes_ci SOURCES_LABEL t = false) as Hno.
    { destruct (includes_ci SOURCES_LABEL t) eqn:E; [|reflexivity].
      exfalso. apply Hout. exists t. auto. }
    rewrite (@blocks_sources_none A t Et Hno). unfold sourcesText.
    rewrite (@afterMarker_none _ _ Hno). reflexivity.
  - apply blocks_sources_alone, afterMarker_absent. exact Et.
Qed.

Lemma bullets_by_text (input : jsstring) :
  bulletsOf input = factBullets input.
Proof.
  unfold bulletsOf, factBullets.
  destruct (parts_by_text input) as (_ & -> & _). reflexivity.
Qed.

End TextFacts.

(** ** Node merging, by the bullets of the text *)

(** C1, as the code has it.  For every input on which the parser
    succeeds, the result holds exactly one node for every (type, label)
    pair that occurs in a bullet that the loop accepts, that is, a bullet
    of the facts text (read off the message) in which the triple pattern
    matches and both entities parse: no two
    nodes share a pair, every node is such an occurrence, and the node of
    a pair is the first of its occurrences in the accepted bullets, as it
    is written there (so it carries the attributes of that occurrence,
    and those only).  The entities of a bullet that the loop skips are no
    occurrences: they give no node and no attribute. *)
Theorem node_merge_first_seen (input : jsstring) (r : ParsedFacts.t)
  (Hparse : parseRetrievedFacts input = Some r) :
  let occ := flat_map bulletEntities (factBullets input) in
  NoDup (map (fun n => (KGNode.type n, KGNode.label n)) (ParsedFacts.nodes r))
  /\ (forall n, In n (ParsedFacts.nodes r) -> In n occ)
  /\ (forall e, In e occ ->
        exists n, In n (ParsedFacts.nodes r)
                  /\ KGNode.type n = KGNode.type e
                  /\ KGNode.label n = KGNode.label e
                  /\ find (same_entity e) occ = Some n).
Proof.
  rewrite <- TextFacts.bullets_by_text, <- occurrences_accepted.
  apply MarkerFacts.parseRetrievedFacts_some in Hparse.
  destruct Hparse as (_ & Hn & _). rewrite Hn.
  unfold occurrencesOf, factsBlockOf, sourcesBlockOf.
  destruct (factsBlock (extractBlocks (snd (splitChatResponse input))))
    as [[|c block]|].
  - rewrite occurrences_empty_block. simpl.
    split; [constructor|]. split; [auto | intros e []].
  - apply MergeFacts.parseFactsBullets_nodes.
  - simpl. split; [constructor|]. split; [auto | intros e []].
Qed.

(** The theorem at a block with a second mention: the one node for
    [(a, x)] is the first occurrence. *)
Lemma node_merge_first_seen_witness :
  exists r,
    parseRetrievedFacts second_mention_input = Some r
    /\ NoDup (map (fun n => (KGNode.type n, KGNode.label n))
                  (ParsedFacts.nodes r))
    /\ forall e,
         In e (flat_map bulletEntities (factBullets second_mention_input)) ->
         exists n, In n (ParsedFacts.nodes r)
                   /\ find (same_entity e)
                        (flat_map bulletEntities
                           (factBullets second_mention_input)) = Some n.
Proof.
  destruct (parseRetrievedFacts second_mention_input) as [r|] eqn:E;
    [|vm_compute in E; discriminate].
  exists r. split; [reflexivity|].
  destruct (@node_merge_first_seen second_mention_input r E)
    as (Hnd & _ & Hocc).
  split; [exact Hnd|].
  intros e He. destruct (Hocc e He) as (n & Hn & _ & _ & Hf).
  exists n. split; [exact Hn | exact Hf].
Defined.

(** The specification's wording fails twice.  Of the two mentions of
    [(a, x)] in two accepted bullets only the second gives a [url], and
    the node of the result, the first mention, has none: the attribute is
    lost.  And two mentions of [(a, x)] in two bullets that the loop skips,
    their other entity being no entity, give no node at all. *)
Lemma second_mention_attribute_lost :
  (exists r e n,
     parseRetrievedFacts second_mention_input = Some r
     /\ In e (flat_map bulletEntities (factBullets second_mention_input))
     /\ In n (ParsedFacts.nodes r)
     /\ same_entity e n = true
     /\ attr (str "url") e = Some (str "https://a.com")
     /\ attr (str "url") n = None
     /\ KGNode.url n = None)
  /\ (exists r,
        parseRetrievedFacts skipped_both_input = Some r
        /\ length (factBullets skipped_both_input) = 2
        /\ ParsedFacts.nodes r = []).
Proof.
  split.
  - eexists. exists (KGNode.mk (str "a:x") (str "a") (str "x")
                       (Some (str "https://a.com")) None
                       (Some [(str "url", str "https://a.com")])).
    exists (sample_node "a" "x").
    split; [vm_compute; reflexivity|].
    split; [vm_compute; auto|].
    split; [vm_compute; auto|].
    repeat split.
  - eexists. split; [vm_compute; reflexivity|]. split; reflexivity.
Qed.

(** A mention in a skipped bullet counts for nothing: the node of
    [(a, x)] carries the [url] of the second mention in the text, the
    first one standing in a bullet whose other entity does not parse. *)
Example skipped_bullet_mention_ignored :
  exists r,
    parseRetrievedFacts skipped_first_input = Some r
    /\ map (fun n => (KGNode.id n, KGNode.url n)) (ParsedFacts.nodes r)
       = [(str "a:x", Some (str "https://second")); (str "b:y", None)].
Proof. eexists. split; vm_compute; reflexivity. Qed.

(** ** The null result, by the content of the input *)

(** C3, as the code has it.  Read off the text, a message has a preamble
    (what stands before a [Chat Response:] marker at the start of a line),
    a facts text (between the [Retrieved Facts:] marker and the next
    [Sources:] marker) and a source text (after the [Sources:] marker
    that follows the facts, or the first one when there is no facts
    marker), each trimmed.  Unless a facts marker is followed by white
    space only up to a [Sources:] marker, the result is null exactly when
    all three are empty or absent; a non-empty preamble or facts text
    always gives a result; and an input without any of the three markers
    gives null. *)
Theorem null_result_rule (input : jsstring) :
  let P := preambleText input in
  let A := answerText input in
  (~ sourcesRightAfterFacts A ->
   (parseRetrievedFacts input = None <->
    truthy_opt P = false
    /\ truthy_opt (factsText A) = false
    /\ truthy_opt (sourcesAfterFacts A) = false))
  /\ (truthy_opt P = true \/ truthy_opt (factsText A) = true ->
      parseRetrievedFacts input <> None)
  /\ (includes_ci CHAT_RESPONSE_LABEL input = false ->
      includes_ci FACTS_LABEL input = false ->
      includes_ci SOURCES_LABEL input = false ->
      parseRetrievedFacts input = None).
Proof.
  intros P A.
  destruct (TextFacts.parts_by_text input) as (HP & HF & HS).
  fold P A in HP, HF, HS.
  split; [|split; [|apply no_markers_null]].
  - intros Hout. rewrite null_iff_nothing_found, HP, HF.
    destruct (truthy_opt (factsText A)) eqn:Ef.
    + split; intros (H1 & H2 & H3); discriminate.
    + rewrite (HS Hout eq_refl). reflexivity.
  - intros H Hnull. apply null_iff_nothing_found in Hnull.
    rewrite HP, HF in Hnull. destruct Hnull as (H1 & H2 & _).
    destruct H; congruence.
Qed.

(** The rule at four messages: a preamble before prose gives a result; a
    facts marker followed by white space only gives null below prose; so
    does a source list that precedes a bare facts marker; a plain sentence
    gives null. *)
Lemma null_result_rule_witness :
  (preambleText preamble_only_input = Some (str "trace 1")
   /\ parseRetrievedFacts preamble_only_input <> None)
  /\ (factsText (answerText blank_facts_input) = Some []
      /\ sourcesAfterFacts (answerText blank_facts_input) = None
      /\ parseRetrievedFacts blank_facts_input = None)
  /\ (sourcesAfterFacts (answerText sources_then_bare_facts_input) = None
      /\ parseRetrievedFacts sources_then_bare_facts_input = None)
  /\ parseRetrievedFacts (str "plain text") = None.
Proof.
  assert (forall input,
            (exists t, afterMarker FACTS_LABEL (answerText input) = Some t
                       /\ includes_ci SOURCES_LABEL t = false) ->
            ~ sourcesRightAfterFacts (answerText input)) as Hout.
  { intros input (t & Et & Hno) (t' & Et' & _ & Hin). congruence. }
  split; [|split; [|split]].
  - split; [reflexivity|].
    apply (proj1 (proj2 (null_result_rule preamble_only_input))).
    left. reflexivity.
  - split; [reflexivity|]. split; [reflexivity|].
    apply (proj1 (null_result_rule blank_facts_input)).
    + apply Hout. eexists. split; reflexivity.
    + repeat split.
  - split; [reflexivity|].
    apply (proj1 (null_result_rule sources_then_bare_facts_input)).
    + apply Hout. eexists. split; reflexivity.
    + repeat split.
  - apply (proj2 (proj2 (null_result_rule (str "plain text"))));
      reflexivity.
Defined.

(** The specification's wording fails: an input that is the facts marker
    and nothing else holds the marker, and the result is null; so it is for a
    sources marker with nothing after it, and for a source list that stands
    before a bare facts marker. *)
Lemma bare_marker_is_null :
  includes FACTS_LABEL FACTS_LABEL = true
  /\ parseRetrievedFacts FACTS_LABEL = None
  /\ includes SOURCES_LABEL (str "x Sources:  ") = true
  /\ parseRetrievedFacts (str "x Sources:  ") = None
  /\ includes SOURCES_LABEL sources_then_bare_facts_input = true
  /\ includes FACTS_LABEL sources_then_bare_facts_input = true
  /\ parseRetrievedFacts sources_then_bare_facts_input = None.
Proof. vm_compute. repeat split. Qed.

(** The shape that the rule leaves out, at a source list right after a
    bare facts marker: the search for the source list starts after the
    [Sources:] label, and the result is null. *)
Example sources_right_after_facts_null :
  sourcesRightAfterFacts (answerText sources_right_after_facts_input)
  /\ sourcesAfterFacts (answerText sources_right_after_facts_input)
     = Some (str "[1] https://a.com")
  /\ parseRetrievedFacts sources_right_after_facts_input = None.
Proof.
  split; [|split; reflexivity].
  eexists. split; [reflexivity|]. split; reflexivity.
Qed.

(** ** Re-parsing the clean text *)

(** C8, as the code has it.  When [parseRetrievedFacts] succeeds, its
    clean text holds no [Retrieved Facts:] marker, in any letter case, and
    parsing the clean text again yields no node and no edge.  A
    [Sources:] marker stays in the clean text in two cases only: the
    answer has a facts marker and the clean text is a piece of what
    precedes it, or the answer has no facts marker and nothing but white
    space follows its first [Sources:] marker, the clean text being the
    whole answer.  So an answer without facts marker whose source text is
    not empty has a clean text without [Sources:] marker. *)
Theorem reparse_yields_no_graph (input : jsstring) (r : ParsedFacts.t)
  (Hparse : parseRetrievedFacts input = Some r) :
  includes_ci FACTS_LABEL (ParsedFacts.cleanText r) = false
  /\ (forall r',
         parseRetrievedFacts (ParsedFacts.cleanText r) = Some r' ->
         ParsedFacts.nodes r' = [] /\ ParsedFacts.edges r' = [])
  /\ (includes_ci SOURCES_LABEL (ParsedFacts.cleanText r) = true ->
      (includes_ci FACTS_LABEL (answerText input) = true
       /\ exists post,
            beforeMarker FACTS_LABEL (answerText input)
            = ParsedFacts.cleanText r ++ post)
      \/ (includes_ci FACTS_LABEL (answerText input) = false
          /\ ParsedFacts.cleanText r = answerText input
          /\ exists t,
               afterMarker SOURCES_LABEL (answerText input) = Some t
               /\ Forall (fun c => is_space c = true) t))
  /\ (includes_ci FACTS_LABEL (answerText input) = false ->
      truthy_opt (sourcesText (answerText input)) = true ->
      includes_ci SOURCES_LABEL (ParsedFacts.cleanText r) = false).
Proof.
  apply MarkerFacts.parseRetrievedFacts_some in Hparse.
  destruct Hparse as (Hc & _ & _).
  rewrite TextFacts.split_by_text in Hc. cbn [snd] in Hc.
  assert (includes_ci FACTS_LABEL (ParsedFacts.cleanText r) = false) as Hno
      by (rewrite Hc; apply MarkerFacts.cleanText_no_facts_marker).
  assert (includes_ci SOURCES_LABEL (ParsedFacts.cleanText r) = true ->
          includes_ci FACTS_LABEL (answerText input) = false ->
          ParsedFacts.cleanText r = answerText input
          /\ exists t,
               afterMarker SOURCES_LABEL (answerText input) = Some t
               /\ Forall (fun c => is_space c = true) t) as Halone.
  { intros Hin Hf. rewrite Hc in Hin |- *.
    exact (@TextFacts.cleanText_sources_alone _ Hf Hin). }
  split; [exact Hno|]. split; [|split].
  - intros r' Hr'. exact (@MarkerFacts.no_marker_no_graph _ _ Hno Hr').
  - intros Hin.
    destruct (includes_ci FACTS_LABEL (answerText input)) eqn:Ef.
    + left. split; [reflexivity|]. rewrite Hc.
      exact (@TextFacts.cleanText_before_facts _ Ef).
    + right. split; [reflexivity|]. exact (Halone Hin eq_refl).
  - intros Hf Hs.
    destruct (includes_ci SOURCES_LABEL (ParsedFacts.cleanText r)) eqn:Hin;
      [|reflexivity].
    exfalso. destruct (Halone eq_refl Hf) as (_ & t & Et & Hb).
    unfold sourcesText in Hs. rewrite Et in Hs. cbn [option_map truthy_opt] in Hs.
    apply TextFacts.truthy_trim in Hb. congruence.
Qed.

(** The theorem at two answers: one whose source list comes before the
    facts line, where the marker stays, and one that has a source list and
    no facts, where it goes. *)
Lemma reparse_yields_no_graph_witness :
  (exists r,
      parseRetrievedFacts sources_first_input = Some r
      /\ includes_ci FACTS_LABEL (ParsedFacts.cleanText r) = false
      /\ (forall r',
             parseRetrievedFacts (ParsedFacts.cleanText r) = Some r' ->
             ParsedFacts.nodes r' = [] /\ ParsedFacts.edges r' = [])
      /\ exists post,
           beforeMarker FACTS_LABEL (answerText sources_first_input)
           = ParsedFacts.cleanText r ++ post)
  /\ (exists r,
         parseRetrievedFacts sources_alone_input = Some r
         /\ ParsedFacts.cleanText r = str "Intro"
         /\ includes_ci SOURCES_LABEL (ParsedFacts.cleanText r) = false).
Proof.
  split.
  - destruct (parseRetrievedFacts sources_first_input) as [r|] eqn:E;
      [|vm_compute in E; discriminate].
    exists r. split; [reflexivity|].
    destruct (@reparse_yields_no_graph sources_first_input r E)
      as (H1 & H2 & H3 & _).
    split; [exact H1|]. split; [exact H2|].
    assert (includes_ci SOURCES_LABEL (ParsedFacts.cleanText r) = true)
      as Hin by (vm_compute in E; injection E as <-; reflexivity).
    destruct (H3 Hin) as [[_ Hpost]|[Hf _]]; [exact Hpost|].
    vm_compute in Hf. discriminate.
  - destruct (parseRetrievedFacts sources_alone_input) as [r|] eqn:E;
      [|vm_compute in E; discriminate].
    exists r. split; [reflexivity|]. split.
    + vm_compute in E. injection E as <-. reflexivity.
    + destruct (@reparse_yields_no_graph sources_alone_input r E)
        as (_ & _ & _ & H4).
      apply H4; reflexivity.
Defined.

(** The specification's wording fails: the parse of an answer whose source
    list precedes the facts line succeeds with two nodes, and its clean
    text still holds the [Sources:] marker; parsing the clean text again
    succeeds as well, on the strength of that marker. *)
Lemma cleanText_keeps_sources_marker :
  exists r,
    parseRetrievedFacts sources_first_input = Some r
    /\ length (ParsedFacts.nodes r) = 2
    /\ ParsedFacts.cleanText r = str "Sources: [1] https://a.com"
    /\ includes SOURCES_LABEL (ParsedFacts.cleanText r) = true
    /\ parseRetrievedFacts (ParsedFacts.cleanText r) <> None.
Proof.
  eexists. split; [vm_compute; reflexivity|].
  repeat split; vm_compute; discriminate.
Qed.

(** ** From the graph service to the fact parser *)

Module RoundTripFacts.
Import RegexFacts MatchFacts LeadFacts MergeFacts.

Lemma forallb_Forall {A : Type} (p : A -> bool) (l : list A) :
  forallb p l = true -> Forall (fun x => p x = true) l.
Proof. intros H. apply Forall_forall. apply forallb_forall, H. Qed.

(** *** The text of a node *)

Lemma format_entityText (d : Dict.t) :
  formatNodeForPrompt d = lparen :: entityText d ++ [rparen].
Proof.
  unfold formatNodeForPrompt, entityText, attrsOfDict, metaParts, present.
  destruct (Dict.url d) as [[|c u]|], (Dict.page_id d) as [[|c' p]|];
    cbn -[firstLabel];
    repeat (progress (rewrite <- ?app_assoc; cbn -[firstLabel]));
    rewrite ?app_nil_r; reflexivity.
Qed.

(** *** The triple of a line *)

Ltac lead_chr := eapply leads_seq; [apply leads_chr; reflexivity|].

Lemma triple_leads (e1 rel e2 tail : jsstring) :
  e1 <> [] -> Forall (fun c => not_ch rparen c = true) e1 ->
  rel <> [] -> Forall (fun c => not_ch rbracket c = true) rel ->
  e2 <> [] -> Forall (fun c => not_ch rparen c = true) e2 ->
  exists s',
    leads tripleRegex
      (mkState []
         (lparen :: e1 ++ rparen :: 32 :: minus :: lbracket :: rel ++
          rbracket :: minus :: greater :: 32 :: lparen :: e2 ++
          rparen :: tail)%N [])
      s'
    /\ groups s' = [(3, e2); (2, rel); (1, e1)].
Proof.
  intros H1 F1 H2 F2 H3 F3. eexists. split.
  - unfold tripleRegex, ws. cbn [seqs].
    lead_chr.
    eapply leads_seq; [apply leads_grp_plus; [exact H1 | exact F1 | reflexivity]|].
    lead_chr.
    eapply leads_seq;
      [apply (@leads_star is_space [32%N]); [repeat constructor | reflexivity]|].
    lead_chr. lead_chr.
    eapply leads_seq; [apply leads_grp_plus; [exact H2 | exact F2 | reflexivity]|].
    lead_chr. lead_chr. lead_chr.
    eapply leads_seq;
      [apply (@leads_star is_space [32%N]); [repeat constructor | reflexivity]|].
    lead_chr.
    eapply leads_seq; [apply leads_grp_plus; [exact H3 | exact F3 | reflexivity]|].
    apply leads_chr. reflexivity.
  - reflexivity.
Qed.

Lemma triple_exec (e1 rel e2 tail : jsstring) :
  e1 <> [] -> Forall (fun c => not_ch rparen c = true) e1 ->
  rel <> [] -> Forall (fun c => not_ch rbracket c = true) rel ->
  e2 <> [] -> Forall (fun c => not_ch rparen c = true) e2 ->
  exists m,
    exec tripleRegex
      (lparen :: e1 ++ rparen :: 32 :: minus :: lbracket :: rel ++
       rbracket :: minus :: greater :: 32 :: lparen :: e2 ++
       rparen :: tail)%N = Some m
    /\ grp 1 m = e1 /\ grp 2 m = rel /\ grp 3 m = e2.
Proof.
  intros H1 F1 H2 F2 H3 F3.
  destruct (@triple_leads e1 rel e2 tail H1 F1 H2 F2 H3 F3) as (s' & L & G).
  exists (0, s'). split; [apply (search_leads L)|].
  unfold grp, m_group. cbn [snd]. rewrite G. auto.
Qed.

(** *** Trimming a line that ends in a closing parenthesis *)

Lemma dropWhile_app_stop (p : N -> bool) (x y : jsstring) (c : N) :
  p c = false ->
  exists x', dropWhile p (x ++ c :: y) = x' ++ c :: y.
Proof.
  intros Hc. induction x as [|d x IH]; cbn [app dropWhile].
  - rewrite Hc. exists []. reflexivity.
  - destruct (p d); [exact IH|]. exists (d :: x). reflexivity.
Qed.

Lemma trim_keeps_front (a rest : jsstring) (c : N) :
  is_space c = false ->
  exists tail, trim (lparen :: a ++ c :: rest) = lparen :: a ++ c :: tail.
Proof.
  intros Hc. unfold trim, trimStart. cbn [dropWhile].
  change (is_space lparen) with false. cbv iota.
  unfold trimEnd.
  replace (rev (lparen :: a ++ c :: rest))
    with (rev rest ++ c :: rev (lparen :: a))
    by (cbn [rev]; rewrite rev_app_distr; cbn [rev];
        rewrite <- !app_assoc; reflexivity).
  destruct (@dropWhile_app_stop is_space (rev rest) (rev (lparen :: a)) c Hc)
    as [x' ->].
  exists (rev x'). rewrite rev_app_distr. cbn [rev].
  rewrite rev_app_distr, !rev_involutive. cbn [rev app].
  rewrite <- !app_assoc. reflexivity.
Qed.

(** *** The type and label of an entity *)

Lemma typeLabel_leads (label name rest : jsstring) :
  label <> [] -> Forall (fun c => is_word c = true) label ->
  name <> [] -> Forall (fun c => not_ch dquote c = true) name ->
  leads typeLabelRegex
    (mkState [] (label ++ colon :: dquote :: name ++ dquote :: rest) [])
    (mkState (dquote :: rev name ++ dquote :: colon :: rev label ++ [])
             rest [(2, name); (1, label)]).
Proof.
  intros H1 F1 H2 F2. unfold typeLabelRegex, word. cbn [seqs].
  eapply leads_seq.
  { apply leads_wordb. destruct label as [|c l]; [contradiction|].
    inversion F1 as [|? ? Hc _]; subst.
    unfold at_word_boundary. cbn [before after app]. rewrite Hc. reflexivity. }
  eapply leads_seq; [apply leads_grp_plus; [exact H1 | exact F1 | reflexivity]|].
  lead_chr. lead_chr.
  eapply leads_seq;
    [apply leads_grp_plus; [exact H2 | exact F2 | reflexivity]|].
  apply leads_chr. reflexivity.
Qed.

Lemma typeLabel_needs_quote (s : MState) :
  ~ In dquote (after s) -> run typeLabelRegex s = [].
Proof.
  intros Hno. apply run_nil. intros s' Hin. apply Hno.
  unfold typeLabelRegex in Hin. cbn [seqs] in Hin.
  apply in_run_seq in Hin. destruct Hin as (s1 & H1 & Hin).
  apply in_run_wordb in H1. subst s1.
  apply in_run_seq in Hin. destruct Hin as (s2 & H2 & Hin).
  apply run_grp_plus_chr in H2. destruct H2 as (t & [A _] & _).
  apply in_run_seq in Hin. destruct Hin as (s3 & H3 & Hin).
  apply run_chr_passes in H3. destruct H3 as (c3 & [A3 _] & _).
  apply in_run_seq in Hin. destruct Hin as (s4 & H4 & Hin).
  apply run_chr_passes in H4. destruct H4 as (c4 & [A4 _] & Hc4 & _).
  apply N.eqb_eq in Hc4. subst c4.
  rewrite A. apply in_or_app. right.
  cbn [record_group after] in A3. rewrite A3. cbn [app].
  right. rewrite A4. left. reflexivity.
Qed.

Lemma scan_S (fuel : nat) (r : regex) (b a : list N) :
  scan (S fuel) r b a
  = match search r b a with
    | None => []
    | Some (i, s') =>
        (i, s') ::
        (if length (before s') =? i
         then match after s' with
              | [] => []
              | c :: a' => scan fuel r (c :: before s') a'
              end
         else scan fuel r (before s') (after s'))
    end.
Proof. reflexivity. Qed.

Lemma not_in_split {A : Type} (x : A) (l l1 l2 : list A) :
  ~ In x l -> l = l1 ++ l2 -> ~ In x l2.
Proof. intros H -> Hin. apply H, in_or_app. auto. Qed.

(** The matches of the type-and-label pattern in an entity text whose
    attributes hold no double quote: the first pair and no other. *)
Lemma typeLabel_matches (label name meta : jsstring) :
  label <> [] -> Forall (fun c => is_word c = true) label ->
  name <> [] -> Forall (fun c => not_ch dquote c = true) name ->
  ~ In dquote meta ->
  let raw := label ++ colon :: dquote :: name ++ dquote :: meta in
  exists m,
    exec typeLabelRegex raw = Some m
    /\ match_all typeLabelRegex raw = [m]
    /\ grp 1 m = label /\ grp 2 m = name.
Proof.
  intros H1 F1 H2 F2 Hq raw.
  pose proof (@typeLabel_leads label name meta H1 F1 H2 F2) as L.
  fold raw in L. apply search_leads in L. cbn [length] in L.
  eexists. split; [exact L|]. split; [|split; reflexivity].
  unfold match_all. rewrite scan_S. unfold exec in L. rewrite L.
  cbn [before after length Nat.eqb]. f_equal.
  assert (exists f, length raw = S f) as [f ->].
  { unfold raw. destruct label; [contradiction|]. cbn. eauto. }
  rewrite scan_S.
  rewrite search_nowhere; [reflexivity|].
  intros x1 x2 E. apply typeLabel_needs_quote. cbn [after].
  exact (@not_in_split _ dquote meta x1 x2 Hq E).
Qed.

(** *** The attributes of an entity *)

Lemma word_eq_clash (t : jsstring) :
  forall w y rest z,
    Forall (fun c => is_word c = true) t ->
    t ++ equals :: w = y ++ z :: rest ->
    ~ In equals y -> z <> equals -> is_word z = false -> False.
Proof.
  induction t as [|c t IH]; intros w y rest z Ft E Hy Hz Hw.
  - destruct y as [|d y]; cbn in E; injection E as E1 E2.
    + congruence.
    + apply Hy. left. congruence.
  - inversion Ft as [|? ? Hc Ft']; subst.
    destruct y as [|d y]; cbn in E; injection E as E1 E2.
    + congruence.
    + apply (@IH w y rest z Ft' E2); [|assumption|assumption].
      intros Hin. apply Hy. right. exact Hin.
Qed.

(** What the key-value pattern passes at first: a word and an equals
    sign. *)
Lemma keyValue_front (s s' : MState) :
  In s' (run keyValueRegex s) ->
  exists t w,
    after s = t ++ equals :: w /\ Forall (fun c => is_word c = true) t.
Proof.
  intros Hin. unfold keyValueRegex in Hin. cbn [seqs] in Hin.
  apply in_run_seq in Hin. destruct Hin as (s1 & H1 & Hin).
  apply in_run_wordb in H1. subst s1.
  apply in_run_seq in Hin. destruct Hin as (s2 & H2 & Hin).
  apply run_grp_plus_chr in H2. destruct H2 as (t & [A _] & _ & Ft & _).
  apply in_run_seq in Hin. destruct Hin as (s3 & H3 & Hin).
  apply run_chr_passes in H3. destruct H3 as (c3 & [A3 _] & Hc3 & _).
  apply N.eqb_eq in Hc3. subst c3.
  exists t, (after s3). split; [|exact Ft].
  rewrite A. cbn [record_group after] in A3. rewrite A3. reflexivity.
Qed.

Lemma keyValue_needs_eq (s : MState) :
  ~ In equals (after s) -> run keyValueRegex s = [].
Proof.
  intros Hno. apply run_nil. intros s' Hin. apply Hno.
  destruct (@keyValue_front _ _ Hin) as (t & w & -> & _).
  apply in_or_app. right. left. reflexivity.
Qed.

Lemma keyValue_no_match (y rest b : jsstring) (z : N)
  (g : list (nat * jsstring)) :
  ~ In equals y -> z <> equals -> is_word z = false ->
  run keyValueRegex (mkState b (y ++ z :: rest) g) = [].
Proof.
  intros Hy Hz Hw. apply run_nil. intros s' Hin.
  destruct (@keyValue_front _ _ Hin) as (t & w & E & Ft). cbn [after] in E.
  exact (@word_eq_clash t w y rest z Ft (eq_sym E) Hy Hz Hw).
Qed.

(** The class of the value of a key-value pair. *)
Local Abbreviation valueChar :=
  (fun c => negb (is_space c || N.eqb c rparen)).

Lemma keyValue_leads (k v rest b : jsstring) :
  at_word_boundary (mkState b (k ++ equals :: v ++ rest) []) = true ->
  k <> [] -> Forall (fun c => is_word c = true) k ->
  v <> [] -> Forall (fun c => valueChar c = true) v ->
  stops valueChar rest ->
  leads keyValueRegex
    (mkState b (k ++ equals :: v ++ rest) [])
    (mkState (rev v ++ equals :: rev k ++ b) rest [(2, v); (1, k)]).
Proof.
  intros Hb H1 F1 H2 F2 Hs. unfold keyValueRegex, word. cbn [seqs].
  eapply leads_seq; [apply leads_wordb, Hb|].
  eapply leads_seq; [apply leads_grp_plus; [exact H1 | exact F1 | reflexivity]|].
  lead_chr.
  apply leads_grp_plus; assumption.
Qed.

Lemma suffix_snoc (R : jsstring) (z : N) :
  forall x1 x2,
    R ++ [z] = x1 ++ x2 -> x2 <> [] ->
    exists y, x2 = y ++ [z] /\ R = x1 ++ y.
Proof.
  induction R as [|c R IH]; intros x1 x2 E Hne.
  - destruct x1 as [|d x1]; cbn in E.
    + exists []. split; [symmetry; exact E | reflexivity].
    + injection E as _ E. destruct x1; destruct x2; try discriminate.
      contradiction.
  - destruct x1 as [|d x1]; cbn in E.
    + exists (c :: R). split; [symmetry; exact E | reflexivity].
    + injection E as -> E. destruct (IH x1 x2 E Hne) as (y & -> & ->).
      exists y. split; reflexivity.
Qed.

(** A key-value pair that the pattern reads back whole. *)
Local Abbreviation goodPair :=
  (fun kv : jsstring * jsstring =>
     fst kv <> [] /\ Forall (fun c => is_word c = true) (fst kv)
     /\ snd kv <> [] /\ Forall (fun c => valueChar c = true) (snd kv)).

Lemma metaTail_cons (k v : jsstring) (kvs : JSObject) :
  metaTail ((k, v) :: kvs) = 32%N :: k ++ equals :: v ++ metaTail kvs.
Proof.
  unfold metaTail. cbn [flat_map fst snd].
  rewrite <- !app_assoc. reflexivity.
Qed.

Lemma metaTail_stops (kvs : JSObject) : stops valueChar (metaTail kvs).
Proof.
  destruct kvs as [|[k v] kvs]; [exact I|].
  rewrite metaTail_cons. reflexivity.
Qed.

Lemma keyValue_scan (kvs : JSObject) :
  forall fuel b R,
    length kvs < fuel -> ~ In equals R -> Forall goodPair kvs ->
    map (fun m => (grp 1 m, grp 2 m))
        (scan fuel keyValueRegex b (R ++ metaTail kvs)) = kvs.
Proof.
  induction kvs as [|[k v] kvs IH]; intros fuel b R Hf HR Hk;
    (destruct fuel as [|f]; [cbn in Hf; lia|]); rewrite scan_S.
  - rewrite search_nowhere; [reflexivity|].
    intros x1 x2 E. apply keyValue_needs_eq. cbn [after].
    unfold metaTail in E. cbn [flat_map] in E. rewrite app_nil_r in E.
    exact (@not_in_split _ equals R x1 x2 HR E).
  - inversion Hk as [|? ? (K1 & K2 & V1 & V2) Hk']; subst.
    cbn [fst snd] in K1, K2, V1, V2.
    rewrite metaTail_cons.
    change (R ++ 32%N :: k ++ equals :: v ++ metaTail kvs)
      with (R ++ [32%N] ++ (k ++ equals :: v ++ metaTail kvs)).
    rewrite app_assoc.
    rewrite search_skip.
    2:{ intros x1 x2 E Hne.
        destruct (@suffix_snoc R 32%N x1 x2 E Hne) as (y & -> & ->).
        rewrite <- app_assoc. cbn [app].
        apply keyValue_no_match; [|discriminate|reflexivity].
        intros Hin. apply HR, in_or_app. right. exact Hin. }
    rewrite (@search_leads keyValueRegex _ _ _
               (@keyValue_leads k v (metaTail kvs) (rev (R ++ [32%N]) ++ b)
                  ltac:(rewrite rev_app_distr; cbn [rev app];
                        destruct k as [|c k]; [contradiction|];
                        inversion K2; subst;
                        unfold at_word_boundary; cbn [before after app];
                        match goal with H : is_word c = true |- _ =>
                          rewrite H end; reflexivity)
                  K1 K2 V1 V2 (metaTail_stops kvs))).
    cbn [before after map]. f_equal.
    assert ((length (rev v ++ equals :: rev k ++ rev (R ++ [32%N]) ++ b)
             =? length (rev (R ++ [32%N]) ++ b)) = false) as ->.
    { apply Nat.eqb_neq. rewrite !length_app. cbn [length].
      rewrite !length_app. lia. }
    apply (IH f _ []); [cbn in Hf; lia | intros [] | exact Hk'].
Qed.

Lemma fold_pairs (ms : list (nat * MState)) :
  forall init : JSObject,
    fold_left (fun attrs m => obj_set (grp 1 m) (grp 2 m) attrs) ms init
    = fold_left (fun attrs kv => obj_set (fst kv) (snd kv) attrs)
                (map (fun m => (grp 1 m, grp 2 m)) ms) init.
Proof.
  induction ms as [|m ms IH]; intros init; [reflexivity|].
  cbn [fold_left map fst snd]. apply IH.
Qed.

(** *** An entity text is read back *)

Lemma parseEntity_text (label name : jsstring) (kvs : JSObject) :
  label <> [] -> Forall (fun c => is_word c = true) label ->
  name <> [] -> ~ In dquote name -> ~ In equals name ->
  Forall goodPair kvs -> ~ In dquote (metaTail kvs) ->
  let attrs :=
    fold_left (fun attrs kv => obj_set (fst kv) (snd kv) attrs) kvs [] in
  parseEntity (label ++ colon :: dquote :: name ++ dquote :: metaTail kvs)
  = Some (KGNode.mk (makeNodeId label name) label name
            (obj_get (str "url") attrs) (obj_get (str "page") attrs)
            (match attrs with [] => None | _ => Some attrs end)).
Proof.
  intros H1 F1 H2 Q2 E2 Hk Hq attrs.
  assert (Forall (fun c => not_ch dquote c = true) name) as F2.
  { apply Forall_forall. intros c Hc. unfold not_ch.
    apply negb_true_iff, N.eqb_neq. intros <-. exact (Q2 Hc). }
  destruct (@typeLabel_matches label name (metaTail kvs) H1 F1 H2 F2 Hq)
    as (m & Ex & All & G1 & G2).
  cbv zeta in Ex, All.
  unfold parseEntity. cbv zeta. rewrite Ex, All, G1, G2.
  cbn [fold_left]. rewrite G1, G2, !jsstring_eqb_refl. cbn [andb].
  assert (fold_left (fun attrs m => obj_set (grp 1 m) (grp 2 m) attrs)
            (match_all keyValueRegex
               (label ++ colon :: dquote :: name ++ dquote :: metaTail kvs))
            [] = attrs) as ->.
  { rewrite fold_pairs. unfold match_all. unfold attrs. f_equal.
    change (label ++ colon :: dquote :: name ++ dquote :: metaTail kvs)
      with (label ++ [colon; dquote] ++ name ++ [dquote] ++ metaTail kvs).
    rewrite !app_assoc. rewrite <- !app_assoc.
    rewrite 3!app_assoc.
    apply keyValue_scan; [| |exact Hk].
    - assert (length kvs <= length (metaTail kvs)) as Hl.
      { clear. induction kvs as [|[k v] kvs IH]; [apply Nat.le_refl|].
        rewrite metaTail_cons. cbn [length]. rewrite !length_app.
        cbn [length]. rewrite length_app. lia. }
      rewrite length_app. lia.
    - intros Hin. rewrite !in_app_iff in Hin.
      destruct Hin as [[[Hin|Hin]|Hin]|Hin].
      + rewrite Forall_forall in F1. specialize (F1 _ Hin). discriminate.
      + cbn in Hin. destruct Hin as [Hin|[Hin|[]]]; discriminate.
      + exact (E2 Hin).
      + cbn in Hin. destruct Hin as [Hin|[]]; discriminate. }
  destruct label; [contradiction|]. destruct name; [contradiction|].
  reflexivity.
Qed.

(** *** The text of a node of the service *)

Lemma plainValue_spec (v : jsstring) :
  plainValue v = true ->
  Forall (fun c => valueChar c = true) v
  /\ ~ In dquote v /\ ~ In rparen v.
Proof.
  unfold plainValue. intros H.
  assert (forall c, In c v ->
            is_space c = false /\ c <> rparen /\ c <> dquote) as Hc.
  { intros c Hin. rewrite forallb_forall in H. specialize (H c Hin).
    apply negb_true_iff in H. apply orb_false_iff in H. destruct H as [H H3].
    apply orb_false_iff in H. destruct H as [H1 H2].
    apply N.eqb_neq in H2, H3. auto. }
  split; [|split].
  - apply Forall_forall. intros c Hin. destruct (Hc c Hin) as (A & B & _).
    apply N.eqb_neq in B. rewrite A, B. reflexivity.
  - intros Hin. destruct (Hc _ Hin) as (_ & _ & C). congruence.
  - intros Hin. destruct (Hc _ Hin) as (_ & B & _). congruence.
Qed.

Lemma plainName_spec (s : jsstring) :
  plainName s = true ->
  ~ In dquote s /\ ~ In rparen s /\ ~ In equals s.
Proof.
  unfold plainName. intros H.
  assert (forall c, In c s ->
            c <> dquote /\ c <> rparen /\ c <> equals) as Hc.
  { intros c Hin. rewrite forallb_forall in H. specialize (H c Hin).
    apply negb_true_iff in H. apply orb_false_iff in H. destruct H as [H H3].
    apply orb_false_iff in H. destruct H as [H1 H2].
    apply N.eqb_neq in H1, H2, H3. auto. }
  split; [|split]; intros Hin; destruct (Hc _ Hin) as (A & B & C);
    congruence.
Qed.

Lemma metaTail_free (x : N) (kvs : JSObject) :
  x <> 32%N -> x <> equals ->
  Forall (fun kv => ~ In x (fst kv) /\ ~ In x (snd kv)) kvs ->
  ~ In x (metaTail kvs).
Proof.
  intros H1 H2. induction 1 as [|[k v] kvs [Hk Hv] _ IH]; [intros []|].
  rewrite metaTail_cons. cbn [fst snd] in Hk, Hv.
  intros [Hin|Hin]; [congruence|].
  rewrite in_app_iff in Hin. destruct Hin as [Hin|[Hin|Hin]];
    [tauto|congruence|].
  rewrite in_app_iff in Hin. tauto.
Qed.

(** What [promptable] asks of the attributes. *)
Local Abbreviation cleanPair :=
  (fun kv : jsstring * jsstring =>
     goodPair kv
     /\ (~ In dquote (fst kv) /\ ~ In dquote (snd kv))
     /\ (~ In rparen (fst kv) /\ ~ In rparen (snd kv))).

Lemma attribute_clean (k : jsstring) (o : option jsstring) :
  k <> [] -> forallb is_word k = true ->
  ~ In dquote k -> ~ In rparen k ->
  plainOption o = true ->
  Forall cleanPair
    (match present o with Some v => [(k, v)] | None => [] end).
Proof.
  intros K1 K2 K3 K4 Ho.
  destruct o as [[|c v]|]; cbn [present]; [constructor| |constructor].
  cbn [plainOption] in Ho. destruct (plainValue_spec _ Ho) as (A & B & C).
  constructor; [|constructor]. cbn [fst snd].
  repeat split; try assumption; try discriminate.
  apply forallb_Forall. exact K2.
Qed.

Lemma attrsOfDict_clean (d : Dict.t) :
  plainOption (Dict.url d) = true -> plainOption (Dict.page_id d) = true ->
  Forall cleanPair (attrsOfDict d).
Proof.
  intros Hu Hp. unfold attrsOfDict. apply Forall_app. split.
  - apply attribute_clean; try assumption; try discriminate;
      try reflexivity; cbn; intuition discriminate.
  - apply attribute_clean; try assumption; try discriminate;
      try reflexivity; cbn; intuition discriminate.
Qed.

Lemma attrsOfDict_set (d : Dict.t) :
  fold_left (fun attrs kv => obj_set (fst kv) (snd kv) attrs)
            (attrsOfDict d) [] = attrsOfDict d
  /\ obj_get (str "url") (attrsOfDict d) = present (Dict.url d)
  /\ obj_get (str "page") (attrsOfDict d) = present (Dict.page_id d).
Proof.
  unfold attrsOfDict.
  destruct (present (Dict.url d)) as [u|];
    destruct (present (Dict.page_id d)) as [p|];
    repeat split; reflexivity.
Qed.

Lemma promptable_spec (d : Dict.t) :
  promptable d = true ->
  (firstLabel (Dict.labels d) <> []
   /\ Forall (fun c => is_word c = true) (firstLabel (Dict.labels d)))
  /\ (Dict.name d <> [] /\ plainName (Dict.name d) = true)
  /\ plainOption (Dict.url d) = true
  /\ plainOption (Dict.page_id d) = true.
Proof.
  unfold promptable. intros H.
  repeat (apply andb_true_iff in H; destruct H as [H ?]).
  repeat split; try assumption.
  - destruct (firstLabel (Dict.labels d)); discriminate.
  - apply forallb_Forall. assumption.
  - destruct (Dict.name d); discriminate.
Qed.

Lemma entityText_parsed (d : Dict.t) :
  promptable d = true ->
  parseEntity (entityText d) = Some (nodeOfDict d).
Proof.
  intros H. destruct (promptable_spec _ H) as ((L1 & L2) & (N1 & N2) & U & P).
  destruct (plainName_spec _ N2) as (Q1 & Q2 & Q3).
  pose proof (attrsOfDict_clean _ U P) as Hc.
  destruct (attrsOfDict_set d) as (A1 & A2 & A3).
  unfold entityText.
  rewrite parseEntity_text; try assumption.
  - cbv zeta. rewrite A1, A2, A3. unfold nodeOfDict.
    destruct (attrsOfDict d); reflexivity.
  - revert Hc. apply Forall_impl. intros kv Hkv. apply Hkv.
  - apply metaTail_free; try discriminate.
    revert Hc. apply Forall_impl. intros kv Hkv. apply Hkv.
Qed.

Lemma entityText_closed (d : Dict.t) :
  promptable d = true ->
  entityText d <> []
  /\ Forall (fun c => not_ch rparen c = true) (entityText d).
Proof.
  intros H. destruct (promptable_spec _ H) as ((L1 & L2) & (N1 & N2) & U & P).
  destruct (plainName_spec _ N2) as (Q1 & Q2 & Q3).
  pose proof (attrsOfDict_clean _ U P) as Hc.
  split.
  - unfold entityText. destruct (firstLabel (Dict.labels d));
      [contradiction|discriminate].
  - apply Forall_forall. intros c Hin. unfold not_ch.
    apply negb_true_iff, N.eqb_neq. intros <-.
    unfold entityText in Hin. rewrite in_app_iff in Hin.
    destruct Hin as [Hin|[Hin|[Hin|Hin]]]; try discriminate.
    + rewrite Forall_forall in L2. specialize (L2 _ Hin). discriminate.
    + rewrite in_app_iff in Hin. destruct Hin as [Hin|[Hin|Hin]];
        [tauto|discriminate|].
      revert Hin. apply metaTail_free; try discriminate.
      revert Hc. apply Forall_impl. intros kv Hkv. apply Hkv.
Qed.

End RoundTripFacts.

(** X30. A fact line of the graph service is read back by the fact
    parser: when both nodes are [promptable] and the relation type is
    not empty and holds no closing bracket, [parseBullet] returns the
    two nodes of the line, with their type, name, url, page and id, and
    the trimmed relation type. *)
Theorem fact_line_round_trip
  (sourceIndexToUrl : JSMap.t Z jsstring) (src tgt : Dict.t)
  (rel_type citationStr : jsstring) :
  promptable src = true -> promptable tgt = true ->
  rel_type <> [] -> ~ In rbracket rel_type ->
  exists edgeSources edgeSourceIndices,
    parseBullet sourceIndexToUrl (factLine src rel_type tgt citationStr)
    = Some (nodeOfDict src, nodeOfDict tgt, trim rel_type,
            edgeSources, edgeSourceIndices).
Proof.
  intros Hs Ht Hr Hb.
  destruct (RoundTripFacts.entityText_closed _ Hs) as (S1 & S2).
  destruct (RoundTripFacts.entityText_closed _ Ht) as (T1 & T2).
  assert (Forall (fun c => not_ch rbracket c = true) rel_type) as R2.
  { apply Forall_forall. intros c Hc. unfold not_ch.
    apply negb_true_iff, N.eqb_neq. intros <-. exact (Hb Hc). }
  unfold factLine. rewrite !RoundTripFacts.format_entityText.
  set (e1 := entityText src) in *. set (e2 := entityText tgt) in *.
  assert (exists tail,
            trim ((lparen :: e1 ++ [rparen]) ++ str " -[" ++ rel_type ++
                  str "]-> " ++ (lparen :: e2 ++ [rparen]) ++ str " " ++
                  citationStr)
            = (lparen :: e1 ++ rparen :: 32 :: minus :: lbracket ::
               rel_type ++ rbracket :: minus :: greater :: 32 :: lparen ::
               e2 ++ rparen :: tail)%N) as [tail ->].
  { destruct (@RoundTripFacts.trim_keeps_front
                (e1 ++ rparen :: 32 :: minus :: lbracket :: rel_type ++
                 rbracket :: minus :: greater :: 32 :: lparen :: e2)%N
                (32%N :: citationStr) rparen eq_refl) as [tail E].
    exists tail.
    repeat (progress (rewrite <- ?app_assoc in E; cbn [app] in E)).
    rewrite <- E. f_equal.
    repeat (progress (rewrite <- ?app_assoc; cbn [app])). reflexivity. }
  destruct (@RoundTripFacts.triple_exec e1 rel_type e2 tail S1 S2 Hr R2 T1 T2)
    as (m & Ex & G1 & G2 & G3).
  unfold parseBullet. cbv zeta. rewrite Ex, G1, G2, G3.
  unfold e1, e2.
  rewrite (RoundTripFacts.entityText_parsed _ Hs),
          (RoundTripFacts.entityText_parsed _ Ht).
  eexists _, _. reflexivity.
Qed.

Lemma fact_line_round_trip_witness :
  exists edgeSources edgeSourceIndices,
    parseBullet [(1%Z, str "https://a.com/?q=1")]
      (factLine sample_dict_service (str "MITIGATES") sample_dict_risk
                (str "[1]"))
    = Some (nodeOfDict sample_dict_service, nodeOfDict sample_dict_risk,
            trim (str "MITIGATES"), edgeSources, edgeSourceIndices).
Proof.
  apply (@fact_line_round_trip [(1%Z, str "https://a.com/?q=1")]
           sample_dict_service sample_dict_risk (str "MITIGATES")
           (str "[1]")).
  - reflexivity.
  - reflexivity.
  - discriminate.
  - cbn. intuition discriminate.
Defined.
